(** * The P compiler (pcomp.cc): code generation, symbol table and type promotion

    A shallow embedding of the recursive-descent compiler [PComp] and of the
    pieces of its predecessors [PL0Comp] / [PL0CComp] that it inherits
    (diagnostics, token look-ahead, instruction emission, symbol purge).

    The compiler is a single pass over a token stream that mutates four
    objects: the token stream, the code vector, the symbol table and the
    error counter.  They are threaded here through a state monad.  The
    productions are mutually recursive; the recursion is cut with a fuel
    counter, and undefined behaviour of the C++ (dereferencing a null type
    descriptor or the [end()] iterator) is the result [Crash]. *)

From Stdlib Require Import ZArith List String Ascii Bool Lia PrimFloat Uint63.
Import ListNotations.

Open Scope string_scope.
Open Scope list_scope.
Open Scope Z_scope.

(* ================================================================== *)
(** ** Machine values *)

(** datum.h: a Datum is an integer or a real. *)
Inductive Datum :=
| DInt (i : Z)
| DReal (r : float).

Definition Datum_eqb (a b : Datum) : bool :=
  match a, b with
  | DInt x, DInt y => Z.eqb x y
  | DReal x, DReal y => PrimFloat.eqb x y
  | _, _ => false
  end.

(** The bounds of the C++ [int], the type of [SubRange]'s members. *)
Definition INT_MIN : Z := - 2 ^ 31.
Definition INT_MAX : Z := 2 ^ 31 - 1.

(** Conversion of an integer to [int8_t], the type of [Instr::level]. *)
Definition wrap8 (z : Z) : Z := (z + 128) mod 256 - 128.

(* ================================================================== *)
(** ** instr.h *)

Module Frame.
Definition FrameBase : Z := 0.
Definition FrameOldFp : Z := 1.
Definition FrameRetAddr : Z := 2.
Definition FrameRetVal : Z := 3.
Definition FrameSize : Z := 4.
End Frame.

Module OpCode.
(** [enum class OpCode].  pcomp.cc spells four of them [NEQ], [OR], [AND]
    and [NOT]; they are [NEQU], [LOR], [LAND] and [LNOT] here, as in
    instr.h. *)
Inductive t :=
| NEG | ITOR | ITOR2 | ROUND | TRUNC | ABS | ATAN | EXP | LOG
| DUP | ODD | PRED | SUCC
| SIN | SQR | SQRT
| WRITE | WRITELN | NEW | DISPOSE
| ADD | SUB | MUL | DIV | REM
| LT | LTE | EQU | GTE | GT | NEQU
| LOR | LAND | LNOT
| POP | PUSH | PUSHVAR | EVAL | ASSIGN | COPY
| CALL | ENTER | RET | RETF | JUMP | JNEQ
| LLIMIT | ULIMIT
| HALT.

Definition eqb (a b : t) : bool :=
  match a, b with
  | NEG, NEG | ITOR, ITOR | ITOR2, ITOR2 | ROUND, ROUND | TRUNC, TRUNC
  | ABS, ABS | ATAN, ATAN | EXP, EXP | LOG, LOG | DUP, DUP | ODD, ODD
  | PRED, PRED | SUCC, SUCC | SIN, SIN | SQR, SQR | SQRT, SQRT
  | WRITE, WRITE | WRITELN, WRITELN | NEW, NEW | DISPOSE, DISPOSE
  | ADD, ADD | SUB, SUB | MUL, MUL | DIV, DIV | REM, REM
  | LT, LT | LTE, LTE | EQU, EQU | GTE, GTE | GT, GT | NEQU, NEQU
  | LOR, LOR | LAND, LAND | LNOT, LNOT
  | POP, POP | PUSH, PUSH | PUSHVAR, PUSHVAR | EVAL, EVAL
  | ASSIGN, ASSIGN | COPY, COPY
  | CALL, CALL | ENTER, ENTER | RET, RET | RETF, RETF | JUMP, JUMP
  | JNEQ, JNEQ | LLIMIT, LLIMIT | ULIMIT, ULIMIT | HALT, HALT => true
  | _, _ => false
  end.
End OpCode.

(** [struct Instr]: the constructor converts the level to [int8_t]. *)
Record Instr := mkInstr {
  op : OpCode.t;
  ilevel : Z;
  addr : Datum
}.

Definition InstrVector := list Instr.

Definition newInstr (o : OpCode.t) (l : Z) (d : Datum) : Instr :=
  mkInstr o (wrap8 l) d.

Definition set_addr (d : Datum) (i : Instr) : Instr :=
  mkInstr (op i) (ilevel i) d.

(* ================================================================== *)
(** ** Tokens *)

Module Token.
(** The token kinds pcomp.cc asks for, and the end of the stream. *)
Inductive Kind :=
| Unknown | EOS
| Identifier | IntegerNum | RealNum | String
| OpenParen | CloseParen | OpenBrkt | CloseBrkt
| Comma | Period | Colon | SemiColon | Caret | Ellipsis | Assign
| Add | Subtract | Multiply | Divide | Mod | Or | And | Not
| LT | LTE | EQU | GTE | GT | NEQ
| Round | Trunc | Abs | Atan | Exp | Log | Odd | Pred | Sin | Sqr | Sqrt
| Succ | Ord
| ProgDecl | ConsDecl | TypeDecl | VarDecl | ProcDecl | FuncDecl
| Begin | End | If | Then | Else | While | Do | Repeat | Until
| For | To | DownTo
| Write | Writeln | New | Dispose
| Array | Of | Record
| IntType | RealType | BoolType | CharType.

Scheme Equality for Kind.
Definition eqb := Kind_beq.

Record t := mk {
  kind : Kind;
  string_value : string;
  integer_value : Z;
  real_value : float
}.

Definition ofKind (k : Kind) : t := mk k "" 0 0%float.
Definition ident (s : string) : t := mk Identifier s 0 0%float.
Definition int (n : Z) : t := mk IntegerNum "" n 0%float.
Definition real (r : float) : t := mk RealNum "" 0 r.
Definition str (s : string) : t := mk String s 0 0%float.
End Token.

(* ================================================================== *)
(** ** Type descriptors *)

(** type.h, [class SubRange]. *)
Record SubRange := mkSubRange {
  minimum : Z;
  maximum : Z
}.

Definition SubRange_eqb (a b : SubRange) : bool :=
  Z.eqb (minimum a) (minimum b) && Z.eqb (maximum a) (maximum b).

(** Modelled from the spec: [SubRange::span], the number of values of the
    range (its body is not among the sources). *)
Definition span (r : SubRange) : Z := maximum r - minimum r + 1.

(** A [TDescPtr] is a shared pointer: descriptors live in a store and are
    named by their index there; [None] is the null pointer. *)
Definition TDescPtr := option nat.

Definition TDescPtr_eqb (a b : TDescPtr) : bool :=
  match a, b with
  | None, None => true
  | Some x, Some y => Nat.eqb x y
  | _, _ => false
  end.

Module TypeDesc.
(** The record [SubRange] above; one of the kinds below has its name. *)
Definition Range : Type := SubRange.

Inductive Kind :=
| Integer | Real | Boolean | Character | Array | Record | Enumeration
| Pointer | SubRange.

Scheme Equality for Kind.
Definition eqb := Kind_beq.

Record t := mk {
  tclass : Kind;
  size : Z;
  range : Range;
  itype : TDescPtr;
  base : TDescPtr;
  fields : list (string * TDescPtr)
}.

(** Modelled from the spec: [TypeDesc::isOrdinal] (types.cc is not among
    the sources): "isOrdinal <=> kind in {Integer, Boolean, Character,
    Enumeration, SubRange}". *)
Definition isOrdinal (d : t) : bool :=
  match tclass d with
  | Integer | Boolean | Character | Enumeration | SubRange => true
  | _ => false
  end.

(** Modelled from the spec: [TypeDesc::maxRange], the whole range of the
    machine integer. *)
Definition maxRange : Range := mkSubRange INT_MIN INT_MAX.

(** Modelled from the spec: the descriptor factories.  A scalar and a
    pointer have size 1; the index and base types are optional. *)
Definition newIntDesc (r : Range) : t := mk Integer 1 r None None [].
Definition newEnumDesc (r : Range) : t :=
  mk Enumeration 1 r None None [].
Definition newPointerDesc (b : TDescPtr) : t :=
  mk Pointer 1 (mkSubRange 0 0) None b [].
Definition newArrayDesc (sz : Z) (r : Range) (it b : TDescPtr) : t :=
  mk Array sz r it b [].
Definition newRcrdDesc (sz : Z) (fs : list (string * TDescPtr)) : t :=
  mk Record sz (mkSubRange 0 0) None None fs.

Definition set_size (n : Z) (d : t) : t :=
  mk (tclass d) n (range d) (itype d) (base d) (fields d).
Definition set_base (b : TDescPtr) (d : t) : t :=
  mk (tclass d) (size d) (range d) (itype d) b (fields d).
Definition set_fields (fs : list (string * TDescPtr)) (d : t) : t :=
  mk (tclass d) (size d) (range d) (itype d) (base d) fs.

(** The four shared static descriptors sit at the bottom of the store. *)
Definition intDesc : TDescPtr := Some 0%nat.
Definition realDesc : TDescPtr := Some 1%nat.
Definition boolDesc : TDescPtr := Some 2%nat.
Definition charDesc : TDescPtr := Some 3%nat.

(** Modelled from the spec: the contents of the static descriptors.  The
    spec fixes their kinds and sizes and that Integer has the maximal
    range; Boolean is 0..1 and Character 0..127. *)
Definition statics : list t :=
  [ newIntDesc maxRange;
    mk Real 1 (mkSubRange 0 0) None None [];
    mk Boolean 1 (mkSubRange 0 1) None None [];
    mk Character 1 (mkSubRange 0 127) None None [] ].
End TypeDesc.

(* ================================================================== *)
(** ** The symbol table *)

Module SymValue.
(** [Variable_] and [Type_] are [SymValue::Variable] and
    [SymValue::Type]. *)
Inductive Kind := Constant | Variable_ | Type_ | Procedure | Function.

Scheme Equality for Kind.
Definition eqb := Kind_beq.

Record t := mk {
  kind : Kind;
  level : Z;
  value : Datum;
  type : TDescPtr;
  params : list TDescPtr
}.

(** Modelled from the spec: the four factories of symbol values
    (symbol.cc is not among the sources). *)
Definition makeConst (lvl : Z) (v : Datum) (ty : TDescPtr) : t :=
  mk Constant lvl v ty [].
Definition makeVar (lvl : Z) (dx : Z) (ty : TDescPtr) : t :=
  mk Variable_ lvl (DInt dx) ty [].
Definition makeType (lvl : Z) (ty : TDescPtr) : t :=
  mk Type_ lvl (DInt 0) ty [].
Definition makeSbr (k : Kind) (lvl : Z) : t :=
  mk k lvl (DInt 0) None [].

Definition set_value (v : Datum) (x : t) : t :=
  mk (kind x) (level x) v (type x) (params x).
Definition set_type (ty : TDescPtr) (x : t) : t :=
  mk (kind x) (level x) (value x) ty (params x).
Definition push_param (ty : TDescPtr) (x : t) : t :=
  mk (kind x) (level x) (value x) (type x) (params x ++ [ty]).
End SymValue.

(** An element of the [std::multimap<string, SymValue>].  The compiler
    keeps iterators and references to elements across insertions and
    updates the element through them, so every element carries the
    identity [eid] it was created with. *)
Record Entry := mkEntry {
  eid : nat;
  ename : string;
  esym : SymValue.t
}.

(** The table, in insertion order: the order a multimap keeps among the
    elements of equal key.  Nothing in the compiler looks at the order of
    elements of different keys. *)
Definition SymbolTable := list Entry.

(** A [SymbolTable::iterator]; [None] is [end()]. *)
Definition Iter := option nat.

Definition equal_range (name : string) (tbl : SymbolTable) : list Entry :=
  filter (fun e => String.eqb (ename e) name) tbl.

Definition find_entry (i : nat) (tbl : SymbolTable) : option Entry :=
  find (fun e => Nat.eqb (eid e) i) tbl.

Definition update_entry (i : nat) (f : SymValue.t -> SymValue.t)
  (tbl : SymbolTable) : SymbolTable :=
  map (fun e => if Nat.eqb (eid e) i then mkEntry (eid e) (ename e) (f (esym e))
                else e) tbl.

(** pl0com.cc, the loop that ends [PL0Comp::block] (and [PL0CComp::block]);
    pcomp.cc calls it [purge(level)]:
<<
    for (auto i = symtbl.begin(); i != symtbl.end(); )
        if (i->second.level == level) i = symtbl.erase(i); else ++i;
>> *)
Fixpoint purge_table (level : Z) (tbl : SymbolTable) : SymbolTable :=
  match tbl with
  | [] => []
  | e :: rest =>
      if Z.eqb (SymValue.level (esym e)) level
      then purge_table level rest
      else e :: purge_table level rest
  end.

(** pl0ccomp.cc, [PL0CComp::identifier]: the search for the closest
    declaration among the elements of one name,
<<
    auto closest = range.first;
    for (auto it = range.first; it != range.second; ++it)
        if (it->second.level > closest->second.level) closest = it;
>> *)
Fixpoint closest (c : Entry) (r : list Entry) : Entry :=
  match r with
  | [] => c
  | e :: r' =>
      closest (if Z.gtb (SymValue.level (esym e)) (SymValue.level (esym c))
               then e else c) r'
  end.

Definition closest_in (r : list Entry) : option Entry :=
  match r with
  | [] => None
  | e :: _ => Some (closest e r)
  end.

(* ================================================================== *)
(** ** Diagnostics *)

(** What is streamed into a diagnostic: [oss << "text" << current()]. *)
Inductive Piece :=
| PStr (s : string)
| PKind (k : Token.Kind)
| PTClass (c : TypeDesc.Kind)
| PNum (n : Z)
| PDatum (d : Datum).

Definition Message := list Piece.

(* ================================================================== *)
(** ** The compiler's state *)

Record Comp := mkComp {
  cur : Token.t;                 (* ts.current() *)
  input : list Token.t;          (* what the token stream still holds *)
  code : InstrVector;            (* the code vector *)
  symtbl : SymbolTable;
  nextId : nat;                  (* identity of the next table element *)
  types : list TypeDesc.t;       (* the type descriptors allocated so far *)
  nErrors : nat;
  diags : list Message           (* what was written on the error stream *)
}.

Definition set_cur (t : Token.t) (i : list Token.t) (s : Comp) : Comp :=
  mkComp t i (code s) (symtbl s) (nextId s) (types s) (nErrors s) (diags s).
Definition set_code (c : InstrVector) (s : Comp) : Comp :=
  mkComp (cur s) (input s) c (symtbl s) (nextId s) (types s) (nErrors s)
         (diags s).
Definition set_symtbl (t : SymbolTable) (n : nat) (s : Comp) : Comp :=
  mkComp (cur s) (input s) (code s) t n (types s) (nErrors s) (diags s).
Definition set_types (t : list TypeDesc.t) (s : Comp) : Comp :=
  mkComp (cur s) (input s) (code s) (symtbl s) (nextId s) t (nErrors s)
         (diags s).
Definition add_error (m : Message) (s : Comp) : Comp :=
  mkComp (cur s) (input s) (code s) (symtbl s) (nextId s) (types s)
         (S (nErrors s)) (diags s ++ [m]).

(* ================================================================== *)
(** ** The monad of the productions *)

Inductive Result (A : Type) :=
| Ok (a : A) (s : Comp)
| Crash
| OutOfFuel.
Arguments Ok {A} a s.
Arguments Crash {A}.
Arguments OutOfFuel {A}.

Definition M (A : Type) := Comp -> Result A.

Definition ret {A} (a : A) : M A := fun s => Ok a s.

Definition bind {A B} (m : M A) (k : A -> M B) : M B :=
  fun s => match m s with
           | Ok a s' => k a s'
           | Crash => Crash
           | OutOfFuel => OutOfFuel
           end.

Definition crash {A} : M A := fun _ => Crash.
Definition outOfFuel {A} : M A := fun _ => OutOfFuel.
Definition get : M Comp := fun s => Ok s s.
Definition modify (f : Comp -> Comp) : M unit := fun s => Ok tt (f s).

Declare Scope comp_scope.
Delimit Scope comp_scope with comp.
Notation "x <- m ;; k" := (bind m (fun x => k))
  (at level 200, m at level 99, k at level 200) : comp_scope.
Notation "m ;; k" := (bind m (fun _ => k))
  (at level 200, k at level 200) : comp_scope.
Notation "'ifM' c 'then' a 'else' b" :=
  (bind c (fun x : bool => if x then a else b))
  (at level 10, c at level 200, a at level 200, b at level 200)
  : comp_scope.
Open Scope comp_scope.

(* ================================================================== *)
(** ** What PComp inherits from its base class

    The base class [Compilier] is not among the sources.  Its members keep
    the bodies they have in its predecessor pl0ccomp.cc, which is; the
    members that appear only in pcomp.cc are modelled from the spec. *)

(** pl0ccomp.cc, [PL0CComp::error(const string&)]: writes the message on
    the error stream and increments the error count. *)
Definition error (m : Message) : M unit := modify (add_error m).

(** pl0ccomp.cc, [PL0CComp::error(const string& s, const string& t)]. *)
Definition error2 (s t : string) : M unit :=
  error [PStr s; PStr " '"; PStr t; PStr "'"].

(** pl0ccomp.cc, [PL0CComp::next]: [ts.get()].  Modelled from the spec: the
    token stream delivers the tokens in order, and the end-of-stream token
    from then on. *)
Definition next : M Token.t :=
  fun s => match input s with
           | [] => let t := Token.ofKind Token.EOS in Ok t (set_cur t [] s)
           | t :: rest => Ok t (set_cur t rest s)
           end.

(** pl0com.h, [current()]: the kind of the current token. *)
Definition current : M Token.Kind := fun s => Ok (Token.kind (cur s)) s.

(** [ts.current()]. *)
Definition ts_current : M Token.t := fun s => Ok (cur s) s.

(** pl0ccomp.cc, [PL0CComp::accept]. *)
Definition accept (k : Token.Kind) (get : bool) : M bool :=
  c <- current ;;
  if Token.eqb c k
  then (if get then next ;; ret true else ret true)
  else ret false.

(** pl0ccomp.cc, [PL0CComp::expect]. *)
Definition expect (k : Token.Kind) (get : bool) : M bool :=
  ifM accept k get then ret true
  else c <- current ;;
       error [PStr "expected"; PStr " '"; PKind k; PStr "' got '"; PKind c;
              PStr "'"] ;;
       ret false.

(** Modelled from the spec: [Compilier::oneOf], whether the current token
    is one of a set of kinds. *)
Definition oneOf (ks : list Token.Kind) : M bool :=
  c <- current ;; ret (existsb (Token.eqb c) ks).

(** pl0ccomp.cc, [PL0CComp::emit]: appends the instruction and returns its
    address. *)
Definition emit (o : OpCode.t) (level : Z) (a : Datum) : M nat :=
  fun s => Ok (List.length (code s)) (set_code (code s ++ [newInstr o level a]) s).

(** [emit(op)]: the level and the address default to zero. *)
Definition emit0 (o : OpCode.t) : M nat := emit o 0 (DInt 0).

(** The patch [code[pc].addr = a]; an index past the end is undefined. *)
Fixpoint patch_at (pc : nat) (a : Datum) (c : InstrVector)
  : option InstrVector :=
  match c, pc with
  | [], _ => None
  | i :: c', O => Some (set_addr a i :: c')
  | i :: c', S n =>
      match patch_at n a c' with
      | Some r => Some (i :: r)
      | None => None
      end
  end.

Definition patch (pc : nat) (a : Datum) : M unit :=
  fun s => match patch_at pc a (code s) with
           | Some c => Ok tt (set_code c s)
           | None => Crash
           end.

(** [code->size()]. *)
Definition code_size : M nat := fun s => Ok (List.length (code s)) s.

(** [symtbl.insert({name, value})]: returns the iterator to the new
    element. *)
Definition insert (name : string) (v : SymValue.t) : M nat :=
  fun s => Ok (nextId s)
              (set_symtbl (symtbl s ++ [mkEntry (nextId s) name v])
                          (S (nextId s)) s).

(** [it->first] and [it->second]; [end()] cannot be dereferenced. *)
Definition entryOf (it : Iter) : M Entry :=
  fun s => match it with
           | None => Crash
           | Some i => match find_entry i (symtbl s) with
                       | Some e => Ok e s
                       | None => Crash
                       end
           end.

Definition symOf (it : Iter) : M SymValue.t :=
  e <- entryOf it ;; ret (esym e).

(** An update of the element an iterator or a reference points to. *)
Definition updSym (i : nat) (f : SymValue.t -> SymValue.t) : M unit :=
  entryOf (Some i) ;;
  modify (fun s => set_symtbl (update_entry i f (symtbl s)) (nextId s) s).

(** Modelled from the spec: [Compilier::lookup], "returns the shadowing
    entry (highest level); end() iff unresolved", with the search of
    [PL0CComp::identifier] and its diagnostic for an undefined name. *)
Definition lookup (id : string) : M Iter :=
  s <- get ;;
  match closest_in (equal_range id (symtbl s)) with
  | None => error2 "Undefined identifier" id ;; ret None
  | Some e => ret (Some (eid e))
  end.

(** [purge(level)]: see [purge_table]. *)
Definition purge (level : Z) : M unit :=
  modify (fun s => set_symtbl (purge_table level (symtbl s)) (nextId s) s).

(** Modelled from the spec: [Compilier::nameDecl], which consumes the
    identifier being declared and reports a redefinition "if a prior entry
    exists at the same level".  The name of a record field is returned
    behind the prefix and a ['.'], which [fieldList] strips again. *)
Definition decorate (prefix id : string) : string :=
  match prefix with
  | EmptyString => id
  | _ => String.append prefix (String.append "." id)
  end.

Definition nameDecl (level : Z) (prefix : string) : M string :=
  t <- ts_current ;;
  let id := decorate prefix (Token.string_value t) in
  b <- expect Token.Identifier true ;;
  s <- get ;;
  (if b && existsb (fun e => Z.eqb (SymValue.level (esym e)) level)
                   (equal_range id (symtbl s))
   then error2 "previously was defined" id
   else ret tt) ;;
  ret id.

(** Modelled from the spec: [Compilier::emitVarRef], "emits
    PushVar(level - symLevel, offset) for the base variable".  pcomp.cc
    numbers the locals 0, 1, ... from the end of the activation frame and
    the parameters -n, ..., -1 from its start; the spec has the locals "at
    positive offsets >= 4 (after the fixed frame prefix)". *)
Definition frameOffset (v : Datum) : Datum :=
  match v with
  | DInt dx => if dx >=? 0 then DInt (dx + Frame.FrameSize) else DInt dx
  | DReal _ => v
  end.

Definition emitVarRef (level : Z) (v : SymValue.t) : M nat :=
  emit OpCode.PUSHVAR (level - SymValue.level v)
       (frameOffset (SymValue.value v)).

(** [p->...]: the descriptor a pointer refers to. *)
Definition deref (p : TDescPtr) : M TypeDesc.t :=
  fun s => match p with
           | None => Crash
           | Some i => match nth_error (types s) i with
                       | Some d => Ok d s
                       | None => Crash
                       end
           end.

(** [TypeDesc::newXDesc(...)]: a new shared descriptor. *)
Definition newDesc (d : TypeDesc.t) : M TDescPtr :=
  fun s => Ok (Some (List.length (types s))) (set_types (types s ++ [d]) s).

Fixpoint update_nth {A} (n : nat) (f : A -> A) (l : list A) : list A :=
  match l, n with
  | [], _ => []
  | x :: l', O => f x :: l'
  | x :: l', S n' => x :: update_nth n' f l'
  end.

(** [p->size(n)], [p->base(b)], [p->fields(fs)]: an update of the shared
    descriptor, seen through every pointer to it. *)
Definition updDesc (p : TDescPtr) (f : TypeDesc.t -> TypeDesc.t) : M unit :=
  deref p ;;
  match p with
  | Some i => modify (fun s => set_types (update_nth i f (types s)) s)
  | None => crash
  end.

(* ================================================================== *)
(** ** Arithmetic of the C++ types *)

(** Conversion to [unsigned] and to [int] (32 bits). *)
Definition u32 (z : Z) : Z := z mod 2 ^ 32.
Definition s32 (z : Z) : Z := (z + 2 ^ 31) mod 2 ^ 32 - 2 ^ 31.

(** [Datum(c)] of a plain [char], which is signed: a byte from 128 on is
    the negative number of the same eight bits (233 is -23). *)
Definition Datum_of_char (c : ascii) : Datum :=
  DInt (wrap8 (Z.of_N (N_of_ascii c))).

(** The real [sign * x] of [constExpr], where [sign] is the [int] 1 or -1. *)
Definition sign_real (sign : Z) (x : float) : float :=
  PrimFloat.mul (if sign <? 0 then (-1)%float else 1%float) x.

(** Modelled from the spec: [int * Datum] and [Datum < Datum] of datum.h,
    "operations preserve or promote kinds". *)
Definition Datum_scale (sign : Z) (d : Datum) : Datum :=
  match d with
  | DInt i => DInt (s32 (sign * i))
  | DReal r => DReal (sign_real sign r)
  end.

Definition Datum_real (d : Datum) : float :=
  match d with
  | DInt i => if i <? 0 then PrimFloat.opp (PrimFloat.of_uint63 (Uint63.of_Z (- i)))
              else PrimFloat.of_uint63 (Uint63.of_Z i)
  | DReal r => r
  end.

Definition Datum_ltb (a b : Datum) : bool :=
  match a, b with
  | DInt x, DInt y => x <? y
  | _, _ => PrimFloat.ltb (Datum_real a) (Datum_real b)
  end.

Definition Datum_isInteger (d : Datum) : bool :=
  match d with DInt _ => true | DReal _ => false end.

(** The part of a field name after its first ['.'], the whole name when it
    has none: [n = name.find('.'); name.erase(0, n+1)]. *)
Fixpoint after_dot (s : string) : option string :=
  match s with
  | EmptyString => None
  | String c rest => if Ascii.eqb c "."%char then Some rest else after_dot rest
  end.

Definition trim_prefix (s : string) : string :=
  match after_dot s with Some r => r | None => s end.

(* ================================================================== *)
(** ** pcomp.cc: type promotion *)

Definition isAnInteger (d : TypeDesc.t) : bool :=
  TypeDesc.eqb (TypeDesc.tclass d) TypeDesc.Integer.

Definition isAReal (d : TypeDesc.t) : bool :=
  TypeDesc.eqb (TypeDesc.tclass d) TypeDesc.Real.

(** [PComp::promote]. *)
Definition promote (lhs rhs : TDescPtr) : M TDescPtr :=
  l <- deref lhs ;;
  r <- deref rhs ;;
  if TypeDesc.eqb (TypeDesc.tclass l) (TypeDesc.tclass r) then
    ret lhs                              (* nothing to do *)
  else if (isAnInteger l && isAnInteger r) || (isAReal l && isAReal r) then
    ret lhs                              (* nothing to do, again *)
  else if isAnInteger l && isAReal r then
    emit0 OpCode.ITOR2 ;;                (* promote lhs (TOS-1) to a real *)
    ret rhs
  else if isAReal l && isAnInteger r then
    emit0 OpCode.ITOR ;;                 (* promote rhs to a real *)
    ret lhs
  else
    error [PStr "incompatable binary types"] ;;
    ret lhs.

(** [PComp::assignPromote]. *)
Definition assignPromote (lhs rhs : TDescPtr) : M unit :=
  l <- deref lhs ;;
  r <- deref rhs ;;
  (if TypeDesc.eqb (TypeDesc.tclass l) (TypeDesc.tclass r) then
     ret tt
   else if (isAnInteger l && isAnInteger r) || (isAReal l && isAReal r) then
     ret tt
   else if isAnInteger l && isAReal r then
     error [PStr "rounding real to fit in an integer"] ;;
     emit0 OpCode.ROUND ;;               (* promote rhs to a integer *)
     ret tt
   else if isAReal l && isAnInteger r then
     emit0 OpCode.ITOR ;;                (* promote rhs to a real *)
     ret tt
   else
     error [PStr "incompatable assignment types"]) ;;
  (* Emit limit checks, unless range is impossible to exceed *)
  if TypeDesc.isOrdinal l
     && negb (SubRange_eqb (TypeDesc.range l) TypeDesc.maxRange) then
    emit OpCode.LLIMIT 0 (DInt (minimum (TypeDesc.range l))) ;;
    emit OpCode.ULIMIT 0 (DInt (maximum (TypeDesc.range l))) ;;
    ret tt
  else ret tt.

(* ================================================================== *)
(** ** pcomp.cc: the productions

    The productions that are entered again from below (an expression inside
    a factor, a statement inside a statement, a type inside a type, a block
    inside a block) are reached through [rec], which holds them with one
    unit of fuel less; the loops of a production run at most [fuel]
    times. *)

Record Rec := mkRec {
  r_expression : Z -> M TDescPtr;
  r_factor : Z -> M TDescPtr;
  r_statement : Z -> M unit;
  r_type : Z -> string -> M TDescPtr;
  r_blockDecl : nat -> Z -> M nat
}.

Section Productions.

Variable rec : Rec.
Variable fuel : nat.

(** [PComp::expressionList]: [do v.push_back(expression(level)); while
    (accept(Token::Comma))]. *)
Fixpoint expressionList_loop (n : nat) (level : Z) (v : list TDescPtr)
  : M (list TDescPtr) :=
  match n with
  | O => outOfFuel
  | S n' =>
      t <- r_expression rec level ;;
      ifM accept Token.Comma true
      then expressionList_loop n' level (v ++ [t])
      else ret (v ++ [t])
  end.

Definition expressionList (level : Z) : M (list TDescPtr) :=
  expressionList_loop fuel level [].

(** [PComp::callStatement], the loop that collects the actual
    parameters. *)
Fixpoint callStatement_actuals (n : nat) (level : Z) (it : Iter)
  (nParams : nat) : M nat :=
  match n with
  | O => outOfFuel
  | S n' =>
      kind <- r_expression rec level ;;
      v <- symOf it ;;
      (if (nParams <? List.length (SymValue.params v))%nat
       then assignPromote (nth nParams (SymValue.params v) None) kind
       else ret tt) ;;
      ifM accept Token.Comma true
      then callStatement_actuals n' level it (S nParams)
      else ret (S nParams)
  end.

(** [PComp::callStatement]. *)
Definition callStatement (level : Z) (it : Iter) : M unit :=
  (ifM accept Token.OpenParen true then
     nParams <- (ifM accept Token.CloseParen false then ret O
                 else callStatement_actuals fuel level it O) ;;
     expect Token.CloseParen true ;;
     v <- symOf it ;;
     (* Is the caller passing right # of params? *)
     if negb (nParams =? List.length (SymValue.params v))%nat then
       error [PStr "passing "; PNum (Z.of_nat nParams);
              PStr " parameters, where ";
              PNum (Z.of_nat (List.length (SymValue.params v)));
              PStr " expected"]
     else ret tt
   else ret tt) ;;
  e <- entryOf it ;;
  let v := esym e in
  (if negb (SymValue.eqb SymValue.Procedure (SymValue.kind v))
      && negb (SymValue.eqb SymValue.Function (SymValue.kind v))
   then error2 "Identifier is not a function or procedure" (ename e)
   else ret tt) ;;
  emit OpCode.CALL (level - SymValue.level v) (SymValue.value v) ;;
  ret tt.

(** [PComp::varArray], the loop over the indexes. *)
Fixpoint varArray_indexes (indexes : list TDescPtr) (nindexes : nat)
  (atype type : TDescPtr) : M TDescPtr :=
  match indexes with
  | [] => ret type
  | index :: rest =>
      a <- deref atype ;;
      emit OpCode.LLIMIT 0 (DInt (minimum (TypeDesc.range a))) ;;
      emit OpCode.ULIMIT 0 (DInt (maximum (TypeDesc.range a))) ;;
      ai <- deref (TypeDesc.itype a) ;;
      ix <- deref index ;;
      (if negb (TypeDesc.eqb (TypeDesc.tclass ai) (TypeDesc.tclass ix)) then
         error [PStr "incompatable array index type, expected ";
                PTClass (TypeDesc.tclass ai); PStr " got ";
                PTClass (TypeDesc.tclass ix)]
       else
         t <- deref type ;;
         if negb (TypeDesc.size t =? 1) then   (* scale the index *)
           emit OpCode.PUSH 0 (DInt (TypeDesc.size t)) ;;
           emit0 OpCode.MUL ;;
           ret tt
         else ret tt) ;;
      (* offset index for non-zero based arrays *)
      (if negb (minimum (TypeDesc.range a) =? 0) then
         emit OpCode.PUSH 0 (DInt (minimum (TypeDesc.range a))) ;;
         emit0 OpCode.SUB ;;
         ret tt
       else ret tt) ;;
      emit0 OpCode.ADD ;;                      (* index into the array *)
      if negb (Nat.eqb (Nat.pred nindexes) O) then   (* if (--nindexes) *)
        t <- deref type ;;
        varArray_indexes rest (Nat.pred nindexes) type (TypeDesc.base t)
      else
        varArray_indexes rest (Nat.pred nindexes) atype type
  end.

(** [PComp::varArray]. *)
Definition varArray (level : Z) (it : Iter) (type : TDescPtr) : M TDescPtr :=
  a <- deref type ;;
  (if negb (TypeDesc.eqb (TypeDesc.tclass a) TypeDesc.Array) then
     e <- entryOf it ;;
     error2 "attempt to index into non-array" (ename e)
   else ret tt) ;;
  indexes <- expressionList level ;;
  (match indexes with
   | [] => error [PStr "expected expression-list"]
   | _ => ret tt
   end) ;;
  varArray_indexes indexes (List.length indexes) type (TypeDesc.base a).

(** [PComp::varSelector], the loop over the fields of the record. *)
Fixpoint varSelector_fields (selector : string)
  (flds : list (string * TDescPtr)) (type : TDescPtr) (offset : Z)
  : M (TDescPtr * Z) :=
  match flds with
  | [] => ret (type, offset)
  | (name, ty) :: rest =>
      if String.eqb name selector then ret (ty, offset)
      else
        d <- deref ty ;;
        varSelector_fields selector rest type (u32 (offset + TypeDesc.size d))
  end.

(** [PComp::varSelector]. *)
Definition varSelector (it : Iter) (type : TDescPtr) : M TDescPtr :=
  t <- deref type ;;
  (if negb (TypeDesc.eqb (TypeDesc.tclass t) TypeDesc.Record) then
     e <- entryOf it ;;
     error2 "attempted selector reference into non-record" (ename e)
   else ret tt) ;;
  tok <- ts_current ;;
  ifM expect Token.Identifier true then
    r <- varSelector_fields (Token.string_value tok) (TypeDesc.fields t)
                            type 0 ;;
    (if snd r >? 0 then                 (* Don't bother if it's the 1st field *)
       emit OpCode.PUSH 0 (DInt (snd r)) ;;
       emit0 OpCode.ADD ;;
       ret tt
     else ret tt) ;;
    ret (fst r)
  else ret type.

(** [PComp::variable], the loop over the composite descriptors. *)
Fixpoint variable_loop (n : nat) (level : Z) (it : Iter) (type : TDescPtr)
  : M TDescPtr :=
  match n with
  | O => outOfFuel
  | S n' =>
      ifM accept Token.OpenBrkt true then
        type' <- varArray level it type ;;
        expect Token.CloseBrkt true ;;
        variable_loop n' level it type'
      else ifM accept Token.Period true then
        type' <- varSelector it type ;;
        variable_loop n' level it type'
      else ifM accept Token.Caret true then
        t <- deref type ;;
        emit OpCode.EVAL 0 (DInt (TypeDesc.size t)) ;;
        if negb (TypeDesc.eqb (TypeDesc.tclass t) TypeDesc.Pointer) then
          error [PStr "expected a pointer, got "; PTClass (TypeDesc.tclass t)] ;;
          variable_loop n' level it type
        else
          variable_loop n' level it (TypeDesc.base t)
      else ret type
  end.

(** [PComp::variable]. *)
Definition variable (level : Z) (it : Iter) : M TDescPtr :=
  v <- symOf it ;;
  emitVarRef level v ;;
  variable_loop fuel level it (SymValue.type v).

(** [PComp::identFactor]. *)
Definition identFactor (level : Z) (id : string) : M TDescPtr :=
  it <- lookup id ;;
  match it with
  | None => ret TypeDesc.intDesc
  | Some _ =>
      e <- entryOf it ;;
      let v := esym e in
      match SymValue.kind v with
      | SymValue.Constant =>
          emit OpCode.PUSH 0 (SymValue.value v) ;;
          ret (SymValue.type v)
      | SymValue.Variable_ =>
          type <- variable level it ;;
          t <- deref type ;;
          emit OpCode.EVAL 0 (DInt (TypeDesc.size t)) ;;
          ret type
      | SymValue.Function =>
          callStatement level it ;;
          ret (SymValue.type v)           (* Use the function return type *)
      | _ =>
          error2 "Identifier is not a constant, variable or function"
                 (ename e) ;;
          ret TypeDesc.intDesc
      end
  end.

(** The statements that open every branch of [PComp::builtInFunc]:
    [expect(Token::OpenParen); type = expression(level);
     expect(Token::CloseParen);]. *)
Definition builtInArg (level : Z) : M TDescPtr :=
  expect Token.OpenParen true ;;
  type <- r_expression rec level ;;
  expect Token.CloseParen true ;;
  ret type.

(** The branches of atan, exp, log, sin, sqr and sqrt, which differ in the
    opcode only.  For an argument that is neither Integer nor Real a
    message is streamed into [oss] but never passed to [error]. *)
Definition builtInReal (o : OpCode.t) (level : Z) : M TDescPtr :=
  type <- builtInArg level ;;
  t <- deref type ;;
  emit0 o ;;
  if TypeDesc.eqb (TypeDesc.tclass t) TypeDesc.Integer
  then ret TypeDesc.realDesc               (* Always produces a real *)
  else ret type.

(** The branches of round and trunc. *)
Definition builtInToInt (o : OpCode.t) (level : Z) : M TDescPtr :=
  type <- builtInArg level ;;
  t <- deref type ;;
  if negb (TypeDesc.eqb (TypeDesc.tclass t) TypeDesc.Real) then
    c <- current ;;
    error [PStr "expeced real value, got: "; PKind c] ;;
    ret type
  else
    emit0 o ;;
    ret TypeDesc.intDesc.

(** [PComp::builtInFunc]. *)
Definition builtInFunc (level : Z) : M TDescPtr :=
  ifM accept Token.Round true then builtInToInt OpCode.ROUND level
  else ifM accept Token.Trunc true then builtInToInt OpCode.TRUNC level
  else ifM accept Token.Abs true then
    type <- builtInArg level ;;
    t <- deref type ;;
    (if negb (TypeDesc.eqb (TypeDesc.tclass t) TypeDesc.Integer)
        && negb (TypeDesc.eqb (TypeDesc.tclass t) TypeDesc.Real)
     then ret tt                (* oss << "expeced integer or real value" *)
     else emit0 OpCode.ABS ;; ret tt) ;;
    ret type
  else ifM accept Token.Atan true then builtInReal OpCode.ATAN level
  else ifM accept Token.Exp true then builtInReal OpCode.EXP level
  else ifM accept Token.Log true then builtInReal OpCode.LOG level
  else ifM accept Token.Odd true then
    type <- builtInArg level ;;
    deref type ;;               (* oss << "expeced integer value", unused *)
    emit0 OpCode.ODD ;;
    ret type
  else ifM accept Token.Pred true then
    type <- builtInArg level ;;
    t <- deref type ;;
    (* if (type->isOrdinal()) oss << "expeced ordinal value, got: " ...;
       the stream is not passed to error *)
    emit OpCode.PRED 0 (DInt (minimum (TypeDesc.range t))) ;;
    ret type
  else ifM accept Token.Sin true then builtInReal OpCode.SIN level
  else ifM accept Token.Sqr true then builtInReal OpCode.SQR level
  else ifM accept Token.Sqrt true then builtInReal OpCode.SQRT level
  else ifM accept Token.Succ true then
    type <- builtInArg level ;;
    t <- deref type ;;
    (* if (type->isOrdinal()) oss << "expeced ordinal value, got: " ...;
       the stream is not passed to error *)
    emit OpCode.SUCC 0 (DInt (maximum (TypeDesc.range t))) ;;
    ret type
  else ifM accept Token.Ord true then
    type <- builtInArg level ;;
    t <- deref type ;;
    if negb (TypeDesc.isOrdinal t) then
      c <- current ;;
      error [PStr "expected ordinal, got: "; PKind c] ;;
      ret type
    else ret TypeDesc.intDesc
  else
    c <- current ;;
    error [PStr "bultInFunc: syntax error; expected ident | num | { expr }, got: ";
           PKind c] ;;
    next ;;
    ret TypeDesc.intDesc.

(** [for (char c : s) emit(OpCode::PUSH, 0, c);] *)
Fixpoint pushChars (s : string) : M unit :=
  match s with
  | EmptyString => ret tt
  | String c rest => emit OpCode.PUSH 0 (Datum_of_char c) ;; pushChars rest
  end.

(** [PComp::factor]. *)
Definition factor (level : Z) : M TDescPtr :=
  ifM accept Token.Identifier false then
    tok <- ts_current ;;
    next ;;
    identFactor level (Token.string_value tok)
  else ifM accept Token.IntegerNum false then
    tok <- ts_current ;;
    emit OpCode.PUSH 0 (DInt (Token.integer_value tok)) ;;
    expect Token.IntegerNum true ;;
    ret TypeDesc.intDesc
  else ifM accept Token.RealNum false then
    tok <- ts_current ;;
    emit OpCode.PUSH 0 (DReal (Token.real_value tok)) ;;
    expect Token.RealNum true ;;
    ret TypeDesc.realDesc
  else ifM accept Token.OpenParen true then
    type <- r_expression rec level ;;
    expect Token.CloseParen true ;;
    ret type
  else ifM accept Token.Not true then
    emit0 OpCode.LNOT ;;
    r_factor rec level
  else ifM accept Token.String false then
    tok <- ts_current ;;
    next ;;
    match Token.string_value tok with
    | String c EmptyString =>
        emit OpCode.PUSH 0 (Datum_of_char c) ;;
        ret TypeDesc.charDesc
    | s =>
        pushChars s ;;                      (* push each character... *)
        newDesc (TypeDesc.newArrayDesc
                   (u32 (Z.of_nat (String.length s)))
                   (mkSubRange 0 (s32 (Z.of_nat (String.length s) - 1)))
                   TypeDesc.intDesc TypeDesc.charDesc)
    end
  else
    builtInFunc level.

(** [PComp::term], the loop [for (;;)]. *)
Fixpoint term_loop (n : nat) (level : Z) (lhs : TDescPtr) : M TDescPtr :=
  match n with
  | O => outOfFuel
  | S n' =>
      ifM accept Token.Multiply true then
        rhs <- factor level ;; t <- promote lhs rhs ;;
        emit0 OpCode.MUL ;; term_loop n' level t
      else ifM accept Token.Divide true then
        rhs <- factor level ;; t <- promote lhs rhs ;;
        emit0 OpCode.DIV ;; term_loop n' level t
      else ifM accept Token.Mod true then
        rhs <- factor level ;; t <- promote lhs rhs ;;
        emit0 OpCode.REM ;; term_loop n' level t
      else ifM accept Token.And true then
        rhs <- factor level ;; t <- promote lhs rhs ;;
        emit0 OpCode.LAND ;; term_loop n' level t
      else ret lhs
  end.

(** [PComp::term]. *)
Definition term (level : Z) : M TDescPtr :=
  lhs <- factor level ;;
  term_loop fuel level lhs.

(** [PComp::unary]. *)
Definition unary (level : Z) : M TDescPtr :=
  ifM accept Token.Add true then
    term level                              (* ignore unary + *)
  else ifM accept Token.Subtract true then
    type <- term level ;;
    emit0 OpCode.NEG ;;
    ret type
  else
    term level.

(** [PComp::simpleExpr], the loop [for (;;)]. *)
Fixpoint simpleExpr_loop (n : nat) (level : Z) (lhs : TDescPtr)
  : M TDescPtr :=
  match n with
  | O => outOfFuel
  | S n' =>
      ifM accept Token.Add true then
        rhs <- unary level ;; t <- promote lhs rhs ;;
        emit0 OpCode.ADD ;; simpleExpr_loop n' level t
      else ifM accept Token.Subtract true then
        rhs <- unary level ;; t <- promote lhs rhs ;;
        emit0 OpCode.SUB ;; simpleExpr_loop n' level t
      else ifM accept Token.Or true then
        rhs <- unary level ;; t <- promote lhs rhs ;;
        emit0 OpCode.LOR ;; simpleExpr_loop n' level t
      else ret lhs
  end.

(** [PComp::simpleExpr]. *)
Definition simpleExpr (level : Z) : M TDescPtr :=
  lhs <- unary level ;;
  simpleExpr_loop fuel level lhs.

(** [PComp::expression], the loop [for (;;)]. *)
Fixpoint expression_loop (n : nat) (level : Z) (lhs : TDescPtr)
  : M TDescPtr :=
  match n with
  | O => outOfFuel
  | S n' =>
      ifM accept Token.LTE true then
        rhs <- simpleExpr level ;; t <- promote lhs rhs ;;
        emit0 OpCode.LTE ;; expression_loop n' level t
      else ifM accept Token.LT true then
        rhs <- simpleExpr level ;; t <- promote lhs rhs ;;
        emit0 OpCode.LT ;; expression_loop n' level t
      else ifM accept Token.GT true then
        rhs <- simpleExpr level ;; t <- promote lhs rhs ;;
        emit0 OpCode.GT ;; expression_loop n' level t
      else ifM accept Token.GTE true then
        rhs <- simpleExpr level ;; t <- promote lhs rhs ;;
        emit0 OpCode.GTE ;; expression_loop n' level t
      else ifM accept Token.EQU true then
        rhs <- simpleExpr level ;; t <- promote lhs rhs ;;
        emit0 OpCode.EQU ;; expression_loop n' level t
      else ifM accept Token.NEQ true then
        rhs <- simpleExpr level ;; t <- promote lhs rhs ;;
        emit0 OpCode.NEQU ;; expression_loop n' level t
      else ret lhs
  end.

(** [PComp::expression]. *)
Definition expression (level : Z) : M TDescPtr :=
  lhs <- simpleExpr level ;;
  expression_loop fuel level lhs.

(** [PComp::constExpr]. *)
Definition constExpr : M (bool * Datum) :=
  sign <- (ifM accept Token.Add true then ret 1   (* ignore unary + *)
           else ifM accept Token.Subtract true then ret (-1)
           else ret 1) ;;
  ifM accept Token.IntegerNum false then
    tok <- ts_current ;;
    next ;;                                  (* Consume the number *)
    ret (true, DInt (s32 (sign * Token.integer_value tok)))
  else ifM accept Token.RealNum false then
    tok <- ts_current ;;
    next ;;                                  (* Consume the number *)
    ret (true, DReal (sign_real sign (Token.real_value tok)))
  else ifM accept Token.Identifier false then
    tok <- ts_current ;;
    expect Token.Identifier true ;;
    it <- lookup (Token.string_value tok) ;;
    match it with
    | None => ret (true, DInt 0)
    | Some _ =>
        e <- entryOf it ;;
        if SymValue.eqb (SymValue.kind (esym e)) SymValue.Constant then
          ret (true, Datum_scale sign (SymValue.value (esym e)))
        else
          error2 "Identifier is not a constant, variable or function"
                 (ename e) ;;
          ret (true, DInt 0)
    end
  else ret (false, DInt 0).

(** [PComp::assignStatement]. *)
Definition assignStatement (level : Z) (it : Iter) (dup : bool) : M unit :=
  e <- entryOf it ;;
  let v := esym e in
  (* Emit the l-value, a variable or a function reference... *)
  type <- (if SymValue.eqb (SymValue.kind v) SymValue.Function then
             emit OpCode.PUSHVAR 0 (DInt Frame.FrameRetVal) ;;
             ret (SymValue.type v)
           else if SymValue.eqb (SymValue.kind v) SymValue.Variable_ then
             variable level it
           else
             error2 "expected a variable or a function, got:" (ename e) ;;
             ret (SymValue.type v)) ;;
  (if dup then emit0 OpCode.DUP ;; ret tt else ret tt) ;;
  expect Token.Assign true ;;
  (* Emit the r-value and assignment... *)
  rtype <- expression level ;;
  assignPromote type rtype ;;
  t <- deref type ;;
  emit OpCode.ASSIGN 0 (DInt (TypeDesc.size t)) ;;
  ret tt.

(** [PComp::whileStatement]. *)
Definition whileStatement (level : Z) : M unit :=
  cond_pc <- code_size ;;                    (* Start of while expr *)
  expression level ;;
  jmp_pc <- emit OpCode.JNEQ 0 (DInt 0) ;;   (* jump if expr is false *)
  expect Token.Do true ;;
  r_statement rec level ;;
  emit OpCode.JUMP 0 (DInt (Z.of_nat cond_pc)) ;;
  sz <- code_size ;;
  patch jmp_pc (DInt (Z.of_nat sz)).

(** [PComp::ifStatement]. *)
Definition ifStatement (level : Z) : M unit :=
  expression level ;;
  jmp_pc <- emit OpCode.JNEQ 0 (DInt 0) ;;   (* Jump if conditon is false *)
  expect Token.Then true ;;
  r_statement rec level ;;
  (* Jump over else statement, but only if there is an else *)
  Else <- accept Token.Else true ;;
  else_pc <- (if Else then emit OpCode.JUMP 0 (DInt 0) else ret O) ;;
  sz <- code_size ;;
  patch jmp_pc (DInt (Z.of_nat sz)) ;;
  if Else then
    r_statement rec level ;;
    sz' <- code_size ;;
    patch else_pc (DInt (Z.of_nat sz'))
  else ret tt.

(** [PComp::repeateStatement]. *)
Definition repeateStatement (level : Z) : M unit :=
  loop_pc <- code_size ;;                    (* jump here until expr fails *)
  r_statement rec level ;;
  expect Token.Until true ;;
  expression level ;;
  emit OpCode.JNEQ 0 (DInt (Z.of_nat loop_pc)) ;;
  ret tt.

(** [PComp::forStatement]. *)
Definition forStatement (level : Z) : M unit :=
  expect Token.Identifier false ;;
  tok <- ts_current ;;
  next ;;
  var <- lookup (Token.string_value tok) ;;
  match var with
  | None => ret tt                           (* Unidentified *)
  | Some _ =>
      assignStatement level var true ;;      (*   addr *)
      inc <- (ifM accept Token.To true then ret 1
              else expect Token.DownTo true ;; ret (-1)) ;;
      cond_pc <- code_size ;;                (* Check condition *)
      emit0 OpCode.DUP ;;                    (*   addr, addr *)
      emit OpCode.EVAL 0 (DInt 1) ;;         (*   addr, value *)
      expression level ;;                    (*   addr, value, cond *)
      emit0 OpCode.LTE ;;                    (*   addr, cond? *)
      jmp_pc <- emit OpCode.JNEQ 0 (DInt 0) ;;   (*   addr *)
      expect Token.Do true ;;
      r_statement rec level ;;
      emit0 OpCode.DUP ;;                    (* iterate: addr, addr *)
      emit0 OpCode.DUP ;;                    (*   addr, addr, addr *)
      emit OpCode.EVAL 0 (DInt 1) ;;         (*   addr, addr, value *)
      emit OpCode.PUSH 0 (DInt inc) ;;       (*   addr, addr, value, 1 *)
      emit0 OpCode.ADD ;;                    (*   addr, addr, new_value *)
      emit OpCode.ASSIGN 0 (DInt 1) ;;       (*   addr *)
      emit OpCode.JUMP 0 (DInt (Z.of_nat cond_pc)) ;;
      pop_pc <- emit OpCode.POP 0 (DInt 1) ;;
      patch jmp_pc (DInt (Z.of_nat pop_pc))
  end.

(** [PComp::statementList]: [do statement(level); while
    (accept(Token::SemiColon))]. *)
Fixpoint statementList_loop (n : nat) (level : Z) : M unit :=
  match n with
  | O => outOfFuel
  | S n' =>
      r_statement rec level ;;
      ifM accept Token.SemiColon true
      then statementList_loop n' level
      else ret tt
  end.

Definition statementList (level : Z) : M unit :=
  statementList_loop fuel level.

(** [PComp::identStatement]. *)
Definition identStatement (level : Z) (id : string) : M unit :=
  lhs <- lookup id ;;
  match lhs with
  | None => ret tt                           (* id is unidentified *)
  | Some _ =>
      e <- entryOf lhs ;;
      match SymValue.kind (esym e) with
      | SymValue.Procedure => callStatement level lhs
      | SymValue.Function | SymValue.Variable_ =>
          assignStatement level lhs false
      | SymValue.Constant => error2 "Can't assign to a constant" (ename e)
      | _ =>
          error2 "expected variable, function return ref, or procedure call, got"
                 (ename e)
      end
  end.

(** [PComp::writeStmt], the loop over the expression tuples.  The stream
    [oss] belongs to the whole function, so a later diagnostic repeats the
    earlier ones. *)
Fixpoint writeStmt_loop (n : nat) (level : Z) (oss : Message) (nargs : Z)
  : M Z :=
  match n with
  | O => outOfFuel
  | S n' =>
      expression level ;;                    (* value to write *)
      oss' <-
        (ifM accept Token.Colon true then    (* [ ':' width [ ':' precision ]] *)
           width <- expression level ;;
           w <- deref width ;;
           let oss1 :=
             if negb (TypeDesc.eqb (TypeDesc.tclass w) TypeDesc.Integer)
             then oss ++ [PStr "expeced integer width parameter, got: ";
                          PTClass (TypeDesc.tclass w)]
             else oss in
           (if negb (TypeDesc.eqb (TypeDesc.tclass w) TypeDesc.Integer)
            then error oss1 else ret tt) ;;
           ifM accept Token.Colon true then  (* [ ':' precision ] *)
             prec <- expression level ;;
             p <- deref prec ;;
             if negb (TypeDesc.eqb (TypeDesc.tclass p) TypeDesc.Integer) then
               let oss2 :=
                 oss1 ++ [PStr "expeced integer width parameter, got: ";
                          PTClass (TypeDesc.tclass w)] in
               error oss2 ;; ret oss2
             else ret oss1
           else
             emit OpCode.PUSH 0 (DInt 0) ;;  (* push default precision *)
             ret oss1
         else                                (* push default width & precision *)
           emit OpCode.PUSH 0 (DInt 0) ;;
           emit OpCode.PUSH 0 (DInt 0) ;;
           ret oss) ;;
      ifM accept Token.Comma true
      then writeStmt_loop n' level oss' (u32 (nargs + 1))
      else ret (u32 (nargs + 1))
  end.

(** [PComp::writeStmt]. *)
Definition writeStmt (level : Z) : M unit :=
  nargs <- (ifM accept Token.OpenParen true then
              n <- writeStmt_loop fuel level [] 0 ;;
              expect Token.CloseParen true ;;
              ret n
            else ret 0) ;;
  emit OpCode.PUSH 0 (DInt nargs) ;;
  ret tt.

(** [PComp::writeStatement] and [PComp::writeLnStatement]. *)
Definition writeStatement (level : Z) : M unit :=
  writeStmt level ;; emit0 OpCode.WRITE ;; ret tt.

Definition writeLnStatement (level : Z) : M unit :=
  writeStmt level ;; emit0 OpCode.WRITELN ;; ret tt.

(** [PComp::statementNew]. *)
Definition statementNew (level : Z) : M unit :=
  expect Token.OpenParen true ;;
  tok <- ts_current ;;
  ifM expect Token.Identifier true then
    it <- lookup (Token.string_value tok) ;;
    tdesc <- (match it with
              | None => ret TypeDesc.intDesc
              | Some _ => variable level it
              end) ;;
    t <- deref tdesc ;;
    (if negb (TypeDesc.eqb (TypeDesc.tclass t) TypeDesc.Pointer) then
       error [PStr "expected a pointer, got "; PTClass (TypeDesc.tclass t)]
     else ret tt) ;;
    emit OpCode.PUSH 0 (DInt (TypeDesc.size t)) ;;   (* push the size of the id *)
    emit0 OpCode.NEW ;;
    emit OpCode.ASSIGN 0 (DInt 1) ;;
    expect Token.CloseParen true ;;
    ret tt
  else ret tt.

(** [PComp::statementProcs]. *)
Definition statementProcs (level : Z) : M unit :=
  ifM accept Token.Write true then writeStatement level
  else ifM accept Token.Writeln true then writeLnStatement level
  else ifM accept Token.New true then statementNew level
  else ifM accept Token.Dispose true then
    expect Token.OpenParen true ;;
    tdesc <- expression level ;;
    t <- deref tdesc ;;
    (if negb (TypeDesc.eqb (TypeDesc.tclass t) TypeDesc.Pointer) then
       error [PStr "expected a pointer, got "; PTClass (TypeDesc.tclass t)]
     else ret tt) ;;
    emit0 OpCode.DISPOSE ;;
    expect Token.CloseParen true ;;
    ret tt
  else ret tt.                               (* else: nothing *)

(** [PComp::statement]. *)
Definition statement (level : Z) : M unit :=
  ifM accept Token.Identifier false then     (* Assignment or procedure call *)
    tok <- ts_current ;;
    next ;;
    identStatement level (Token.string_value tok)
  else ifM accept Token.Begin true then      (* begin ... end *)
    statementList level ;;
    expect Token.End true ;;
    ret tt
  else ifM accept Token.If true then ifStatement level
  else ifM accept Token.While true then whileStatement level
  else ifM accept Token.Repeat true then repeateStatement level
  else ifM accept Token.For true then forStatement level
  else statementProcs level.

(** A [FieldVec]: the names and types of fields or variables. *)
Definition FieldVec := list (string * TDescPtr).

(** [PComp::identifierList]: [do ids.push_back(nameDecl(level, prefix));
    while (accept(Token::Comma))]. *)
Fixpoint identifierList_loop (n : nat) (level : Z) (prefix : string)
  (ids : list string) : M (list string) :=
  match n with
  | O => outOfFuel
  | S n' =>
      id <- nameDecl level prefix ;;
      ifM accept Token.Comma true
      then identifierList_loop n' level prefix (ids ++ [id])
      else ret (ids ++ [id])
  end.

Definition identifierList (level : Z) (prefix : string) : M (list string) :=
  identifierList_loop fuel level prefix [].

(** [PComp::ordinalType], the loop that gives each enumeration its value. *)
Fixpoint ordinalType_enums (level : Z) (type : TDescPtr) (ids : list string)
  (value : Z) (enums : FieldVec) : M FieldVec :=
  match ids with
  | [] => ret enums
  | id :: rest =>
      insert id (SymValue.makeConst level (DInt value) type) ;;
      ordinalType_enums level type rest (u32 (value + 1))
                        (enums ++ [(id, TypeDesc.intDesc)])
  end.

(** [Datum::integer()]; datum.h is not among the sources, and the integer
    of a real Datum is taken to be undefined. *)
Definition Datum_integer (d : Datum) : M Z :=
  match d with
  | DInt i => ret i
  | DReal _ => crash
  end.

(** [PComp::ordinalType]. *)
Definition ordinalType (level : Z) : M TDescPtr :=
  ifM accept Token.BoolType true then ret TypeDesc.boolDesc
  else ifM accept Token.CharType true then ret TypeDesc.charDesc
  else ifM accept Token.IntType true then ret TypeDesc.intDesc
  else ifM accept Token.OpenParen true then       (* Enumeration *)
    ids <- identifierList level "" ;;
    let r := mkSubRange 0 (match ids with
                           | [] => 0
                           | _ => s32 (Z.of_nat (List.length ids) - 1)
                           end) in
    expect Token.CloseParen true ;;
    (* Create the type, excluding the fields (enumerations) *)
    type <- newDesc (TypeDesc.newEnumDesc r) ;;
    enums <- ordinalType_enums level type ids 0 [] ;;
    updDesc type (TypeDesc.set_fields enums) ;;
    ret type
  else                                            (* Sub-Range *)
    minValue <- constExpr ;;
    if fst minValue then
      expect Token.Ellipsis true ;;
      maxValue <- constExpr ;;
      c <- current ;;
      let oss1 := if fst maxValue then []
                  else [PStr "expected constant expression, got: "; PKind c] in
      (if fst maxValue then ret tt else error oss1) ;;
      let lo := snd minValue in
      let hi := if fst maxValue then snd maxValue else snd minValue in
      bounds <-
        (if Datum_ltb hi lo then                  (* min > max *)
           error (oss1 ++ [PStr "Minimum sub-range value ("; PDatum lo;
                           PStr ")";
                           PStr " is greater than the maximum value (";
                           PDatum hi; PStr ")"]) ;;
           ret (hi, lo)                           (* swap *)
         else if negb (Datum_isInteger lo) || negb (Datum_isInteger hi) then
           error (oss1 ++ [PStr "Both sub-range values must be ordinal types; ";
                           PDatum lo; PStr ", "; PDatum hi]) ;;
           ret (DInt 0, DInt 1)
         else ret (lo, hi)) ;;
      a <- Datum_integer (fst bounds) ;;
      b <- Datum_integer (snd bounds) ;;
      newDesc (TypeDesc.newIntDesc (mkSubRange a b))
    else ret None.

(** [PComp::simpleType]. *)
Definition simpleType (level : Z) : M TDescPtr :=
  ifM accept Token.Identifier false then  (* Previously defined type *)
    tok <- ts_current ;;
    next ;;
    it <- lookup (Token.string_value tok) ;;
    e <- entryOf it ;;                    (* it->first, whatever [it] is *)
    if negb (SymValue.eqb (SymValue.kind (esym e)) SymValue.Type_) then
      error2 "expected type, got " (ename e) ;;
      ret None
    else
      t <- deref (SymValue.type (esym e)) ;;
      if negb (TypeDesc.isOrdinal t) then
        error2 "expected ordinal type, got " (ename e) ;;
        ret None
      else ret (SymValue.type (esym e))
  else ifM accept Token.RealType true then ret TypeDesc.realDesc
  else ordinalType level.

(** [PComp::simpleTypeList]: [do tdescs.push_back(simpleType(level)); while
    (accept(Token::Comma))]. *)
Fixpoint simpleTypeList_loop (n : nat) (level : Z) (tdescs : list TDescPtr)
  : M (list TDescPtr) :=
  match n with
  | O => outOfFuel
  | S n' =>
      t <- simpleType level ;;
      ifM accept Token.Comma true
      then simpleTypeList_loop n' level (tdescs ++ [t])
      else ret (tdescs ++ [t])
  end.

Definition simpleTypeList (level : Z) : M (list TDescPtr) :=
  simpleTypeList_loop fuel level [].

(** [PComp::varDecl]. *)
Definition varDecl (level : Z) (prefix : string) (idents : FieldVec)
  : M FieldVec :=
  ids <- identifierList level prefix ;;
  expect Token.Colon true ;;
  desc <- r_type rec level prefix ;;
  ret (idents ++ map (fun id => (id, desc)) ids).

(** [PComp::varDeclList], the loop over the declarations. *)
Fixpoint varDeclList_loop (n : nat) (level : Z) (prefix : string)
  (idents : FieldVec) : M FieldVec :=
  match n with
  | O => outOfFuel
  | S n' =>
      ifM oneOf [Token.ProcDecl; Token.FuncDecl; Token.Begin;
                 Token.CloseParen]
      then ret idents                        (* No more variables... *)
      else
        idents' <- varDecl level prefix idents ;;
        ifM accept Token.SemiColon true
        then varDeclList_loop n' level prefix idents'
        else ret idents'
  end.

(** [for (const auto& id : idents) dx -= id.type()->size();] *)
Fixpoint varDeclList_params (idents : FieldVec) (dx : Z) : M Z :=
  match idents with
  | [] => ret dx
  | (_, ty) :: rest =>
      d <- deref ty ;;
      varDeclList_params rest (s32 (dx - TypeDesc.size d))
  end.

(** The search of [varDeclList] for a declaration at the same level: one
    diagnostic for each. *)
Fixpoint varDeclList_defined (level : Z) (name : string) (r : list Entry)
  : M unit :=
  match r with
  | [] => ret tt
  | e :: r' =>
      (if Z.eqb (SymValue.level (esym e)) level
       then error2 "previously defined" name else ret tt) ;;
      varDeclList_defined level name r'
  end.

(** [PComp::varDeclList], the loop that installs the variables in the
    symbol table. *)
Fixpoint varDeclList_install (level : Z) (idents : FieldVec) (dx : Z)
  : M unit :=
  match idents with
  | [] => ret tt
  | (name, ty) :: rest =>
      s <- get ;;
      varDeclList_defined level name (equal_range name (symtbl s)) ;;
      insert name (SymValue.makeVar level dx ty) ;;
      d <- deref ty ;;
      varDeclList_install level rest (s32 (dx + TypeDesc.size d))
  end.

(** [PComp::varDeclList]. *)
Definition varDeclList (level : Z) (params : bool) (prefix : string)
  (idents : FieldVec) : M FieldVec :=
  idents' <- varDeclList_loop fuel level prefix idents ;;
  dx <- (if params then varDeclList_params idents' 0 else ret 0) ;;
  varDeclList_install level idents' dx ;;
  ret idents'.

(** [PComp::fieldList]. *)
Definition fieldList (level : Z) (prefix : string) (fields : FieldVec)
  : M FieldVec :=
  fields' <- varDeclList level false prefix fields ;;
  ret (map (fun fld => (trim_prefix (fst fld), snd fld)) fields').

(** [sum += element.type()->size()]. *)
Fixpoint sizeOfFields (W : Z -> Z) (fields : FieldVec) (sum : Z) : M Z :=
  match fields with
  | [] => ret sum
  | (_, ty) :: rest =>
      d <- deref ty ;;
      sizeOfFields W rest (W (sum + TypeDesc.size d))
  end.

(** [PComp::structuredType], the loop over the index types of an array. *)
Fixpoint structuredType_indexes (indexes : list TDescPtr)
  (tdesc tp : TDescPtr) : M (TDescPtr * TDescPtr) :=
  match indexes with
  | [] => ret (tdesc, tp)
  | index :: rest =>
      i <- deref index ;;
      let r := TypeDesc.range i in
      tdesc' <- newDesc (TypeDesc.newArrayDesc (u32 (span r)) r index None) ;;
      match tp with
      | None =>                 (* Remember the first array type descriptior *)
          structuredType_indexes rest tdesc' tdesc'
      | Some _ =>               (* Following indexes... *)
          t <- deref tp ;;
          updDesc tp (TypeDesc.set_size (u32 (TypeDesc.size t * span r))) ;;
          structuredType_indexes rest tdesc' (TypeDesc.base t)
      end
  end.

(** [PComp::structuredType]. *)
Definition structuredType (level : Z) (prefix : string) : M TDescPtr :=
  ifM accept Token.Array true then                (* Array *)
    expect Token.OpenBrkt true ;;
    indexes <- simpleTypeList level ;;
    r <- structuredType_indexes indexes None None ;;
    expect Token.CloseBrkt true ;;
    expect Token.Of true ;;
    b <- r_type rec level "" ;;                   (* the array's base type *)
    updDesc (snd r) (TypeDesc.set_base b) ;;
    t <- deref (snd r) ;;
    bd <- deref (TypeDesc.base t) ;;
    updDesc (snd r)
            (TypeDesc.set_size (u32 (TypeDesc.size t * TypeDesc.size bd))) ;;
    ret (fst r)
  else ifM accept Token.Record true then          (* Record *)
    fields <- fieldList level prefix [] ;;
    sum <- sizeOfFields u32 fields 0 ;;
    tdesc <- newDesc (TypeDesc.newRcrdDesc sum fields) ;;
    expect Token.End true ;;
    ret tdesc
  else ret None.

(** [PComp::type]. *)
Definition type (level : Z) (prefix : string) : M TDescPtr :=
  ifM accept Token.Identifier false then     (* previously defined type-name *)
    tok <- ts_current ;;
    next ;;
    it <- lookup (Token.string_value tok) ;;
    match it with
    | None =>
        error2 "expected type, got " (Token.string_value tok) ;;
        ret TypeDesc.intDesc
    | Some _ =>
        v <- symOf it ;;
        if negb (SymValue.eqb (SymValue.kind v) SymValue.Type_) then
          error2 "expected type, got " (Token.string_value tok) ;;
          ret TypeDesc.intDesc
        else ret (SymValue.type v)
    end
  else ifM accept Token.Caret true then      (* Pointer type *)
    b <- r_type rec level prefix ;;
    newDesc (TypeDesc.newPointerDesc b)
  else
    tdesc <- structuredType level prefix ;;
    match tdesc with
    | Some _ => ret tdesc
    | None => simpleType level
    end.

(** [PComp::typeDecl]. *)
Definition typeDecl (level : Z) : M unit :=
  ident <- nameDecl level "" ;;              (* Copy the identifier *)
  expect Token.EQU true ;;                   (* Consume the "=" *)
  tdesc <- type level ident ;;
  insert ident (SymValue.makeType level tdesc) ;;
  ret tt.

(** [PComp::typeDeclList], the loop over the declarations. *)
Fixpoint typeDeclList_loop (n : nat) (level : Z) : M unit :=
  match n with
  | O => outOfFuel
  | S n' =>
      ifM oneOf [Token.VarDecl; Token.ProcDecl; Token.FuncDecl; Token.Begin]
      then ret tt
      else
        typeDecl level ;;
        ifM accept Token.SemiColon true
        then typeDeclList_loop n' level
        else ret tt
  end.

(** [PComp::typeDeclList]. *)
Definition typeDeclList (level : Z) : M unit :=
  ifM accept Token.TypeDecl true then typeDeclList_loop fuel level
  else ret tt.

(** [PComp::constDecl]. *)
Definition constDecl (level : Z) : M unit :=
  ident <- nameDecl level "" ;;              (* Copy the identifier *)
  expect Token.EQU true ;;                   (* Consume the "=" *)
  value <- constExpr ;;                      (* Get the constant value *)
  tok <- ts_current ;;
  (if negb (fst value)
   then error2 "expected a const-expression, got:" (Token.string_value tok)
   else ret tt) ;;
  insert ident
         (SymValue.makeConst level (snd value)
            (if Datum_isInteger (snd value) then TypeDesc.intDesc
             else TypeDesc.realDesc)) ;;
  ret tt.

(** [PComp::constDeclList], the loop over the declarations. *)
Fixpoint constDeclList_loop (n : nat) (level : Z) : M unit :=
  match n with
  | O => outOfFuel
  | S n' =>
      ifM oneOf [Token.TypeDecl; Token.VarDecl; Token.ProcDecl;
                 Token.FuncDecl; Token.Begin]
      then ret tt                            (* No more constants... *)
      else
        constDecl level ;;
        ifM accept Token.SemiColon true
        then constDeclList_loop n' level
        else ret tt
  end.

(** [PComp::constDeclList]. *)
Definition constDeclList (level : Z) : M unit :=
  ifM accept Token.ConsDecl true then constDeclList_loop fuel level
  else ret tt.

(** [PComp::varDeclBlock]. *)
Definition varDeclBlock (level : Z) : M Z :=
  idents <- (ifM accept Token.VarDecl true
             then varDeclList level false "" []
             else ret []) ;;
  (* Add up the size of every variable in the block *)
  sizeOfFields s32 idents 0.

(** [it->second.params().push_back(id.type())] for each parameter. *)
Fixpoint subPrefixDecl_params (it : nat) (idents : FieldVec) : M unit :=
  match idents with
  | [] => ret tt
  | (_, ty) :: rest =>
      updSym it (SymValue.push_param ty) ;;
      subPrefixDecl_params it rest
  end.

(** [PComp::subPrefixDecl]; the reference it returns is the identity of
    the new element of the table. *)
Definition subPrefixDecl (level : Z) (kind : SymValue.Kind) : M nat :=
  ident <- nameDecl level "" ;;       (* insert the name into the symbol table *)
  it <- insert ident (SymValue.makeSbr kind level) ;;
  (* Process the formal auguments, if any... *)
  (ifM accept Token.OpenParen true then
     (* the activation frame level is that of the following block *)
     idents <- varDeclList (level + 1) true "" [] ;;
     expect Token.CloseParen true ;;
     subPrefixDecl_params it idents
   else ret tt) ;;
  ret it.

(** [PComp::procDecl]. *)
Definition procDecl (level : Z) : M unit :=
  val <- subPrefixDecl level SymValue.Procedure ;;
  expect Token.SemiColon true ;;
  r_blockDecl rec val (level + 1) ;;
  expect Token.SemiColon true ;;      (* procedure declarations end with a ';' *)
  ret tt.

(** [PComp::funcDecl]. *)
Definition funcDecl (level : Z) : M unit :=
  val <- subPrefixDecl level SymValue.Function ;;
  expect Token.Colon true ;;
  ty <- type level "" ;;
  updSym val (SymValue.set_type ty) ;;
  expect Token.SemiColon true ;;
  r_blockDecl rec val (level + 1) ;;
  expect Token.SemiColon true ;;      (* function declarations end with a ';' *)
  ret tt.

(** [PComp::subDeclList], the loop [for (;;)]. *)
Fixpoint subDeclList_loop (n : nat) (level : Z) : M unit :=
  match n with
  | O => outOfFuel
  | S n' =>
      ifM accept Token.ProcDecl true then
        procDecl level ;; subDeclList_loop n' level
      else ifM accept Token.FuncDecl true then
        funcDecl level ;; subDeclList_loop n' level
      else ret tt
  end.

Definition subDeclList (level : Z) : M unit := subDeclList_loop fuel level.

(** [PComp::blockDecl]. *)
Definition blockDecl (val : nat) (level : Z) : M nat :=
  constDeclList level ;;                     (* declaractions... *)
  typeDeclList level ;;
  dx <- varDeclBlock level ;;
  subDeclList level ;;
  (* Block body: emit the block's prefix, saving and return its address,
     followed by the postfix. Omit the prefix if dx == 0 (the subroutine
     has zero locals). *)
  addr <- (if dx >? 0 then emit OpCode.ENTER 0 (DInt dx) else code_size) ;;
  updSym val (SymValue.set_value (DInt (Z.of_nat addr))) ;;
  (ifM expect Token.Begin true then          (* "begin" statements... "end" *)
     statementList level ;;
     expect Token.End true ;;
     ret tt
   else ret tt) ;;
  (* block postfix... *)
  v <- symOf (Some val) ;;
  let sz := Z.of_nat (List.length (SymValue.params v)) in
  (if SymValue.eqb SymValue.Function (SymValue.kind v)
   then emit OpCode.RETF 0 (DInt sz)         (* function... *)
   else emit OpCode.RET 0 (DInt sz)) ;;      (* procedure... *)
  purge level ;;                 (* Remove symbols only visible at this level *)
  ret addr.

(** [PComp::progDecl]. *)
Definition progDecl (level : Z) : M unit :=
  next ;;                                    (* Fetch the 1st token *)
  expect Token.ProgDecl true ;;              (* Program heading... *)
  val <- subPrefixDecl level SymValue.Procedure ;;
  expect Token.SemiColon true ;;
  (* Emit a call to the main procedure, followed by a halt *)
  call_pc <- emit OpCode.CALL level (DInt 0) ;;
  emit0 OpCode.HALT ;;
  addr <- blockDecl val level ;;             (* emit the first block *)
  patch call_pc (DInt (Z.of_nat addr)) ;;
  expect Token.Period true ;;
  ret tt.

End Productions.

(** The productions with [fuel] units of fuel. *)
Fixpoint prods (fuel : nat) : Rec :=
  match fuel with
  | O => mkRec (fun _ => outOfFuel) (fun _ => outOfFuel) (fun _ => outOfFuel)
               (fun _ _ => outOfFuel) (fun _ _ => outOfFuel)
  | S f =>
      mkRec (expression (prods f) f) (factor (prods f) f)
            (statement (prods f) f) (type (prods f) f)
            (blockDecl (prods f) f)
  end.

(** [PComp::run]. *)
Definition run (fuel : nat) : M unit := progDecl (prods fuel) fuel 0.

(** [PComp::PComp]: the built-in types and constants. *)
Definition PComp_symtbl : SymbolTable :=
  [ mkEntry 0 "bool" (SymValue.makeType 0 TypeDesc.boolDesc);
    mkEntry 1 "char" (SymValue.makeType 0 TypeDesc.charDesc);
    mkEntry 2 "integer" (SymValue.makeType 0 TypeDesc.intDesc);
    mkEntry 3 "real" (SymValue.makeType 0 TypeDesc.realDesc);
    mkEntry 4 "maxint"
      (SymValue.makeConst 0 (DInt (maximum TypeDesc.maxRange))
                          TypeDesc.intDesc);
    mkEntry 5 "nil" (SymValue.makeConst 0 (DInt 0) (Some 4%nat));
    mkEntry 6 "true" (SymValue.makeConst 0 (DInt 1) TypeDesc.boolDesc);
    mkEntry 7 "false" (SymValue.makeConst 0 (DInt 0) TypeDesc.boolDesc) ].

(** The compiler as its constructor leaves it: no token read, no code, the
    static descriptors and the pointer type of [nil] in the store. *)
Definition PComp_new : Comp :=
  mkComp (Token.ofKind Token.Unknown) [] [] PComp_symtbl 8
         (TypeDesc.statics ++ [TypeDesc.newPointerDesc TypeDesc.intDesc])
         0 [].

(** [PL0CComp::operator()], as p.cc calls it on the P compiler, in the
    branches that bind an input (standard input, or a file that opened) of
    the tokens [source]: binds the token stream and the code vector, runs,
    and returns the number of errors.  [compile_file] is the whole of
    it. *)
Definition compile (fuel : nat) (source : list Token.t) (prog : InstrVector)
  : Result nat :=
  match run fuel (set_code prog (set_cur (cur PComp_new) source PComp_new))
  with
  | Ok _ s => Ok (nErrors s) s
  | Crash => Crash
  | OutOfFuel => OutOfFuel
  end.

(** [PL0CComp::operator()], whole.  The name ["-"] is standard input, of
    the tokens [cin]; of any other name [files] gives the tokens of the
    file, or nothing when the file does not open: that is reported, and
    [run()] is not called. *)
Definition compile_file (fuel : nat) (cin : list Token.t)
  (files : string -> option (list Token.t)) (inFile : string)
  (prog : InstrVector) : Result nat :=
  if String.eqb "-" inFile then compile fuel cin prog
  else
    match files inFile with
    | Some source => compile fuel source prog
    | None =>
        match error2 "error opening source file" inFile
                     (set_code prog PComp_new) with
        | Ok _ s => Ok (nErrors s) s
        | Crash => Crash
        | OutOfFuel => OutOfFuel
        end
    end.

(* ================================================================== *)
(** ** The P machine

    pinterp.h declares the machine; its implementation is not among the
    sources.  The registers are those of [class PInterp]; what each
    instruction does follows the comments of instr.h and the spec. *)

Module PInterp.

(** pinterp.h, [enum Result]; [notModelled] stands for the instructions
    left out below (reals, input and output, the free store). *)
Inductive Result :=
| success | divideByZero | badFetch | badDataType | unknownInstr
| stackOverflow | stackUnderflow | freeStoreError | outOfRange | halted
| notModelled.

Record t := mk {
  code : InstrVector;            (* Code segment, indexed by pc *)
  stack : list Datum;            (* Data segment, indexed by fp and sp *)
  pc : Z;                        (* index of the next instruction *)
  fp : Z;                        (* index of the current frame *)
  sp : Z                         (* Top of stack register (stack[sp]) *)
}.

Definition get (m : t) (a : Z) : option Datum :=
  if (0 <=? a) && (a <? Z.of_nat (List.length (stack m)))
  then nth_error (stack m) (Z.to_nat a) else None.

Definition set_stack (m : t) (a : Z) (d : Datum) : option t :=
  if (0 <=? a) && (a <? Z.of_nat (List.length (stack m)))
  then Some (mk (code m) (update_nth (Z.to_nat a) (fun _ => d) (stack m))
                (pc m) (fp m) (sp m))
  else None.

Definition set_sp (m : t) (n : Z) : t := mk (code m) (stack m) (pc m) (fp m) n.
Definition set_pc (m : t) (n : Z) : t := mk (code m) (stack m) n (fp m) (sp m).
Definition set_fp (m : t) (n : Z) : t := mk (code m) (stack m) (pc m) n (sp m).

(** Modelled from the spec: "every stack access is range-checked against
    [0, stackSize)"; a push past the end is a stack overflow and a pop
    of an empty stack a stack underflow. *)
Definition push (m : t) (d : Datum) : Result * t :=
  match set_stack m (sp m + 1) d with
  | Some m' => (success, set_sp m' (sp m + 1))
  | None => (stackOverflow, m)
  end.

Definition pop (m : t) : option (Datum * t) :=
  match get m (sp m) with
  | Some d => Some (d, set_sp m (sp m - 1))
  | None => None
  end.

Definition integer (d : Datum) : option Z :=
  match d with DInt i => Some i | DReal _ => None end.

(** Modelled from the spec: "base(lvl) follows the FrameBase slot lvl
    times starting at fp". *)
Fixpoint base_from (lvl : nat) (m : t) (b : Z) : option Z :=
  match lvl with
  | O => Some b
  | S l =>
      match get m (b + Frame.FrameBase) with
      | Some (DInt b') => base_from l m b'
      | _ => None
      end
  end.

Definition base (m : t) (lvl : Z) : option Z := base_from (Z.to_nat lvl) m (fp m).

(** [k] Datums from address [a] on. *)
Fixpoint read (m : t) (a : Z) (k : nat) : option (list Datum) :=
  match k with
  | O => Some []
  | S k' =>
      match get m a, read m (a + 1) k' with
      | Some d, Some ds => Some (d :: ds)
      | _, _ => None
      end
  end.

Fixpoint write (m : t) (a : Z) (ds : list Datum) : option t :=
  match ds with
  | [] => Some m
  | d :: ds' =>
      match set_stack m a d with
      | Some m' => write m' (a + 1) ds'
      | None => None
      end
  end.

Fixpoint pushAll (m : t) (ds : list Datum) : Result * t :=
  match ds with
  | [] => (success, m)
  | d :: ds' =>
      match push m d with
      | (success, m') => pushAll m' ds'
      | r => r
      end
  end.

(** Modelled from the spec: "binary ops pop two, push one"; the integer
    operations on integer operands. *)
Definition binary (f : Z -> Z -> Z) (m : t) : Result * t :=
  match pop m with
  | Some (DInt r, m1) =>
      match pop m1 with
      | Some (DInt l, m2) => push m2 (DInt (f l r))
      | Some (DReal _, _) => (notModelled, m)
      | None => (stackUnderflow, m)
      end
  | Some (DReal _, _) => (notModelled, m)
  | None => (stackUnderflow, m)
  end.

Definition ofBool (b : bool) : Z := if b then 1 else 0.

(** One instruction.  Modelled from the spec, section 4.3, and from the
    comments of [enum class OpCode] in instr.h. *)
Definition exec (ir : Instr) (m : t) : Result * t :=
  match op ir with
  | OpCode.PUSH => push m (addr ir)
  | OpCode.PUSHVAR =>
      match base m (ilevel ir), addr ir with
      | Some b, DInt off => push m (DInt (b + off))
      | _, _ => (badDataType, m)
      end
  | OpCode.DUP =>
      match get m (sp m) with
      | Some d => push m d
      | None => (stackUnderflow, m)
      end
  | OpCode.POP =>
      match addr ir with
      | DInt n => if (0 <=? n) && (n <=? sp m + 1)
                  then (success, set_sp m (sp m - n))
                  else (stackUnderflow, m)
      | DReal _ => (badDataType, m)
      end
  | OpCode.EVAL =>
      (* pop address a; push stack[a..a+k) in order *)
      match pop m, addr ir with
      | Some (DInt a, m1), DInt k =>
          match read m1 a (Z.to_nat k) with
          | Some ds => pushAll m1 ds
          | None => (stackOverflow, m)
          end
      | None, _ => (stackUnderflow, m)
      | _, _ => (badDataType, m)
      end
  | OpCode.ASSIGN =>
      (* the top k Datums are the value, below them sits the destination
         address; copy the value to stack[a..a+k); discard both *)
      match addr ir with
      | DInt k =>
          match read m (sp m - k + 1) (Z.to_nat k), get m (sp m - k) with
          | Some ds, Some (DInt a) =>
              match write m a ds with
              | Some m' => (success, set_sp m' (sp m - k - 1))
              | None => (stackOverflow, m)
              end
          | Some _, Some (DReal _) => (badDataType, m)
          | _, _ => (stackUnderflow, m)
          end
      | DReal _ => (badDataType, m)
      end
  | OpCode.ADD => binary (fun l r => l + r) m
  | OpCode.SUB => binary (fun l r => l - r) m
  | OpCode.MUL => binary (fun l r => l * r) m
  | OpCode.LT => binary (fun l r => ofBool (l <? r)) m
  | OpCode.LTE => binary (fun l r => ofBool (l <=? r)) m
  | OpCode.EQU => binary (fun l r => ofBool (l =? r)) m
  | OpCode.GTE => binary (fun l r => ofBool (l >=? r)) m
  | OpCode.GT => binary (fun l r => ofBool (l >? r)) m
  | OpCode.NEQU => binary (fun l r => ofBool (negb (l =? r))) m
  | OpCode.LLIMIT =>
      (* errors if TOS < k; leaves TOS in place *)
      match get m (sp m), addr ir with
      | Some (DInt v), DInt k =>
          if v <? k then (outOfRange, m) else (success, m)
      | None, _ => (stackUnderflow, m)
      | _, _ => (notModelled, m)
      end
  | OpCode.ULIMIT =>
      (* errors if TOS > k; leaves TOS in place *)
      match get m (sp m), addr ir with
      | Some (DInt v), DInt k =>
          if v >? k then (outOfRange, m) else (success, m)
      | None, _ => (stackUnderflow, m)
      | _, _ => (notModelled, m)
      end
  | OpCode.JUMP =>
      match addr ir with
      | DInt a => (success, set_pc m a)
      | DReal _ => (badDataType, m)
      end
  | OpCode.JNEQ =>
      (* condition = pop(); jump if condition == false (0) *)
      match pop m, addr ir with
      | Some (DInt c, m1), DInt a =>
          (success, if c =? 0 then set_pc m1 a else m1)
      | None, _ => (stackUnderflow, m)
      | _, _ => (badDataType, m)
      end
  | OpCode.CALL =>
      (* push base(lvl), old fp, the return address and a return-value
         slot; fp := sp-3; pc := entry *)
      match base m (ilevel ir), addr ir with
      | Some b, DInt entry =>
          match pushAll m [DInt b; DInt (fp m); DInt (pc m); DInt 0] with
          | (success, m') => (success, set_pc (set_fp m' (sp m' - 3)) entry)
          | r => r
          end
      | _, _ => (badDataType, m)
      end
  | OpCode.ENTER =>
      match addr ir with
      | DInt n =>
          if sp m + n <? Z.of_nat (List.length (stack m))
          then (success, set_sp m (sp m + n))
          else (stackOverflow, m)
      | DReal _ => (badDataType, m)
      end
  | OpCode.RET =>
      (* discards the locals, restores pc and fp from the frame, then
         pops n parameters *)
      match get m (fp m + Frame.FrameRetAddr), get m (fp m + Frame.FrameOldFp),
            addr ir with
      | Some (DInt ra), Some (DInt ofp), DInt n =>
          (success, set_pc (set_fp (set_sp m (fp m - 1 - n)) ofp) ra)
      | _, _, _ => (badDataType, m)
      end
  | OpCode.HALT => (halted, m)
  | _ => (notModelled, m)
  end.

(** Modelled from the spec: "fetch ir = code[pc], increment pc, dispatch
    on opcode"; a pc past the end of the code is a bad fetch. *)
Definition step (m : t) : Result * t :=
  if (0 <=? pc m) && (pc m <? Z.of_nat (List.length (code m))) then
    match nth_error (code m) (Z.to_nat (pc m)) with
    | Some ir => exec ir (set_pc m (pc m + 1))
    | None => (badFetch, m)
    end
  else (badFetch, m).

(** [run]: steps until a result other than [success], at most [n]
    times. *)
Fixpoint run (n : nat) (m : t) : Result * t :=
  match n with
  | O => (success, m)
  | S n' =>
      match step m with
      | (success, m') => run n' m'
      | r => r
      end
  end.

(** The machine loaded with a program.  The spec does not fix the
    registers at reset; they start at zero, as in Wirth's PL/0 machine,
    whose port pinterp.h says the interpreter is. *)
Definition load (prog : InstrVector) (stackSize : nat) : t :=
  mk prog (repeat (DInt 0) stackSize) 0 0 0.

(** The values a run stores at address [a]: what [stack[a]] holds after
    each of the first [n] steps. *)
Fixpoint trace (n : nat) (m : t) (a : Z) : list (option Datum) :=
  match n with
  | O => []
  | S n' =>
      match step m with
      | (success, m') => get m' a :: trace n' m' a
      | (_, m') => [get m' a]
      end
  end.

End PInterp.

(* ================================================================== *)
(** ** p.cc: the driver *)

(** [main], past the command line: compiles the source and, if there are no
    errors, runs the machine (of the default stack size, 1024) on the code;
    returns the number of errors, and the result of the run if there was
    one.  [None]: the compiler met undefined behaviour. *)
Definition main (fuel steps : nat) (source : list Token.t)
  : option (nat * option PInterp.Result) :=
  match compile fuel source [] with
  | Ok nErrors s =>
      if Nat.eqb 0 nErrors
      then Some (nErrors,
                 Some (fst (PInterp.run steps (PInterp.load (code s) 1024))))
      else Some (nErrors, None)
  | _ => None
  end.

(* ================================================================== *)
(** ** The binary operators

    The token of each binary operator and the opcode emitted for it, as the
    loops of [term], [simpleExpr] and [expression] pair them. *)

Definition term_operators : list (Token.Kind * OpCode.t) :=
  [(Token.Multiply, OpCode.MUL); (Token.Divide, OpCode.DIV);
   (Token.Mod, OpCode.REM); (Token.And, OpCode.LAND)].

Definition simpleExpr_operators : list (Token.Kind * OpCode.t) :=
  [(Token.Add, OpCode.ADD); (Token.Subtract, OpCode.SUB);
   (Token.Or, OpCode.LOR)].

Definition expression_operators : list (Token.Kind * OpCode.t) :=
  [(Token.LTE, OpCode.LTE); (Token.LT, OpCode.LT); (Token.GT, OpCode.GT);
   (Token.GTE, OpCode.GTE); (Token.EQU, OpCode.EQU);
   (Token.NEQ, OpCode.NEQU)].

(** The state after [emit(op, level, addr)]. *)
Definition emitted (i : Instr) (s : Comp) : Comp :=
  set_code (code s ++ [i]) s.

(** The names [PComp::PComp] declares. *)
Definition builtin_names : list string :=
  ["bool"; "char"; "integer"; "real"; "maxint"; "nil"; "true"; "false"].

(** A compiler whose symbol table is [tbl]. *)
Definition with_symtbl (tbl : SymbolTable) (s : Comp) : Comp :=
  set_symtbl tbl (nextId s) s.

(** The limit checks [assignPromote] emits for a target of type [l]. *)
Definition limit_checks (l : TypeDesc.t) : InstrVector :=
  if TypeDesc.isOrdinal l
     && negb (SubRange_eqb (TypeDesc.range l) TypeDesc.maxRange)
  then [newInstr OpCode.LLIMIT 0 (DInt (minimum (TypeDesc.range l)));
        newInstr OpCode.ULIMIT 0 (DInt (maximum (TypeDesc.range l)))]
  else [].

(** The state after [next()]. *)
Definition advanced (s : Comp) : Comp :=
  match input s with
  | [] => set_cur (Token.ofKind Token.EOS) [] s
  | t :: rest => set_cur t rest s
  end.

(** The l-value of [PComp::assignStatement]: what is emitted for the
    target, whose element of the table is [e], and the type of the
    target. *)
Definition assignStatement_lvalue (rec : Rec) (fuel : nat) (level : Z)
  (it : Iter) (e : Entry) : M TDescPtr :=
  let v := esym e in
  if SymValue.eqb (SymValue.kind v) SymValue.Function then
    emit OpCode.PUSHVAR 0 (DInt Frame.FrameRetVal) ;;
    ret (SymValue.type v)
  else if SymValue.eqb (SymValue.kind v) SymValue.Variable_ then
    variable rec fuel level it
  else
    error2 "expected a variable or a function, got:" (ename e) ;;
    ret (SymValue.type v).

(** The conversion [assignPromote] emits for a target of type [l] and a
    value of type [r], and the state it leaves in front of its limit
    checks. *)
Definition conversion (l r : TypeDesc.t) : InstrVector :=
  if TypeDesc.eqb (TypeDesc.tclass l) (TypeDesc.tclass r) then []
  else if isAnInteger l && isAReal r then [newInstr OpCode.ROUND 0 (DInt 0)]
  else if isAReal l && isAnInteger r then [newInstr OpCode.ITOR 0 (DInt 0)]
  else [].

Definition promoted (l r : TypeDesc.t) (s : Comp) : Comp :=
  if TypeDesc.eqb (TypeDesc.tclass l) (TypeDesc.tclass r) then s
  else if isAnInteger l && isAReal r
       then emitted (newInstr OpCode.ROUND 0 (DInt 0))
              (add_error [PStr "rounding real to fit in an integer"] s)
  else if isAReal l && isAnInteger r
       then emitted (newInstr OpCode.ITOR 0 (DInt 0)) s
  else add_error [PStr "incompatable assignment types"] s.

(** The heading of [PComp::progDecl], up to the [;] behind the name of the
    program: the element of the table it makes for the main block. *)
Definition progDecl_heading (rec : Rec) (fuel : nat) (level : Z) : M nat :=
  next ;;                                    (* Fetch the 1st token *)
  expect Token.ProgDecl true ;;              (* Program heading... *)
  val <- subPrefixDecl rec fuel level SymValue.Procedure ;;
  expect Token.SemiColon true ;;
  ret val.

(** The body of [PComp::blockDecl]: ["begin" statements... "end"]. *)
Definition blockDecl_body (rec : Rec) (fuel : nat) (level : Z) : M unit :=
  ifM expect Token.Begin true then
    statementList rec fuel level ;;
    expect Token.End true ;;
    ret tt
  else ret tt.

(** The return that ends the block of the subroutine [v]. *)
Definition blockDecl_return (v : SymValue.t) : Instr :=
  newInstr (if SymValue.eqb SymValue.Function (SymValue.kind v)
            then OpCode.RETF else OpCode.RET)
           0 (DInt (Z.of_nat (List.length (SymValue.params v)))).

(** The compiler bound to the tokens [source] and to the code [prog], as
    [compile] starts it. *)
Definition bound (source : list Token.t) (prog : InstrVector) : Comp :=
  set_code prog (set_cur (cur PComp_new) source PComp_new).

(* ================================================================== *)
(** ** Assertions about a production *)

(** [hoare tot P m Q]: from a state in [P], a run of [m] that returns ends
    in [Q]; a crash promises nothing, and with [tot] the run has enough
    fuel. *)
Definition hoare (tot : bool) {A} (P : Comp -> Prop) (m : M A)
  (Q : A -> Comp -> Prop) : Prop :=
  forall s, P s ->
    match m s with
    | Ok a s' => Q a s'
    | Crash => True
    | OutOfFuel => tot = false
    end.

(** A property of the code vector that a production keeps. *)
Definition Inv (I : InstrVector -> Prop) {A} (m : M A) : Prop :=
  hoare false (fun s => I (code s)) m (fun _ s' => I (code s')).

(** The first [b] instructions are [c0]: what a production that only
    appends, and patches what it appended, keeps of the code before it. *)
Definition prefix (b : nat) (c0 : InstrVector) (c : InstrVector) : Prop :=
  (b <= List.length c)%nat /\ firstn b c = c0.

Definition rec_prefix (rec : Rec) : Prop :=
  forall b c0,
    (forall level, Inv (prefix b c0) (r_expression rec level)) /\
    (forall level, Inv (prefix b c0) (r_factor rec level)) /\
    (forall level, Inv (prefix b c0) (r_statement rec level)) /\
    (forall level p, Inv (prefix b c0) (r_type rec level p)) /\
    (forall val level, Inv (prefix b c0) (r_blockDecl rec val level)).

(** The tokens a state still holds: the current one, unless the stream is
    at its end, and those not read yet. *)
Definition mu (s : Comp) : nat :=
  (List.length (input s)
   + (if Token.eqb (Token.kind (cur s)) Token.EOS then 0 else 1))%nat.

(** [T a1 a2 m]: from at most [a1] tokens, [m] does not run out of fuel and
    leaves at most [a2]. *)
Definition T (a1 a2 : nat) {A} (m : M A) : Prop :=
  hoare true (fun s => (mu s <= a1)%nat) m (fun _ s' => (mu s' <= a2)%nat).

Definition rec_T (n : nat) (rec : Rec) : Prop :=
  forall a, (a < n)%nat ->
    (forall level, T a a (r_expression rec level)) /\
    (forall level, T a a (r_factor rec level)) /\
    (forall level, T a a (r_statement rec level)) /\
    (forall level p, T a a (r_type rec level p)) /\
    (forall val level, T a a (r_blockDecl rec val level)).

(* ================================================================== *)
(** ** Sample programs, as the tokenizer delivers them *)

Module Samples.
Import Token.

Definition K := Token.ofKind.

(** [program p; var i : 1..5; begin for i := 1 to 5 do end.] *)
Definition for_to : list Token.t :=
  [K ProgDecl; ident "p"; K SemiColon;
   K VarDecl; ident "i"; K Colon; int 1; K Ellipsis; int 5; K SemiColon;
   K Begin;
     K For; ident "i"; K Assign; int 1; K To; int 5; K Do;
   K End; K Period].

(** [program p; var i, n : integer;
     begin n := 0; for i := 3 downto 1 do n := n + 1 end.] *)
Definition for_downto : list Token.t :=
[K ProgDecl; ident "p"; K SemiColon;
 K VarDecl; ident "i"; K Comma; ident "n"; K Colon; K IntType; K SemiColon;
 K Begin;
   ident "n"; K Assign; int 0; K SemiColon;
   K For; ident "i"; K Assign; int 3; K DownTo; int 1; K Do;
     ident "n"; K Assign; ident "n"; K Add; int 1;
 K End; K Period].

(** [program p; var i : integer; begin i := 1.5 end.] *)
Definition assign_real : list Token.t :=
  [K ProgDecl; ident "p"; K SemiColon;
   K VarDecl; ident "i"; K Colon; K IntType; K SemiColon;
   K Begin; ident "i"; K Assign; real 1.5%float; K End; K Period].

(** [program p; var x : real; begin x := 1 end.] *)
Definition assign_int : list Token.t :=
  [K ProgDecl; ident "p"; K SemiColon;
   K VarDecl; ident "x"; K Colon; K RealType; K SemiColon;
   K Begin; ident "x"; K Assign; int 1; K End; K Period].

(** [program p; var x : real; begin x := pred(1.5) end.] *)
Definition pred_real : list Token.t :=
  [K ProgDecl; ident "p"; K SemiColon;
   K VarDecl; ident "x"; K Colon; K RealType; K SemiColon;
   K Begin;
     ident "x"; K Assign; K Pred; K OpenParen; real 1.5%float; K CloseParen;
   K End; K Period].

(** [program p; var x : real; begin x := succ(1.5) end.] *)
Definition succ_real : list Token.t :=
  [K ProgDecl; ident "p"; K SemiColon;
   K VarDecl; ident "x"; K Colon; K RealType; K SemiColon;
   K Begin;
     ident "x"; K Assign; K Succ; K OpenParen; real 1.5%float; K CloseParen;
   K End; K Period].

(** [program p; procedure q(a : integer); begin end; begin q end.] *)
Definition call_bare : list Token.t :=
  [K ProgDecl; ident "p"; K SemiColon;
   K ProcDecl; ident "q"; K OpenParen; ident "a"; K Colon; K IntType;
     K CloseParen; K SemiColon;
     K Begin; K End; K SemiColon;
   K Begin; ident "q"; K End; K Period].

(** [program p; procedure q(a : integer); begin end; begin q() end.] *)
Definition call_empty : list Token.t :=
  [K ProgDecl; ident "p"; K SemiColon;
   K ProcDecl; ident "q"; K OpenParen; ident "a"; K Colon; K IntType;
     K CloseParen; K SemiColon;
     K Begin; K End; K SemiColon;
   K Begin; ident "q"; K OpenParen; K CloseParen; K End; K Period].

(** [program p; procedure q(a : integer); begin end; begin q(1) end.] *)
Definition call_one : list Token.t :=
  [K ProgDecl; ident "p"; K SemiColon;
   K ProcDecl; ident "q"; K OpenParen; ident "a"; K Colon; K IntType;
     K CloseParen; K SemiColon;
     K Begin; K End; K SemiColon;
   K Begin; ident "q"; K OpenParen; int 1; K CloseParen; K End; K Period].

(** [program p; var b : bool; begin b := not true end.] *)
Definition not_true : list Token.t :=
  [K ProgDecl; ident "p"; K SemiColon;
   K VarDecl; ident "b"; K Colon; K BoolType; K SemiColon;
   K Begin; ident "b"; K Assign; K Not; ident "true"; K End; K Period].

(** [program p; begin end.] *)
Definition empty : list Token.t :=
  [K ProgDecl; ident "p"; K SemiColon; K Begin; K End; K Period].

(** The compiler in the middle of [i := 7], where [i : 1..5] is the
    variable declared last: the identifier has been consumed. *)
Definition at_assign : Comp :=
  mkComp (K Assign) [int 7] []
         (PComp_symtbl
          ++ [mkEntry 8 "i" (SymValue.makeVar 0 0 (Some 5%nat))]) 9
         (types PComp_new ++ [TypeDesc.newIntDesc (mkSubRange 1 5)])
         0 [].

(** A machine about to check and assign: the address 0 and the value 3
    on top of the stack. *)
Definition at_limits : PInterp.t :=
  PInterp.mk [newInstr OpCode.LLIMIT 0 (DInt 1);
              newInstr OpCode.ULIMIT 0 (DInt 5);
              newInstr OpCode.ASSIGN 0 (DInt 1)]
             [DInt 0; DInt 0; DInt 3] 0 0 2.

(** A table with two levels: [x] and [p] of level 0, [y] and a second [x]
    of level 1. *)
Definition two_levels : SymbolTable :=
[ mkEntry 0 "x" (SymValue.makeVar 0 0 TypeDesc.intDesc);
  mkEntry 1 "p" (SymValue.makeSbr SymValue.Procedure 0);
  mkEntry 2 "y" (SymValue.makeVar 1 0 TypeDesc.intDesc);
  mkEntry 3 "x" (SymValue.makeVar 1 1 TypeDesc.realDesc) ].

(** The code the compiler makes of a program, empty when it gives none. *)
Definition codeOf (r : Result nat) : InstrVector :=
  match r with
  | Ok _ s => code s
  | _ => []
  end.
End Samples.

(* ================================================================== *)
(** ** Assertions about the whole state *)

(** [Keeps P m]: a property of the compiler's state that holds when [m] is
    entered holds when it returns. *)
Definition Keeps (P : Comp -> Prop) {A} (m : M A) : Prop :=
  hoare false P m (fun _ => P).

Definition rec_Keeps (P : Comp -> Prop) (rec : Rec) : Prop :=
  (forall level, Keeps P (r_expression rec level)) /\
  (forall level, Keeps P (r_factor rec level)) /\
  (forall level, Keeps P (r_statement rec level)) /\
  (forall level p, Keeps P (r_type rec level p)) /\
  (forall val level, Keeps P (r_blockDecl rec val level)).

(** The state has counted one error for each diagnostic written since
    [n0] errors were counted and [d0] was on the error stream. *)
Definition counted (n0 : nat) (d0 : list Message) (s : Comp) : Prop :=
  exists d, diags s = d0 ++ d /\ nErrors s = (n0 + List.length d)%nat.

(** The built-in functions whose branches of [PComp::builtInFunc] differ
    in the opcode only. *)
Definition real_functions : list (Token.Kind * OpCode.t) :=
  [ (Token.Atan, OpCode.ATAN); (Token.Exp, OpCode.EXP);
    (Token.Log, OpCode.LOG); (Token.Sin, OpCode.SIN);
    (Token.Sqr, OpCode.SQR); (Token.Sqrt, OpCode.SQRT) ].

Definition rounding_functions : list (Token.Kind * OpCode.t) :=
  [ (Token.Round, OpCode.ROUND); (Token.Trunc, OpCode.TRUNC) ].

(** The size of the type a pointer refers to among the descriptors [ts],
    and of the types of a list of fields or variables together. *)
Definition sizeOf (ts : list TypeDesc.t) (p : TDescPtr) : Z :=
  match p with
  | Some i => match nth_error ts i with
              | Some d => TypeDesc.size d
              | None => 0
              end
  | None => 0
  end.

Definition sizeOfAll (ts : list TypeDesc.t) (fields : FieldVec) : Z :=
  fold_right (fun f sum => sizeOf ts (snd f) + sum) 0 fields.

(* ================================================================== *)
(** ** p.cc: the command line *)

Module Cmd.

(** What [help()], [printVersion()] and the complaint about an unknown
    option write. *)
Inductive Output :=
| Help
| Version
| UnknownParameter (c : ascii).

(** The statics of p.cc that [parseCommandline] reads and writes, and what
    it has written. *)
Record t := mk {
  inputFile : string;
  verbose : bool;
  out : list Output
}.

(** [static string inputFile {"-"}; static bool verbose = false;] *)
Definition initial : t := mk "-" false [].

Definition set_inputFile (f : string) (o : t) : t :=
  mk f (verbose o) (out o).
Definition set_verbose (o : t) : t := mk (inputFile o) true (out o).
Definition write (x : Output) (o : t) : t :=
  mk (inputFile o) (verbose o) (out o ++ [x]).

(** [for (unsigned n = 1; n < arg.size(); ++n) switch(arg[n]) ...]: the
    characters of an argument behind its ['-']. *)
Fixpoint options (cs : string) (o : t) : bool * t :=
  match cs with
  | EmptyString => (true, o)
  | String c rest =>
      if Ascii.eqb c "?" then (false, write Help o)
      else if Ascii.eqb c "v" then options rest (set_verbose o)
      else if Ascii.eqb c "V" then options rest (write Version o)
      else (false, write (UnknownParameter c) o)
  end.

(** [parseCommandline]: the loop over the arguments, and the default that
    follows it. *)
Fixpoint parseCommandline (args : list string) (o : t) : bool * t :=
  match args with
  | [] =>
      (true, if String.eqb (inputFile o) "" then set_inputFile "-" o else o)
  | arg :: rest =>
      if String.eqb arg "" then parseCommandline rest o       (* skip "" *)
      else if String.eqb "-" arg
      then parseCommandline rest (set_inputFile arg o)
      else if String.eqb "-help" arg then (false, write Help o)
      else if String.eqb "-verbose" arg
      then parseCommandline rest (set_verbose o)
      else if String.eqb "-version" arg
      then parseCommandline rest (write Version o)
      else
        match arg with
        | String "-" cs =>                        (* parse -options... *)
            match options cs o with
            | (true, o') => parseCommandline rest o'
            | (false, o') => (false, o')
            end
        | _ => parseCommandline rest (set_inputFile arg o)
        end
  end.

(** The arguments that name the input: ["-"], and what does not start
    with ['-']. *)
Definition names_input (arg : string) : bool :=
  match arg with
  | EmptyString => false
  | String "-" EmptyString => true
  | String "-" _ => false
  | _ => true
  end.

End Cmd.

(** [main] of p.cc: a command line that does not parse counts as one
    error, and nothing is compiled; otherwise the input file is compiled
    and, without errors, run.  [read] stands for the tokenizer on the file
    of a name. *)
Definition p_main (fuel steps : nat) (read : string -> list Token.t)
  (args : list string) : option (nat * option PInterp.Result) :=
  match Cmd.parseCommandline args Cmd.initial with
  | (false, _) => Some (1%nat, None)
  | (true, o) => main fuel steps (read (Cmd.inputFile o))
  end.

(** States of the compiler in front of a production, for the examples. *)
Module Cases.

Definition K := Token.ofKind.

(** The compiler as constructed, at the token [t] with [rest] to come. *)
Definition at_tokens (t : Token.t) (rest : list Token.t) : Comp :=
  set_cur t rest PComp_new.

(** [round(1.5)], [sqrt(true)] and [ord(1.5)]. *)
Definition round_real : Comp :=
  at_tokens (K Token.Round)
            [K Token.OpenParen; Token.real 1.5; K Token.CloseParen].
Definition sqrt_true : Comp :=
  at_tokens (K Token.Sqrt)
            [K Token.OpenParen; Token.ident "true"; K Token.CloseParen].
Definition ord_real : Comp :=
  at_tokens (K Token.Ord)
            [K Token.OpenParen; Token.real 1.5; K Token.CloseParen].

(** [program p; var a : array [foo] of integer; begin end.] *)
Definition array_of_foo : list Token.t :=
  [ K Token.ProgDecl; Token.ident "p"; K Token.SemiColon;
    K Token.VarDecl; Token.ident "a"; K Token.Colon; K Token.Array;
    K Token.OpenBrkt; Token.ident "foo"; K Token.CloseBrkt; K Token.Of;
    K Token.IntType; K Token.SemiColon;
    K Token.Begin; K Token.End; K Token.Period ].

(** [a, b : integer; c : real], as formal parameters, as the variables of
    a block, and as the fields of a record. *)
Definition three_parameters : Comp :=
  at_tokens (Token.ident "a")
            [K Token.Comma; Token.ident "b"; K Token.Colon; K Token.IntType;
             K Token.SemiColon; Token.ident "c"; K Token.Colon;
             K Token.RealType; K Token.CloseParen].
Definition three_variables : Comp :=
  at_tokens (K Token.VarDecl)
            [Token.ident "a"; K Token.Comma; Token.ident "b"; K Token.Colon;
             K Token.IntType; K Token.SemiColon; Token.ident "c";
             K Token.Colon; K Token.RealType; K Token.SemiColon;
             K Token.Begin].
Definition record_of_three : Comp :=
  at_tokens (K Token.Record)
            [Token.ident "a"; K Token.Comma; Token.ident "b"; K Token.Colon;
             K Token.IntType; K Token.SemiColon; Token.ident "c";
             K Token.Colon; K Token.RealType; K Token.End].

(** [1 do], [1 then], [1 then else] and [until 1], behind [while], [if]
    and [repeat]: the statements are empty. *)
Definition while_do : Comp := at_tokens (Token.int 1) [K Token.Do].
Definition if_then : Comp := at_tokens (Token.int 1) [K Token.Then].
Definition if_then_else : Comp :=
  at_tokens (Token.int 1) [K Token.Then; K Token.Else].
Definition repeat_until : Comp := at_tokens (K Token.Until) [Token.int 1].

(** [1 do writeln], [1 then write else writeln] and [writeln until 1],
    behind [while], [if] and [repeat]. *)
Definition while_writeln : Comp :=
  at_tokens (Token.int 1) [K Token.Do; K Token.Writeln].
Definition if_write_else_writeln : Comp :=
  at_tokens (Token.int 1)
            [K Token.Then; K Token.Write; K Token.Else; K Token.Writeln].
Definition repeat_writeln : Comp :=
  at_tokens (K Token.Writeln) [K Token.Until; Token.int 1].

(** [(red, green)]. *)
Definition two_enums : Comp :=
  at_tokens (K Token.OpenParen)
            [Token.ident "red"; K Token.Comma; Token.ident "green";
             K Token.CloseParen].

(** The selector [b] of a record of an Integer [a] and a Real [b], whose
    descriptor is the sixth. *)
Definition at_selector : Comp :=
  set_types (types PComp_new
             ++ [TypeDesc.newRcrdDesc 2 [("a", TypeDesc.intDesc);
                                         ("b", TypeDesc.realDesc)]])
            (at_tokens (Token.ident "b") []).

(** [()] behind the name of a procedure [q] of one Integer parameter. *)
Definition call_q : Comp :=
  set_symtbl
    (PComp_symtbl
     ++ [mkEntry 8 "q"
           (SymValue.push_param TypeDesc.intDesc
              (SymValue.makeSbr SymValue.Procedure 0))])
    9 (at_tokens (K Token.OpenParen) [K Token.CloseParen]).

(** A state whose sixth descriptor is [array [1..5] of integer]. *)
Definition with_array : Comp :=
  set_types (types PComp_new
             ++ [TypeDesc.newArrayDesc 5 (mkSubRange 1 5)
                   TypeDesc.intDesc TypeDesc.intDesc])
            PComp_new.

End Cases.

(* ================================================================== *)
(** * The PL/0 compiler (pl0com.cc)

    The first compiler of the repository, for the grammar at the head of
    pl0com.h.  Its headers pl0.h, token.h and symbol.h are not among the
    sources: the opcodes, the token kinds and the members of a symbol are
    those pl0com.cc names; the symbol table is a list of entries in the
    order of their insertion, which is the order a multimap keeps among the
    entries of one name.  The state is threaded as for the P compiler;
    [Crash] stands for undefined behaviour, the dereference of [end()]. *)

Module PL0.

(** [pl0::OpCode], as far as the compiler emits it. *)
Module OpCode.
Inductive t :=
| pushConst | pushVar | pop | call | enter | ret | jump | jneq
| neg | add | sub | mul | div | odd | equ | neq | lt | lte | gt | gte.
End OpCode.

(** [pl0::Instr]: [{op, level, addr}], the level an [int8_t]. *)
Record Instr := mkInstr {
  op : OpCode.t;
  level : Z;
  addr : Z
}.

Definition newInstr (o : OpCode.t) (l : Z) (a : Z) : Instr :=
  mkInstr o (wrap8 l) a.

Definition set_addr (a : Z) (i : Instr) : Instr := mkInstr (op i) (level i) a.

(** [Token::Kind], as far as the compiler tests it ([end], [then] and
    [repeat] are written with an underscore); [eos] is what the stream
    delivers at its end. *)
Module Token.
Inductive Kind :=
| identifier | number | lparen | rparen
| mul | div | add | sub | odd | lte | lt | equ | gt | gte | neq
| assign | call | begin | end_ | scomma | If | then_ | Else | While | Do
| repeat_ | until | constDecl | varDecl | procDecl | comma | period | eos.

Scheme Equality for Kind.

Definition eqb := Kind_beq.

Record t := mk {
  kind : Kind;
  string_value : string;
  number_value : Z
}.

Definition K (k : Kind) : t := mk k "" 0.
Definition ident (s : string) : t := mk identifier s 0.
Definition num (n : Z) : t := mk number "" n.
End Token.

(** [SymValue]: [{kind, level, value}]; the kind [identifier] is that of a
    variable. *)
Module SymValue.
Inductive Kind := constant | identifier | proc.

Record t := mk {
  kind : Kind;
  level : Z;
  value : Z
}.
End SymValue.

(** An element of the table, with the identity an iterator stands for. *)
Record Entry := mkEntry {
  eid : nat;
  ename : string;
  esym : SymValue.t
}.

Definition SymbolTable := list Entry.

(** What [error] writes. *)
Inductive Piece :=
| Text (s : string)
| KindOf (k : Token.Kind).

Definition Message := list Piece.

Record Comp := mkComp {
  cur : Token.t;
  input : list Token.t;
  code : list Instr;
  symtbl : SymbolTable;
  nextId : nat;
  nErrors : nat;
  diags : list Message
}.

Inductive Result (A : Type) :=
| Ok (a : A) (s : Comp)
| Crash
| OutOfFuel.
Arguments Ok {A} a s.
Arguments Crash {A}.
Arguments OutOfFuel {A}.

Definition M (A : Type) := Comp -> Result A.

Definition pure {A} (a : A) : M A := fun s => Ok a s.

Definition bind {A B} (m : M A) (k : A -> M B) : M B :=
  fun s => match m s with
           | Ok a s' => k a s'
           | Crash => Crash
           | OutOfFuel => OutOfFuel
           end.

Definition crash {A} : M A := fun _ => Crash.
Definition outOfFuel {A} : M A := fun _ => OutOfFuel.
Definition get : M Comp := fun s => Ok s s.

Declare Scope pl0_scope.
Delimit Scope pl0_scope with pl0.
Notation "x <- m ;; k" := (bind m (fun x => k))
  (at level 200, m at level 99, k at level 200) : pl0_scope.
Notation "m ;; k" := (bind m (fun _ => k))
  (at level 200, k at level 200) : pl0_scope.
Notation "'ifM' c 'then' a 'else' b" :=
  (bind c (fun x : bool => if x then a else b))
  (at level 10, c at level 200, a at level 200, b at level 200)
  : pl0_scope.
#[local] Open Scope pl0_scope.

(** [PL0Comp::error(const string&)]: writes the message and increments the
    error count. *)
Definition error (m : Message) : M unit :=
  fun s => Ok tt (mkComp (cur s) (input s) (code s) (symtbl s) (nextId s)
                         (S (nErrors s)) (diags s ++ [m])).

(** [PL0Comp::error(const string& s, const string& t)]. *)
Definition error2 (s t : string) : M unit :=
  error [Text s; Text " '"; Text t; Text "'"].

(** [PL0Comp::next]: [ts.get()]. *)
Definition next : M Token.t :=
  fun s => match input s with
           | [] => Ok (Token.K Token.eos)
                      (mkComp (Token.K Token.eos) [] (code s) (symtbl s) (nextId s)
                              (nErrors s) (diags s))
           | t :: rest =>
               Ok t (mkComp t rest (code s) (symtbl s) (nextId s)
                            (nErrors s) (diags s))
           end.

(** [current()]: the kind of the current token. *)
Definition current : M Token.Kind := fun s => Ok (Token.kind (cur s)) s.

(** [ts.current().string_value] and [ts.current().number_value]. *)
Definition ts_current : M Token.t := fun s => Ok (cur s) s.

(** [PL0Comp::emit]. *)
Definition emit (o : OpCode.t) (l : Z) (a : Z) : M nat :=
  fun s => Ok (List.length (code s))
              (mkComp (cur s) (input s) (code s ++ [newInstr o l a])
                      (symtbl s) (nextId s) (nErrors s) (diags s)).

(** [PL0Comp::accept]. *)
Definition accept (k : Token.Kind) (g : bool) : M bool :=
  c <- current ;;
  if Token.eqb c k
  then (if g then next ;; pure true else pure true)
  else pure false.

(** [PL0Comp::expect]. *)
Definition expect (k : Token.Kind) (g : bool) : M bool :=
  ifM accept k g then pure true
  else c <- current ;;
       error [Text "expected"; Text " '"; KindOf k; Text "' got '"; KindOf c;
              Text "'"] ;;
       pure false.

(** [code[pc].addr = a]. *)
Fixpoint patch_at (pc : nat) (a : Z) (c : list Instr) : option (list Instr) :=
  match c, pc with
  | [], _ => None
  | i :: c', O => Some (set_addr a i :: c')
  | i :: c', S n =>
      match patch_at n a c' with
      | Some r => Some (i :: r)
      | None => None
      end
  end.

Definition patch (pc : nat) (a : Z) : M unit :=
  fun s => match patch_at pc a (code s) with
           | Some c => Ok tt (mkComp (cur s) (input s) c (symtbl s)
                                     (nextId s) (nErrors s) (diags s))
           | None => Crash
           end.

Definition code_size : M nat := fun s => Ok (List.length (code s)) s.

Definition set_symtbl (t : SymbolTable) (n : nat) (s : Comp) : Comp :=
  mkComp (cur s) (input s) (code s) t n (nErrors s) (diags s).

(** [symtbl.equal_range(name)]. *)
Definition equal_range (name : string) (tbl : SymbolTable) : list Entry :=
  filter (fun e => String.eqb (ename e) name) tbl.

(** Modelled from the spec: the symbol table is a multimap keyed by
    identifier (symbol.h is not among the sources).  Of the name of no
    entry, both ends of [symtbl.equal_range(name)] are
    [symtbl.upper_bound(name)]: the first entry of the next greater name,
    [end()] where no name is greater. *)
Fixpoint upper_bound_from (best : option Entry) (name : string)
    (tbl : SymbolTable) : option Entry :=
  match tbl with
  | [] => best
  | e :: tbl' =>
      upper_bound_from
        (if String.ltb name (ename e)
         then match best with
              | Some b => if String.ltb (ename e) (ename b) then Some e else best
              | None => Some e
              end
         else best)
        name tbl'
  end.

Definition upper_bound (name : string) (tbl : SymbolTable) : option Entry :=
  upper_bound_from None name tbl.

(** [symtbl.insert({name, value})]. *)
Definition insert (name : string) (v : SymValue.t) : M nat :=
  fun s => Ok (nextId s)
              (set_symtbl (symtbl s ++ [mkEntry (nextId s) name v])
                          (S (nextId s)) s).

(** [it->second.value = a]. *)
Definition set_value (i : nat) (a : Z) : M unit :=
  fun s =>
    if existsb (fun e => Nat.eqb (eid e) i) (symtbl s)
    then Ok tt (set_symtbl
                  (map (fun e => if Nat.eqb (eid e) i
                                 then mkEntry (eid e) (ename e)
                                        (SymValue.mk (SymValue.kind (esym e))
                                           (SymValue.level (esym e)) a)
                                 else e) (symtbl s))
                  (nextId s) s)
    else Crash.

(** The search for the closest declaration, which [identifier],
    [assignStmt] and [callStmt] repeat:
<<
    auto closest = range.first;
    for (auto it = range.first; it != range.second; ++it)
        if (it->second.level > closest->second.level) closest = it;
>> *)
Fixpoint closest (c : Entry) (r : list Entry) : Entry :=
  match r with
  | [] => c
  | e :: r' => closest (if SymValue.level (esym e) >? SymValue.level (esym c) then e else c) r'
  end.

(** Whether a name has a declaration of a level: the loops of the
    declarations [if (it->second.level == level)]. *)
Definition defined_at (l : Z) (name : string) (tbl : SymbolTable) : bool :=
  existsb (fun e => SymValue.level (esym e) =? l) (equal_range name tbl).

(** The loop that ends [PL0Comp::block]. *)
Definition purge (l : Z) : M unit :=
  fun s => Ok tt (set_symtbl
                    (filter (fun e => negb (SymValue.level (esym e) =? l)) (symtbl s))
                    (nextId s) s).

(** The productions that call themselves through another take them from
    [rec], with less fuel. *)
Record Rec := mkRec {
  r_expression : Z -> M unit;
  r_statement : Z -> M unit;
  r_block : nat -> Z -> M unit
}.

Section Productions.

Variable rec : Rec.
Variable fuel : nat.

(** [PL0Comp::identifier].  Where the name has no declaration the search
    starts, and ends, at [range.first] of the empty range. *)
Definition identifier (l : Z) : M unit :=
  t <- ts_current ;;
  let name := Token.string_value t in
  ifM expect Token.identifier true then
    s <- get ;;
    let range := equal_range name (symtbl s) in
    match range with
    | [] => error2 "Undefined identifier" name
    | _ :: _ => pure tt
    end ;;
    match match range with
          | [] => upper_bound name (symtbl s)
          | e :: r => Some (closest e (e :: r))
          end with
    | None => crash                 (* closest->second, closest == end() *)
    | Some c =>
        match SymValue.kind (esym c) with
        | SymValue.constant => emit OpCode.pushConst 0 (SymValue.value (esym c)) ;; pure tt
        | _ =>                            (* mutable variable *)
            emit OpCode.pushVar (l - SymValue.level (esym c)) (SymValue.value (esym c)) ;; pure tt
        end
    end
  else pure tt.

(** [PL0Comp::factor]. *)
Definition factor (l : Z) : M unit :=
  ifM accept Token.identifier false then identifier l
  else ifM accept Token.number false then
    t <- ts_current ;;
    emit OpCode.pushConst 0 (Token.number_value t) ;;
    expect Token.number true ;;
    pure tt
  else ifM accept Token.lparen true then
    r_expression rec l ;;
    expect Token.rparen true ;;
    pure tt
  else
    c <- current ;;
    error [Text "factor: syntax error; expected ident | num | { expr }, but got:";
           Text " '"; KindOf c; Text "'"] ;;
    next ;;
    pure tt.

(** [PL0Comp::terminal], the loop. *)
Fixpoint terminal_loop (n : nat) (l : Z) : M unit :=
  match n with
  | O => outOfFuel
  | S n' =>
      k <- current ;;
      match k with
      | Token.mul => next ;; factor l ;; emit OpCode.mul 0 0 ;; terminal_loop n' l
      | Token.div => next ;; factor l ;; emit OpCode.div 0 0 ;; terminal_loop n' l
      | _ => pure tt
      end
  end.

(** [PL0Comp::terminal]. *)
Definition terminal (l : Z) : M unit :=
  factor l ;; terminal_loop fuel l.

(** [PL0Comp::expression], the loop. *)
Fixpoint expression_loop (n : nat) (l : Z) : M unit :=
  match n with
  | O => outOfFuel
  | S n' =>
      k <- current ;;
      match k with
      | Token.add => next ;; terminal l ;; emit OpCode.add 0 0 ;; expression_loop n' l
      | Token.sub => next ;; terminal l ;; emit OpCode.sub 0 0 ;; expression_loop n' l
      | _ => pure tt
      end
  end.

(** [PL0Comp::expression]. *)
Definition expression (l : Z) : M unit :=
  unary <- current ;;                       (* unary [ +|-]? *)
  (match unary with
   | Token.add | Token.sub => next ;; pure tt
   | _ => pure tt
   end) ;;
  terminal l ;;
  (match unary with
   | Token.sub => emit OpCode.neg 0 0 ;; pure tt         (* ignore unary +! *)
   | _ => pure tt
   end) ;;
  expression_loop fuel l.

(** The opcode of a relational operator: the [switch] of
    [PL0Comp::condition]. *)
Definition relational (k : Token.Kind) : option OpCode.t :=
  match k with
  | Token.lte => Some OpCode.lte
  | Token.lt => Some OpCode.lt
  | Token.equ => Some OpCode.equ
  | Token.gt => Some OpCode.gt
  | Token.gte => Some OpCode.gte
  | Token.neq => Some OpCode.neq
  | _ => None
  end.

(** [accept(Token::lte) || accept(Token::lt) || accept(Token::equ) ||
    accept(Token::gt) || accept(Token::gte) || accept(Token::neq)]. *)
Definition accept_relational : M bool :=
  ifM accept Token.lte true then pure true
  else ifM accept Token.lt true then pure true
  else ifM accept Token.equ true then pure true
  else ifM accept Token.gt true then pure true
  else ifM accept Token.gte true then pure true
  else accept Token.neq true.

(** [PL0Comp::condition]. *)
Definition condition (l : Z) : M unit :=
  ifM accept Token.odd true then
    expression l ;; emit OpCode.odd 0 0 ;; pure tt
  else
    expression l ;;
    o <- current ;;
    ifM accept_relational
    then
      expression l ;;
      match relational o with
      | Some c => emit c 0 0 ;; pure tt
      | None => crash                       (* assert(false) *)
      end
    else pure tt.

(** [PL0Comp::assignStmt]. *)
Definition assignStmt (l : Z) : M unit :=
  t <- ts_current ;;
  let name := Token.string_value t in
  next ;;                                   (* Consume the identifier *)
  s <- get ;;
  let range := equal_range name (symtbl s) in
  (match range with
   | [] => error2 "undefined variable" name
   | _ => pure tt
   end) ;;
  expect Token.assign true ;;                     (* Consume "=" *)
  expression l ;;
  match range with
  | [] => pure tt
  | e :: r =>
      let c := closest e (e :: r) in
      match SymValue.kind (esym c) with
      | SymValue.identifier => emit OpCode.pop (l - SymValue.level (esym c)) (SymValue.value (esym c)) ;; pure tt
      | _ => error2 "identifier is not mutable" name
      end
  end.

(** [PL0Comp::callStmt]. *)
Definition callStmt (l : Z) : M unit :=
  t <- ts_current ;;
  let name := Token.string_value t in
  expect Token.identifier true ;;
  s <- get ;;
  match equal_range name (symtbl s) with
  | [] => error2 "undefiend identifier" name
  | e :: r =>
      let c := closest e (e :: r) in
      match SymValue.kind (esym c) with
      | SymValue.proc => emit OpCode.call (l - SymValue.level (esym c)) (SymValue.value (esym c)) ;; pure tt
      | _ => error2 "Identifier is not a prodedure" name
      end
  end.

(** [PL0Comp::whileStmt]. *)
Definition whileStmt (l : Z) : M unit :=
  cond_pc <- code_size ;;
  condition l ;;
  jmp_pc <- emit OpCode.jneq 0 0 ;;
  expect Token.Do true ;;
  r_statement rec l ;;
  emit OpCode.jump 0 (Z.of_nat cond_pc) ;;
  sz <- code_size ;;
  patch jmp_pc (Z.of_nat sz).

(** [PL0Comp::ifStmt]. *)
Definition ifStmt (l : Z) : M unit :=
  condition l ;;
  jmp_pc <- emit OpCode.jneq 0 0 ;;
  expect Token.then_ true ;;
  r_statement rec l ;;
  els <- accept Token.Else true ;;
  else_pc <- (if els then emit OpCode.jump 0 0 else pure O) ;;
  sz <- code_size ;;
  patch jmp_pc (Z.of_nat sz) ;;
  if els then
    r_statement rec l ;;
    sz' <- code_size ;;
    patch else_pc (Z.of_nat sz')
  else pure tt.

(** [PL0Comp::repeatStmt]. *)
Definition repeatStmt (l : Z) : M unit :=
  loop_pc <- code_size ;;
  r_statement rec l ;;
  expect Token.until true ;;
  condition l ;;
  emit OpCode.jneq 0 (Z.of_nat loop_pc) ;;
  pure tt.

(** [PL0Comp::statement], the loop of [begin ... end]. *)
Fixpoint statements (n : nat) (l : Z) : M unit :=
  match n with
  | O => outOfFuel
  | S n' =>
      r_statement rec l ;;
      ifM accept Token.scomma true then statements n' l else pure tt
  end.

(** [PL0Comp::statement]. *)
Definition statement (l : Z) : M unit :=
  ifM accept Token.identifier false then assignStmt l
  else ifM accept Token.call true then callStmt l
  else ifM accept Token.begin true then
    statements fuel l ;;
    expect Token.end_ true ;;
    pure tt
  else ifM accept Token.If true then ifStmt l
  else ifM accept Token.While true then whileStmt l
  else ifM accept Token.repeat_ true then repeatStmt l
  else pure tt.                             (* else: nothing *)

(** [PL0Comp::constDecl]. *)
Definition constDecl (l : Z) : M unit :=
  t <- ts_current ;;
  let name := Token.string_value t in
  expect Token.identifier true ;;                 (* Consume the identifier *)
  expect Token.assign true ;;                     (* Consume the "=" *)
  ifM expect Token.number false then
    t' <- ts_current ;;
    next ;;                                 (* Consume the number *)
    s <- get ;;
    if defined_at l name (symtbl s)
    then error2 "identifier has previously been defined" name
    else insert name (SymValue.mk SymValue.constant l (Token.number_value t')) ;; pure tt
  else pure tt.

(** [PL0Comp::varDecl]. *)
Definition varDecl (offset : Z) (l : Z) : M Z :=
  t <- ts_current ;;
  let name := Token.string_value t in
  ifM expect Token.identifier true then
    s <- get ;;
    if defined_at l name (symtbl s)
    then error2 "identifer has previously been defined" name ;; pure offset
    else insert name (SymValue.mk SymValue.identifier l offset) ;; pure (offset + 1)
  else pure offset.

(** The search of [procDecl] for a declaration of the level, which does
    not stop at the first: one diagnostic for each. *)
Fixpoint procDecl_defined (l : Z) (name : string) (r : list Entry) : M unit :=
  match r with
  | [] => pure tt
  | e :: r' =>
      (if SymValue.level (esym e) =? l
       then error2 "identifier has previously been defined" name
       else pure tt) ;;
      procDecl_defined l name r'
  end.

(** [PL0Comp::procDecl]. *)
Definition procDecl (l : Z) : M unit :=
  t <- ts_current ;;
  let name := Token.string_value t in
  ifM expect Token.identifier true then
    s <- get ;;
    procDecl_defined l name (equal_range name (symtbl s)) ;;
    it <- insert name (SymValue.mk SymValue.proc l 0) ;;
    expect Token.scomma true ;;                   (* procedure name ";" *)
    r_block rec it (l + 1) ;;
    expect Token.scomma true ;;
    pure tt
  else pure tt.

(** The loops of [PL0Comp::block]. *)
Fixpoint constDecls (n : nat) (l : Z) : M unit :=
  match n with
  | O => outOfFuel
  | S n' =>
      constDecl l ;;
      ifM accept Token.comma true then constDecls n' l else pure tt
  end.

Fixpoint varDecls (n : nat) (dx : Z) (l : Z) : M Z :=
  match n with
  | O => outOfFuel
  | S n' =>
      dx' <- varDecl dx l ;;
      ifM accept Token.comma true then varDecls n' dx' l else pure dx'
  end.

Fixpoint procDecls (n : nat) (l : Z) : M unit :=
  match n with
  | O => outOfFuel
  | S n' =>
      ifM accept Token.procDecl true then procDecl l ;; procDecls n' l
      else pure tt
  end.

(** [PL0Comp::block]. *)
Definition block (it : nat) (l : Z) : M unit :=
  jmp_pc <- emit OpCode.jump 0 0 ;;                (* Addr to be patched below.. *)
  (ifM accept Token.constDecl true then
     constDecls fuel l ;; expect Token.scomma true ;; pure tt
   else pure tt) ;;
  dx <- (ifM accept Token.varDecl true then
           dx <- varDecls fuel 3 l ;; expect Token.scomma true ;; pure dx
         else pure 3) ;;
  procDecls fuel l ;;
  a <- emit OpCode.enter 0 dx ;;
  set_value it (Z.of_nat a) ;;
  patch jmp_pc (Z.of_nat a) ;;
  statement l ;;                            (* block body... *)
  emit OpCode.ret 0 0 ;;                           (* block postfix *)
  purge l.

End Productions.

(** The constants and the variables of [PL0Comp::block]: the two parts
    in front of its procedures. *)
Definition block_consts (fuel : nat) (l : Z) : M unit :=
  ifM accept Token.constDecl true then
    constDecls fuel l ;; expect Token.scomma true ;; pure tt
  else pure tt.

Definition block_vars (fuel : nat) (l : Z) : M Z :=
  ifM accept Token.varDecl true then
    dx <- varDecls fuel 3 l ;; expect Token.scomma true ;; pure dx
  else pure 3.

(** The productions with [fuel] units of fuel. *)
Fixpoint prods (fuel : nat) : Rec :=
  match fuel with
  | O => mkRec (fun _ => outOfFuel) (fun _ => outOfFuel)
               (fun _ _ => outOfFuel)
  | S f => mkRec (expression (prods f) f) (statement (prods f) f)
                 (block (prods f) f)
  end.

(** [PL0Comp::PL0Comp]: the table holds the procedure [main]. *)
Definition new : Comp :=
  mkComp (Token.K Token.eos) [] []
         [mkEntry 0 "main" (SymValue.mk SymValue.proc 0 0)] 1 0 [].

(** [PL0Comp::run]. *)
Definition run (fuel : nat) : M unit :=
  next ;;
  s <- get ;;
  match equal_range "main" (symtbl s) with
  | [] => crash                             (* assert *)
  | e :: _ =>
      block (prods fuel) fuel (eid e) 0 ;;
      expect Token.period true ;;
      pure tt
  end.

(** The compiler bound to the tokens [source]. *)
Definition bound (source : list Token.t) : Comp :=
  mkComp (cur new) source (code new) (symtbl new) (nextId new) (nErrors new)
         (diags new).

(** [PL0Comp::operator()]: the number of errors, and the code.  The name
    ["-"] is standard input, of the tokens [cin]; of any other name
    [files] gives the tokens of the file, or nothing when the file does
    not open: that is reported, and [run()] is not called. *)
Definition compile (fuel : nat) (cin : list Token.t)
  (files : string -> option (list Token.t)) (inFile : string)
  : Result nat :=
  match (if String.eqb "-" inFile then run fuel (bound cin)
         else match files inFile with
              | Some source => run fuel (bound source)
              | None => error2 "error opening soruce file" inFile new
              end) with
  | Ok _ s => Ok (nErrors s) s
  | Crash => Crash
  | OutOfFuel => OutOfFuel
  end.

(** The state behind [next()], and behind [emit(op, level, addr)]. *)
Definition advanced (s : Comp) : Comp :=
  match input s with
  | [] => mkComp (Token.K Token.eos) [] (code s) (symtbl s) (nextId s)
                 (nErrors s) (diags s)
  | t :: rest => mkComp t rest (code s) (symtbl s) (nextId s) (nErrors s)
                        (diags s)
  end.

Definition emitted (i : Instr) (s : Comp) : Comp :=
  mkComp (cur s) (input s) (code s ++ [i]) (symtbl s) (nextId s) (nErrors s)
         (diags s).

Definition reported (m : Message) (s : Comp) : Comp :=
  mkComp (cur s) (input s) (code s) (symtbl s) (nextId s) (S (nErrors s))
         (diags s ++ [m]).

(** [Inv J m]: a property of the code vector that holds when [m] is
    entered holds when it returns. *)
Definition Inv (J : list Instr -> Prop) {A} (m : M A) : Prop :=
  forall s, J (code s) ->
    match m s with
    | Ok _ s' => J (code s')
    | _ => True
    end.

(** The first [b] instructions are [c0]. *)
Definition prefix (b : nat) (c0 c : list Instr) : Prop :=
  (b <= List.length c)%nat /\ firstn b c = c0.

Definition rec_prefix (rec : Rec) : Prop :=
  forall b c0,
    (forall l, Inv (prefix b c0) (r_expression rec l)) /\
    (forall l, Inv (prefix b c0) (r_statement rec l)) /\
    (forall it l, Inv (prefix b c0) (r_block rec it l)).

(** The tokens of the list of names [x1, x2, ..., xk], the state that
    stands at the tokens [ts], and the variables [names] of the level [l]
    as elements of the table: one slot each from [dx] on, one identity
    each from [id] on. *)
Fixpoint name_list (names : list string) : list Token.t :=
  match names with
  | [] => []
  | x :: rest =>
      Token.ident x
      :: match rest with
         | [] => []
         | _ :: _ => Token.K Token.comma :: name_list rest
         end
  end.

Definition at_input (ts : list Token.t) (s : Comp) : Comp :=
  mkComp (hd (Token.K Token.eos) ts) (tl ts) (code s) (symtbl s) (nextId s)
         (nErrors s) (diags s).

Fixpoint var_entries (id : nat) (l dx : Z) (names : list string)
  : list Entry :=
  match names with
  | [] => []
  | x :: rest =>
      mkEntry id x (SymValue.mk SymValue.identifier l dx)
      :: var_entries (S id) l (dx + 1) rest
  end.

(** The compiler as constructed, at the token [t] with [rest] to come. *)
Definition at_tokens (t : Token.t) (rest : list Token.t) : Comp :=
  mkComp t rest [] (symtbl new) (nextId new) 0 [].

(** [var x, y; begin x := 1 end.] *)
Definition two_variables : list Token.t :=
  [ Token.K Token.varDecl; Token.ident "x"; Token.K Token.comma;
    Token.ident "y"; Token.K Token.scomma; Token.K Token.begin;
    Token.ident "x"; Token.K Token.assign; Token.num 1;
    Token.K Token.end_; Token.K Token.period ].

(** [var x; procedure p; begin x := 1 end; begin call p end.] *)
Definition one_procedure : list Token.t :=
  [ Token.K Token.varDecl; Token.ident "x"; Token.K Token.scomma;
    Token.K Token.procDecl; Token.ident "p"; Token.K Token.scomma;
    Token.K Token.begin; Token.ident "x"; Token.K Token.assign; Token.num 1;
    Token.K Token.end_; Token.K Token.scomma;
    Token.K Token.begin; Token.K Token.call; Token.ident "p";
    Token.K Token.end_; Token.K Token.period ].

End PL0.

(* ================================================================== *)
(** * Properties *)

(** ** The monad *)

Lemma bind_Ok {A B} (m : M A) (k : A -> M B) s b s' :
  bind m k s = Ok b s' <-> exists a s1, m s = Ok a s1 /\ k a s1 = Ok b s'.
Proof.
  unfold bind. split.
  - destruct (m s) as [a s1| |]; try discriminate. eauto.
  - intros (a & s1 & -> & H). exact H.
Qed.

Lemma bind_eq {A B} (m : M A) (k : A -> M B) s a s1 :
  m s = Ok a s1 -> bind m k s = k a s1.
Proof. unfold bind. intros ->. reflexivity. Qed.

Lemma accept_hit k s :
  Token.kind (cur s) = k -> accept k true s = bind next (fun _ => ret true) s.
Proof.
  intros <-. unfold accept, current, bind.
  replace (Token.eqb (Token.kind (cur s)) (Token.kind (cur s))) with true.
  - reflexivity.
  - symmetry. destruct (Token.kind (cur s)); reflexivity.
Qed.

Lemma accept_miss k g s :
  Token.eqb (Token.kind (cur s)) k = false -> accept k g s = Ok false s.
Proof. intros H. unfold accept, current, bind. rewrite H. reflexivity. Qed.

Lemma Token_eqb_eq a b : Token.eqb a b = true <-> a = b.
Proof.
  split.
  - apply Token.internal_Kind_dec_bl.
  - apply Token.internal_Kind_dec_lb.
Qed.

Lemma TypeDesc_eqb_eq a b : TypeDesc.eqb a b = true <-> a = b.
Proof.
  split.
  - apply TypeDesc.internal_Kind_dec_bl.
  - apply TypeDesc.internal_Kind_dec_lb.
Qed.

(** ** Promotion of the operands of a binary operator *)

(** The operator [k] met by a loop: the token is consumed, the right
    operand compiled, the operands promoted, the opcode emitted. *)
Ltac operator_step :=
  intros; unfold bind;
  repeat match goal with
         | H : Token.kind (cur ?s) = _ |- context [accept ?k true ?s] =>
             first [ rewrite (accept_hit k s H); unfold bind
                   | rewrite (accept_miss k true s) by (rewrite H; reflexivity) ]
         end;
  unfold next, ret;
  match goal with |- context [input ?s] => destruct (input s) end;
  reflexivity.

Lemma term_loop_operator rec fuel n level lhs s k o :
  In (k, o) term_operators -> Token.kind (cur s) = k ->
  term_loop rec fuel (S n) level lhs s =
  (next ;; rhs <- factor rec fuel level ;; t <- promote lhs rhs ;;
   emit0 o ;; term_loop rec fuel n level t) s.
Proof.
  intros Hin Hk. simpl in Hin.
  destruct Hin as [E|[E|[E|[E|[]]]]]; inversion E; subst o;
    rewrite <- H0 in Hk; clear E H0; cbn [term_loop]; operator_step.
Qed.

Lemma simpleExpr_loop_operator rec fuel n level lhs s k o :
  In (k, o) simpleExpr_operators -> Token.kind (cur s) = k ->
  simpleExpr_loop rec fuel (S n) level lhs s =
  (next ;; rhs <- unary rec fuel level ;; t <- promote lhs rhs ;;
   emit0 o ;; simpleExpr_loop rec fuel n level t) s.
Proof.
  intros Hin Hk. simpl in Hin.
  destruct Hin as [E|[E|[E|[]]]]; inversion E; subst o;
    rewrite <- H0 in Hk; clear E H0; cbn [simpleExpr_loop]; operator_step.
Qed.

Lemma expression_loop_operator rec fuel n level lhs s k o :
  In (k, o) expression_operators -> Token.kind (cur s) = k ->
  expression_loop rec fuel (S n) level lhs s =
  (next ;; rhs <- simpleExpr rec fuel level ;; t <- promote lhs rhs ;;
   emit0 o ;; expression_loop rec fuel n level t) s.
Proof.
  intros Hin Hk. simpl in Hin.
  destruct Hin as [E|[E|[E|[E|[E|[E|[]]]]]]]; inversion E; subst o;
    rewrite <- H0 in Hk; clear E H0; cbn [expression_loop]; operator_step.
Qed.

Lemma promote_cases lhs rhs l r s :
  deref lhs s = Ok l s -> deref rhs s = Ok r s ->
  promote lhs rhs s =
  if TypeDesc.eqb (TypeDesc.tclass l) (TypeDesc.tclass r) then Ok lhs s
  else if isAnInteger l && isAReal r
       then Ok rhs (emitted (newInstr OpCode.ITOR2 0 (DInt 0)) s)
  else if isAReal l && isAnInteger r
       then Ok lhs (emitted (newInstr OpCode.ITOR 0 (DInt 0)) s)
  else Ok lhs (add_error [PStr "incompatable binary types"] s).
Proof.
  intros Hl Hr. unfold promote.
  rewrite (bind_eq _ _ _ _ _ Hl), (bind_eq _ _ _ _ _ Hr).
  unfold isAnInteger, isAReal.
  destruct (TypeDesc.tclass l), (TypeDesc.tclass r); reflexivity.
Qed.

(** C3.  For every binary operator the operands are promoted before the
    opcode is emitted.  With an Integer on the left and a Real on the right
    [ITOR2] is emitted and the result is the right (Real) type; with a Real
    on the left and an Integer on the right [ITOR] is emitted and the
    result stays the left (Real) type; operands of one kind emit nothing;
    any other pair is reported as incompatible, and counted as an error. *)
Theorem promote_binary_operands :
  (forall lhs rhs l r s,
     deref lhs s = Ok l s -> deref rhs s = Ok r s ->
     (TypeDesc.tclass l = TypeDesc.Integer ->
      TypeDesc.tclass r = TypeDesc.Real ->
      promote lhs rhs s
      = Ok rhs (emitted (newInstr OpCode.ITOR2 0 (DInt 0)) s)) /\
     (TypeDesc.tclass l = TypeDesc.Real ->
      TypeDesc.tclass r = TypeDesc.Integer ->
      promote lhs rhs s
      = Ok lhs (emitted (newInstr OpCode.ITOR 0 (DInt 0)) s)) /\
     (TypeDesc.tclass l = TypeDesc.tclass r -> promote lhs rhs s = Ok lhs s) /\
     (TypeDesc.tclass l <> TypeDesc.tclass r ->
      ~ (TypeDesc.tclass l = TypeDesc.Integer
         /\ TypeDesc.tclass r = TypeDesc.Real) ->
      ~ (TypeDesc.tclass l = TypeDesc.Real
         /\ TypeDesc.tclass r = TypeDesc.Integer) ->
      promote lhs rhs s
      = Ok lhs (add_error [PStr "incompatable binary types"] s))) /\
  (forall rec fuel n level lhs s k o,
     Token.kind (cur s) = k ->
     (In (k, o) term_operators ->
      term_loop rec fuel (S n) level lhs s =
      (next ;; rhs <- factor rec fuel level ;; t <- promote lhs rhs ;;
       emit0 o ;; term_loop rec fuel n level t) s) /\
     (In (k, o) simpleExpr_operators ->
      simpleExpr_loop rec fuel (S n) level lhs s =
      (next ;; rhs <- unary rec fuel level ;; t <- promote lhs rhs ;;
       emit0 o ;; simpleExpr_loop rec fuel n level t) s) /\
     (In (k, o) expression_operators ->
      expression_loop rec fuel (S n) level lhs s =
      (next ;; rhs <- simpleExpr rec fuel level ;; t <- promote lhs rhs ;;
       emit0 o ;; expression_loop rec fuel n level t) s)).
Proof.
  split.
  - intros lhs rhs l r s Hl Hr. rewrite (promote_cases _ _ _ _ _ Hl Hr).
    unfold isAnInteger, isAReal. repeat split.
    + intros -> ->. reflexivity.
    + intros -> ->. reflexivity.
    + intros ->.
      replace (TypeDesc.eqb (TypeDesc.tclass r) (TypeDesc.tclass r)) with true.
      * reflexivity.
      * symmetry. apply TypeDesc_eqb_eq. reflexivity.
    + intros Hne H1 H2.
      destruct (TypeDesc.tclass l), (TypeDesc.tclass r);
        try reflexivity; try (exfalso; apply Hne; reflexivity);
        try (exfalso; apply H1; split; reflexivity);
        try (exfalso; apply H2; split; reflexivity).
  - intros rec fuel n level lhs s k o Hk. repeat split; intros Hin.
    + eapply term_loop_operator; eassumption.
    + eapply simpleExpr_loop_operator; eassumption.
    + eapply expression_loop_operator; eassumption.
Qed.

(** An Integer and a Real operand in the compiler's initial state. *)
Lemma promote_binary_operands_witness :
  promote TypeDesc.intDesc TypeDesc.realDesc PComp_new
  = Ok TypeDesc.realDesc (emitted (newInstr OpCode.ITOR2 0 (DInt 0)) PComp_new).
Proof.
  apply (proj1 promote_binary_operands TypeDesc.intDesc TypeDesc.realDesc
           (TypeDesc.newIntDesc TypeDesc.maxRange)
           (TypeDesc.mk TypeDesc.Real 1 (mkSubRange 0 0) None None [])
           PComp_new);
    reflexivity.
Defined.

(* ================================================================== *)
(** ** What a production keeps of the code emitted before it *)

Lemma Inv_ret J A (a : A) : Inv J (ret a).
Proof. intros s H. exact H. Qed.

Lemma Inv_bind J A B (m : M A) (k : A -> M B) :
  Inv J m -> (forall a, Inv J (k a)) -> Inv J (bind m k).
Proof.
  intros Hm Hk s H. unfold bind. specialize (Hm s H).
  destruct (m s) as [a s1| |]; auto. apply (Hk a s1 Hm).
Qed.

Lemma Inv_samecode J A (m : M A) :
  (forall s a s', m s = Ok a s' -> code s' = code s) -> Inv J m.
Proof.
  intros Hm s H. destruct (m s) as [a s1| |] eqn:E; auto.
  rewrite (Hm _ _ _ E). exact H.
Qed.

Lemma Inv_crash J A : Inv J (@crash A).
Proof. intros s H. exact I. Qed.

Lemma Inv_outOfFuel J A : Inv J (@outOfFuel A).
Proof. intros s H. reflexivity. Qed.

Lemma Inv_get J : Inv J get.
Proof. intros s H. exact H. Qed.

Lemma Inv_current J : Inv J current.
Proof. intros s H. exact H. Qed.

Lemma Inv_ts_current J : Inv J ts_current.
Proof. intros s H. exact H. Qed.

Lemma Inv_code_size J : Inv J code_size.
Proof. intros s H. exact H. Qed.

Lemma Inv_next J : Inv J next.
Proof. intros s H. unfold next. destruct (input s); exact H. Qed.

Lemma Inv_error J m : Inv J (error m).
Proof. intros s H. exact H. Qed.

Lemma Inv_insert J name v : Inv J (insert name v).
Proof. intros s H. exact H. Qed.

Lemma Inv_purge J level : Inv J (purge level).
Proof. intros s H. exact H. Qed.

Lemma Inv_entryOf J it : Inv J (entryOf it).
Proof.
  intros s H. unfold entryOf. destruct it as [i|]; [|exact I].
  destruct (find_entry i (symtbl s)); [exact H | exact I].
Qed.

Lemma Inv_deref J p : Inv J (deref p).
Proof.
  intros s H. unfold deref. destruct p as [i|]; [|exact I].
  destruct (nth_error (types s) i); [exact H | exact I].
Qed.

Lemma Inv_newDesc J d : Inv J (newDesc d).
Proof. intros s H. exact H. Qed.

Lemma Inv_modify_symtbl J f :
  Inv J (modify (fun s => set_symtbl (f s) (nextId s) s)).
Proof. intros s H. exact H. Qed.

Lemma Inv_modify_types J f : Inv J (modify (fun s => set_types (f s) s)).
Proof. intros s H. exact H. Qed.

Create HintDb inv discriminated.
#[export] Hint Resolve Inv_ret Inv_crash Inv_outOfFuel Inv_get Inv_current
  Inv_ts_current Inv_code_size Inv_next Inv_error Inv_insert Inv_purge
  Inv_entryOf Inv_deref Inv_newDesc Inv_modify_symtbl Inv_modify_types : inv.

(** One step through a production: a bind, a branch, or a production
    already dealt with. *)
Ltac inv_step :=
  cbv beta match zeta;
  lazymatch goal with
  | |- Inv _ (ret _) => apply Inv_ret
  | |- Inv _ (bind (if ?c then _ else _) _) => destruct c
  | |- Inv _ (bind (match ?x with _ => _ end) _) => destruct x
  | |- Inv _ (bind _ _) => apply Inv_bind; [ | intros ? ]
  | |- Inv _ (if ?c then _ else _) => destruct c
  | |- Inv _ (match ?x with _ => _ end) => destruct x
  | |- Inv _ _ => solve [auto with inv]
  end.

Ltac inv_auto := repeat inv_step.

Lemma Inv_error2 J s t : Inv J (error2 s t).
Proof. unfold error2. inv_auto. Qed.

Lemma Inv_accept J k g : Inv J (accept k g).
Proof. unfold accept. inv_auto. Qed.
#[export] Hint Resolve Inv_error2 Inv_accept : inv.

Lemma Inv_expect J k g : Inv J (expect k g).
Proof. unfold expect. inv_auto. Qed.

Lemma Inv_oneOf J ks : Inv J (oneOf ks).
Proof. unfold oneOf. inv_auto. Qed.

Lemma Inv_symOf J it : Inv J (symOf it).
Proof. unfold symOf. inv_auto. Qed.

Lemma Inv_updSym J i f : Inv J (updSym i f).
Proof. unfold updSym. inv_auto. Qed.

Lemma Inv_lookup J id : Inv J (lookup id).
Proof. unfold lookup. inv_auto. Qed.

Lemma Inv_updDesc J p f : Inv J (updDesc p f).
Proof. unfold updDesc. inv_auto. Qed.
#[export] Hint Resolve Inv_expect Inv_oneOf Inv_symOf Inv_updSym Inv_lookup
  Inv_updDesc : inv.

Lemma Inv_nameDecl J level p : Inv J (nameDecl level p).
Proof. unfold nameDecl. inv_auto. Qed.

Lemma Inv_Datum_integer J d : Inv J (Datum_integer d).
Proof. unfold Datum_integer. inv_auto. Qed.

Lemma Inv_constExpr J : Inv J constExpr.
Proof. unfold constExpr. inv_auto. Qed.
#[export] Hint Resolve Inv_nameDecl Inv_Datum_integer Inv_constExpr : inv.

(** The productions that declare names and types emit no code: they keep
    every property of the code vector. *)
Section Declarations.

Variable rec : Rec.
Variable fuel : nat.
Hypothesis rec_type : forall J level p, Inv J (r_type rec level p).
#[local] Hint Resolve rec_type : inv.

Lemma Inv_identifierList_loop J : forall n level p ids, Inv J (identifierList_loop n level p ids).
Proof. induction n; intros; cbn [identifierList_loop]; inv_auto. Qed.
#[local] Hint Resolve Inv_identifierList_loop : inv.

Lemma Inv_identifierList J : forall level p, Inv J (identifierList fuel level p).
Proof. intros; unfold identifierList; inv_auto. Qed.
#[local] Hint Resolve Inv_identifierList : inv.

Lemma Inv_ordinalType_enums J : forall ids level ty value enums, Inv J (ordinalType_enums level ty ids value enums).
Proof. induction ids; intros; cbn [ordinalType_enums]; inv_auto. Qed.
#[local] Hint Resolve Inv_ordinalType_enums : inv.

Lemma Inv_ordinalType J : forall level, Inv J (ordinalType fuel level).
Proof. intros; unfold ordinalType; inv_auto. Qed.
#[local] Hint Resolve Inv_ordinalType : inv.

Lemma Inv_simpleType J : forall level, Inv J (simpleType fuel level).
Proof. intros; unfold simpleType; inv_auto. Qed.
#[local] Hint Resolve Inv_simpleType : inv.

Lemma Inv_simpleTypeList_loop J : forall n level tdescs, Inv J (simpleTypeList_loop fuel n level tdescs).
Proof. induction n; intros; cbn [simpleTypeList_loop]; inv_auto. Qed.
#[local] Hint Resolve Inv_simpleTypeList_loop : inv.

Lemma Inv_simpleTypeList J : forall level, Inv J (simpleTypeList fuel level).
Proof. intros; unfold simpleTypeList; inv_auto. Qed.
#[local] Hint Resolve Inv_simpleTypeList : inv.

Lemma Inv_varDecl J : forall level p idents, Inv J (varDecl rec fuel level p idents).
Proof. intros; unfold varDecl; inv_auto. Qed.
#[local] Hint Resolve Inv_varDecl : inv.

Lemma Inv_varDeclList_loop J : forall n level p idents, Inv J (varDeclList_loop rec fuel n level p idents).
Proof. induction n; intros; cbn [varDeclList_loop]; inv_auto. Qed.
#[local] Hint Resolve Inv_varDeclList_loop : inv.

Lemma Inv_varDeclList_params J : forall idents dx, Inv J (varDeclList_params idents dx).
Proof. induction idents; intros; cbn [varDeclList_params]; inv_auto. Qed.
#[local] Hint Resolve Inv_varDeclList_params : inv.

Lemma Inv_varDeclList_defined J : forall r level name, Inv J (varDeclList_defined level name r).
Proof. induction r; intros; cbn [varDeclList_defined]; inv_auto. Qed.
#[local] Hint Resolve Inv_varDeclList_defined : inv.

Lemma Inv_varDeclList_install J : forall idents level dx, Inv J (varDeclList_install level idents dx).
Proof. induction idents; intros; cbn [varDeclList_install]; inv_auto. Qed.
#[local] Hint Resolve Inv_varDeclList_install : inv.

Lemma Inv_varDeclList J : forall level params p idents, Inv J (varDeclList rec fuel level params p idents).
Proof. intros; unfold varDeclList; inv_auto. Qed.
#[local] Hint Resolve Inv_varDeclList : inv.

Lemma Inv_fieldList J : forall level p fields, Inv J (fieldList rec fuel level p fields).
Proof. intros; unfold fieldList; inv_auto. Qed.
#[local] Hint Resolve Inv_fieldList : inv.

Lemma Inv_sizeOfFields J : forall fields W sum, Inv J (sizeOfFields W fields sum).
Proof. induction fields; intros; cbn [sizeOfFields]; inv_auto. Qed.
#[local] Hint Resolve Inv_sizeOfFields : inv.

Lemma Inv_structuredType_indexes J : forall indexes tdesc tp, Inv J (structuredType_indexes indexes tdesc tp).
Proof. induction indexes; intros; cbn [structuredType_indexes]; inv_auto. Qed.
#[local] Hint Resolve Inv_structuredType_indexes : inv.

Lemma Inv_structuredType J : forall level p, Inv J (structuredType rec fuel level p).
Proof. intros; unfold structuredType; inv_auto. Qed.
#[local] Hint Resolve Inv_structuredType : inv.

Lemma Inv_type J : forall level p, Inv J (type rec fuel level p).
Proof. intros; unfold type; inv_auto. Qed.
#[local] Hint Resolve Inv_type : inv.

Lemma Inv_typeDecl J : forall level, Inv J (typeDecl rec fuel level).
Proof. intros; unfold typeDecl; inv_auto. Qed.
#[local] Hint Resolve Inv_typeDecl : inv.

Lemma Inv_typeDeclList_loop J : forall n level, Inv J (typeDeclList_loop rec fuel n level).
Proof. induction n; intros; cbn [typeDeclList_loop]; inv_auto. Qed.
#[local] Hint Resolve Inv_typeDeclList_loop : inv.

Lemma Inv_typeDeclList J : forall level, Inv J (typeDeclList rec fuel level).
Proof. intros; unfold typeDeclList; inv_auto. Qed.
#[local] Hint Resolve Inv_typeDeclList : inv.

Lemma Inv_constDecl J : forall level, Inv J (constDecl level).
Proof. intros; unfold constDecl; inv_auto. Qed.
#[local] Hint Resolve Inv_constDecl : inv.

Lemma Inv_constDeclList_loop J : forall n level, Inv J (constDeclList_loop n level).
Proof. induction n; intros; cbn [constDeclList_loop]; inv_auto. Qed.
#[local] Hint Resolve Inv_constDeclList_loop : inv.

Lemma Inv_constDeclList J : forall level, Inv J (constDeclList fuel level).
Proof. intros; unfold constDeclList; inv_auto. Qed.
#[local] Hint Resolve Inv_constDeclList : inv.

Lemma Inv_varDeclBlock J : forall level, Inv J (varDeclBlock rec fuel level).
Proof. intros; unfold varDeclBlock; inv_auto. Qed.
#[local] Hint Resolve Inv_varDeclBlock : inv.

Lemma Inv_subPrefixDecl_params J : forall idents it, Inv J (subPrefixDecl_params it idents).
Proof. induction idents; intros; cbn [subPrefixDecl_params]; inv_auto. Qed.
#[local] Hint Resolve Inv_subPrefixDecl_params : inv.

Lemma Inv_subPrefixDecl J : forall level kind, Inv J (subPrefixDecl rec fuel level kind).
Proof. intros; unfold subPrefixDecl; inv_auto. Qed.
#[local] Hint Resolve Inv_subPrefixDecl : inv.

Lemma Inv_varSelector_fields J : forall flds selector ty offset, Inv J (varSelector_fields selector flds ty offset).
Proof. induction flds; intros; cbn [varSelector_fields]; inv_auto. Qed.
#[local] Hint Resolve Inv_varSelector_fields : inv.

End Declarations.

(** Appending an instruction, and patching one at or after [b], keep the
    first [b] instructions. *)
Lemma prefix_app b c0 c t : prefix b c0 c -> prefix b c0 (c ++ t).
Proof.
  intros [Hb Hc]. split.
  - rewrite length_app. lia.
  - rewrite firstn_app. replace (b - List.length c)%nat with O by lia.
    rewrite firstn_O, app_nil_r. exact Hc.
Qed.

Lemma patch_at_length pc a c c' :
  patch_at pc a c = Some c' -> List.length c' = List.length c.
Proof.
  revert pc c'. induction c as [|i c IH]; intros pc c' H.
  - destruct pc; discriminate.
  - destruct pc as [|n]; simpl in H.
    + injection H as <-. reflexivity.
    + destruct (patch_at n a c) as [r|] eqn:E; [|discriminate].
      injection H as <-. simpl. f_equal. eapply IH. exact E.
Qed.

Lemma patch_at_firstn pc a c c' b :
  patch_at pc a c = Some c' -> (b <= pc)%nat -> firstn b c' = firstn b c.
Proof.
  revert pc c' b. induction c as [|i c IH]; intros pc c' b H Hb.
  - destruct pc; discriminate.
  - destruct pc as [|n]; simpl in H.
    + replace b with O by lia. reflexivity.
    + destruct (patch_at n a c) as [r|] eqn:E; [|discriminate].
      injection H as <-. destruct b as [|b]; [reflexivity|].
      simpl. f_equal. eapply IH; [exact E | lia].
Qed.

Lemma prefix_emit b c0 o l a : Inv (prefix b c0) (emit o l a).
Proof. intros s H. simpl. apply prefix_app. exact H. Qed.

Lemma prefix_bind_emit b c0 o l a B (k : nat -> M B) :
  (forall pc, (b <= pc)%nat -> Inv (prefix b c0) (k pc)) ->
  Inv (prefix b c0) (bind (emit o l a) k).
Proof.
  intros Hk s H. unfold bind, emit.
  apply (Hk (List.length (code s))).
  - destruct H as [Hb _]. exact Hb.
  - simpl. apply prefix_app. exact H.
Qed.

Lemma prefix_bind_code_size b c0 B (k : nat -> M B) :
  (forall pc, (b <= pc)%nat -> Inv (prefix b c0) (k pc)) ->
  Inv (prefix b c0) (bind code_size k).
Proof.
  intros Hk s H. unfold bind, code_size.
  apply (Hk (List.length (code s))).
  - destruct H as [Hb _]. exact Hb.
  - exact H.
Qed.

Lemma prefix_patch b c0 pc v : (b <= pc)%nat -> Inv (prefix b c0) (patch pc v).
Proof.
  intros Hb s [H1 H2]. unfold patch.
  destruct (patch_at pc v (code s)) as [c|] eqn:E; [|exact I].
  simpl. split.
  - rewrite (patch_at_length _ _ _ _ E). exact H1.
  - rewrite (patch_at_firstn _ _ _ _ _ E Hb). exact H2.
Qed.
#[export] Hint Resolve prefix_emit prefix_patch : inv.

Ltac pre_step :=
  cbv beta match zeta;
  lazymatch goal with
  | |- Inv _ (bind (emit _ _ _) _) => apply prefix_bind_emit; intros ? ?
  | |- Inv _ (bind code_size _) => apply prefix_bind_code_size; intros ? ?
  | |- _ => inv_step
  end.

Ltac pre_auto := unfold emit0; repeat pre_step.

Lemma prefix_promote b c0 lhs rhs : Inv (prefix b c0) (promote lhs rhs).
Proof. unfold promote. pre_auto. Qed.

Lemma prefix_assignPromote b c0 lhs rhs :
  Inv (prefix b c0) (assignPromote lhs rhs).
Proof. unfold assignPromote. pre_auto. Qed.

Lemma prefix_emitVarRef b c0 level v : Inv (prefix b c0) (emitVarRef level v).
Proof. unfold emitVarRef. pre_auto. Qed.
#[export] Hint Resolve prefix_promote prefix_assignPromote prefix_emitVarRef
  : inv.

(** Every production keeps the code that was there when it was entered:
    it appends, and patches only what it appended. *)
Section KeepsPrefix.

Variable rec : Rec.
Variable fuel : nat.
Hypothesis rec_type : forall J level p, Inv J (r_type rec level p).
Hypothesis rec_ok : rec_prefix rec.

Lemma rec_expression_prefix b c0 level :
  Inv (prefix b c0) (r_expression rec level).
Proof. apply rec_ok. Qed.

Lemma rec_factor_prefix b c0 level : Inv (prefix b c0) (r_factor rec level).
Proof. apply rec_ok. Qed.

Lemma rec_statement_prefix b c0 level :
  Inv (prefix b c0) (r_statement rec level).
Proof. apply rec_ok. Qed.

Lemma rec_blockDecl_prefix b c0 val level :
  Inv (prefix b c0) (r_blockDecl rec val level).
Proof. apply rec_ok. Qed.

#[local] Hint Resolve rec_type rec_expression_prefix rec_factor_prefix
  rec_statement_prefix rec_blockDecl_prefix : inv.
#[local] Hint Resolve Inv_varSelector_fields Inv_constDeclList
  Inv_typeDeclList Inv_varDeclBlock Inv_subPrefixDecl Inv_type : inv.

Lemma prefix_expressionList_loop b c0 : forall n level v, Inv (prefix b c0) (expressionList_loop rec n level v).
Proof. induction n; intros; cbn [expressionList_loop]; pre_auto. Qed.
#[local] Hint Resolve prefix_expressionList_loop : inv.

Lemma prefix_expressionList b c0 : forall level, Inv (prefix b c0) (expressionList rec fuel level).
Proof. intros; unfold expressionList; pre_auto. Qed.
#[local] Hint Resolve prefix_expressionList : inv.

Lemma prefix_callStatement_actuals b c0 : forall n level it nParams, Inv (prefix b c0) (callStatement_actuals rec n level it nParams).
Proof. induction n; intros; cbn [callStatement_actuals]; pre_auto. Qed.
#[local] Hint Resolve prefix_callStatement_actuals : inv.

Lemma prefix_callStatement b c0 : forall level it, Inv (prefix b c0) (callStatement rec fuel level it).
Proof. intros; unfold callStatement; pre_auto. Qed.
#[local] Hint Resolve prefix_callStatement : inv.

Lemma prefix_varArray_indexes b c0 : forall indexes nindexes atype ty, Inv (prefix b c0) (varArray_indexes indexes nindexes atype ty).
Proof. induction indexes; intros; cbn [varArray_indexes]; pre_auto. Qed.
#[local] Hint Resolve prefix_varArray_indexes : inv.

Lemma prefix_varArray b c0 : forall level it ty, Inv (prefix b c0) (varArray rec fuel level it ty).
Proof. intros; unfold varArray; pre_auto. Qed.
#[local] Hint Resolve prefix_varArray : inv.

Lemma prefix_varSelector b c0 : forall it ty, Inv (prefix b c0) (varSelector it ty).
Proof. intros; unfold varSelector; pre_auto. Qed.
#[local] Hint Resolve prefix_varSelector : inv.

Lemma prefix_variable_loop b c0 : forall n level it ty, Inv (prefix b c0) (variable_loop rec fuel n level it ty).
Proof. induction n; intros; cbn [variable_loop]; pre_auto. Qed.
#[local] Hint Resolve prefix_variable_loop : inv.

Lemma prefix_variable b c0 : forall level it, Inv (prefix b c0) (variable rec fuel level it).
Proof. intros; unfold variable; pre_auto. Qed.
#[local] Hint Resolve prefix_variable : inv.

Lemma prefix_identFactor b c0 : forall level id, Inv (prefix b c0) (identFactor rec fuel level id).
Proof. intros; unfold identFactor; pre_auto. Qed.
#[local] Hint Resolve prefix_identFactor : inv.

Lemma prefix_builtInArg b c0 : forall level, Inv (prefix b c0) (builtInArg rec level).
Proof. intros; unfold builtInArg; pre_auto. Qed.
#[local] Hint Resolve prefix_builtInArg : inv.

Lemma prefix_builtInReal b c0 : forall o level, Inv (prefix b c0) (builtInReal rec o level).
Proof. intros; unfold builtInReal; pre_auto. Qed.
#[local] Hint Resolve prefix_builtInReal : inv.

Lemma prefix_builtInToInt b c0 : forall o level, Inv (prefix b c0) (builtInToInt rec o level).
Proof. intros; unfold builtInToInt; pre_auto. Qed.
#[local] Hint Resolve prefix_builtInToInt : inv.

Lemma prefix_builtInFunc b c0 : forall level, Inv (prefix b c0) (builtInFunc rec level).
Proof. intros; unfold builtInFunc; pre_auto. Qed.
#[local] Hint Resolve prefix_builtInFunc : inv.

Lemma prefix_pushChars b c0 : forall str, Inv (prefix b c0) (pushChars str).
Proof. induction str; intros; cbn [pushChars]; pre_auto. Qed.
#[local] Hint Resolve prefix_pushChars : inv.

Lemma prefix_factor b c0 : forall level, Inv (prefix b c0) (factor rec fuel level).
Proof. intros; unfold factor; pre_auto. Qed.
#[local] Hint Resolve prefix_factor : inv.

Lemma prefix_term_loop b c0 : forall n level lhs, Inv (prefix b c0) (term_loop rec fuel n level lhs).
Proof. induction n; intros; cbn [term_loop]; pre_auto. Qed.
#[local] Hint Resolve prefix_term_loop : inv.

Lemma prefix_term b c0 : forall level, Inv (prefix b c0) (term rec fuel level).
Proof. intros; unfold term; pre_auto. Qed.
#[local] Hint Resolve prefix_term : inv.

Lemma prefix_unary b c0 : forall level, Inv (prefix b c0) (unary rec fuel level).
Proof. intros; unfold unary; pre_auto. Qed.
#[local] Hint Resolve prefix_unary : inv.

Lemma prefix_simpleExpr_loop b c0 : forall n level lhs, Inv (prefix b c0) (simpleExpr_loop rec fuel n level lhs).
Proof. induction n; intros; cbn [simpleExpr_loop]; pre_auto. Qed.
#[local] Hint Resolve prefix_simpleExpr_loop : inv.

Lemma prefix_simpleExpr b c0 : forall level, Inv (prefix b c0) (simpleExpr rec fuel level).
Proof. intros; unfold simpleExpr; pre_auto. Qed.
#[local] Hint Resolve prefix_simpleExpr : inv.

Lemma prefix_expression_loop b c0 : forall n level lhs, Inv (prefix b c0) (expression_loop rec fuel n level lhs).
Proof. induction n; intros; cbn [expression_loop]; pre_auto. Qed.
#[local] Hint Resolve prefix_expression_loop : inv.

Lemma prefix_expression b c0 : forall level, Inv (prefix b c0) (expression rec fuel level).
Proof. intros; unfold expression; pre_auto. Qed.
#[local] Hint Resolve prefix_expression : inv.

Lemma prefix_assignStatement b c0 : forall level it dup, Inv (prefix b c0) (assignStatement rec fuel level it dup).
Proof. intros; unfold assignStatement; pre_auto. Qed.
#[local] Hint Resolve prefix_assignStatement : inv.

Lemma prefix_whileStatement b c0 : forall level, Inv (prefix b c0) (whileStatement rec fuel level).
Proof. intros; unfold whileStatement; pre_auto. Qed.
#[local] Hint Resolve prefix_whileStatement : inv.

Lemma prefix_ifStatement b c0 : forall level, Inv (prefix b c0) (ifStatement rec fuel level).
Proof. intros; unfold ifStatement; pre_auto. Qed.
#[local] Hint Resolve prefix_ifStatement : inv.

Lemma prefix_repeateStatement b c0 : forall level, Inv (prefix b c0) (repeateStatement rec fuel level).
Proof. intros; unfold repeateStatement; pre_auto. Qed.
#[local] Hint Resolve prefix_repeateStatement : inv.

Lemma prefix_forStatement b c0 : forall level, Inv (prefix b c0) (forStatement rec fuel level).
Proof. intros; unfold forStatement; pre_auto. Qed.
#[local] Hint Resolve prefix_forStatement : inv.

Lemma prefix_statementList_loop b c0 : forall n level, Inv (prefix b c0) (statementList_loop rec n level).
Proof. induction n; intros; cbn [statementList_loop]; pre_auto. Qed.
#[local] Hint Resolve prefix_statementList_loop : inv.

Lemma prefix_statementList b c0 : forall level, Inv (prefix b c0) (statementList rec fuel level).
Proof. intros; unfold statementList; pre_auto. Qed.
#[local] Hint Resolve prefix_statementList : inv.

Lemma prefix_identStatement b c0 : forall level id, Inv (prefix b c0) (identStatement rec fuel level id).
Proof. intros; unfold identStatement; pre_auto. Qed.
#[local] Hint Resolve prefix_identStatement : inv.

Lemma prefix_writeStmt_loop b c0 : forall n level oss nargs, Inv (prefix b c0) (writeStmt_loop rec fuel n level oss nargs).
Proof. induction n; intros; cbn [writeStmt_loop]; pre_auto. Qed.
#[local] Hint Resolve prefix_writeStmt_loop : inv.

Lemma prefix_writeStmt b c0 : forall level, Inv (prefix b c0) (writeStmt rec fuel level).
Proof. intros; unfold writeStmt; pre_auto. Qed.
#[local] Hint Resolve prefix_writeStmt : inv.

Lemma prefix_writeStatement b c0 : forall level, Inv (prefix b c0) (writeStatement rec fuel level).
Proof. intros; unfold writeStatement; pre_auto. Qed.
#[local] Hint Resolve prefix_writeStatement : inv.

Lemma prefix_writeLnStatement b c0 : forall level, Inv (prefix b c0) (writeLnStatement rec fuel level).
Proof. intros; unfold writeLnStatement; pre_auto. Qed.
#[local] Hint Resolve prefix_writeLnStatement : inv.

Lemma prefix_statementNew b c0 : forall level, Inv (prefix b c0) (statementNew rec fuel level).
Proof. intros; unfold statementNew; pre_auto. Qed.
#[local] Hint Resolve prefix_statementNew : inv.

Lemma prefix_statementProcs b c0 : forall level, Inv (prefix b c0) (statementProcs rec fuel level).
Proof. intros; unfold statementProcs; pre_auto. Qed.
#[local] Hint Resolve prefix_statementProcs : inv.

Lemma prefix_statement b c0 : forall level, Inv (prefix b c0) (statement rec fuel level).
Proof. intros; unfold statement; pre_auto. Qed.
#[local] Hint Resolve prefix_statement : inv.

Lemma prefix_procDecl b c0 : forall level, Inv (prefix b c0) (procDecl rec fuel level).
Proof. intros; unfold procDecl; pre_auto. Qed.
#[local] Hint Resolve prefix_procDecl : inv.

Lemma prefix_funcDecl b c0 : forall level, Inv (prefix b c0) (funcDecl rec fuel level).
Proof. intros; unfold funcDecl; pre_auto. Qed.
#[local] Hint Resolve prefix_funcDecl : inv.

Lemma prefix_subDeclList_loop b c0 : forall n level, Inv (prefix b c0) (subDeclList_loop rec fuel n level).
Proof. induction n; intros; cbn [subDeclList_loop]; pre_auto. Qed.
#[local] Hint Resolve prefix_subDeclList_loop : inv.

Lemma prefix_subDeclList b c0 : forall level, Inv (prefix b c0) (subDeclList rec fuel level).
Proof. intros; unfold subDeclList; pre_auto. Qed.
#[local] Hint Resolve prefix_subDeclList : inv.

Lemma prefix_blockDecl b c0 : forall val level, Inv (prefix b c0) (blockDecl rec fuel val level).
Proof. intros; unfold blockDecl; pre_auto. Qed.
#[local] Hint Resolve prefix_blockDecl : inv.

Lemma prefix_progDecl b c0 : forall level, Inv (prefix b c0) (progDecl rec fuel level).
Proof. intros; unfold progDecl; pre_auto. Qed.
#[local] Hint Resolve prefix_progDecl : inv.

End KeepsPrefix.

(** The productions of every fuel keep the code before them. *)
Lemma prods_type_Inv fuel : forall J level p, Inv J (r_type (prods fuel) level p).
Proof.
  induction fuel as [|f IH]; intros J level p; simpl.
  - apply Inv_outOfFuel.
  - apply Inv_type. exact IH.
Qed.

Lemma prods_prefix fuel : rec_prefix (prods fuel).
Proof.
  induction fuel as [|f IH]; intros b c0; simpl.
  - repeat split; intros; apply Inv_outOfFuel.
  - pose proof (prods_type_Inv f) as Ht. repeat split; intros.
    + apply prefix_expression; assumption.
    + apply prefix_factor; assumption.
    + apply prefix_statement; assumption.
    + apply Inv_type; assumption.
    + apply prefix_blockDecl; assumption.
Qed.

(** What [Inv (prefix ...)] says of one run: the code on entry is still
    there on return, followed by what the run emitted. *)
Lemma prefix_run A (m : M A) s a s' :
  (forall b c0, Inv (prefix b c0) m) -> m s = Ok a s' ->
  exists t, code s' = code s ++ t.
Proof.
  intros H E.
  specialize (H (List.length (code s)) (code s) s).
  rewrite E in H. destruct H as [Hlen Hfirst].
  - split; [lia | apply firstn_all].
  - exists (skipn (List.length (code s)) (code s')).
    rewrite <- Hfirst at 1. symmetry. apply firstn_skipn.
Qed.

Lemma samecode_run A (m : M A) s a s' :
  (forall J, Inv J m) -> m s = Ok a s' -> code s' = code s.
Proof.
  intros H E. specialize (H (eq (code s)) s eq_refl).
  rewrite E in H. symmetry. exact H.
Qed.

(* ================================================================== *)
(** ** The compiler runs out of tokens before it runs out of fuel *)

Lemma T_ret a1 a2 A (x : A) : (a1 <= a2)%nat -> T a1 a2 (ret x).
Proof. intros Ha s H. simpl. lia. Qed.

Lemma T_weaken A (m : M A) a1 a2 b1 b2 :
  T a1 a2 m -> (b1 <= a1)%nat -> (a2 <= b2)%nat -> T b1 b2 m.
Proof.
  intros Hm H1 H2 s H. assert (Hs : (mu s <= a1)%nat) by lia.
  specialize (Hm s Hs). destruct (m s); auto. lia.
Qed.

Lemma T_bind a1 a2 a3 A B (m : M A) (k : A -> M B) :
  T a1 a2 m -> (forall x, T a2 a3 (k x)) -> T a1 a3 (bind m k).
Proof.
  intros Hm Hk s H. unfold bind. specialize (Hm s H).
  destruct (m s) as [x s1| |]; auto. apply (Hk x s1 Hm).
Qed.

(** A production that leaves the token stream alone. *)
Lemma T_sametokens A (m : M A) :
  (forall s, match m s with
             | Ok _ s' => cur s' = cur s /\ input s' = input s
             | Crash => True
             | OutOfFuel => False
             end) ->
  forall a, T a a m.
Proof.
  intros Hm a s H. specialize (Hm s). destruct (m s) as [x s1| |].
  - destruct Hm as [H1 H2]. unfold mu. rewrite H1, H2. exact H.
  - exact I.
  - destruct Hm.
Qed.

Lemma mu_next s t s' : next s = Ok t s' -> (mu s' <= mu s)%nat.
Proof.
  unfold next, mu. destruct (input s) as [|t0 rest]; intros E;
    injection E as <- <-; simpl.
  - lia.
  - destruct (Token.eqb (Token.kind t0) Token.EOS),
             (Token.eqb (Token.kind (cur s)) Token.EOS); lia.
Qed.

(** Past a token that is not the end of the stream there is one less. *)
Lemma mu_next_consumed s t s' :
  Token.eqb (Token.kind (cur s)) Token.EOS = false ->
  next s = Ok t s' -> (S (mu s') <= mu s)%nat.
Proof.
  unfold next, mu. intros ->. destruct (input s) as [|t0 rest]; intros E;
    injection E as <- <-; simpl.
  - lia.
  - destruct (Token.eqb (Token.kind t0) Token.EOS); lia.
Qed.

Lemma T_next a : T a a next.
Proof.
  intros s H. destruct (next s) as [t s'| |] eqn:E.
  - pose proof (mu_next _ _ _ E). lia.
  - exact I.
  - unfold next in E. destruct (input s); discriminate.
Qed.

Ltac sametokens :=
  apply T_sametokens; intros s; cbv beta delta - [find_entry nth_error closest_in equal_range update_entry purge_table update_nth patch_at] iota;
  repeat match goal with
         | |- context [match ?x with _ => _ end] => destruct x
         end; auto.

Lemma T_get a : T a a get.
Proof. revert a. apply T_sametokens. intros s. simpl. auto. Qed.

Lemma T_current a : T a a current.
Proof. revert a. apply T_sametokens. intros s. simpl. auto. Qed.

Lemma T_ts_current a : T a a ts_current.
Proof. revert a. apply T_sametokens. intros s. simpl. auto. Qed.

Lemma T_code_size a : T a a code_size.
Proof. revert a. apply T_sametokens. intros s. simpl. auto. Qed.

Lemma T_error a m : T a a (error m).
Proof. revert a. apply T_sametokens. intros s. simpl. auto. Qed.

Lemma T_emit a o l d : T a a (emit o l d).
Proof. revert a. apply T_sametokens. intros s. simpl. auto. Qed.

Lemma T_insert a name v : T a a (insert name v).
Proof. revert a. apply T_sametokens. intros s. simpl. auto. Qed.

Lemma T_purge a level : T a a (purge level).
Proof. revert a. apply T_sametokens. intros s. simpl. auto. Qed.

Lemma T_newDesc a d : T a a (newDesc d).
Proof. revert a. apply T_sametokens. intros s. simpl. auto. Qed.

Lemma T_crash a A : T a a (@crash A).
Proof. intros s H. exact I. Qed.

Lemma T_patch a pc v : T a a (patch pc v).
Proof.
  revert a. apply T_sametokens. intros s. unfold patch.
  destruct (patch_at pc v (code s)); simpl; auto.
Qed.

Lemma T_entryOf a it : T a a (entryOf it).
Proof.
  revert a. apply T_sametokens. intros s. unfold entryOf.
  destruct it as [i|]; [|exact I].
  destruct (find_entry i (symtbl s)); simpl; auto.
Qed.

Lemma T_deref a p : T a a (deref p).
Proof.
  revert a. apply T_sametokens. intros s. unfold deref.
  destruct p as [i|]; [|exact I].
  destruct (nth_error (types s) i); simpl; auto.
Qed.

Lemma T_modify_symtbl a f :
  T a a (modify (fun s => set_symtbl (f s) (nextId s) s)).
Proof. revert a. apply T_sametokens. intros s. simpl. auto. Qed.

Lemma T_modify_types a f : T a a (modify (fun s => set_types (f s) s)).
Proof. revert a. apply T_sametokens. intros s. simpl. auto. Qed.

(** An accepted token is consumed: the branch taken after it starts with
    one token less. *)
Lemma T_bind_accept a1 a3 kd B (k : bool -> M B) :
  kd <> Token.EOS ->
  (forall a, a1 = S a -> T a a3 (k true)) ->
  T a1 a3 (k false) ->
  T a1 a3 (bind (accept kd true) k).
Proof.
  intros Hkd Ht Hf s H.
  destruct (Token.eqb (Token.kind (cur s)) kd) eqn:E.
  - apply Token_eqb_eq in E.
    assert (Hc : Token.eqb (Token.kind (cur s)) Token.EOS = false).
    { rewrite E. destruct kd; try reflexivity. contradiction Hkd; reflexivity. }
    unfold bind at 1. rewrite (accept_hit kd s E). unfold bind at 1.
    destruct (next s) as [t s'| |] eqn:En.
    + pose proof (mu_next_consumed _ _ _ Hc En) as Hmu. simpl.
      destruct a1 as [|a]; [lia|]. apply (Ht a eq_refl). lia.
    + exact I.
    + unfold next in En. destruct (input s); discriminate.
  - unfold bind at 1. rewrite (accept_miss kd true s E). apply Hf. exact H.
Qed.

Lemma T_bind_expect a1 a3 kd B (k : bool -> M B) :
  kd <> Token.EOS ->
  (forall a, a1 = S a -> T a a3 (k true)) ->
  T a1 a3 (k false) ->
  T a1 a3 (bind (expect kd true) k).
Proof.
  intros Hkd Ht Hf. unfold expect.
  assert (HA : T a1 a3
                 (bind (accept kd true)
                       (fun x => bind (if x then ret true
                                       else c <- current ;;
                                            error [PStr "expected"; PStr " '";
                                                   PKind kd; PStr "' got '";
                                                   PKind c; PStr "'"] ;;
                                            ret false) k))).
  { apply T_bind_accept; [exact Hkd | | ].
    - intros a Ha s H. exact (Ht a Ha s H).
    - intros s H. exact (Hf (add_error _ s) H). }
  intros s H. specialize (HA s H). unfold bind in *.
  destruct (accept kd true s) as [[|] s1| |]; exact HA.
Qed.

Create HintDb term discriminated.
#[export] Hint Resolve T_ret T_next T_get T_current T_ts_current T_code_size T_error
  T_emit T_insert T_purge T_newDesc T_crash T_patch T_entryOf T_deref
  T_modify_symtbl T_modify_types : term.
#[export] Hint Extern 1 (_ <= _)%nat => lia : term.
#[export] Hint Extern 1 (_ < _)%nat => lia : term.

Ltac t_leaf :=
  lazymatch goal with
  | |- T ?a1 ?a3 _ =>
      apply (T_weaken _ _ a1 a1); [solve [auto with term] | lia | lia]
  end.

Ltac t_step :=
  cbv beta match zeta;
  lazymatch goal with
  | |- T _ _ (ret _) => apply T_ret; lia
  | |- T ?a1 ?a3 (bind (accept _ true) (fun _ => ?k)) =>
      apply (T_bind a1 a1 a3); [ | intros ? ]
  | |- T _ _ (bind (accept _ true) _) =>
      apply T_bind_accept; [discriminate | intros ? ? | ]
  | |- T ?a1 ?a3 (bind (expect _ true) (fun _ => ?k)) =>
      apply (T_bind a1 a1 a3); [ | intros ? ]
  | |- T _ _ (bind (expect _ true) _) =>
      apply T_bind_expect; [discriminate | intros ? ? | ]
  | |- T _ _ (bind (if ?c then _ else _) _) => destruct c
  | |- T _ _ (bind (match ?x with _ => _ end) _) => destruct x
  | |- T ?a1 ?a3 (bind _ _) => apply (T_bind a1 a1 a3); [ | intros ? ]
  | |- T _ _ (if ?c then _ else _) => destruct c
  | |- T _ _ (match ?x with _ => _ end) => destruct x
  | |- T _ _ _ => t_leaf
  end.

Ltac t_auto := unfold emit0; repeat t_step.

Lemma T_error2 a s t : T a a (error2 s t).
Proof. unfold error2. t_auto. Qed.

Lemma T_accept a k g : T a a (accept k g).
Proof. unfold accept. t_auto. Qed.
#[export] Hint Resolve T_error2 T_accept : term.

Lemma T_expect a k g : T a a (expect k g).
Proof. unfold expect. t_auto. Qed.

Lemma T_oneOf a ks : T a a (oneOf ks).
Proof. unfold oneOf. t_auto. Qed.

Lemma T_symOf a it : T a a (symOf it).
Proof. unfold symOf. t_auto. Qed.

Lemma T_updSym a i f : T a a (updSym i f).
Proof. unfold updSym. t_auto. Qed.

Lemma T_lookup a id : T a a (lookup id).
Proof. unfold lookup. t_auto. Qed.

Lemma T_updDesc a p f : T a a (updDesc p f).
Proof. unfold updDesc. t_auto. Qed.
#[export] Hint Resolve T_expect T_oneOf T_symOf T_updSym T_lookup T_updDesc
  : term.

Lemma T_nameDecl a level p : T a a (nameDecl level p).
Proof. unfold nameDecl. t_auto. Qed.

Lemma T_Datum_integer a d : T a a (Datum_integer d).
Proof. unfold Datum_integer. t_auto. Qed.

Lemma T_constExpr a : T a a constExpr.
Proof. unfold constExpr. t_auto. Qed.

Lemma T_promote a lhs rhs : T a a (promote lhs rhs).
Proof. unfold promote. t_auto. Qed.

Lemma T_assignPromote a lhs rhs : T a a (assignPromote lhs rhs).
Proof. unfold assignPromote. t_auto. Qed.

Lemma T_emitVarRef a level v : T a a (emitVarRef level v).
Proof. unfold emitVarRef. t_auto. Qed.
#[export] Hint Resolve T_nameDecl T_Datum_integer T_constExpr T_promote
  T_assignPromote T_emitVarRef : term.

(** With more fuel than tokens, and productions below that do not run out
    of fuel on fewer tokens, no production runs out of fuel. *)
Section Terminates.

Variable rec : Rec.
Variable fuel : nat.
Variable n : nat.
Hypothesis rec_ok : rec_T n rec.
Hypothesis fuel_ok : (n < fuel)%nat.

Lemma rec_expression_T a level : (a < n)%nat -> T a a (r_expression rec level).
Proof. intros H. apply (rec_ok a H). Qed.

Lemma rec_factor_T a level : (a < n)%nat -> T a a (r_factor rec level).
Proof. intros H. apply (rec_ok a H). Qed.

Lemma rec_statement_T a level : (a < n)%nat -> T a a (r_statement rec level).
Proof. intros H. apply (rec_ok a H). Qed.

Lemma rec_type_T a level p : (a < n)%nat -> T a a (r_type rec level p).
Proof. intros H. apply (rec_ok a H). Qed.

Lemma rec_blockDecl_T a val level :
  (a < n)%nat -> T a a (r_blockDecl rec val level).
Proof. intros H. apply (rec_ok a H). Qed.

#[local] Hint Resolve rec_expression_T rec_factor_T rec_statement_T
  rec_type_T rec_blockDecl_T : term.

Lemma T_expressionList_loop : forall j level v a, (a < j)%nat -> (a < n)%nat -> T a a (expressionList_loop rec j level v).
Proof. induction j; intros; [lia|]; cbn [expressionList_loop]; t_auto. Qed.
#[local] Hint Resolve T_expressionList_loop : term.

Lemma T_expressionList : forall level a, (a < n)%nat -> T a a (expressionList rec fuel level).
Proof. intros; unfold expressionList; t_auto. Qed.
#[local] Hint Resolve T_expressionList : term.

Lemma T_callStatement_actuals : forall j level it nParams a, (a < j)%nat -> (a < n)%nat -> T a a (callStatement_actuals rec j level it nParams).
Proof. induction j; intros; [lia|]; cbn [callStatement_actuals]; t_auto. Qed.
#[local] Hint Resolve T_callStatement_actuals : term.

Lemma T_callStatement : forall level it a, (a <= n)%nat -> T a a (callStatement rec fuel level it).
Proof. intros; unfold callStatement; t_auto. Qed.
#[local] Hint Resolve T_callStatement : term.

Lemma T_varArray_indexes : forall indexes nindexes atype ty a, (a <= n)%nat -> T a a (varArray_indexes indexes nindexes atype ty).
Proof. induction indexes; intros; cbn [varArray_indexes]; t_auto. Qed.
#[local] Hint Resolve T_varArray_indexes : term.

Lemma T_varArray : forall level it ty a, (a < n)%nat -> T a a (varArray rec fuel level it ty).
Proof. intros; unfold varArray; t_auto. Qed.
#[local] Hint Resolve T_varArray : term.

Lemma T_varSelector_fields : forall flds selector ty offset a, (a <= n)%nat -> T a a (varSelector_fields selector flds ty offset).
Proof. induction flds; intros; cbn [varSelector_fields]; t_auto. Qed.
#[local] Hint Resolve T_varSelector_fields : term.

Lemma T_varSelector : forall it ty a, (a <= n)%nat -> T a a (varSelector it ty).
Proof. intros; unfold varSelector; t_auto. Qed.
#[local] Hint Resolve T_varSelector : term.

Lemma T_variable_loop : forall j level it ty a, (a < j)%nat -> (a <= n)%nat -> T a a (variable_loop rec fuel j level it ty).
Proof. induction j; intros; [lia|]; cbn [variable_loop]; t_auto. Qed.
#[local] Hint Resolve T_variable_loop : term.

Lemma T_variable : forall level it a, (a <= n)%nat -> T a a (variable rec fuel level it).
Proof. intros; unfold variable; t_auto. Qed.
#[local] Hint Resolve T_variable : term.

Lemma T_identFactor : forall level id a, (a <= n)%nat -> T a a (identFactor rec fuel level id).
Proof. intros; unfold identFactor; t_auto. Qed.
#[local] Hint Resolve T_identFactor : term.

Lemma T_builtInArg : forall level a, (a < n)%nat -> T a a (builtInArg rec level).
Proof. intros; unfold builtInArg; t_auto. Qed.
#[local] Hint Resolve T_builtInArg : term.

Lemma T_builtInReal : forall o level a, (a < n)%nat -> T a a (builtInReal rec o level).
Proof. intros; unfold builtInReal; t_auto. Qed.
#[local] Hint Resolve T_builtInReal : term.

Lemma T_builtInToInt : forall o level a, (a < n)%nat -> T a a (builtInToInt rec o level).
Proof. intros; unfold builtInToInt; t_auto. Qed.
#[local] Hint Resolve T_builtInToInt : term.

Lemma T_builtInFunc : forall level a, (a <= n)%nat -> T a a (builtInFunc rec level).
Proof. intros; unfold builtInFunc; t_auto. Qed.
#[local] Hint Resolve T_builtInFunc : term.

Lemma T_pushChars : forall str a, (a <= n)%nat -> T a a (pushChars str).
Proof. induction str; intros; cbn [pushChars]; t_auto. Qed.
#[local] Hint Resolve T_pushChars : term.

Lemma T_factor : forall level a, (a <= n)%nat -> T a a (factor rec fuel level).
Proof. intros; unfold factor; t_auto. Qed.
#[local] Hint Resolve T_factor : term.

Lemma T_term_loop : forall j level lhs a, (a < j)%nat -> (a <= n)%nat -> T a a (term_loop rec fuel j level lhs).
Proof. induction j; intros; [lia|]; cbn [term_loop]; t_auto. Qed.
#[local] Hint Resolve T_term_loop : term.

Lemma T_term : forall level a, (a <= n)%nat -> T a a (term rec fuel level).
Proof. intros; unfold term; t_auto. Qed.
#[local] Hint Resolve T_term : term.

Lemma T_unary : forall level a, (a <= n)%nat -> T a a (unary rec fuel level).
Proof. intros; unfold unary; t_auto. Qed.
#[local] Hint Resolve T_unary : term.

Lemma T_simpleExpr_loop : forall j level lhs a, (a < j)%nat -> (a <= n)%nat -> T a a (simpleExpr_loop rec fuel j level lhs).
Proof. induction j; intros; [lia|]; cbn [simpleExpr_loop]; t_auto. Qed.
#[local] Hint Resolve T_simpleExpr_loop : term.

Lemma T_simpleExpr : forall level a, (a <= n)%nat -> T a a (simpleExpr rec fuel level).
Proof. intros; unfold simpleExpr; t_auto. Qed.
#[local] Hint Resolve T_simpleExpr : term.

Lemma T_expression_loop : forall j level lhs a, (a < j)%nat -> (a <= n)%nat -> T a a (expression_loop rec fuel j level lhs).
Proof. induction j; intros; [lia|]; cbn [expression_loop]; t_auto. Qed.
#[local] Hint Resolve T_expression_loop : term.

Lemma T_expression : forall level a, (a <= n)%nat -> T a a (expression rec fuel level).
Proof. intros; unfold expression; t_auto. Qed.
#[local] Hint Resolve T_expression : term.

Lemma T_assignStatement : forall level it dup a, (a <= n)%nat -> T a a (assignStatement rec fuel level it dup).
Proof. intros; unfold assignStatement; t_auto. Qed.
#[local] Hint Resolve T_assignStatement : term.

Lemma T_whileStatement : forall level a, (a < n)%nat -> T a a (whileStatement rec fuel level).
Proof. intros; unfold whileStatement; t_auto. Qed.
#[local] Hint Resolve T_whileStatement : term.

Lemma T_ifStatement : forall level a, (a < n)%nat -> T a a (ifStatement rec fuel level).
Proof. intros; unfold ifStatement; t_auto. Qed.
#[local] Hint Resolve T_ifStatement : term.

Lemma T_repeateStatement : forall level a, (a < n)%nat -> T a a (repeateStatement rec fuel level).
Proof. intros; unfold repeateStatement; t_auto. Qed.
#[local] Hint Resolve T_repeateStatement : term.

Lemma T_forStatement : forall level a, (a < n)%nat -> T a a (forStatement rec fuel level).
Proof. intros; unfold forStatement; t_auto. Qed.
#[local] Hint Resolve T_forStatement : term.

Lemma T_statementList_loop : forall j level a, (a < j)%nat -> (a < n)%nat -> T a a (statementList_loop rec j level).
Proof. induction j; intros; [lia|]; cbn [statementList_loop]; t_auto. Qed.
#[local] Hint Resolve T_statementList_loop : term.

Lemma T_statementList : forall level a, (a < n)%nat -> T a a (statementList rec fuel level).
Proof. intros; unfold statementList; t_auto. Qed.
#[local] Hint Resolve T_statementList : term.

Lemma T_identStatement : forall level id a, (a <= n)%nat -> T a a (identStatement rec fuel level id).
Proof. intros; unfold identStatement; t_auto. Qed.
#[local] Hint Resolve T_identStatement : term.

Lemma T_writeStmt_loop : forall j level oss nargs a, (a < j)%nat -> (a <= n)%nat -> T a a (writeStmt_loop rec fuel j level oss nargs).
Proof. induction j; intros; [lia|]; cbn [writeStmt_loop]; t_auto. Qed.
#[local] Hint Resolve T_writeStmt_loop : term.

Lemma T_writeStmt : forall level a, (a <= n)%nat -> T a a (writeStmt rec fuel level).
Proof. intros; unfold writeStmt; t_auto. Qed.
#[local] Hint Resolve T_writeStmt : term.

Lemma T_writeStatement : forall level a, (a <= n)%nat -> T a a (writeStatement rec fuel level).
Proof. intros; unfold writeStatement; t_auto. Qed.
#[local] Hint Resolve T_writeStatement : term.

Lemma T_writeLnStatement : forall level a, (a <= n)%nat -> T a a (writeLnStatement rec fuel level).
Proof. intros; unfold writeLnStatement; t_auto. Qed.
#[local] Hint Resolve T_writeLnStatement : term.

Lemma T_statementNew : forall level a, (a <= n)%nat -> T a a (statementNew rec fuel level).
Proof. intros; unfold statementNew; t_auto. Qed.
#[local] Hint Resolve T_statementNew : term.

Lemma T_statementProcs : forall level a, (a <= n)%nat -> T a a (statementProcs rec fuel level).
Proof. intros; unfold statementProcs; t_auto. Qed.
#[local] Hint Resolve T_statementProcs : term.

Lemma T_statement : forall level a, (a <= n)%nat -> T a a (statement rec fuel level).
Proof. intros; unfold statement; t_auto. Qed.
#[local] Hint Resolve T_statement : term.

Lemma T_identifierList_loop : forall j level p ids a, (a < j)%nat -> (a <= n)%nat -> T a a (identifierList_loop j level p ids).
Proof. induction j; intros; [lia|]; cbn [identifierList_loop]; t_auto. Qed.
#[local] Hint Resolve T_identifierList_loop : term.

Lemma T_identifierList : forall level p a, (a <= n)%nat -> T a a (identifierList fuel level p).
Proof. intros; unfold identifierList; t_auto. Qed.
#[local] Hint Resolve T_identifierList : term.

Lemma T_ordinalType_enums : forall ids level ty value enums a, (a <= n)%nat -> T a a (ordinalType_enums level ty ids value enums).
Proof. induction ids; intros; cbn [ordinalType_enums]; t_auto. Qed.
#[local] Hint Resolve T_ordinalType_enums : term.

Lemma T_ordinalType : forall level a, (a <= n)%nat -> T a a (ordinalType fuel level).
Proof. intros; unfold ordinalType; t_auto. Qed.
#[local] Hint Resolve T_ordinalType : term.

Lemma T_simpleType : forall level a, (a <= n)%nat -> T a a (simpleType fuel level).
Proof. intros; unfold simpleType; t_auto. Qed.
#[local] Hint Resolve T_simpleType : term.

Lemma T_simpleTypeList_loop : forall j level tdescs a, (a < j)%nat -> (a <= n)%nat -> T a a (simpleTypeList_loop fuel j level tdescs).
Proof. induction j; intros; [lia|]; cbn [simpleTypeList_loop]; t_auto. Qed.
#[local] Hint Resolve T_simpleTypeList_loop : term.

Lemma T_simpleTypeList : forall level a, (a <= n)%nat -> T a a (simpleTypeList fuel level).
Proof. intros; unfold simpleTypeList; t_auto. Qed.
#[local] Hint Resolve T_simpleTypeList : term.

Lemma T_varDecl : forall level p idents a, (a < n)%nat -> T a a (varDecl rec fuel level p idents).
Proof. intros; unfold varDecl; t_auto. Qed.
#[local] Hint Resolve T_varDecl : term.

Lemma T_varDeclList_loop : forall j level p idents a, (a < j)%nat -> (a < n)%nat -> T a a (varDeclList_loop rec fuel j level p idents).
Proof. induction j; intros; [lia|]; cbn [varDeclList_loop]; t_auto. Qed.
#[local] Hint Resolve T_varDeclList_loop : term.

Lemma T_varDeclList_params : forall idents dx a, (a <= n)%nat -> T a a (varDeclList_params idents dx).
Proof. induction idents; intros; cbn [varDeclList_params]; t_auto. Qed.
#[local] Hint Resolve T_varDeclList_params : term.

Lemma T_varDeclList_defined : forall r level name a, (a <= n)%nat -> T a a (varDeclList_defined level name r).
Proof. induction r; intros; cbn [varDeclList_defined]; t_auto. Qed.
#[local] Hint Resolve T_varDeclList_defined : term.

Lemma T_varDeclList_install : forall idents level dx a, (a <= n)%nat -> T a a (varDeclList_install level idents dx).
Proof. induction idents; intros; cbn [varDeclList_install]; t_auto. Qed.
#[local] Hint Resolve T_varDeclList_install : term.

Lemma T_varDeclList : forall level params p idents a, (a < n)%nat -> T a a (varDeclList rec fuel level params p idents).
Proof. intros; unfold varDeclList; t_auto. Qed.
#[local] Hint Resolve T_varDeclList : term.

Lemma T_fieldList : forall level p fields a, (a < n)%nat -> T a a (fieldList rec fuel level p fields).
Proof. intros; unfold fieldList; t_auto. Qed.
#[local] Hint Resolve T_fieldList : term.

Lemma T_sizeOfFields : forall fields W sum a, (a <= n)%nat -> T a a (sizeOfFields W fields sum).
Proof. induction fields; intros; cbn [sizeOfFields]; t_auto. Qed.
#[local] Hint Resolve T_sizeOfFields : term.

Lemma T_structuredType_indexes : forall indexes tdesc tp a, (a <= n)%nat -> T a a (structuredType_indexes indexes tdesc tp).
Proof. induction indexes; intros; cbn [structuredType_indexes]; t_auto. Qed.
#[local] Hint Resolve T_structuredType_indexes : term.

Lemma T_structuredType : forall level p a, (a <= n)%nat -> T a a (structuredType rec fuel level p).
Proof. intros; unfold structuredType; t_auto. Qed.
#[local] Hint Resolve T_structuredType : term.

Lemma T_type : forall level p a, (a <= n)%nat -> T a a (type rec fuel level p).
Proof. intros; unfold type; t_auto. Qed.
#[local] Hint Resolve T_type : term.

Lemma T_typeDecl : forall level a, (a <= n)%nat -> T a a (typeDecl rec fuel level).
Proof. intros; unfold typeDecl; t_auto. Qed.
#[local] Hint Resolve T_typeDecl : term.

Lemma T_typeDeclList_loop : forall j level a, (a < j)%nat -> (a <= n)%nat -> T a a (typeDeclList_loop rec fuel j level).
Proof. induction j; intros; [lia|]; cbn [typeDeclList_loop]; t_auto. Qed.
#[local] Hint Resolve T_typeDeclList_loop : term.

Lemma T_typeDeclList : forall level a, (a <= n)%nat -> T a a (typeDeclList rec fuel level).
Proof. intros; unfold typeDeclList; t_auto. Qed.
#[local] Hint Resolve T_typeDeclList : term.

Lemma T_constDecl : forall level a, (a <= n)%nat -> T a a (constDecl level).
Proof. intros; unfold constDecl; t_auto. Qed.
#[local] Hint Resolve T_constDecl : term.

Lemma T_constDeclList_loop : forall j level a, (a < j)%nat -> (a <= n)%nat -> T a a (constDeclList_loop j level).
Proof. induction j; intros; [lia|]; cbn [constDeclList_loop]; t_auto. Qed.
#[local] Hint Resolve T_constDeclList_loop : term.

Lemma T_constDeclList : forall level a, (a <= n)%nat -> T a a (constDeclList fuel level).
Proof. intros; unfold constDeclList; t_auto. Qed.
#[local] Hint Resolve T_constDeclList : term.

Lemma T_varDeclBlock : forall level a, (a <= n)%nat -> T a a (varDeclBlock rec fuel level).
Proof. intros; unfold varDeclBlock; t_auto. Qed.
#[local] Hint Resolve T_varDeclBlock : term.

Lemma T_subPrefixDecl_params : forall idents it a, (a <= n)%nat -> T a a (subPrefixDecl_params it idents).
Proof. induction idents; intros; cbn [subPrefixDecl_params]; t_auto. Qed.
#[local] Hint Resolve T_subPrefixDecl_params : term.

Lemma T_subPrefixDecl : forall level kind a, (a <= n)%nat -> T a a (subPrefixDecl rec fuel level kind).
Proof. intros; unfold subPrefixDecl; t_auto. Qed.
#[local] Hint Resolve T_subPrefixDecl : term.

Lemma T_procDecl : forall level a, (a < n)%nat -> T a a (procDecl rec fuel level).
Proof. intros; unfold procDecl; t_auto. Qed.
#[local] Hint Resolve T_procDecl : term.

Lemma T_funcDecl : forall level a, (a < n)%nat -> T a a (funcDecl rec fuel level).
Proof. intros; unfold funcDecl; t_auto. Qed.
#[local] Hint Resolve T_funcDecl : term.

Lemma T_subDeclList_loop : forall j level a, (a < j)%nat -> (a <= n)%nat -> T a a (subDeclList_loop rec fuel j level).
Proof. induction j; intros; [lia|]; cbn [subDeclList_loop]; t_auto. Qed.
#[local] Hint Resolve T_subDeclList_loop : term.

Lemma T_subDeclList : forall level a, (a <= n)%nat -> T a a (subDeclList rec fuel level).
Proof. intros; unfold subDeclList; t_auto. Qed.
#[local] Hint Resolve T_subDeclList : term.

Lemma T_blockDecl : forall val level a, (a <= n)%nat -> T a a (blockDecl rec fuel val level).
Proof. intros; unfold blockDecl; t_auto. Qed.
#[local] Hint Resolve T_blockDecl : term.

Lemma T_progDecl : forall level a, (a <= n)%nat -> T a a (progDecl rec fuel level).
Proof. intros; unfold progDecl; t_auto. Qed.
#[local] Hint Resolve T_progDecl : term.

End Terminates.

(** The productions with [fuel] units of fuel do not run out of it on fewer
    than [fuel] tokens. *)
Lemma prods_T fuel : forall n, (n < fuel)%nat -> rec_T n (prods fuel).
Proof.
  induction fuel as [|f IH]; intros n Hn; [lia|].
  intros a Ha. simpl.
  assert (Hrec : rec_T a (prods f)) by (apply IH; lia).
  assert (Hf : (a < f)%nat) by lia.
  repeat split; intros.
  - apply (T_expression (prods f) f a Hrec Hf). lia.
  - apply (T_factor (prods f) f a Hrec Hf). lia.
  - apply (T_statement (prods f) f a Hrec Hf). lia.
  - apply (T_type (prods f) f a Hrec Hf). lia.
  - apply (T_blockDecl (prods f) f a Hrec Hf). lia.
Qed.

(** The compiler returns, or meets undefined behaviour, on every token
    stream: two units of fuel more than tokens are enough. *)
Lemma compile_enough_fuel source prog fuel :
  (List.length source + 2 <= fuel)%nat ->
  compile fuel source prog <> OutOfFuel.
Proof.
  intros Hfuel. unfold compile, run.
  set (s0 := set_code prog (set_cur (cur PComp_new) source PComp_new)).
  assert (Hmu : (mu s0 <= List.length source + 1)%nat) by (unfold mu; simpl; lia).
  assert (Hrec : rec_T (List.length source + 1) (prods fuel))
    by (apply prods_T; lia).
  pose proof (T_progDecl (prods fuel) fuel (List.length source + 1) Hrec
                ltac:(lia) 0 (List.length source + 1)%nat ltac:(lia) s0 Hmu)
    as H.
  destruct (progDecl (prods fuel) fuel 0 s0); discriminate.
Qed.

(* ================================================================== *)
(** ** The prelude of a program and the entry of its main block *)

Lemma emit_Ok o l a s pc s' :
  emit o l a s = Ok pc s' ->
  pc = List.length (code s) /\ s' = emitted (newInstr o l a) s.
Proof. unfold emit. intros E. injection E as <- <-. split; reflexivity. Qed.

Lemma code_size_Ok s pc s' :
  code_size s = Ok pc s' -> pc = List.length (code s) /\ s' = s.
Proof. unfold code_size. intros E. injection E as <- <-. split; reflexivity. Qed.

Lemma prefix_blockBody rec fuel level :
  (forall J level p, Inv J (r_type rec level p)) -> rec_prefix rec ->
  forall b c0,
    Inv (prefix b c0)
        (ifM expect Token.Begin true
         then statementList rec fuel level ;; expect Token.End true ;; ret tt
         else ret tt).
Proof.
  intros Ht Hrec b c0.
  pose proof (prefix_statementList rec fuel Hrec b c0 level).
  pre_auto.
Qed.

(* ================================================================== *)
(** ** The factor [not f] *)

Lemma next_advanced s : next s = Ok (cur (advanced s)) (advanced s).
Proof. unfold next, advanced. destruct (input s); reflexivity. Qed.

Lemma accept_true_hit k s :
  Token.kind (cur s) = k -> accept k true s = Ok true (advanced s).
Proof.
  intros H. rewrite (accept_hit k s H). unfold bind.
  rewrite next_advanced. reflexivity.
Qed.

Lemma factor_not_eq rec fuel level s :
  Token.kind (cur s) = Token.Not ->
  factor rec fuel level s
  = r_factor rec level (emitted (newInstr OpCode.LNOT 0 (DInt 0)) (advanced s)).
Proof.
  intros H. unfold factor.
  unfold bind at 1. rewrite accept_miss by (rewrite H; reflexivity).
  unfold bind at 1. rewrite accept_miss by (rewrite H; reflexivity).
  unfold bind at 1. rewrite accept_miss by (rewrite H; reflexivity).
  unfold bind at 1. rewrite accept_miss by (rewrite H; reflexivity).
  unfold bind at 1. rewrite (accept_true_hit _ _ H).
  reflexivity.
Qed.

(** C10.  For a factor [not f], the token [not] is consumed, [LNOT] is
    emitted at once, and only then is the operand [f] compiled: the code of
    the factor is [LNOT] followed by the code of [f], and the type of the
    factor is the type the operand returns. *)
Theorem factor_not_emits_LNOT_first :
  forall fuel level s,
    Token.kind (cur s) = Token.Not ->
    factor (prods fuel) fuel level s
    = r_factor (prods fuel) level
               (emitted (newInstr OpCode.LNOT 0 (DInt 0)) (advanced s)) /\
    forall ty s',
      factor (prods fuel) fuel level s = Ok ty s' ->
      exists operand,
        code s' = code s ++ newInstr OpCode.LNOT 0 (DInt 0) :: operand.
Proof.
  intros fuel level s H. split.
  - apply factor_not_eq. exact H.
  - intros ty s' E. rewrite (factor_not_eq _ _ _ _ H) in E.
    destruct (prefix_run _ _ _ _ _
                (fun b c0 => proj1 (proj2 (prods_prefix fuel b c0)) level) E)
      as [operand Hc].
    exists operand. rewrite Hc. unfold emitted, advanced.
    destruct (input s); simpl; rewrite <- app_assoc; reflexivity.
Qed.

(** [not true] in the compiler's initial state. *)
Lemma factor_not_emits_LNOT_first_witness :
  exists operand,
    code (match factor (prods 2) 2 0
                  (set_cur (Token.ofKind Token.Not) [Token.ident "true"]
                           PComp_new)
          with Ok _ s' => s' | _ => PComp_new end)
    = newInstr OpCode.LNOT 0 (DInt 0) :: operand.
Proof.
  destruct (factor (prods 2) 2 0
              (set_cur (Token.ofKind Token.Not) [Token.ident "true"] PComp_new))
    as [ty s'| |] eqn:E;
    [| vm_compute in E; discriminate E | vm_compute in E; discriminate E].
  exact (proj2 (factor_not_emits_LNOT_first 2 0
                  (set_cur (Token.ofKind Token.Not) [Token.ident "true"]
                           PComp_new) eq_refl) ty s' E).
Defined.

(** [b := not true]: the operand [true] is pushed after the [LNOT]. *)
Example not_true_code :
  Samples.codeOf (compile 5 Samples.not_true [])
  = [ newInstr OpCode.CALL 0 (DInt 2); newInstr OpCode.HALT 0 (DInt 0);
      newInstr OpCode.ENTER 0 (DInt 1);
      newInstr OpCode.PUSHVAR 0 (DInt 4);
      newInstr OpCode.LNOT 0 (DInt 0);
      newInstr OpCode.PUSH 0 (DInt 1);
      newInstr OpCode.LLIMIT 0 (DInt 0);
      newInstr OpCode.ULIMIT 0 (DInt 1);
      newInstr OpCode.ASSIGN 0 (DInt 1);
      newInstr OpCode.RET 0 (DInt 0) ].
Proof. vm_compute. reflexivity. Qed.

(* ================================================================== *)
(** ** Promotion of the value assigned *)

(** The limit checks that end [assignPromote]. *)
Lemma assignPromote_cases lhs rhs l r s :
  deref lhs s = Ok l s -> deref rhs s = Ok r s ->
  assignPromote lhs rhs s =
  (if TypeDesc.isOrdinal l
      && negb (SubRange_eqb (TypeDesc.range l) TypeDesc.maxRange)
   then emit OpCode.LLIMIT 0 (DInt (minimum (TypeDesc.range l))) ;;
        emit OpCode.ULIMIT 0 (DInt (maximum (TypeDesc.range l))) ;;
        ret tt
   else ret tt)
    (if TypeDesc.eqb (TypeDesc.tclass l) (TypeDesc.tclass r) then s
     else if isAnInteger l && isAReal r
          then emitted (newInstr OpCode.ROUND 0 (DInt 0))
                 (add_error [PStr "rounding real to fit in an integer"] s)
     else if isAReal l && isAnInteger r
          then emitted (newInstr OpCode.ITOR 0 (DInt 0)) s
     else add_error [PStr "incompatable assignment types"] s).
Proof.
  intros Hl Hr. unfold assignPromote.
  rewrite (bind_eq _ _ _ _ _ Hl), (bind_eq _ _ _ _ _ Hr).
  unfold isAnInteger, isAReal.
  destruct (TypeDesc.tclass l), (TypeDesc.tclass r); reflexivity.
Qed.

(** C7, as the code has it.  A Real value assigned to an Integer target is
    still compiled: [ROUND] is emitted (and the limit checks of a subrange
    target behind it).  The conversion is reported through [error], which
    knows no warnings: the error count goes up by one.  An Integer value
    assigned to a Real target emits [ITOR] and reports nothing. *)
Theorem assignPromote_real_to_integer_is_an_error :
  forall lhs rhs l r s,
    deref lhs s = Ok l s -> deref rhs s = Ok r s ->
    (TypeDesc.tclass l = TypeDesc.Integer ->
     TypeDesc.tclass r = TypeDesc.Real ->
     exists s',
       assignPromote lhs rhs s = Ok tt s' /\
       nErrors s' = S (nErrors s) /\
       diags s' = diags s ++ [[PStr "rounding real to fit in an integer"]] /\
       code s' = code s ++ newInstr OpCode.ROUND 0 (DInt 0)
                 :: (if SubRange_eqb (TypeDesc.range l) TypeDesc.maxRange
                     then []
                     else [newInstr OpCode.LLIMIT 0
                             (DInt (minimum (TypeDesc.range l)));
                           newInstr OpCode.ULIMIT 0
                             (DInt (maximum (TypeDesc.range l)))])) /\
    (TypeDesc.tclass l = TypeDesc.Real ->
     TypeDesc.tclass r = TypeDesc.Integer ->
     assignPromote lhs rhs s
     = Ok tt (emitted (newInstr OpCode.ITOR 0 (DInt 0)) s)).
Proof.
  intros lhs rhs l r s Hl Hr.
  rewrite (assignPromote_cases _ _ _ _ _ Hl Hr).
  unfold isAnInteger, isAReal, TypeDesc.isOrdinal. split.
  - intros -> ->. simpl.
    destruct (SubRange_eqb (TypeDesc.range l) TypeDesc.maxRange); simpl;
      eexists; (split; [reflexivity|]); simpl; repeat split;
      repeat rewrite <- app_assoc; reflexivity.
  - intros -> ->. reflexivity.
Qed.

(** A Real assigned to an Integer in the compiler's initial state. *)
Lemma assignPromote_real_to_integer_is_an_error_witness :
  exists s',
    assignPromote TypeDesc.intDesc TypeDesc.realDesc PComp_new = Ok tt s' /\
    nErrors s' = 1%nat /\
    diags s' = [[PStr "rounding real to fit in an integer"]] /\
    code s' = [newInstr OpCode.ROUND 0 (DInt 0)].
Proof.
  exact (proj1 (assignPromote_real_to_integer_is_an_error
                  TypeDesc.intDesc TypeDesc.realDesc
                  (TypeDesc.newIntDesc TypeDesc.maxRange)
                  (TypeDesc.mk TypeDesc.Real 1 (mkSubRange 0 0) None None [])
                  PComp_new eq_refl eq_refl)
               eq_refl eq_refl).
Defined.

(** C7, as the spec has it, fails: [i := 1.5] with [i : integer] is the
    only statement of the program and has no other fault, yet the compiler
    returns one error, and the driver does not run the program. *)
Lemma rounding_alone_blocks_execution :
  match compile 5 Samples.assign_real [] with
  | Ok n s =>
      n = 1%nat /\
      diags s = [[PStr "rounding real to fit in an integer"]] /\
      In (newInstr OpCode.ROUND 0 (DInt 0)) (code s)
  | _ => False
  end /\
  main 5 100 Samples.assign_real = Some (1%nat, None).
Proof. vm_compute. intuition. Qed.

(** [x := 1] with [x : real]: an [ITOR], no error, and the program runs. *)
Example integer_to_real_runs :
  Samples.codeOf (compile 5 Samples.assign_int [])
  = [ newInstr OpCode.CALL 0 (DInt 2); newInstr OpCode.HALT 0 (DInt 0);
      newInstr OpCode.ENTER 0 (DInt 1);
      newInstr OpCode.PUSHVAR 0 (DInt 4);
      newInstr OpCode.PUSH 0 (DInt 1);
      newInstr OpCode.ITOR 0 (DInt 0);
      newInstr OpCode.ASSIGN 0 (DInt 1);
      newInstr OpCode.RET 0 (DInt 0) ] /\
  exists r, main 5 100 Samples.assign_int = Some (O, Some r).
Proof. vm_compute. split; [reflexivity | eexists; reflexivity]. Qed.

(* ================================================================== *)
(** ** The limit checks of an assignment *)

Lemma SubRange_eqb_eq a b : SubRange_eqb a b = true <-> a = b.
Proof.
  unfold SubRange_eqb. destruct a as [a1 a2], b as [b1 b2]. simpl.
  rewrite andb_true_iff, !Z.eqb_eq. split.
  - intros [-> ->]. reflexivity.
  - intros E. injection E as -> ->. split; reflexivity.
Qed.

Lemma deref_Ok p s d s' :
  deref p s = Ok d s' ->
  s' = s /\ exists i, p = Some i /\ nth_error (types s) i = Some d.
Proof.
  unfold deref. destruct p as [i|]; [|discriminate].
  destruct (nth_error (types s) i) as [d0|] eqn:E; [|discriminate].
  intros H. injection H as <- <-. split; [reflexivity|]. exists i. auto.
Qed.

Lemma deref_same_types p s1 s2 d :
  types s2 = types s1 -> deref p s1 = Ok d s1 -> deref p s2 = Ok d s2.
Proof.
  intros Ht H. apply deref_Ok in H as [_ (i & -> & Hn)].
  unfold deref. rewrite Ht, Hn. reflexivity.
Qed.

(** What [assignPromote] appends: at most one conversion, then the limit
    checks of the target. *)
Lemma assignPromote_Ok lhs rhs s s' :
  assignPromote lhs rhs s = Ok tt s' ->
  exists l conv,
    deref lhs s = Ok l s /\ types s' = types s /\
    code s' = code s ++ conv ++ limit_checks l /\
    (conv = [] \/ conv = [newInstr OpCode.ROUND 0 (DInt 0)]
     \/ (conv = [newInstr OpCode.ITOR 0 (DInt 0)]
         /\ TypeDesc.tclass l = TypeDesc.Real)).
Proof.
  intros H.
  destruct (deref lhs s) as [l s1| |] eqn:Hl;
    try (unfold assignPromote, bind in H; rewrite Hl in H; discriminate).
  destruct (deref_Ok _ _ _ _ Hl) as [-> _].
  destruct (deref rhs s) as [r s1| |] eqn:Hr;
    try (unfold assignPromote, bind in H; rewrite Hl, Hr in H; discriminate).
  destruct (deref_Ok _ _ _ _ Hr) as [-> _].
  rewrite (assignPromote_cases _ _ _ _ _ Hl Hr) in H.
  exists l.
  assert (Hlim : forall s0,
             (if TypeDesc.isOrdinal l
                 && negb (SubRange_eqb (TypeDesc.range l) TypeDesc.maxRange)
              then emit OpCode.LLIMIT 0 (DInt (minimum (TypeDesc.range l))) ;;
                   emit OpCode.ULIMIT 0 (DInt (maximum (TypeDesc.range l))) ;;
                   ret tt
              else ret tt) s0 = Ok tt s' ->
             types s' = types s0 /\ code s' = code s0 ++ limit_checks l).
  { intros s0 E. unfold limit_checks.
    destruct (TypeDesc.isOrdinal l
              && negb (SubRange_eqb (TypeDesc.range l) TypeDesc.maxRange));
      injection E as <-; simpl; split; try reflexivity.
    - rewrite <- app_assoc. reflexivity.
    - rewrite app_nil_r. reflexivity. }
  destruct (TypeDesc.eqb (TypeDesc.tclass l) (TypeDesc.tclass r)).
  { destruct (Hlim _ H) as [Ht Hc]. exists []. simpl. auto. }
  destruct (isAnInteger l && isAReal r).
  { destruct (Hlim _ H) as [Ht Hc].
    exists [newInstr OpCode.ROUND 0 (DInt 0)]. repeat split; auto.
    rewrite Hc. simpl. rewrite <- app_assoc. reflexivity. }
  destruct (isAReal l && isAnInteger r) eqn:E.
  { destruct (Hlim _ H) as [Ht Hc].
    exists [newInstr OpCode.ITOR 0 (DInt 0)]. repeat split; auto.
    - rewrite Hc. simpl. rewrite <- app_assoc. reflexivity.
    - right. right. split; [reflexivity|].
      apply andb_true_iff in E as [E _]. apply TypeDesc_eqb_eq. exact E. }
  destruct (Hlim _ H) as [Ht Hc]. exists []. simpl. auto.
Qed.

Lemma entryOf_Ok it s e s' :
  entryOf it s = Ok e s' -> s' = s.
Proof.
  unfold entryOf. destruct it as [i|]; [|discriminate].
  destruct (find_entry i (symtbl s)); [|discriminate].
  intros H. injection H as _ <-. reflexivity.
Qed.

Lemma promoted_frame l r s :
  types (promoted l r s) = types s /\
  code (promoted l r s) = code s ++ conversion l r.
Proof.
  unfold promoted, conversion.
  destruct (TypeDesc.eqb (TypeDesc.tclass l) (TypeDesc.tclass r));
    [split; [reflexivity | symmetry; apply app_nil_r]|].
  destruct (isAnInteger l && isAReal r); [split; reflexivity|].
  destruct (isAReal l && isAnInteger r); [split; reflexivity|].
  split; [reflexivity | symmetry; apply app_nil_r].
Qed.

(** [assignPromote], for the types [l] of the target and [r] of the
    value: the conversion, then the limit checks of the target. *)
Lemma assignPromote_state lhs rhs l r s :
  deref lhs s = Ok l s -> deref rhs s = Ok r s ->
  assignPromote lhs rhs s
  = Ok tt (set_code (code (promoted l r s) ++ limit_checks l)
                    (promoted l r s)).
Proof.
  intros Hl Hr. rewrite (assignPromote_cases _ _ _ _ _ Hl Hr).
  fold (promoted l r s). generalize (promoted l r s). intros p.
  unfold limit_checks.
  destruct (TypeDesc.isOrdinal l
            && negb (SubRange_eqb (TypeDesc.range l) TypeDesc.maxRange)).
  - unfold bind, emit, ret, set_code. simpl.
    rewrite <- app_assoc. reflexivity.
  - unfold ret. rewrite app_nil_r. destruct p; reflexivity.
Qed.

(** The runs an assignment statement is made of, each from the state the
    one before it leaves. *)
Lemma assignStatement_shape rec fuel level it dup s s' :
  assignStatement rec fuel level it dup s = Ok tt s' ->
  exists e target s_v b s_l rtype s_r t r,
    entryOf it s = Ok e s /\
    assignStatement_lvalue rec fuel level it e s = Ok target s_v /\
    expect Token.Assign true
      (if dup then emitted (newInstr OpCode.DUP 0 (DInt 0)) s_v else s_v)
    = Ok b s_l /\
    expression rec fuel level s_l = Ok rtype s_r /\
    deref target s_r = Ok t s_r /\
    deref rtype s_r = Ok r s_r /\
    s' = emitted (newInstr OpCode.ASSIGN 0 (DInt (TypeDesc.size t)))
           (set_code (code (promoted t r s_r) ++ limit_checks t)
                     (promoted t r s_r)) /\
    code s' = code s_r ++ conversion t r ++ limit_checks t
              ++ [newInstr OpCode.ASSIGN 0 (DInt (TypeDesc.size t))].
Proof.
  intros H. unfold assignStatement in H.
  apply bind_Ok in H as (e & s1 & H1 & H).
  pose proof (entryOf_Ok _ _ _ _ H1) as ->.
  apply bind_Ok in H as (target & s2 & H2 & H).
  apply bind_Ok in H as ([] & s3 & H3 & H).
  apply bind_Ok in H as (b & s4 & H4 & H).
  apply bind_Ok in H as (rtype & s5 & H5 & H).
  apply bind_Ok in H as ([] & s6 & H6 & H).
  apply bind_Ok in H as (t' & s7 & H7 & H).
  apply bind_Ok in H as (pc & s8 & H8 & H).
  injection H as <-.
  assert (E3 : s3 = if dup then emitted (newInstr OpCode.DUP 0 (DInt 0)) s2
                    else s2).
  { destruct dup.
    - apply bind_Ok in H3 as (pc3 & s3' & H3 & H3').
      unfold emit0 in H3. apply emit_Ok in H3 as [_ ->].
      injection H3' as <-. reflexivity.
    - injection H3 as <-. reflexivity. }
  subst s3.
  destruct (deref target s5) as [t s5'| |] eqn:Hl;
    try (unfold assignPromote, bind in H6; rewrite Hl in H6; discriminate).
  destruct (deref_Ok _ _ _ _ Hl) as [-> _].
  destruct (deref rtype s5) as [r s5'| |] eqn:Hr;
    try (unfold assignPromote, bind in H6; rewrite Hl, Hr in H6;
         discriminate).
  destruct (deref_Ok _ _ _ _ Hr) as [-> _].
  rewrite (assignPromote_state _ _ _ _ _ Hl Hr) in H6.
  injection H6 as <-.
  destruct (promoted_frame t r s5) as [Pt Pc].
  assert (Hl' : deref target
                  (set_code (code (promoted t r s5) ++ limit_checks t)
                            (promoted t r s5))
                = Ok t (set_code (code (promoted t r s5) ++ limit_checks t)
                                 (promoted t r s5))).
  { apply (deref_same_types _ s5); [exact Pt | exact Hl]. }
  rewrite Hl' in H7. injection H7 as <- <-.
  apply emit_Ok in H8 as [_ ->].
  exists e, target, s2, b, s4, rtype, s5, t, r.
  repeat (split; [assumption || reflexivity|]).
  simpl. rewrite Pc. repeat rewrite <- app_assoc. reflexivity.
Qed.

(** The l-value of a variable that no selector follows: the reference to
    the variable, and the type it was declared with. *)
Lemma assignStatement_lvalue_plain rec fuel level it e s target s_v :
  entryOf it s = Ok e s ->
  SymValue.kind (esym e) = SymValue.Variable_ ->
  Token.kind (cur s) = Token.Assign ->
  assignStatement_lvalue rec fuel level it e s = Ok target s_v ->
  target = SymValue.type (esym e) /\
  s_v = emitted (newInstr OpCode.PUSHVAR (level - SymValue.level (esym e))
                          (frameOffset (SymValue.value (esym e)))) s.
Proof.
  intros He Hk Hc H. unfold assignStatement_lvalue in H.
  rewrite Hk in H. simpl in H.
  unfold variable in H. unfold bind at 1 in H. unfold symOf in H.
  unfold bind at 1 in H. rewrite He in H. unfold ret at 1 in H.
  unfold bind at 1 in H. unfold emitVarRef, emit in H.
  fold (emitted (newInstr OpCode.PUSHVAR (level - SymValue.level (esym e))
                          (frameOffset (SymValue.value (esym e)))) s) in H.
  destruct fuel as [|fuel]; [discriminate H|].
  simpl in H.
  unfold bind at 1 in H.
  rewrite accept_miss in H by (simpl; rewrite Hc; reflexivity).
  unfold bind at 1 in H.
  rewrite accept_miss in H by (simpl; rewrite Hc; reflexivity).
  unfold bind at 1 in H.
  rewrite accept_miss in H by (simpl; rewrite Hc; reflexivity).
  injection H as <- <-. split; reflexivity.
Qed.

Lemma expect_hit k s :
  Token.kind (cur s) = k -> expect k true s = Ok true (advanced s).
Proof.
  intros H. unfold expect. unfold bind at 1.
  rewrite (accept_true_hit _ _ H). reflexivity.
Qed.

(** ** What the limit checks do on the machine *)

Lemma get_update_same (l : list Datum) n d :
  (n < List.length l)%nat -> nth_error (update_nth n (fun _ => d) l) n = Some d.
Proof.
  revert n. induction l as [|x l IH]; intros n H; simpl in H; [lia|].
  destruct n as [|n]; simpl; [reflexivity|]. apply IH. lia.
Qed.

Lemma update_nth_length {A} n (f : A -> A) l :
  List.length (update_nth n f l) = List.length l.
Proof.
  revert n. induction l as [|x l IH]; intros [|n]; simpl; auto.
Qed.

(** [LLIMIT lo; ULIMIT hi; ASSIGN 1]: if the three instructions succeed,
    the value on top of the stack lies in [lo, hi] and is what the
    destination holds afterwards. *)
Lemma limits_then_assign m lo hi m3 :
  nth_error (PInterp.code m) (Z.to_nat (PInterp.pc m))
  = Some (newInstr OpCode.LLIMIT 0 (DInt lo)) ->
  nth_error (PInterp.code m) (Z.to_nat (PInterp.pc m + 1))
  = Some (newInstr OpCode.ULIMIT 0 (DInt hi)) ->
  nth_error (PInterp.code m) (Z.to_nat (PInterp.pc m + 2))
  = Some (newInstr OpCode.ASSIGN 0 (DInt 1)) ->
  PInterp.run 3 m = (PInterp.success, m3) ->
  exists a v,
    PInterp.get m (PInterp.sp m - 1) = Some (DInt a) /\
    PInterp.get m (PInterp.sp m) = Some (DInt v) /\
    lo <= v <= hi /\
    PInterp.get m3 a = Some (DInt v).
Proof.
  intros H0 H1 H2 H. simpl in H.
  (* LLIMIT *)
  unfold PInterp.step at 1 in H.
  destruct ((0 <=? PInterp.pc m)
            && (PInterp.pc m <? Z.of_nat (List.length (PInterp.code m))))
    eqn:R0; [|discriminate].
  rewrite H0 in H. unfold PInterp.exec at 1 in H. simpl in H.
  change (PInterp.get (PInterp.set_pc m (PInterp.pc m + 1)) (PInterp.sp m))
    with (PInterp.get m (PInterp.sp m)) in H.
  destruct (PInterp.get m (PInterp.sp m)) as [[v|]|] eqn:Gv; try discriminate.
  destruct (v <? lo) eqn:Lo; [discriminate|].
  (* ULIMIT *)
  unfold PInterp.step at 1 in H. simpl in H.
  destruct ((0 <=? PInterp.pc m + 1)
            && (PInterp.pc m + 1 <? Z.of_nat (List.length (PInterp.code m))))
    eqn:R1; [|discriminate].
  rewrite H1 in H. unfold PInterp.exec at 1 in H. simpl in H.
  change (PInterp.get
            (PInterp.set_pc (PInterp.set_pc m (PInterp.pc m + 1))
                            (PInterp.pc m + 1 + 1)) (PInterp.sp m))
    with (PInterp.get m (PInterp.sp m)) in H.
  rewrite Gv in H.
  destruct (v >? hi) eqn:Hi; [discriminate|].
  (* ASSIGN *)
  unfold PInterp.step at 1 in H. simpl in H.
  destruct ((0 <=? PInterp.pc m + 1 + 1)
            && (PInterp.pc m + 1 + 1
                <? Z.of_nat (List.length (PInterp.code m))))
    eqn:R2; [|discriminate].
  replace (PInterp.pc m + 1 + 1) with (PInterp.pc m + 2) in H by lia.
  rewrite H2 in H. unfold PInterp.exec at 1 in H. simpl in H.
  set (m' := PInterp.set_pc _ (PInterp.pc m + 2 + 1)) in H.
  assert (G : forall x, PInterp.get m' x = PInterp.get m x) by reflexivity.
  replace (PInterp.sp m - 1 + 1) with (PInterp.sp m) in H by lia.
  rewrite !G, Gv in H.
  destruct (PInterp.get m (PInterp.sp m - 1)) as [[a|]|] eqn:Ga;
    try discriminate.
  unfold PInterp.write, PInterp.set_stack in H.
  destruct ((0 <=? a) && (a <? Z.of_nat (List.length (PInterp.stack m'))))
    eqn:Ra; [|discriminate].
  injection H as <-.
  exists a, v. repeat split; try lia.
  unfold PInterp.get. simpl. rewrite update_nth_length.
  change (PInterp.stack m') with (PInterp.stack m) in Ra.
  rewrite Ra. apply get_update_same.
  apply andb_true_iff in Ra as [Ra1 Ra2]. lia.
Qed.

Lemma limit_checks_subrange t :
  TypeDesc.isOrdinal t = true -> TypeDesc.range t <> TypeDesc.maxRange ->
  limit_checks t
  = [newInstr OpCode.LLIMIT 0 (DInt (minimum (TypeDesc.range t)));
     newInstr OpCode.ULIMIT 0 (DInt (maximum (TypeDesc.range t)))].
Proof.
  intros Ho Hr. unfold limit_checks. rewrite Ho.
  destruct (SubRange_eqb (TypeDesc.range t) TypeDesc.maxRange) eqn:E.
  - apply SubRange_eqb_eq in E. contradiction.
  - reflexivity.
Qed.

(** C1, as the code has it.  An assignment statement [v := e] (the
    initialisation of a [for] statement is one) is compiled by these runs,
    each from the state the one before it leaves: the l-value of the
    element [it] of the table, [:=], the expression, the promotion of its
    type [r] to the type [t] of the target, and the [ASSIGN].  Behind the
    code of the expression come the conversion of [r] to [t] (none, a
    [ROUND] or an [ITOR]), the limit checks of [t] and the [ASSIGN]; for
    an ordinal [t] whose range is not the maximal one the limit checks
    are [LLIMIT min] and [ULIMIT max].  For a variable that no selector
    follows, [t] is the type the variable was declared with.  On the
    machine, an [ASSIGN 1] behind these two checks stores a value of
    [min, max] or is not reached. *)
Theorem assignment_limit_checks :
  (forall t,
     TypeDesc.isOrdinal t = true -> TypeDesc.range t <> TypeDesc.maxRange ->
     limit_checks t
     = [newInstr OpCode.LLIMIT 0 (DInt (minimum (TypeDesc.range t)));
        newInstr OpCode.ULIMIT 0 (DInt (maximum (TypeDesc.range t)))]) /\
  (forall rec fuel level it dup s s',
     assignStatement rec fuel level it dup s = Ok tt s' ->
     exists e target s_v b s_l rtype s_r t r,
       entryOf it s = Ok e s /\
       assignStatement_lvalue rec fuel level it e s = Ok target s_v /\
       expect Token.Assign true
         (if dup then emitted (newInstr OpCode.DUP 0 (DInt 0)) s_v else s_v)
       = Ok b s_l /\
       expression rec fuel level s_l = Ok rtype s_r /\
       deref target s_r = Ok t s_r /\
       deref rtype s_r = Ok r s_r /\
       s' = emitted (newInstr OpCode.ASSIGN 0 (DInt (TypeDesc.size t)))
              (set_code (code (promoted t r s_r) ++ limit_checks t)
                        (promoted t r s_r)) /\
       code s' = code s_r ++ conversion t r ++ limit_checks t
                 ++ [newInstr OpCode.ASSIGN 0 (DInt (TypeDesc.size t))]) /\
  (forall rec fuel level it dup s s' e,
     assignStatement rec fuel level it dup s = Ok tt s' ->
     entryOf it s = Ok e s ->
     SymValue.kind (esym e) = SymValue.Variable_ ->
     Token.kind (cur s) = Token.Assign ->
     let s_v := emitted (newInstr OpCode.PUSHVAR
                                  (level - SymValue.level (esym e))
                                  (frameOffset (SymValue.value (esym e)))) s in
     exists rtype s_r t r,
       expression rec fuel level
         (advanced (if dup
                    then emitted (newInstr OpCode.DUP 0 (DInt 0)) s_v
                    else s_v))
       = Ok rtype s_r /\
       deref (SymValue.type (esym e)) s_r = Ok t s_r /\
       deref rtype s_r = Ok r s_r /\
       code s' = code s_r ++ conversion t r ++ limit_checks t
                 ++ [newInstr OpCode.ASSIGN 0 (DInt (TypeDesc.size t))] /\
       (TypeDesc.isOrdinal t = true ->
        TypeDesc.range t <> TypeDesc.maxRange ->
        code s' = code s_r ++ conversion t r
                  ++ [newInstr OpCode.LLIMIT 0
                        (DInt (minimum (TypeDesc.range t)));
                      newInstr OpCode.ULIMIT 0
                        (DInt (maximum (TypeDesc.range t)));
                      newInstr OpCode.ASSIGN 0 (DInt (TypeDesc.size t))])) /\
  (forall m lo hi m3,
     nth_error (PInterp.code m) (Z.to_nat (PInterp.pc m))
     = Some (newInstr OpCode.LLIMIT 0 (DInt lo)) ->
     nth_error (PInterp.code m) (Z.to_nat (PInterp.pc m + 1))
     = Some (newInstr OpCode.ULIMIT 0 (DInt hi)) ->
     nth_error (PInterp.code m) (Z.to_nat (PInterp.pc m + 2))
     = Some (newInstr OpCode.ASSIGN 0 (DInt 1)) ->
     PInterp.run 3 m = (PInterp.success, m3) ->
     exists a v,
       PInterp.get m (PInterp.sp m - 1) = Some (DInt a) /\
       PInterp.get m (PInterp.sp m) = Some (DInt v) /\
       lo <= v <= hi /\
       PInterp.get m3 a = Some (DInt v)).
Proof.
  split; [|split; [|split]].
  - exact limit_checks_subrange.
  - intros rec fuel level it dup s s' H.
    exact (assignStatement_shape _ _ _ _ _ _ _ H).
  - intros rec fuel level it dup s s' e H He Hk Hc s_v.
    destruct (assignStatement_shape _ _ _ _ _ _ _ H)
      as (e' & target & s_v' & b & s_l & rtype & s_r & t & r
          & He' & Hv & Hb & Hx & Ht & Hr & _ & Hcode).
    rewrite He in He'. injection He' as <-.
    destruct (assignStatement_lvalue_plain _ _ _ _ _ _ _ _ He Hk Hc Hv)
      as [-> ->].
    fold s_v in Hb.
    assert (Hcur : Token.kind
                     (cur (if dup
                           then emitted (newInstr OpCode.DUP 0 (DInt 0)) s_v
                           else s_v)) = Token.Assign)
      by (destruct dup; exact Hc).
    rewrite (expect_hit _ _ Hcur) in Hb. injection Hb as _ <-.
    exists rtype, s_r, t, r.
    repeat (split; [assumption|]).
    intros Ho Hm. rewrite Hcode, (limit_checks_subrange t Ho Hm).
    reflexivity.
  - intros m lo hi m3 H0 H1 H2 H.
    exact (limits_then_assign _ _ _ _ H0 H1 H2 H).
Qed.

(** [i := 7] with [i : 1..5], and the machine at [LLIMIT 1; ULIMIT 5;
    ASSIGN 1] with the value 3 on the stack. *)
Lemma assignment_limit_checks_witness :
  limit_checks (TypeDesc.newIntDesc (mkSubRange 1 5))
  = [newInstr OpCode.LLIMIT 0 (DInt 1); newInstr OpCode.ULIMIT 0 (DInt 5)] /\
  (exists s',
     assignStatement (prods 3) 3 0 (Some 8%nat) false Samples.at_assign
     = Ok tt s' /\
     code s' = [newInstr OpCode.PUSHVAR 0 (DInt 4);
                newInstr OpCode.PUSH 0 (DInt 7);
                newInstr OpCode.LLIMIT 0 (DInt 1);
                newInstr OpCode.ULIMIT 0 (DInt 5);
                newInstr OpCode.ASSIGN 0 (DInt 1)]) /\
  (exists a v,
     PInterp.get Samples.at_limits 1 = Some (DInt a) /\
     PInterp.get Samples.at_limits 2 = Some (DInt v) /\
     1 <= v <= 5 /\
     PInterp.get (snd (PInterp.run 3 Samples.at_limits)) a = Some (DInt v)).
Proof.
  split; [|split].
  - apply (proj1 assignment_limit_checks (TypeDesc.newIntDesc (mkSubRange 1 5))).
    + reflexivity.
    + discriminate.
  - destruct (assignStatement (prods 3) 3 0 (Some 8%nat) false
                Samples.at_assign) as [[] s'| |] eqn:E;
      [| vm_compute in E; discriminate E | vm_compute in E; discriminate E].
    destruct (proj1 (proj2 (proj2 assignment_limit_checks))
                (prods 3) 3%nat 0 (Some 8%nat) false Samples.at_assign s'
                (mkEntry 8 "i" (SymValue.makeVar 0 0 (Some 5%nat)))
                E eq_refl eq_refl eq_refl)
      as (rtype & s_r & t & r & Hx & Ht & Hr & _ & Hcode).
    vm_compute in Hx. injection Hx as Hrt Hsr. subst rtype s_r.
    vm_compute in Ht. injection Ht as Ht. subst t.
    vm_compute in Hr. injection Hr as Hr. subst r.
    exists s'. split; [reflexivity|].
    rewrite Hcode; [vm_compute; reflexivity | reflexivity | discriminate].
  - exact (proj2 (proj2 (proj2 assignment_limit_checks)) Samples.at_limits 1 5
             (snd (PInterp.run 3 Samples.at_limits))
             eq_refl eq_refl eq_refl eq_refl).
Defined.

(** C1, as the spec has it, fails on the step of a [for] statement.  In
    [var i : 1..5; ... for i := 1 to 5 do], the step [i := i + 1] is
    compiled to [ADD] and [ASSIGN 1] with no limit check between them, the
    program compiles without errors, runs to [HALT], and stores 6 in [i]
    (the first local of the main block, at address 5). *)
Lemma for_step_stores_out_of_range :
  nth_error (Samples.codeOf (compile 5 Samples.for_to [])) 18
  = Some (newInstr OpCode.ADD 0 (DInt 0)) /\
  nth_error (Samples.codeOf (compile 5 Samples.for_to [])) 19
  = Some (newInstr OpCode.ASSIGN 0 (DInt 1)) /\
  main 5 200 Samples.for_to = Some (O, Some PInterp.halted) /\
  existsb (fun d => match d with
                    | Some (DInt 6) => true
                    | _ => false
                    end)
          (PInterp.trace 200
             (PInterp.load (Samples.codeOf (compile 5 Samples.for_to []))
                           1024) 5)
  = true.
Proof. vm_compute. repeat split; reflexivity. Qed.

(** The code of that program. *)
Example for_to_code :
  Samples.codeOf (compile 5 Samples.for_to [])
  = [ newInstr OpCode.CALL 0 (DInt 2); newInstr OpCode.HALT 0 (DInt 0);
      newInstr OpCode.ENTER 0 (DInt 1);
      newInstr OpCode.PUSHVAR 0 (DInt 4);
      newInstr OpCode.DUP 0 (DInt 0);
      newInstr OpCode.PUSH 0 (DInt 1);
      newInstr OpCode.LLIMIT 0 (DInt 1);
      newInstr OpCode.ULIMIT 0 (DInt 5);
      newInstr OpCode.ASSIGN 0 (DInt 1);
      newInstr OpCode.DUP 0 (DInt 0);
      newInstr OpCode.EVAL 0 (DInt 1);
      newInstr OpCode.PUSH 0 (DInt 5);
      newInstr OpCode.LTE 0 (DInt 0);
      newInstr OpCode.JNEQ 0 (DInt 21);
      newInstr OpCode.DUP 0 (DInt 0);
      newInstr OpCode.DUP 0 (DInt 0);
      newInstr OpCode.EVAL 0 (DInt 1);
      newInstr OpCode.PUSH 0 (DInt 1);
      newInstr OpCode.ADD 0 (DInt 0);
      newInstr OpCode.ASSIGN 0 (DInt 1);
      newInstr OpCode.JUMP 0 (DInt 9);
      newInstr OpCode.POP 0 (DInt 1);
      newInstr OpCode.RET 0 (DInt 0) ].
Proof. vm_compute. reflexivity. Qed.

(* ================================================================== *)
(** ** The [for] statement *)

Lemma patch_at_app a v i b :
  patch_at (List.length a) v (a ++ i :: b) = Some (a ++ set_addr v i :: b).
Proof.
  induction a as [|x a IH]; simpl; [reflexivity|]. rewrite IH. reflexivity.
Qed.

Lemma accept_Ok k g s b s' :
  accept k g s = Ok b s' ->
  code s' = code s /\
  (b = true <-> Token.kind (cur s) = k).
Proof.
  unfold accept, current, bind.
  destruct (Token.eqb (Token.kind (cur s)) k) eqn:E.
  - destruct g.
    + rewrite next_advanced. intros H. injection H as <- <-. split.
      * unfold advanced. destruct (input s); reflexivity.
      * split; intros _; [apply Token_eqb_eq; exact E | reflexivity].
    + intros H. injection H as <- <-. split; [reflexivity|].
      split; intros _; [apply Token_eqb_eq; exact E | reflexivity].
  - intros H. injection H as <- <-. split; [reflexivity|]. split.
    + discriminate.
    + intros H. apply Token_eqb_eq in H. congruence.
Qed.

(** The direction of a [for] statement: [to] gives the increment 1,
    anything else (after a complaint unless it is [downto]) gives -1. *)
Lemma for_direction_Ok s inc s' :
  (ifM accept Token.To true then ret 1
   else expect Token.DownTo true ;; ret (-1)) s = Ok inc s' ->
  code s' = code s /\
  (Token.kind (cur s) = Token.To -> inc = 1) /\
  (Token.kind (cur s) <> Token.To -> inc = -1).
Proof.
  intros H. apply bind_Ok in H as (b & s1 & H1 & H).
  apply accept_Ok in H1 as [C1 Hb]. destruct b.
  - injection H as <- <-. repeat split; auto.
    intros Hn. exfalso. apply Hn. apply Hb. reflexivity.
  - apply bind_Ok in H as (b2 & s2 & H2 & H). injection H as <- <-.
    assert (C2 : code s2 = code s1)
      by (eapply samecode_run; [|exact H2]; intros; apply Inv_expect).
    repeat split; try congruence.
    intros Ht. apply Hb in Ht. discriminate.
Qed.

(** The code of a [for] statement behind the initialisation [id := e1]:
    the loop head duplicates the saved reference and evaluates it, the
    limit [e2] is compiled, the comparison and the jump to the exit
    follow, then the body, the step by [inc], the jump back to the head
    and the [POP 1] the exit jump is patched to. *)
Lemma forStatement_shape rec fuel level s s' :
  rec_prefix rec ->
  forStatement rec fuel level s = Ok tt s' ->
  code s' = code s \/
  exists var s_0 s_a s_d inc limit body,
    assignStatement rec fuel level var true s_0 = Ok tt s_a /\
    (Token.kind (cur s_a) = Token.To -> inc = 1) /\
    (Token.kind (cur s_a) <> Token.To -> inc = -1) /\
    code s_d = code s_a /\
    code s' =
      code s_d
      ++ [newInstr OpCode.DUP 0 (DInt 0); newInstr OpCode.EVAL 0 (DInt 1)]
      ++ limit
      ++ [newInstr OpCode.LTE 0 (DInt 0);
          newInstr OpCode.JNEQ 0
            (DInt (Z.of_nat (List.length (code s_d) + List.length limit
                             + List.length body + 11)))]
      ++ body
      ++ [newInstr OpCode.DUP 0 (DInt 0); newInstr OpCode.DUP 0 (DInt 0);
          newInstr OpCode.EVAL 0 (DInt 1); newInstr OpCode.PUSH 0 (DInt inc);
          newInstr OpCode.ADD 0 (DInt 0); newInstr OpCode.ASSIGN 0 (DInt 1);
          newInstr OpCode.JUMP 0 (DInt (Z.of_nat (List.length (code s_d))));
          newInstr OpCode.POP 0 (DInt 1)].
Proof.
  intros Hrec H. unfold forStatement in H.
  apply bind_Ok in H as (b1 & s1 & H1 & H).
  apply bind_Ok in H as (tok & s2 & H2 & H).
  apply bind_Ok in H as (t3 & s3 & H3 & H).
  apply bind_Ok in H as (var & s4 & H4 & H).
  assert (C4 : code s4 = code s).
  { transitivity (code s3);
      [eapply samecode_run; [|exact H4]; intros; apply Inv_lookup|].
    transitivity (code s2);
      [eapply samecode_run; [|exact H3]; intros; apply Inv_next|].
    transitivity (code s1);
      [eapply samecode_run; [|exact H2]; intros; apply Inv_ts_current|].
    eapply samecode_run; [|exact H1]; intros; apply Inv_expect. }
  destruct var as [i|]; [|injection H as <-; left; exact C4].
  right.
  apply bind_Ok in H as ([] & s_a & Ha & H).
  apply bind_Ok in H as (inc & s_d & Hd & H).
  apply bind_Ok in H as (cond_pc & s5 & H5 & H).
  apply code_size_Ok in H5 as [-> ->].
  unfold emit0 in H.
  apply bind_Ok in H as (? & s6 & H6 & H). apply emit_Ok in H6 as [_ ->].
  apply bind_Ok in H as (? & s7 & H7 & H). apply emit_Ok in H7 as [_ ->].
  apply bind_Ok in H as (lty & s8 & H8 & H).
  apply bind_Ok in H as (? & s9 & H9 & H). apply emit_Ok in H9 as [_ ->].
  apply bind_Ok in H as (jmp_pc & s10 & H10 & H).
  apply emit_Ok in H10 as [-> ->].
  apply bind_Ok in H as (bd & s11 & H11 & H).
  apply bind_Ok in H as ([] & s12 & H12 & H).
  apply bind_Ok in H as (? & s13 & H13 & H). apply emit_Ok in H13 as [_ ->].
  apply bind_Ok in H as (? & s14 & H14 & H). apply emit_Ok in H14 as [_ ->].
  apply bind_Ok in H as (? & s15 & H15 & H). apply emit_Ok in H15 as [_ ->].
  apply bind_Ok in H as (? & s16 & H16 & H). apply emit_Ok in H16 as [_ ->].
  apply bind_Ok in H as (? & s17 & H17 & H). apply emit_Ok in H17 as [_ ->].
  apply bind_Ok in H as (? & s18 & H18 & H). apply emit_Ok in H18 as [_ ->].
  apply bind_Ok in H as (? & s19 & H19 & H). apply emit_Ok in H19 as [_ ->].
  apply bind_Ok in H as (pop_pc & s20 & H20 & H).
  apply emit_Ok in H20 as [-> ->].
  destruct (for_direction_Ok _ _ _ Hd) as (Cd & Hto & Hdown).
  destruct (prefix_run _ _ _ _ _
              (fun b c0 => prefix_expression rec fuel Hrec b c0 level) H8)
    as [limit C8].
  assert (C11 : code s11 = code (emitted (newInstr OpCode.JNEQ 0 (DInt 0))
                                   (emitted (newInstr OpCode.LTE 0 (DInt 0)) s8)))
    by (eapply samecode_run; [|exact H11]; intros; apply Inv_expect).
  destruct (prefix_run _ _ _ _ _
              (fun b c0 => proj1 (proj2 (proj2 (Hrec b c0))) level) H12)
    as [body C12].
  exists (Some i), s4, s_a, s_d, inc, limit, body.
  split; [exact Ha|]. split; [exact Hto|]. split; [exact Hdown|].
  split; [exact Cd|].
  unfold patch in H.
  set (pre := code s_d
              ++ [newInstr OpCode.DUP 0 (DInt 0);
                  newInstr OpCode.EVAL 0 (DInt 1)]
              ++ limit ++ [newInstr OpCode.LTE 0 (DInt 0)]).
  set (post := body
               ++ [newInstr OpCode.DUP 0 (DInt 0);
                   newInstr OpCode.DUP 0 (DInt 0);
                   newInstr OpCode.EVAL 0 (DInt 1);
                   newInstr OpCode.PUSH 0 (DInt inc);
                   newInstr OpCode.ADD 0 (DInt 0);
                   newInstr OpCode.ASSIGN 0 (DInt 1);
                   newInstr OpCode.JUMP 0
                     (DInt (Z.of_nat (List.length (code s_d))));
                   newInstr OpCode.POP 0 (DInt 1)]).
  assert (E8 : code s8 ++ [newInstr OpCode.LTE 0 (DInt 0)] = pre).
  { rewrite C8. unfold pre. simpl. repeat rewrite <- app_assoc. reflexivity. }
  match type of H with
  | match patch_at ?pc ?v ?c with _ => _ end = _ =>
      assert (Ec : c = pre ++ newInstr OpCode.JNEQ 0 (DInt 0) :: post);
      [| assert (Ep : pc = List.length pre); [| rewrite Ec, Ep in H ] ]
  end.
  - simpl. rewrite C12, C11. simpl. rewrite E8. unfold post.
    repeat rewrite <- app_assoc. reflexivity.
  - simpl. rewrite E8. reflexivity.
  - rewrite patch_at_app in H. injection H as <-. simpl.
    rewrite C12, C11. simpl. rewrite E8.
    unfold pre, post. repeat rewrite <- app_assoc. simpl.
    unfold set_addr, newInstr. simpl. repeat f_equal.
    repeat (rewrite length_app; simpl). lia.
Qed.

(** C5 at [for i := 3 downto 1 do n := n + 1].  The step adds -1, the exit
    is the [POP 1] at 28, but the comparison at the loop head is [LTE], as
    for [to]: no [GTE] is emitted.  The program compiles without errors
    and runs to [HALT] with [n] (at address 6) still 0: the body is never
    entered. *)
Theorem for_downto_compares_with_LTE :
  nth_error (Samples.codeOf (compile 6 Samples.for_downto [])) 13
  = Some (newInstr OpCode.LTE 0 (DInt 0)) /\
  nth_error (Samples.codeOf (compile 6 Samples.for_downto [])) 14
  = Some (newInstr OpCode.JNEQ 0 (DInt 28)) /\
  nth_error (Samples.codeOf (compile 6 Samples.for_downto [])) 24
  = Some (newInstr OpCode.PUSH 0 (DInt (-1))) /\
  nth_error (Samples.codeOf (compile 6 Samples.for_downto [])) 28
  = Some (newInstr OpCode.POP 0 (DInt 1)) /\
  existsb (fun i => OpCode.eqb (op i) OpCode.GTE)
          (Samples.codeOf (compile 6 Samples.for_downto [])) = false /\
  main 6 300 Samples.for_downto = Some (O, Some PInterp.halted) /\
  PInterp.get
    (snd (PInterp.run 300
            (PInterp.load (Samples.codeOf (compile 6 Samples.for_downto []))
                          1024))) 6
  = Some (DInt 0).
Proof. vm_compute. repeat split; reflexivity. Qed.

(* ================================================================== *)
(** ** The built-in functions [pred] and [succ] *)

Ltac accept_misses H :=
  repeat (unfold bind at 1; rewrite accept_miss by (rewrite H; reflexivity)).

Lemma builtInFunc_pred rec level s :
  Token.kind (cur s) = Token.Pred ->
  builtInFunc rec level s
  = (type <- builtInArg rec level ;;
     t <- deref type ;;
     emit OpCode.PRED 0 (DInt (minimum (TypeDesc.range t))) ;;
     ret type) (advanced s).
Proof.
  intros H. unfold builtInFunc. accept_misses H.
  unfold bind at 1. rewrite (accept_true_hit _ _ H). reflexivity.
Qed.

Lemma builtInFunc_succ rec level s :
  Token.kind (cur s) = Token.Succ ->
  builtInFunc rec level s
  = (type <- builtInArg rec level ;;
     t <- deref type ;;
     emit OpCode.SUCC 0 (DInt (maximum (TypeDesc.range t))) ;;
     ret type) (advanced s).
Proof.
  intros H. unfold builtInFunc. accept_misses H.
  unfold bind at 1. rewrite (accept_true_hit _ _ H). reflexivity.
Qed.

(** What [pred(e)] and [succ(e)] add to the code of their argument: the
    opcode, with the minimum (for [pred]) or the maximum (for [succ]) of
    the range of the argument's type as its operand.  They add nothing
    else: whatever the type of the argument, the state behind the argument
    is left with its error count. *)
Lemma pred_succ_emit_the_bound rec level s ty s' :
  Token.kind (cur s) = Token.Pred \/ Token.kind (cur s) = Token.Succ ->
  builtInFunc rec level s = Ok ty s' ->
  exists s_a t,
    builtInArg rec level (advanced s) = Ok ty s_a /\
    deref ty s_a = Ok t s_a /\
    s' = emitted
           (if Token.eqb (Token.kind (cur s)) Token.Pred
            then newInstr OpCode.PRED 0 (DInt (minimum (TypeDesc.range t)))
            else newInstr OpCode.SUCC 0 (DInt (maximum (TypeDesc.range t))))
           s_a /\
    nErrors s' = nErrors s_a.
Proof.
  intros [H|H] E.
  - rewrite (builtInFunc_pred _ _ _ H) in E.
    apply bind_Ok in E as (ty0 & s_a & Ha & E).
    apply bind_Ok in E as (t & s1 & Ht & E).
    destruct (deref_Ok _ _ _ _ Ht) as [-> _].
    apply bind_Ok in E as (pc & s2 & He & E). apply emit_Ok in He as [_ ->].
    injection E as <- <-. exists s_a, t. rewrite H. simpl. auto.
  - rewrite (builtInFunc_succ _ _ _ H) in E.
    apply bind_Ok in E as (ty0 & s_a & Ha & E).
    apply bind_Ok in E as (t & s1 & Ht & E).
    destruct (deref_Ok _ _ _ _ Ht) as [-> _].
    apply bind_Ok in E as (pc & s2 & He & E). apply emit_Ok in He as [_ ->].
    injection E as <- <-. exists s_a, t. rewrite H. simpl. auto.
Qed.

(** C6 at [x := pred(1.5)] and [x := succ(1.5)] with [x : real].  The
    argument is a Real, not an ordinal, yet the compiler returns no error
    and writes no diagnostic; [PRED] and [SUCC] are emitted. *)
Theorem pred_succ_of_a_real_are_not_reported :
  match compile 6 Samples.pred_real [] with
  | Ok n s =>
      n = O /\ diags s = [] /\
      existsb (fun i => OpCode.eqb (op i) OpCode.PRED) (code s) = true
  | _ => False
  end /\
  match compile 6 Samples.succ_real [] with
  | Ok n s =>
      n = O /\ diags s = [] /\
      existsb (fun i => OpCode.eqb (op i) OpCode.SUCC) (code s) = true
  | _ => False
  end.
Proof. vm_compute. repeat split; reflexivity. Qed.

(* ================================================================== *)
(** ** The number of parameters of a call *)

(** A call without a parenthesis: nothing is counted and nothing compared
    with the formal parameters. *)
Lemma callStatement_bare rec fuel level it s :
  Token.kind (cur s) <> Token.OpenParen ->
  callStatement rec fuel level it s
  = (e <- entryOf it ;;
     (if negb (SymValue.eqb SymValue.Procedure (SymValue.kind (esym e)))
         && negb (SymValue.eqb SymValue.Function (SymValue.kind (esym e)))
      then error2 "Identifier is not a function or procedure" (ename e)
      else ret tt) ;;
     emit OpCode.CALL (level - SymValue.level (esym e))
          (SymValue.value (esym e)) ;;
     ret tt) s.
Proof.
  intros H. unfold callStatement.
  unfold bind at 1. unfold bind at 1.
  rewrite accept_miss.
  - reflexivity.
  - destruct (Token.eqb (Token.kind (cur s)) Token.OpenParen) eqn:E;
      [|reflexivity].
    apply Token_eqb_eq in E. contradiction.
Qed.

(** C8 at [procedure q(a : integer); ... begin q end]: the call passes no
    parameter where one is declared, the compiler returns no error and
    writes no diagnostic, and the driver runs the program.  With an empty
    parenthesis the same call is reported; with one parameter it is not. *)
Theorem call_without_parenthesis_is_not_checked :
  match compile 6 Samples.call_bare [] with
  | Ok n s =>
      n = O /\ diags s = [] /\
      In (newInstr OpCode.CALL 0 (DInt 2)) (code s)
  | _ => False
  end /\
  (exists r, main 6 300 Samples.call_bare = Some (O, Some r)) /\
  match compile 6 Samples.call_empty [] with
  | Ok n s =>
      n = 1%nat /\
      diags s = [[PStr "passing "; PNum 0; PStr " parameters, where ";
                  PNum 1; PStr " expected"]]
  | _ => False
  end /\
  match compile 6 Samples.call_one [] with
  | Ok n s => n = O /\ diags s = []
  | _ => False
  end.
Proof.
  vm_compute. repeat split; try reflexivity.
  - right. right. right. left. reflexivity.
  - eexists. reflexivity.
Qed.

(* ================================================================== *)
(** ** The symbol table: purge, the built-in names, shadowing *)

Lemma purge_table_filter level tbl :
  purge_table level tbl
  = filter (fun e => negb (Z.eqb (SymValue.level (esym e)) level)) tbl.
Proof.
  induction tbl as [|e tbl IH]; simpl; [reflexivity|].
  destruct (Z.eqb (SymValue.level (esym e)) level); simpl; rewrite IH;
    reflexivity.
Qed.

Lemma purge_table_below level tbl :
  filter (fun e => SymValue.level (esym e) <? level) (purge_table level tbl)
  = filter (fun e => SymValue.level (esym e) <? level) tbl.
Proof.
  induction tbl as [|e tbl IH]; simpl; [reflexivity|].
  destruct (Z.eqb_spec (SymValue.level (esym e)) level) as [E|E]; simpl.
  - rewrite IH. rewrite E, Z.ltb_irrefl. reflexivity.
  - rewrite IH. reflexivity.
Qed.

Lemma purge_table_level level tbl e :
  In e (purge_table level tbl) -> SymValue.level (esym e) <> level.
Proof.
  intros H. rewrite purge_table_filter in H.
  apply filter_In in H as [_ H]. apply negb_true_iff in H.
  apply Z.eqb_neq. exact H.
Qed.

(** C4.  Whatever the table holds, after [purge(L)] none of its elements
    has level [L]; every element of another level is still there, and the
    elements of a level below [L] are the same as before, in the same
    order, each with its name, kind, level, value and type.  Nothing else
    of the compiler changes. *)
Theorem purge_removes_exactly_the_level :
  forall level s,
    purge level s = Ok tt (with_symtbl (purge_table level (symtbl s)) s) /\
    (forall e, In e (purge_table level (symtbl s)) ->
               SymValue.level (esym e) <> level) /\
    (forall e, In e (symtbl s) -> SymValue.level (esym e) <> level ->
               In e (purge_table level (symtbl s))) /\
    filter (fun e => SymValue.level (esym e) <? level)
           (purge_table level (symtbl s))
    = filter (fun e => SymValue.level (esym e) <? level) (symtbl s).
Proof.
  intros level s. split; [reflexivity|]. split; [|split].
  - intros e. apply purge_table_level.
  - intros e H Hl. rewrite purge_table_filter. apply filter_In.
    split; [exact H|]. apply negb_true_iff. apply Z.eqb_neq. exact Hl.
  - apply purge_table_below.
Qed.

(** [purge(1)] on a table of two levels leaves the elements of level 0. *)
Lemma purge_removes_exactly_the_level_witness :
  In (mkEntry 0 "x" (SymValue.makeVar 0 0 TypeDesc.intDesc))
     (purge_table 1 Samples.two_levels) /\
  SymValue.level (esym (mkEntry 1 "p" (SymValue.makeSbr SymValue.Procedure 0)))
  <> 1.
Proof.
  split.
  - apply (proj1 (proj2 (proj2 (purge_removes_exactly_the_level 1
                    (with_symtbl Samples.two_levels PComp_new))))).
    + simpl. left. reflexivity.
    + simpl. discriminate.
  - apply (proj1 (proj2 (purge_removes_exactly_the_level 1
                    (with_symtbl Samples.two_levels PComp_new)))).
    simpl. right. left. reflexivity.
Defined.

Example purge_two_levels :
  purge_table 1 Samples.two_levels
  = [ mkEntry 0 "x" (SymValue.makeVar 0 0 TypeDesc.intDesc);
      mkEntry 1 "p" (SymValue.makeSbr SymValue.Procedure 0) ].
Proof. reflexivity. Qed.

(** A block ends by purging its level: pcomp.cc, [blockDecl]. *)
Lemma blockDecl_purges rec fuel val level s addr s' :
  blockDecl rec fuel val level s = Ok addr s' ->
  forall e, In e (symtbl s') -> SymValue.level (esym e) <> level.
Proof.
  intros H. unfold blockDecl in H.
  apply bind_Ok in H as ([] & s1 & H1 & H).
  apply bind_Ok in H as ([] & s2 & H2 & H).
  apply bind_Ok in H as (dx & s3 & H3 & H).
  apply bind_Ok in H as ([] & s4 & H4 & H).
  apply bind_Ok in H as (a & s5 & H5 & H).
  apply bind_Ok in H as ([] & s6 & H6 & H).
  apply bind_Ok in H as ([] & s7 & H7 & H).
  apply bind_Ok in H as (v & s8 & H8 & H).
  apply bind_Ok in H as (rpc & s9 & H9 & H).
  apply bind_Ok in H as ([] & s10 & H10 & H).
  injection H as _ <-.
  injection H10 as <-. simpl.
  intros e. apply purge_table_level.
Qed.

(** The closest declaration of a name is the last one, if its level is
    above the level of all the others. *)
Lemma closest_last c r e :
  (forall x, In x (c :: r) -> SymValue.level (esym x) < SymValue.level (esym e)) ->
  closest c (r ++ [e]) = e.
Proof.
  revert c. induction r as [|y r IH]; intros c H; simpl.
  - assert (Hc := H c (or_introl eq_refl)).
    destruct (Z.gtb_spec (SymValue.level (esym e)) (SymValue.level (esym c)));
      [reflexivity | lia].
  - apply IH. intros x [<-|Hx].
    + destruct (SymValue.level (esym y) >? SymValue.level (esym c));
        apply H; simpl; auto.
    + apply H. simpl. auto.
Qed.

Lemma closest_in_last r e :
  (forall x, In x r -> SymValue.level (esym x) < SymValue.level (esym e)) ->
  closest_in (r ++ [e]) = Some e.
Proof.
  intros H. destruct r as [|c r]; simpl.
  - destruct (SymValue.level (esym e) >? SymValue.level (esym e)); reflexivity.
  - f_equal.
    destruct (Z.gtb_spec (SymValue.level (esym c)) (SymValue.level (esym c)));
      [lia|].
    apply closest_last. exact H.
Qed.

Lemma equal_range_app name a b :
  equal_range name (a ++ b) = equal_range name a ++ equal_range name b.
Proof. apply filter_app. Qed.

(** A declaration whose level is above that of every other declaration of
    its name is the one [lookup] returns. *)
Lemma lookup_shadow name tbl id v s :
  (forall e, In e (equal_range name tbl) ->
             SymValue.level (esym e) < SymValue.level v) ->
  lookup name (with_symtbl (tbl ++ [mkEntry id name v]) s)
  = Ok (Some id) (with_symtbl (tbl ++ [mkEntry id name v]) s).
Proof.
  intros H. unfold lookup, bind, get.
  replace (symtbl (with_symtbl (tbl ++ [mkEntry id name v]) s))
    with (tbl ++ [mkEntry id name v]) by reflexivity.
  rewrite equal_range_app.
  replace (equal_range name [mkEntry id name v]) with [mkEntry id name v]
    by (unfold equal_range; simpl; rewrite String.eqb_refl; reflexivity).
  rewrite (closest_in_last _ (mkEntry id name v)) by exact H.
  reflexivity.
Qed.

Lemma closest_In r c : In (closest c r) (c :: r).
Proof.
  revert c. induction r as [|y r IH]; intros c; simpl; [auto|].
  destruct (IH (if SymValue.level (esym y) >? SymValue.level (esym c)
                then y else c)) as [E|E].
  - rewrite <- E.
    destruct (SymValue.level (esym y) >? SymValue.level (esym c)); auto.
  - auto.
Qed.

Lemma closest_in_In r e : closest_in r = Some e -> In e r.
Proof.
  destruct r as [|c r]; simpl; [discriminate|].
  intros H. injection H as <-.
  destruct (closest_In r (if SymValue.level (esym c) >? SymValue.level (esym c)
                          then c else c)) as [E|E].
  - left. rewrite <- E.
    destruct (SymValue.level (esym c) >? SymValue.level (esym c)); reflexivity.
  - right. exact E.
Qed.

(** A name that has a declaration is found, and what is found is one of
    its declarations. *)
Lemma lookup_found name tbl s :
  equal_range name tbl <> [] ->
  exists e, lookup name (with_symtbl tbl s)
            = Ok (Some (eid e)) (with_symtbl tbl s)
            /\ ename e = name /\ In e tbl.
Proof.
  intros H. unfold lookup, bind, get.
  replace (symtbl (with_symtbl tbl s)) with tbl by reflexivity.
  destruct (closest_in (equal_range name tbl)) as [e|] eqn:E.
  - exists e. split; [reflexivity|].
    apply closest_in_In in E. apply filter_In in E as [E1 E2].
    split; [apply String.eqb_eq; exact E2 | exact E1].
  - destruct (equal_range name tbl); [congruence | discriminate].
Qed.

Lemma builtin_level_0 name e :
  In e (equal_range name PComp_symtbl) -> SymValue.level (esym e) = 0.
Proof.
  intros H. apply filter_In in H as [H _]. simpl in H.
  repeat (destruct H as [<-|H]; [reflexivity|]). destruct H.
Qed.

(** C9.  As the constructor leaves the compiler, before a token is read,
    the symbol table holds, at level 0, the types [bool], [char],
    [integer] and [real] and the constants [maxint] (the maximum of the
    machine's integer range), [nil] (0, of a pointer type), [true] (1) and
    [false] (0).  [lookup] finds each of them, in this table and in any
    that has grown from it, and a later declaration of the same name at a
    level above 0 is found in its place. *)
Theorem builtin_names_are_declared :
  (cur PComp_new = Token.ofKind Token.Unknown /\ input PComp_new = [] /\
   map (fun e => (ename e, SymValue.kind (esym e), SymValue.level (esym e),
                  SymValue.value (esym e)))
       (symtbl PComp_new)
   = [ ("bool", SymValue.Type_, 0, DInt 0);
       ("char", SymValue.Type_, 0, DInt 0);
       ("integer", SymValue.Type_, 0, DInt 0);
       ("real", SymValue.Type_, 0, DInt 0);
       ("maxint", SymValue.Constant, 0, DInt INT_MAX);
       ("nil", SymValue.Constant, 0, DInt 0);
       ("true", SymValue.Constant, 0, DInt 1);
       ("false", SymValue.Constant, 0, DInt 0) ] /\
   map (fun e => match deref (SymValue.type (esym e)) PComp_new with
                 | Ok t _ => Some (TypeDesc.tclass t)
                 | _ => None
                 end) (symtbl PComp_new)
   = [ Some TypeDesc.Boolean; Some TypeDesc.Character; Some TypeDesc.Integer;
       Some TypeDesc.Real; Some TypeDesc.Integer; Some TypeDesc.Pointer;
       Some TypeDesc.Boolean; Some TypeDesc.Boolean ] /\
   maximum TypeDesc.maxRange = INT_MAX) /\
  (forall source prog,
     symtbl (set_code prog (set_cur (cur PComp_new) source PComp_new))
     = symtbl PComp_new) /\
  (forall name tbl s,
     In name builtin_names ->
     exists e, lookup name (with_symtbl (PComp_symtbl ++ tbl) s)
               = Ok (Some (eid e)) (with_symtbl (PComp_symtbl ++ tbl) s)
               /\ ename e = name) /\
  (forall name id v s,
     In name builtin_names -> 0 < SymValue.level v ->
     lookup name (with_symtbl (PComp_symtbl ++ [mkEntry id name v]) s)
     = Ok (Some id) (with_symtbl (PComp_symtbl ++ [mkEntry id name v]) s)).
Proof.
  split; [|split; [|split]].
  - repeat split; reflexivity.
  - reflexivity.
  - intros name tbl s Hin.
    destruct (lookup_found name (PComp_symtbl ++ tbl) s) as (e & H1 & H2 & _).
    + rewrite equal_range_app. simpl in Hin.
      repeat (destruct Hin as [<-|Hin]; [discriminate|]). destruct Hin.
    + exists e. split; assumption.
  - intros name id v s Hin Hv. apply lookup_shadow.
    intros e He. rewrite (builtin_level_0 _ _ He). exact Hv.
Qed.

(** [true], found in the initial table, and hidden by a variable [true]
    declared at level 1. *)
Lemma builtin_names_are_declared_witness :
  (exists e, lookup "true" (with_symtbl (PComp_symtbl ++ []) PComp_new)
             = Ok (Some (eid e)) (with_symtbl (PComp_symtbl ++ []) PComp_new)
             /\ ename e = "true") /\
  lookup "true"
    (with_symtbl
       (PComp_symtbl
        ++ [mkEntry 8 "true" (SymValue.makeVar 1 0 TypeDesc.intDesc)])
       PComp_new)
  = Ok (Some 8%nat)
       (with_symtbl
          (PComp_symtbl
           ++ [mkEntry 8 "true" (SymValue.makeVar 1 0 TypeDesc.intDesc)])
          PComp_new).
Proof.
  split.
  - apply (proj1 (proj2 (proj2 builtin_names_are_declared))).
    simpl. do 6 right. left. reflexivity.
  - apply (proj2 (proj2 (proj2 builtin_names_are_declared))).
    + simpl. do 6 right. left. reflexivity.
    + reflexivity.
Defined.

(* ================================================================== *)
(** ** Every diagnostic is counted *)

Lemma Keeps_ret P A (a : A) : Keeps P (ret a).
Proof. intros s H. exact H. Qed.

Lemma Keeps_bind P A B (m : M A) (k : A -> M B) :
  Keeps P m -> (forall a, Keeps P (k a)) -> Keeps P (bind m k).
Proof.
  intros Hm Hk s H. unfold bind. specialize (Hm s H).
  destruct (m s) as [a s1| |]; auto. apply (Hk a s1 Hm).
Qed.

Lemma Keeps_crash P A : Keeps P (@crash A).
Proof. intros s H. exact I. Qed.

Lemma Keeps_outOfFuel P A : Keeps P (@outOfFuel A).
Proof. intros s H. reflexivity. Qed.

Lemma Keeps_get P : Keeps P get.
Proof. intros s H. exact H. Qed.

Lemma Keeps_current P : Keeps P current.
Proof. intros s H. exact H. Qed.

Lemma Keeps_ts_current P : Keeps P ts_current.
Proof. intros s H. exact H. Qed.

Lemma Keeps_code_size P : Keeps P code_size.
Proof. intros s H. exact H. Qed.

Lemma Keeps_entryOf P it : Keeps P (entryOf it).
Proof.
  intros s H. unfold entryOf. destruct it as [i|]; [|exact I].
  destruct (find_entry i (symtbl s)); [exact H | exact I].
Qed.

Lemma Keeps_deref P p : Keeps P (deref p).
Proof.
  intros s H. unfold deref. destruct p as [i|]; [|exact I].
  destruct (nth_error (types s) i); [exact H | exact I].
Qed.

Create HintDb keep discriminated.
#[export] Hint Resolve Keeps_ret Keeps_crash Keeps_outOfFuel Keeps_get
  Keeps_current Keeps_ts_current Keeps_code_size Keeps_entryOf Keeps_deref
  : keep.

Ltac keep_step :=
  cbv beta match zeta;
  lazymatch goal with
  | |- Keeps _ (ret _) => apply Keeps_ret
  | |- Keeps _ (bind (if ?c then _ else _) _) => destruct c
  | |- Keeps _ (bind (match ?x with _ => _ end) _) => destruct x
  | |- Keeps _ (bind _ _) => apply Keeps_bind; [ | intros ? ]
  | |- Keeps _ (if ?c then _ else _) => destruct c
  | |- Keeps _ (match ?x with _ => _ end) => destruct x
  | |- Keeps _ _ => solve [auto with keep]
  end.

Ltac keep_auto := unfold emit0; repeat keep_step.

(** A property that no change of the token stream, the code, the symbol
    table or the type descriptors disturbs, and that a diagnostic keeps,
    is kept by every production. *)
Section KeepsDiagnostics.

Variable P : Comp -> Prop.
Hypothesis P_cur : forall t i s, P s -> P (set_cur t i s).
Hypothesis P_code : forall c s, P s -> P (set_code c s).
Hypothesis P_symtbl : forall t n s, P s -> P (set_symtbl t n s).
Hypothesis P_types : forall t s, P s -> P (set_types t s).
Hypothesis P_error : forall m s, P s -> P (add_error m s).

Lemma Keeps_next : Keeps P next.
Proof. intros s H. unfold next. destruct (input s); apply P_cur; exact H. Qed.

Lemma Keeps_error m : Keeps P (error m).
Proof. intros s H. apply P_error. exact H. Qed.

Lemma Keeps_emit o l a : Keeps P (emit o l a).
Proof. intros s H. apply P_code. exact H. Qed.

Lemma Keeps_patch pc a : Keeps P (patch pc a).
Proof.
  intros s H. unfold patch. destruct (patch_at pc a (code s)); [|exact I].
  apply P_code. exact H.
Qed.

Lemma Keeps_insert name v : Keeps P (insert name v).
Proof. intros s H. apply P_symtbl. exact H. Qed.

Lemma Keeps_purge level : Keeps P (purge level).
Proof. intros s H. apply P_symtbl. exact H. Qed.

Lemma Keeps_newDesc d : Keeps P (newDesc d).
Proof. intros s H. apply P_types. exact H. Qed.

Lemma Keeps_modify_symtbl f :
  Keeps P (modify (fun s => set_symtbl (f s) (nextId s) s)).
Proof. intros s H. apply P_symtbl. exact H. Qed.

Lemma Keeps_modify_types f : Keeps P (modify (fun s => set_types (f s) s)).
Proof. intros s H. apply P_types. exact H. Qed.

#[local] Hint Resolve Keeps_next Keeps_error Keeps_emit Keeps_patch
  Keeps_insert Keeps_purge Keeps_newDesc Keeps_modify_symtbl
  Keeps_modify_types : keep.

Lemma Keeps_error2 s t : Keeps P (error2 s t).
Proof. unfold error2. keep_auto. Qed.

Lemma Keeps_accept k g : Keeps P (accept k g).
Proof. unfold accept. keep_auto. Qed.
#[local] Hint Resolve Keeps_error2 Keeps_accept : keep.

Lemma Keeps_expect k g : Keeps P (expect k g).
Proof. unfold expect. keep_auto. Qed.

Lemma Keeps_oneOf ks : Keeps P (oneOf ks).
Proof. unfold oneOf. keep_auto. Qed.

Lemma Keeps_symOf it : Keeps P (symOf it).
Proof. unfold symOf. keep_auto. Qed.

Lemma Keeps_updSym i f : Keeps P (updSym i f).
Proof. unfold updSym. keep_auto. Qed.

Lemma Keeps_lookup id : Keeps P (lookup id).
Proof. unfold lookup. keep_auto. Qed.

Lemma Keeps_updDesc p f : Keeps P (updDesc p f).
Proof. unfold updDesc. keep_auto. Qed.
#[local] Hint Resolve Keeps_expect Keeps_oneOf Keeps_symOf Keeps_updSym
  Keeps_lookup Keeps_updDesc : keep.

Lemma Keeps_nameDecl level p : Keeps P (nameDecl level p).
Proof. unfold nameDecl. keep_auto. Qed.

Lemma Keeps_Datum_integer d : Keeps P (Datum_integer d).
Proof. unfold Datum_integer. keep_auto. Qed.

Lemma Keeps_constExpr : Keeps P constExpr.
Proof. unfold constExpr. keep_auto. Qed.

Lemma Keeps_promote lhs rhs : Keeps P (promote lhs rhs).
Proof. unfold promote. keep_auto. Qed.

Lemma Keeps_assignPromote lhs rhs : Keeps P (assignPromote lhs rhs).
Proof. unfold assignPromote. keep_auto. Qed.

Lemma Keeps_emitVarRef level v : Keeps P (emitVarRef level v).
Proof. unfold emitVarRef. keep_auto. Qed.
#[local] Hint Resolve Keeps_nameDecl Keeps_Datum_integer Keeps_constExpr
  Keeps_promote Keeps_assignPromote Keeps_emitVarRef : keep.

Variable rec : Rec.
Variable fuel : nat.
Hypothesis rec_ok : rec_Keeps P rec.

Lemma rec_expression_Keeps level : Keeps P (r_expression rec level).
Proof. apply rec_ok. Qed.

Lemma rec_factor_Keeps level : Keeps P (r_factor rec level).
Proof. apply rec_ok. Qed.

Lemma rec_statement_Keeps level : Keeps P (r_statement rec level).
Proof. apply rec_ok. Qed.

Lemma rec_type_Keeps level p : Keeps P (r_type rec level p).
Proof. apply rec_ok. Qed.

Lemma rec_blockDecl_Keeps val level : Keeps P (r_blockDecl rec val level).
Proof. apply rec_ok. Qed.

#[local] Hint Resolve rec_expression_Keeps rec_factor_Keeps
  rec_statement_Keeps rec_type_Keeps rec_blockDecl_Keeps : keep.

Lemma Keeps_expressionList_loop : forall n level v, Keeps P (expressionList_loop rec n level v).
Proof. induction n; intros; cbn [expressionList_loop]; keep_auto. Qed.
#[local] Hint Resolve Keeps_expressionList_loop : keep.

Lemma Keeps_expressionList : forall level, Keeps P (expressionList rec fuel level).
Proof. intros; unfold expressionList; keep_auto. Qed.
#[local] Hint Resolve Keeps_expressionList : keep.

Lemma Keeps_callStatement_actuals : forall n level it nParams, Keeps P (callStatement_actuals rec n level it nParams).
Proof. induction n; intros; cbn [callStatement_actuals]; keep_auto. Qed.
#[local] Hint Resolve Keeps_callStatement_actuals : keep.

Lemma Keeps_callStatement : forall level it, Keeps P (callStatement rec fuel level it).
Proof. intros; unfold callStatement; keep_auto. Qed.
#[local] Hint Resolve Keeps_callStatement : keep.

Lemma Keeps_varArray_indexes : forall indexes nindexes atype ty, Keeps P (varArray_indexes indexes nindexes atype ty).
Proof. induction indexes; intros; cbn [varArray_indexes]; keep_auto. Qed.
#[local] Hint Resolve Keeps_varArray_indexes : keep.

Lemma Keeps_varArray : forall level it ty, Keeps P (varArray rec fuel level it ty).
Proof. intros; unfold varArray; keep_auto. Qed.
#[local] Hint Resolve Keeps_varArray : keep.

Lemma Keeps_varSelector_fields : forall flds selector ty offset, Keeps P (varSelector_fields selector flds ty offset).
Proof. induction flds; intros; cbn [varSelector_fields]; keep_auto. Qed.
#[local] Hint Resolve Keeps_varSelector_fields : keep.

Lemma Keeps_varSelector : forall it ty, Keeps P (varSelector it ty).
Proof. intros; unfold varSelector; keep_auto. Qed.
#[local] Hint Resolve Keeps_varSelector : keep.

Lemma Keeps_variable_loop : forall n level it ty, Keeps P (variable_loop rec fuel n level it ty).
Proof. induction n; intros; cbn [variable_loop]; keep_auto. Qed.
#[local] Hint Resolve Keeps_variable_loop : keep.

Lemma Keeps_variable : forall level it, Keeps P (variable rec fuel level it).
Proof. intros; unfold variable; keep_auto. Qed.
#[local] Hint Resolve Keeps_variable : keep.

Lemma Keeps_identFactor : forall level id, Keeps P (identFactor rec fuel level id).
Proof. intros; unfold identFactor; keep_auto. Qed.
#[local] Hint Resolve Keeps_identFactor : keep.

Lemma Keeps_builtInArg : forall level, Keeps P (builtInArg rec level).
Proof. intros; unfold builtInArg; keep_auto. Qed.
#[local] Hint Resolve Keeps_builtInArg : keep.

Lemma Keeps_builtInReal : forall o level, Keeps P (builtInReal rec o level).
Proof. intros; unfold builtInReal; keep_auto. Qed.
#[local] Hint Resolve Keeps_builtInReal : keep.

Lemma Keeps_builtInToInt : forall o level, Keeps P (builtInToInt rec o level).
Proof. intros; unfold builtInToInt; keep_auto. Qed.
#[local] Hint Resolve Keeps_builtInToInt : keep.

Lemma Keeps_builtInFunc : forall level, Keeps P (builtInFunc rec level).
Proof. intros; unfold builtInFunc; keep_auto. Qed.
#[local] Hint Resolve Keeps_builtInFunc : keep.

Lemma Keeps_pushChars : forall str, Keeps P (pushChars str).
Proof. induction str; intros; cbn [pushChars]; keep_auto. Qed.
#[local] Hint Resolve Keeps_pushChars : keep.

Lemma Keeps_factor : forall level, Keeps P (factor rec fuel level).
Proof. intros; unfold factor; keep_auto. Qed.
#[local] Hint Resolve Keeps_factor : keep.

Lemma Keeps_term_loop : forall n level lhs, Keeps P (term_loop rec fuel n level lhs).
Proof. induction n; intros; cbn [term_loop]; keep_auto. Qed.
#[local] Hint Resolve Keeps_term_loop : keep.

Lemma Keeps_term : forall level, Keeps P (term rec fuel level).
Proof. intros; unfold term; keep_auto. Qed.
#[local] Hint Resolve Keeps_term : keep.

Lemma Keeps_unary : forall level, Keeps P (unary rec fuel level).
Proof. intros; unfold unary; keep_auto. Qed.
#[local] Hint Resolve Keeps_unary : keep.

Lemma Keeps_simpleExpr_loop : forall n level lhs, Keeps P (simpleExpr_loop rec fuel n level lhs).
Proof. induction n; intros; cbn [simpleExpr_loop]; keep_auto. Qed.
#[local] Hint Resolve Keeps_simpleExpr_loop : keep.

Lemma Keeps_simpleExpr : forall level, Keeps P (simpleExpr rec fuel level).
Proof. intros; unfold simpleExpr; keep_auto. Qed.
#[local] Hint Resolve Keeps_simpleExpr : keep.

Lemma Keeps_expression_loop : forall n level lhs, Keeps P (expression_loop rec fuel n level lhs).
Proof. induction n; intros; cbn [expression_loop]; keep_auto. Qed.
#[local] Hint Resolve Keeps_expression_loop : keep.

Lemma Keeps_expression : forall level, Keeps P (expression rec fuel level).
Proof. intros; unfold expression; keep_auto. Qed.
#[local] Hint Resolve Keeps_expression : keep.

Lemma Keeps_assignStatement : forall level it dup, Keeps P (assignStatement rec fuel level it dup).
Proof. intros; unfold assignStatement; keep_auto. Qed.
#[local] Hint Resolve Keeps_assignStatement : keep.

Lemma Keeps_whileStatement : forall level, Keeps P (whileStatement rec fuel level).
Proof. intros; unfold whileStatement; keep_auto. Qed.
#[local] Hint Resolve Keeps_whileStatement : keep.

Lemma Keeps_ifStatement : forall level, Keeps P (ifStatement rec fuel level).
Proof. intros; unfold ifStatement; keep_auto. Qed.
#[local] Hint Resolve Keeps_ifStatement : keep.

Lemma Keeps_repeateStatement : forall level, Keeps P (repeateStatement rec fuel level).
Proof. intros; unfold repeateStatement; keep_auto. Qed.
#[local] Hint Resolve Keeps_repeateStatement : keep.

Lemma Keeps_forStatement : forall level, Keeps P (forStatement rec fuel level).
Proof. intros; unfold forStatement; keep_auto. Qed.
#[local] Hint Resolve Keeps_forStatement : keep.

Lemma Keeps_statementList_loop : forall n level, Keeps P (statementList_loop rec n level).
Proof. induction n; intros; cbn [statementList_loop]; keep_auto. Qed.
#[local] Hint Resolve Keeps_statementList_loop : keep.

Lemma Keeps_statementList : forall level, Keeps P (statementList rec fuel level).
Proof. intros; unfold statementList; keep_auto. Qed.
#[local] Hint Resolve Keeps_statementList : keep.

Lemma Keeps_identStatement : forall level id, Keeps P (identStatement rec fuel level id).
Proof. intros; unfold identStatement; keep_auto. Qed.
#[local] Hint Resolve Keeps_identStatement : keep.

Lemma Keeps_writeStmt_loop : forall n level oss nargs, Keeps P (writeStmt_loop rec fuel n level oss nargs).
Proof. induction n; intros; cbn [writeStmt_loop]; keep_auto. Qed.
#[local] Hint Resolve Keeps_writeStmt_loop : keep.

Lemma Keeps_writeStmt : forall level, Keeps P (writeStmt rec fuel level).
Proof. intros; unfold writeStmt; keep_auto. Qed.
#[local] Hint Resolve Keeps_writeStmt : keep.

Lemma Keeps_writeStatement : forall level, Keeps P (writeStatement rec fuel level).
Proof. intros; unfold writeStatement; keep_auto. Qed.
#[local] Hint Resolve Keeps_writeStatement : keep.

Lemma Keeps_writeLnStatement : forall level, Keeps P (writeLnStatement rec fuel level).
Proof. intros; unfold writeLnStatement; keep_auto. Qed.
#[local] Hint Resolve Keeps_writeLnStatement : keep.

Lemma Keeps_statementNew : forall level, Keeps P (statementNew rec fuel level).
Proof. intros; unfold statementNew; keep_auto. Qed.
#[local] Hint Resolve Keeps_statementNew : keep.

Lemma Keeps_statementProcs : forall level, Keeps P (statementProcs rec fuel level).
Proof. intros; unfold statementProcs; keep_auto. Qed.
#[local] Hint Resolve Keeps_statementProcs : keep.

Lemma Keeps_statement : forall level, Keeps P (statement rec fuel level).
Proof. intros; unfold statement; keep_auto. Qed.
#[local] Hint Resolve Keeps_statement : keep.

Lemma Keeps_identifierList_loop : forall n level p ids, Keeps P (identifierList_loop n level p ids).
Proof. induction n; intros; cbn [identifierList_loop]; keep_auto. Qed.
#[local] Hint Resolve Keeps_identifierList_loop : keep.

Lemma Keeps_identifierList : forall level p, Keeps P (identifierList fuel level p).
Proof. intros; unfold identifierList; keep_auto. Qed.
#[local] Hint Resolve Keeps_identifierList : keep.

Lemma Keeps_ordinalType_enums : forall ids level ty value enums, Keeps P (ordinalType_enums level ty ids value enums).
Proof. induction ids; intros; cbn [ordinalType_enums]; keep_auto. Qed.
#[local] Hint Resolve Keeps_ordinalType_enums : keep.

Lemma Keeps_ordinalType : forall level, Keeps P (ordinalType fuel level).
Proof. intros; unfold ordinalType; keep_auto. Qed.
#[local] Hint Resolve Keeps_ordinalType : keep.

Lemma Keeps_simpleType : forall level, Keeps P (simpleType fuel level).
Proof. intros; unfold simpleType; keep_auto. Qed.
#[local] Hint Resolve Keeps_simpleType : keep.

Lemma Keeps_simpleTypeList_loop : forall n level tdescs, Keeps P (simpleTypeList_loop fuel n level tdescs).
Proof. induction n; intros; cbn [simpleTypeList_loop]; keep_auto. Qed.
#[local] Hint Resolve Keeps_simpleTypeList_loop : keep.

Lemma Keeps_simpleTypeList : forall level, Keeps P (simpleTypeList fuel level).
Proof. intros; unfold simpleTypeList; keep_auto. Qed.
#[local] Hint Resolve Keeps_simpleTypeList : keep.

Lemma Keeps_varDecl : forall level p idents, Keeps P (varDecl rec fuel level p idents).
Proof. intros; unfold varDecl; keep_auto. Qed.
#[local] Hint Resolve Keeps_varDecl : keep.

Lemma Keeps_varDeclList_loop : forall n level p idents, Keeps P (varDeclList_loop rec fuel n level p idents).
Proof. induction n; intros; cbn [varDeclList_loop]; keep_auto. Qed.
#[local] Hint Resolve Keeps_varDeclList_loop : keep.

Lemma Keeps_varDeclList_params : forall idents dx, Keeps P (varDeclList_params idents dx).
Proof. induction idents; intros; cbn [varDeclList_params]; keep_auto. Qed.
#[local] Hint Resolve Keeps_varDeclList_params : keep.

Lemma Keeps_varDeclList_defined : forall r level name, Keeps P (varDeclList_defined level name r).
Proof. induction r; intros; cbn [varDeclList_defined]; keep_auto. Qed.
#[local] Hint Resolve Keeps_varDeclList_defined : keep.

Lemma Keeps_varDeclList_install : forall idents level dx, Keeps P (varDeclList_install level idents dx).
Proof. induction idents; intros; cbn [varDeclList_install]; keep_auto. Qed.
#[local] Hint Resolve Keeps_varDeclList_install : keep.

Lemma Keeps_varDeclList : forall level params p idents, Keeps P (varDeclList rec fuel level params p idents).
Proof. intros; unfold varDeclList; keep_auto. Qed.
#[local] Hint Resolve Keeps_varDeclList : keep.

Lemma Keeps_fieldList : forall level p fields, Keeps P (fieldList rec fuel level p fields).
Proof. intros; unfold fieldList; keep_auto. Qed.
#[local] Hint Resolve Keeps_fieldList : keep.

Lemma Keeps_sizeOfFields : forall fields W sum, Keeps P (sizeOfFields W fields sum).
Proof. induction fields; intros; cbn [sizeOfFields]; keep_auto. Qed.
#[local] Hint Resolve Keeps_sizeOfFields : keep.

Lemma Keeps_structuredType_indexes : forall indexes tdesc tp, Keeps P (structuredType_indexes indexes tdesc tp).
Proof. induction indexes; intros; cbn [structuredType_indexes]; keep_auto. Qed.
#[local] Hint Resolve Keeps_structuredType_indexes : keep.

Lemma Keeps_structuredType : forall level p, Keeps P (structuredType rec fuel level p).
Proof. intros; unfold structuredType; keep_auto. Qed.
#[local] Hint Resolve Keeps_structuredType : keep.

Lemma Keeps_type : forall level p, Keeps P (type rec fuel level p).
Proof. intros; unfold type; keep_auto. Qed.
#[local] Hint Resolve Keeps_type : keep.

Lemma Keeps_typeDecl : forall level, Keeps P (typeDecl rec fuel level).
Proof. intros; unfold typeDecl; keep_auto. Qed.
#[local] Hint Resolve Keeps_typeDecl : keep.

Lemma Keeps_typeDeclList_loop : forall n level, Keeps P (typeDeclList_loop rec fuel n level).
Proof. induction n; intros; cbn [typeDeclList_loop]; keep_auto. Qed.
#[local] Hint Resolve Keeps_typeDeclList_loop : keep.

Lemma Keeps_typeDeclList : forall level, Keeps P (typeDeclList rec fuel level).
Proof. intros; unfold typeDeclList; keep_auto. Qed.
#[local] Hint Resolve Keeps_typeDeclList : keep.

Lemma Keeps_constDecl : forall level, Keeps P (constDecl level).
Proof. intros; unfold constDecl; keep_auto. Qed.
#[local] Hint Resolve Keeps_constDecl : keep.

Lemma Keeps_constDeclList_loop : forall n level, Keeps P (constDeclList_loop n level).
Proof. induction n; intros; cbn [constDeclList_loop]; keep_auto. Qed.
#[local] Hint Resolve Keeps_constDeclList_loop : keep.

Lemma Keeps_constDeclList : forall level, Keeps P (constDeclList fuel level).
Proof. intros; unfold constDeclList; keep_auto. Qed.
#[local] Hint Resolve Keeps_constDeclList : keep.

Lemma Keeps_varDeclBlock : forall level, Keeps P (varDeclBlock rec fuel level).
Proof. intros; unfold varDeclBlock; keep_auto. Qed.
#[local] Hint Resolve Keeps_varDeclBlock : keep.

Lemma Keeps_subPrefixDecl_params : forall idents it, Keeps P (subPrefixDecl_params it idents).
Proof. induction idents; intros; cbn [subPrefixDecl_params]; keep_auto. Qed.
#[local] Hint Resolve Keeps_subPrefixDecl_params : keep.

Lemma Keeps_subPrefixDecl : forall level kind, Keeps P (subPrefixDecl rec fuel level kind).
Proof. intros; unfold subPrefixDecl; keep_auto. Qed.
#[local] Hint Resolve Keeps_subPrefixDecl : keep.

Lemma Keeps_procDecl : forall level, Keeps P (procDecl rec fuel level).
Proof. intros; unfold procDecl; keep_auto. Qed.
#[local] Hint Resolve Keeps_procDecl : keep.

Lemma Keeps_funcDecl : forall level, Keeps P (funcDecl rec fuel level).
Proof. intros; unfold funcDecl; keep_auto. Qed.
#[local] Hint Resolve Keeps_funcDecl : keep.

Lemma Keeps_subDeclList_loop : forall n level, Keeps P (subDeclList_loop rec fuel n level).
Proof. induction n; intros; cbn [subDeclList_loop]; keep_auto. Qed.
#[local] Hint Resolve Keeps_subDeclList_loop : keep.

Lemma Keeps_subDeclList : forall level, Keeps P (subDeclList rec fuel level).
Proof. intros; unfold subDeclList; keep_auto. Qed.
#[local] Hint Resolve Keeps_subDeclList : keep.

Lemma Keeps_blockDecl : forall val level, Keeps P (blockDecl rec fuel val level).
Proof. intros; unfold blockDecl; keep_auto. Qed.
#[local] Hint Resolve Keeps_blockDecl : keep.

Lemma Keeps_progDecl : forall level, Keeps P (progDecl rec fuel level).
Proof. intros; unfold progDecl; keep_auto. Qed.
#[local] Hint Resolve Keeps_progDecl : keep.


End KeepsDiagnostics.

Lemma prods_Keeps P :
  (forall t i s, P s -> P (set_cur t i s)) ->
  (forall c s, P s -> P (set_code c s)) ->
  (forall t n s, P s -> P (set_symtbl t n s)) ->
  (forall t s, P s -> P (set_types t s)) ->
  (forall m s, P s -> P (add_error m s)) ->
  forall fuel, rec_Keeps P (prods fuel).
Proof.
  intros H1 H2 H3 H4 H5 fuel. induction fuel as [|f IH]; simpl.
  - repeat split; intros; apply Keeps_outOfFuel.
  - repeat split; intros.
    + apply Keeps_expression; assumption.
    + apply Keeps_factor; assumption.
    + apply Keeps_statement; assumption.
    + apply Keeps_type; assumption.
    + apply Keeps_blockDecl; assumption.
Qed.

Lemma counted_refl s : counted (nErrors s) (diags s) s.
Proof. exists []. rewrite app_nil_r. split; [reflexivity | simpl; lia]. Qed.

Lemma counted_error n0 d0 m s : counted n0 d0 s -> counted n0 d0 (add_error m s).
Proof.
  intros (d & H1 & H2). exists (d ++ [m]). simpl. rewrite H1, H2.
  rewrite app_assoc, length_app. simpl. split; [reflexivity | lia].
Qed.

Lemma prods_counted n0 d0 fuel : rec_Keeps (counted n0 d0) (prods fuel).
Proof.
  apply prods_Keeps; try (intros; assumption).
  intros m s H. apply counted_error. exact H.
Qed.

Lemma counted_run A (m : M A) s a s' :
  (forall n0 d0, Keeps (counted n0 d0) m) -> m s = Ok a s' ->
  counted (nErrors s) (diags s) s'.
Proof.
  intros H E. specialize (H (nErrors s) (diags s) s (counted_refl s)).
  rewrite E in H. exact H.
Qed.

(** X1.  One error is counted for each diagnostic written, by every
    production: an expression, a statement or a block leaves the
    diagnostics it found on the error stream, followed by its own, and the
    error count raised by the number of its own.  The number of errors the
    compiler returns is the number of diagnostics it wrote. *)
Theorem every_diagnostic_is_counted :
  (forall fuel level s ty s',
     expression (prods fuel) fuel level s = Ok ty s' ->
     counted (nErrors s) (diags s) s') /\
  (forall fuel level s s',
     statement (prods fuel) fuel level s = Ok tt s' ->
     counted (nErrors s) (diags s) s') /\
  (forall fuel val level s addr s',
     blockDecl (prods fuel) fuel val level s = Ok addr s' ->
     counted (nErrors s) (diags s) s') /\
  (forall fuel source prog n s,
     compile fuel source prog = Ok n s -> n = List.length (diags s)).
Proof.
  repeat split.
  - intros fuel level s ty s' E. eapply counted_run; [|exact E].
    intros n0 d0. apply Keeps_expression;
      try (intros; assumption); try apply prods_counted.
    intros; apply counted_error; assumption.
  - intros fuel level s s' E. eapply counted_run; [|exact E].
    intros n0 d0. apply Keeps_statement;
      try (intros; assumption); try apply prods_counted.
    intros; apply counted_error; assumption.
  - intros fuel val level s addr s' E. eapply counted_run; [|exact E].
    intros n0 d0. apply Keeps_blockDecl;
      try (intros; assumption); try apply prods_counted.
    intros; apply counted_error; assumption.
  - intros fuel source prog n s E. unfold compile, run in E.
    set (s0 := set_code prog (set_cur (cur PComp_new) source PComp_new)) in E.
    destruct (progDecl (prods fuel) fuel 0 s0) as [[] s1| |] eqn:E1;
      try discriminate.
    injection E as <- <-.
    assert (H : counted (nErrors s0) (diags s0) s1).
    { eapply counted_run; [|exact E1].
      intros n0 d0. apply Keeps_progDecl;
        try (intros; assumption); try apply prods_counted.
      intros; apply counted_error; assumption. }
    destruct H as (d & H1 & H2). rewrite H1, H2. reflexivity.
Qed.

(** [i := 1.5] with [i : integer]: one error, one diagnostic. *)
Lemma every_diagnostic_is_counted_witness :
  exists n s,
    compile 5 Samples.assign_real [] = Ok n s /\
    n = List.length (diags s) /\ n = 1%nat.
Proof.
  destruct (compile 5 Samples.assign_real []) as [n s| |] eqn:E;
    [| vm_compute in E; discriminate E | vm_compute in E; discriminate E].
  exists n, s. split; [reflexivity|]. split.
  - exact (proj2 (proj2 (proj2 every_diagnostic_is_counted)) _ _ _ n s E).
  - vm_compute in E. injection E as <- _. reflexivity.
Defined.

(* ================================================================== *)
(** ** Productions consume tokens and append code *)

Lemma T_run A (m : M A) s :
  T (mu s) (mu s) m ->
  m s <> OutOfFuel /\ forall a s', m s = Ok a s' -> (mu s' <= mu s)%nat.
Proof.
  intros H. specialize (H s (le_n _)). split.
  - intros E. rewrite E in H. discriminate H.
  - intros a s' E. rewrite E in H. exact H.
Qed.

(** X2.  With more fuel than the state holds tokens, an expression, a
    statement and a block return (or stop at undefined behaviour): no loop
    of theirs turns without consuming a token.  None of them puts a token
    back: the state they leave holds at most the tokens it held. *)
Theorem productions_consume_tokens :
  forall fuel level s,
    (mu s < fuel)%nat ->
    (expression (prods fuel) fuel level s <> OutOfFuel /\
     forall ty s', expression (prods fuel) fuel level s = Ok ty s' ->
                   (mu s' <= mu s)%nat) /\
    (statement (prods fuel) fuel level s <> OutOfFuel /\
     forall u s', statement (prods fuel) fuel level s = Ok u s' ->
                  (mu s' <= mu s)%nat) /\
    (forall val,
       blockDecl (prods fuel) fuel val level s <> OutOfFuel /\
       forall addr s', blockDecl (prods fuel) fuel val level s = Ok addr s' ->
                       (mu s' <= mu s)%nat).
Proof.
  intros fuel level s Hf.
  pose proof (prods_T fuel (mu s) Hf) as Hrec.
  split; [|split].
  - apply T_run. apply (T_expression _ _ _ Hrec Hf). apply le_n.
  - apply T_run. apply (T_statement _ _ _ Hrec Hf). apply le_n.
  - intros val. apply T_run. apply (T_blockDecl _ _ _ Hrec Hf). apply le_n.
Qed.

(** The statement [i := 7] from the token [:=] on: two tokens, three units
    of fuel. *)
Lemma productions_consume_tokens_witness :
  expression (prods 3) 3 0 Samples.at_assign <> OutOfFuel /\
  statement (prods 3) 3 0 Samples.at_assign <> OutOfFuel.
Proof.
  assert (H : (mu Samples.at_assign < 3)%nat) by (vm_compute; lia).
  split.
  - exact (proj1 (proj1 (productions_consume_tokens 3 0 Samples.at_assign H))).
  - exact (proj1 (proj1 (proj2
             (productions_consume_tokens 3 0 Samples.at_assign H)))).
Defined.

(** X3.  A production appends to the code vector.  What an expression, a
    statement or a block finds in it is still there when they return,
    instruction for instruction: the jumps they patch are their own.  The
    declarations of constants, types and variables emit nothing. *)
Theorem productions_append_code :
  forall fuel level s,
    (forall ty s', expression (prods fuel) fuel level s = Ok ty s' ->
                   exists t, code s' = code s ++ t) /\
    (forall u s', statement (prods fuel) fuel level s = Ok u s' ->
                  exists t, code s' = code s ++ t) /\
    (forall val addr s',
       blockDecl (prods fuel) fuel val level s = Ok addr s' ->
       exists t, code s' = code s ++ t) /\
    (forall u s', constDeclList fuel level s = Ok u s' -> code s' = code s) /\
    (forall u s', typeDeclList (prods fuel) fuel level s = Ok u s' ->
                  code s' = code s) /\
    (forall dx s', varDeclBlock (prods fuel) fuel level s = Ok dx s' ->
                   code s' = code s).
Proof.
  intros fuel level s.
  pose proof (prods_prefix fuel) as Hp.
  pose proof (prods_type_Inv fuel) as Ht.
  repeat split.
  - intros ty s' E. eapply prefix_run; [|exact E].
    intros b c0. apply prefix_expression; assumption.
  - intros u s' E. eapply prefix_run; [|exact E].
    intros b c0. apply prefix_statement; assumption.
  - intros val addr s' E. eapply prefix_run; [|exact E].
    intros b c0. apply prefix_blockDecl; assumption.
  - intros u s' E. eapply samecode_run; [|exact E].
    intros J. apply Inv_constDeclList.
  - intros u s' E. eapply samecode_run; [|exact E].
    intros J. apply Inv_typeDeclList. exact Ht.
  - intros dx s' E. eapply samecode_run; [|exact E].
    intros J. apply Inv_varDeclBlock. exact Ht.
Qed.

(** [:= 7] behind the reference to [i : 1..5]. *)
Lemma productions_append_code_witness :
  exists t s',
    statement (prods 3) 3 0
      (emitted (newInstr OpCode.PUSHVAR 0 (DInt 4)) Samples.at_assign)
    = Ok tt s' /\
    code s' = [newInstr OpCode.PUSHVAR 0 (DInt 4)] ++ t.
Proof.
  destruct (statement (prods 3) 3 0
              (emitted (newInstr OpCode.PUSHVAR 0 (DInt 4)) Samples.at_assign))
    as [[] s'| |] eqn:E;
    [| vm_compute in E; discriminate E | vm_compute in E; discriminate E].
  destruct (proj1 (proj2 (productions_append_code 3 0
              (emitted (newInstr OpCode.PUSHVAR 0 (DInt 4)) Samples.at_assign)))
              tt s' E) as [t Ht].
  exists t, s'. split; [reflexivity | exact Ht].
Defined.

(* ================================================================== *)
(** ** The jumps of [while], [if] and [repeat] *)

Lemma patch_Ok pc v s s' a i b :
  patch pc v s = Ok tt s' ->
  code s = a ++ i :: b -> pc = List.length a ->
  code s' = a ++ set_addr v i :: b.
Proof.
  intros H Hc ->. unfold patch in H. rewrite Hc, patch_at_app in H.
  injection H as <-. reflexivity.
Qed.

(** A patch changes the code and nothing else. *)
Lemma patch_state pc v s s' a i b :
  patch pc v s = Ok tt s' ->
  code s = a ++ i :: b -> pc = List.length a ->
  s' = set_code (a ++ set_addr v i :: b) s.
Proof.
  intros H Hc ->. unfold patch in H. rewrite Hc, patch_at_app in H.
  injection H as <-. reflexivity.
Qed.

Lemma set_code_emitted c i s : set_code c (emitted i s) = set_code c s.
Proof. reflexivity. Qed.

Lemma set_code_twice c c' s : set_code c (set_code c' s) = set_code c s.
Proof. reflexivity. Qed.

Ltac same_code :=
  repeat (rewrite length_app; simpl List.length);
  repeat (rewrite <- app_assoc; simpl); unfold set_addr, newInstr; simpl;
  repeat first [reflexivity | lia | f_equal].

(** [accept(k)] consumes the token it accepts and leaves any other. *)
Lemma accept_state k s b s' :
  accept k true s = Ok b s' ->
  (b = true /\ Token.kind (cur s) = k /\ s' = advanced s) \/
  (b = false /\ Token.kind (cur s) <> k /\ s' = s).
Proof.
  intros H. destruct (Token.eqb (Token.kind (cur s)) k) eqn:E.
  - apply Token_eqb_eq in E. rewrite (accept_true_hit _ _ E) in H.
    injection H as <- <-. left. auto.
  - rewrite (accept_miss _ _ _ E) in H. injection H as <- <-.
    right. repeat split. intros Hk. apply Token_eqb_eq in Hk. congruence.
Qed.

Lemma whileStatement_shape rec fuel level s s' :
  rec_prefix rec ->
  whileStatement rec fuel level s = Ok tt s' ->
  exists ty s_c b s_d s_b cond body,
    expression rec fuel level s = Ok ty s_c /\
    expect Token.Do true (emitted (newInstr OpCode.JNEQ 0 (DInt 0)) s_c)
    = Ok b s_d /\
    r_statement rec level s_d = Ok tt s_b /\
    code s_c = code s ++ cond /\
    code s_b = code s_c ++ newInstr OpCode.JNEQ 0 (DInt 0) :: body /\
    s' = set_code
           (code s ++ cond
            ++ [newInstr OpCode.JNEQ 0
                  (DInt (Z.of_nat (List.length (code s) + List.length cond
                                   + List.length body + 2)))]
            ++ body
            ++ [newInstr OpCode.JUMP 0 (DInt (Z.of_nat (List.length (code s))))])
           s_b.
Proof.
  intros Hrec H. unfold whileStatement in H.
  apply bind_Ok in H as (cond_pc & s1 & H1 & H).
  apply code_size_Ok in H1 as [-> ->].
  apply bind_Ok in H as (ty & s_c & Hc & H).
  apply bind_Ok in H as (jmp_pc & s3 & H3 & H).
  apply emit_Ok in H3 as [-> ->].
  apply bind_Ok in H as (b & s_d & H4 & H).
  apply bind_Ok in H as ([] & s_b & Hb & H).
  apply bind_Ok in H as (? & s6 & H6 & H). apply emit_Ok in H6 as [_ ->].
  apply bind_Ok in H as (sz & s7 & H7 & H).
  apply code_size_Ok in H7 as [-> ->].
  destruct (prefix_run _ _ _ _ _
              (fun b c0 => prefix_expression rec fuel Hrec b c0 level) Hc)
    as [cond Cc].
  assert (Cd : code s_d = code (emitted (newInstr OpCode.JNEQ 0 (DInt 0)) s_c))
    by (eapply samecode_run; [|exact H4]; intros; apply Inv_expect).
  unfold emitted in Cd. simpl in Cd.
  destruct (prefix_run _ _ _ _ _
              (fun b c0 => proj1 (proj2 (proj2 (Hrec b c0))) level) Hb)
    as [body Cb].
  assert (Cb' : code s_b = code s_c ++ newInstr OpCode.JNEQ 0 (DInt 0) :: body)
    by (rewrite Cb, Cd, <- app_assoc; reflexivity).
  exists ty, s_c, b, s_d, s_b, cond, body.
  repeat (split; [assumption|]).
  rewrite (patch_state _ _ _ _ (code s ++ cond)
             (newInstr OpCode.JNEQ 0 (DInt 0))
             (body ++ [newInstr OpCode.JUMP 0
                         (DInt (Z.of_nat (List.length (code s))))]) H).
  - rewrite set_code_emitted. f_equal. simpl code. rewrite Cb', Cc.
    same_code.
  - simpl. rewrite Cb', Cc. repeat rewrite <- app_assoc. reflexivity.
  - rewrite Cc. reflexivity.
Qed.

(** X4.  The code of [while e do S]: the code of the condition [e], a
    [JNEQ], the code of the body [S], and a [JUMP] back to the first
    instruction of the condition.  The [JNEQ] leaves the loop: its target
    is the address behind the [JUMP], where the code that follows the
    statement will be emitted.  The condition is compiled where the
    statement begins, [do] is expected behind it, and the body is compiled
    behind [do]; the statement leaves the state of its body, with this
    code. *)
Theorem while_jumps :
  forall fuel level s s',
    whileStatement (prods fuel) fuel level s = Ok tt s' ->
    exists ty s_c b s_d s_b cond body,
      expression (prods fuel) fuel level s = Ok ty s_c /\
      expect Token.Do true (emitted (newInstr OpCode.JNEQ 0 (DInt 0)) s_c)
      = Ok b s_d /\
      r_statement (prods fuel) level s_d = Ok tt s_b /\
      code s_c = code s ++ cond /\
      code s_b = code s_c ++ newInstr OpCode.JNEQ 0 (DInt 0) :: body /\
      s' = set_code
             (code s ++ cond
              ++ [newInstr OpCode.JNEQ 0
                    (DInt (Z.of_nat (List.length (code s) + List.length cond
                                     + List.length body + 2)))]
              ++ body
              ++ [newInstr OpCode.JUMP 0
                    (DInt (Z.of_nat (List.length (code s))))])
             s_b.
Proof.
  intros fuel level s s'. apply whileStatement_shape. apply prods_prefix.
Qed.

Lemma repeateStatement_shape rec fuel level s s' :
  rec_prefix rec ->
  repeateStatement rec fuel level s = Ok tt s' ->
  exists s_b b s_u ty s_c body cond,
    r_statement rec level s = Ok tt s_b /\
    expect Token.Until true s_b = Ok b s_u /\
    expression rec fuel level s_u = Ok ty s_c /\
    code s_b = code s ++ body /\
    code s_c = code s_b ++ cond /\
    s' = emitted (newInstr OpCode.JNEQ 0
                    (DInt (Z.of_nat (List.length (code s))))) s_c /\
    code s' = code s ++ body ++ cond
              ++ [newInstr OpCode.JNEQ 0 (DInt (Z.of_nat (List.length (code s))))].
Proof.
  intros Hrec H. unfold repeateStatement in H.
  apply bind_Ok in H as (loop_pc & s1 & H1 & H).
  apply code_size_Ok in H1 as [-> ->].
  apply bind_Ok in H as ([] & s_b & Hb & H).
  apply bind_Ok in H as (b & s_u & Hu & H).
  apply bind_Ok in H as (ty & s_c & Hc & H).
  apply bind_Ok in H as (? & s5 & H5 & H). apply emit_Ok in H5 as [_ ->].
  injection H as <-.
  destruct (prefix_run _ _ _ _ _
              (fun b c0 => proj1 (proj2 (proj2 (Hrec b c0))) level) Hb)
    as [body Cb].
  assert (Cu : code s_u = code s_b)
    by (eapply samecode_run; [|exact Hu]; intros; apply Inv_expect).
  destruct (prefix_run _ _ _ _ _
              (fun b c0 => prefix_expression rec fuel Hrec b c0 level) Hc)
    as [cond Cc].
  rewrite Cu in Cc.
  exists s_b, b, s_u, ty, s_c, body, cond.
  repeat (split; [assumption|]).
  split; [reflexivity|].
  simpl. rewrite Cc, Cb. repeat rewrite <- app_assoc. reflexivity.
Qed.

(** X5.  The code of [repeat S until e]: the code of the body [S], the
    code of the condition [e], and a [JNEQ] back to the first instruction
    of the body.  The body is compiled where the statement begins, [until]
    is expected behind it, and the condition is compiled behind [until];
    the statement leaves the state of its condition, with the [JNEQ]
    appended. *)
Theorem repeat_jumps :
  forall fuel level s s',
    repeateStatement (prods fuel) fuel level s = Ok tt s' ->
    exists s_b b s_u ty s_c body cond,
      r_statement (prods fuel) level s = Ok tt s_b /\
      expect Token.Until true s_b = Ok b s_u /\
      expression (prods fuel) fuel level s_u = Ok ty s_c /\
      code s_b = code s ++ body /\
      code s_c = code s_b ++ cond /\
      s' = emitted (newInstr OpCode.JNEQ 0
                      (DInt (Z.of_nat (List.length (code s))))) s_c /\
      code s' = code s ++ body ++ cond
                ++ [newInstr OpCode.JNEQ 0
                      (DInt (Z.of_nat (List.length (code s))))].
Proof.
  intros fuel level s s'. apply repeateStatement_shape. apply prods_prefix.
Qed.

Lemma ifStatement_shape rec fuel level s s' :
  rec_prefix rec ->
  ifStatement rec fuel level s = Ok tt s' ->
  exists ty s_c b s_t s_1 cond thenpart,
    expression rec fuel level s = Ok ty s_c /\
    expect Token.Then true (emitted (newInstr OpCode.JNEQ 0 (DInt 0)) s_c)
    = Ok b s_t /\
    r_statement rec level s_t = Ok tt s_1 /\
    code s_c = code s ++ cond /\
    code s_1 = code s_c ++ newInstr OpCode.JNEQ 0 (DInt 0) :: thenpart /\
    let n := (List.length (code s) + List.length cond
              + List.length thenpart)%nat in
    ((Token.kind (cur s_1) <> Token.Else /\
      s' = set_code
             (code s ++ cond
              ++ [newInstr OpCode.JNEQ 0 (DInt (Z.of_nat (n + 1)))]
              ++ thenpart)
             s_1) \/
     (Token.kind (cur s_1) = Token.Else /\
      exists s_2 elsepart,
        let s_e :=
          set_code
            (code s ++ cond
             ++ [newInstr OpCode.JNEQ 0 (DInt (Z.of_nat (n + 2)))]
             ++ thenpart ++ [newInstr OpCode.JUMP 0 (DInt 0)])
            (advanced s_1) in
        r_statement rec level s_e = Ok tt s_2 /\
        code s_2 = code s_e ++ elsepart /\
        s' = set_code
               (code s ++ cond
                ++ [newInstr OpCode.JNEQ 0 (DInt (Z.of_nat (n + 2)))]
                ++ thenpart
                ++ [newInstr OpCode.JUMP 0
                      (DInt (Z.of_nat (n + 2 + List.length elsepart)))]
                ++ elsepart)
               s_2)).
Proof.
  intros Hrec H. unfold ifStatement in H.
  apply bind_Ok in H as (ty & s_c & Hc & H).
  apply bind_Ok in H as (jmp_pc & s2 & H2 & H).
  apply emit_Ok in H2 as [-> ->].
  apply bind_Ok in H as (b & s_t & Ht & H).
  apply bind_Ok in H as ([] & s_1 & H1 & H).
  apply bind_Ok in H as (Else & s5 & H5 & H).
  destruct (prefix_run _ _ _ _ _
              (fun b c0 => prefix_expression rec fuel Hrec b c0 level) Hc)
    as [cond Cc].
  assert (Ct : code s_t = code (emitted (newInstr OpCode.JNEQ 0 (DInt 0)) s_c))
    by (eapply samecode_run; [|exact Ht]; intros; apply Inv_expect).
  unfold emitted in Ct. simpl in Ct.
  destruct (prefix_run _ _ _ _ _
              (fun b c0 => proj1 (proj2 (proj2 (Hrec b c0))) level) H1)
    as [thenpart C1].
  assert (C1' : code s_1
                = code s_c ++ newInstr OpCode.JNEQ 0 (DInt 0) :: thenpart)
    by (rewrite C1, Ct, <- app_assoc; reflexivity).
  exists ty, s_c, b, s_t, s_1, cond, thenpart.
  repeat (split; [assumption|]).
  intros n.
  assert (Ca : code (advanced s_1) = code s_1)
    by (unfold advanced; destruct (input s_1); reflexivity).
  apply accept_state in H5 as [(-> & Hk & ->) | (-> & Hk & ->)].
  - right. split; [exact Hk|].
    apply bind_Ok in H as (else_pc & s6 & H6 & H).
    apply emit_Ok in H6 as [-> ->].
    apply bind_Ok in H as (sz & s7 & H7 & H).
    apply code_size_Ok in H7 as [-> ->].
    apply bind_Ok in H as ([] & s_e & H8 & H).
    apply bind_Ok in H as ([] & s_2 & H9 & H).
    apply bind_Ok in H as (sz' & s10 & H10 & H).
    apply code_size_Ok in H10 as [-> ->].
    apply (patch_state _ _ _ _ (code s ++ cond)
             (newInstr OpCode.JNEQ 0 (DInt 0))
             (thenpart ++ [newInstr OpCode.JUMP 0 (DInt 0)])) in H8;
      [| simpl; rewrite Ca, C1', Cc; repeat rewrite <- app_assoc; reflexivity
       | rewrite Cc; reflexivity ].
    assert (Ee : s_e
                 = set_code
                     (code s ++ cond
                      ++ [newInstr OpCode.JNEQ 0 (DInt (Z.of_nat (n + 2)))]
                      ++ thenpart ++ [newInstr OpCode.JUMP 0 (DInt 0)])
                     (advanced s_1)).
    { rewrite H8. rewrite set_code_emitted. f_equal. simpl code.
      rewrite Ca, C1', Cc. subst n. same_code. }
    destruct (prefix_run _ _ _ _ _
                (fun b c0 => proj1 (proj2 (proj2 (Hrec b c0))) level) H9)
      as [elsepart C9].
    exists s_2, elsepart. cbv zeta. rewrite <- Ee.
    split; [exact H9|]. split; [exact C9|].
    rewrite (patch_state _ _ _ _
               (code s ++ cond
                ++ [newInstr OpCode.JNEQ 0 (DInt (Z.of_nat (n + 2)))]
                ++ thenpart)
               (newInstr OpCode.JUMP 0 (DInt 0)) elsepart H).
    + f_equal. rewrite C9, Ee. simpl code. subst n. same_code.
    + rewrite C9, Ee. simpl. repeat (rewrite <- app_assoc; simpl).
      reflexivity.
    + simpl. rewrite Ca, C1', Cc. repeat (rewrite length_app; simpl).
      subst n. lia.
  - left. split; [exact Hk|].
    apply bind_Ok in H as (else_pc & s6 & H6 & H).
    injection H6 as <- <-.
    apply bind_Ok in H as (sz & s7 & H7 & H).
    apply code_size_Ok in H7 as [-> ->].
    apply bind_Ok in H as ([] & s8 & H8 & H).
    injection H as <-.
    rewrite (patch_state _ _ _ _ (code s ++ cond)
               (newInstr OpCode.JNEQ 0 (DInt 0)) thenpart H8).
    + f_equal. rewrite C1', Cc. subst n. same_code.
    + rewrite C1', Cc. repeat rewrite <- app_assoc. reflexivity.
    + rewrite Cc. reflexivity.
Qed.

(** X6.  The code of [if e then S1] is the code of [e], a [JNEQ] whose
    target is the address behind the statement, and the code of [S1].
    With [else S2] a [JUMP] follows the code of [S1], then the code of
    [S2]: the [JNEQ] goes to the first instruction of [S2], and the [JUMP]
    to the address behind the statement.  The condition is compiled where
    the statement begins, [then] is expected behind it, [S1] is compiled
    behind [then], and [S2] behind the [else] that follows [S1], with the
    [JNEQ] already patched. *)
Theorem if_jumps :
  forall fuel level s s',
    ifStatement (prods fuel) fuel level s = Ok tt s' ->
    exists ty s_c b s_t s_1 cond thenpart,
      expression (prods fuel) fuel level s = Ok ty s_c /\
      expect Token.Then true (emitted (newInstr OpCode.JNEQ 0 (DInt 0)) s_c)
      = Ok b s_t /\
      r_statement (prods fuel) level s_t = Ok tt s_1 /\
      code s_c = code s ++ cond /\
      code s_1 = code s_c ++ newInstr OpCode.JNEQ 0 (DInt 0) :: thenpart /\
      let n := (List.length (code s) + List.length cond
                + List.length thenpart)%nat in
      ((Token.kind (cur s_1) <> Token.Else /\
        s' = set_code
               (code s ++ cond
                ++ [newInstr OpCode.JNEQ 0 (DInt (Z.of_nat (n + 1)))]
                ++ thenpart)
               s_1) \/
       (Token.kind (cur s_1) = Token.Else /\
        exists s_2 elsepart,
          let s_e :=
            set_code
              (code s ++ cond
               ++ [newInstr OpCode.JNEQ 0 (DInt (Z.of_nat (n + 2)))]
               ++ thenpart ++ [newInstr OpCode.JUMP 0 (DInt 0)])
              (advanced s_1) in
          r_statement (prods fuel) level s_e = Ok tt s_2 /\
          code s_2 = code s_e ++ elsepart /\
          s' = set_code
                 (code s ++ cond
                  ++ [newInstr OpCode.JNEQ 0 (DInt (Z.of_nat (n + 2)))]
                  ++ thenpart
                  ++ [newInstr OpCode.JUMP 0
                        (DInt (Z.of_nat (n + 2 + List.length elsepart)))]
                  ++ elsepart)
                 s_2)).
Proof.
  intros fuel level s s'. apply ifStatement_shape. apply prods_prefix.
Qed.

(* ================================================================== *)
(** ** The other built-in functions *)

Lemma builtInArg_Ok rec level s ty s' :
  builtInArg rec level s = Ok ty s' ->
  exists s1 s2, r_expression rec level s1 = Ok ty s2.
Proof.
  unfold builtInArg. intros H.
  apply bind_Ok in H as (b & s1 & H1 & H).
  apply bind_Ok in H as (t & s2 & H2 & H).
  apply bind_Ok in H as (b' & s3 & H3 & H).
  injection H as <- <-. exists s1, s2. exact H2.
Qed.

Lemma builtInFunc_rounding rec level s k o :
  In (k, o) rounding_functions -> Token.kind (cur s) = k ->
  builtInFunc rec level s = builtInToInt rec o level (advanced s).
Proof.
  intros Hin H. unfold builtInFunc. simpl in Hin.
  destruct Hin as [E|[E|[]]]; injection E as <- <-; accept_misses H;
    unfold bind at 1; rewrite (accept_true_hit _ _ H); reflexivity.
Qed.

Lemma builtInFunc_real rec level s k o :
  In (k, o) real_functions -> Token.kind (cur s) = k ->
  builtInFunc rec level s = builtInReal rec o level (advanced s).
Proof.
  intros Hin H. unfold builtInFunc. simpl in Hin.
  destruct Hin as [E|[E|[E|[E|[E|[E|[]]]]]]]; injection E as <- <-;
    accept_misses H;
    unfold bind at 1; rewrite (accept_true_hit _ _ H); reflexivity.
Qed.

(** X7.  [round(e)] and [trunc(e)] take a Real.  For a Real argument the
    opcode is emitted behind the code of the argument and the result is an
    Integer.  For any other argument one error is reported, no opcode is
    emitted, and the result keeps the type of the argument. *)
Theorem round_and_trunc_take_a_real :
  forall rec level s k o ty s',
    In (k, o) rounding_functions -> Token.kind (cur s) = k ->
    builtInFunc rec level s = Ok ty s' ->
    exists aty s_a t,
      builtInArg rec level (advanced s) = Ok aty s_a /\
      deref aty s_a = Ok t s_a /\
      (TypeDesc.tclass t = TypeDesc.Real ->
       ty = TypeDesc.intDesc /\ s' = emitted (newInstr o 0 (DInt 0)) s_a) /\
      (TypeDesc.tclass t <> TypeDesc.Real ->
       ty = aty /\
       s' = add_error [PStr "expeced real value, got: ";
                       PKind (Token.kind (cur s_a))] s_a).
Proof.
  intros rec level s k o ty s' Hin Hk E.
  rewrite (builtInFunc_rounding _ _ _ _ _ Hin Hk) in E.
  unfold builtInToInt in E.
  apply bind_Ok in E as (aty & s_a & Ha & E).
  apply bind_Ok in E as (t & s1 & Ht & E).
  destruct (deref_Ok _ _ _ _ Ht) as [-> _].
  exists aty, s_a, t. split; [exact Ha|]. split; [exact Ht|].
  destruct (TypeDesc.eqb (TypeDesc.tclass t) TypeDesc.Real) eqn:Et; simpl in E.
  - apply TypeDesc_eqb_eq in Et. split; [|congruence]. intros _.
    apply bind_Ok in E as (pc & s2 & He & E). unfold emit0 in He.
    apply emit_Ok in He as [_ ->]. injection E as <- <-. auto.
  - split.
    + intros Hr. apply TypeDesc_eqb_eq in Hr. congruence.
    + intros _. injection E as <- <-. auto.
Qed.

(** [round(1.5)] in the compiler's initial state. *)
Lemma round_and_trunc_take_a_real_witness :
  exists ty s' aty s_a t,
    builtInFunc (prods 3) 0
      Cases.round_real = Ok ty s' /\
    builtInArg (prods 3) 0
      (advanced Cases.round_real)
    = Ok aty s_a /\
    deref aty s_a = Ok t s_a.
Proof.
  destruct (builtInFunc (prods 3) 0
              Cases.round_real)
    as [ty s'| |] eqn:E;
    [| vm_compute in E; discriminate E | vm_compute in E; discriminate E].
  destruct (round_and_trunc_take_a_real (prods 3) 0 Cases.round_real
              Token.Round OpCode.ROUND
              ty s' (or_introl eq_refl) eq_refl E)
    as (aty & s_a & t & H1 & H2 & _).
  exists ty, s', aty, s_a, t. auto.
Defined.

(** X8.  [atan], [exp], [log], [sin], [sqr] and [sqrt] emit their opcode
    behind the code of the argument whatever its type is, and report
    nothing: the message prepared for an argument that is neither Integer
    nor Real is never passed to [error].  The result is Real for an
    Integer argument (no conversion is emitted) and has the type of the
    argument otherwise. *)
Theorem real_functions_accept_any_argument :
  forall rec level s k o ty s',
    In (k, o) real_functions -> Token.kind (cur s) = k ->
    builtInFunc rec level s = Ok ty s' ->
    exists aty s_a t,
      builtInArg rec level (advanced s) = Ok aty s_a /\
      deref aty s_a = Ok t s_a /\
      s' = emitted (newInstr o 0 (DInt 0)) s_a /\
      nErrors s' = nErrors s_a /\ diags s' = diags s_a /\
      ty = (if TypeDesc.eqb (TypeDesc.tclass t) TypeDesc.Integer
            then TypeDesc.realDesc else aty).
Proof.
  intros rec level s k o ty s' Hin Hk E.
  rewrite (builtInFunc_real _ _ _ _ _ Hin Hk) in E.
  unfold builtInReal in E.
  apply bind_Ok in E as (aty & s_a & Ha & E).
  apply bind_Ok in E as (t & s1 & Ht & E).
  destruct (deref_Ok _ _ _ _ Ht) as [-> _].
  apply bind_Ok in E as (pc & s2 & He & E). unfold emit0 in He.
  apply emit_Ok in He as [_ ->].
  exists aty, s_a, t. split; [exact Ha|]. split; [exact Ht|].
  destruct (TypeDesc.eqb (TypeDesc.tclass t) TypeDesc.Integer);
    injection E as <- <-; auto.
Qed.

(** [sqrt(true)] in the compiler's initial state: no error. *)
Lemma real_functions_accept_any_argument_witness :
  exists ty s' aty s_a,
    builtInFunc (prods 4) 0 Cases.sqrt_true = Ok ty s' /\
    builtInArg (prods 4) 0 (advanced Cases.sqrt_true) = Ok aty s_a /\
    s' = emitted (newInstr OpCode.SQRT 0 (DInt 0)) s_a /\
    nErrors s' = nErrors s_a.
Proof.
  destruct (builtInFunc (prods 4) 0 Cases.sqrt_true) as [ty s'| |] eqn:E;
    [| vm_compute in E; discriminate E | vm_compute in E; discriminate E].
  destruct (real_functions_accept_any_argument (prods 4) 0 Cases.sqrt_true
              Token.Sqrt OpCode.SQRT ty s'
              (or_intror (or_intror (or_intror (or_intror (or_intror
                 (or_introl eq_refl)))))) eq_refl E)
    as (aty & s_a & t & H1 & H2 & H3 & H4 & H5 & H6).
  exists ty, s', aty, s_a. auto.
Defined.

Lemma builtInFunc_ord rec level s :
  Token.kind (cur s) = Token.Ord ->
  builtInFunc rec level s
  = (type <- builtInArg rec level ;;
     t <- deref type ;;
     if negb (TypeDesc.isOrdinal t) then
       c <- current ;;
       error [PStr "expected ordinal, got: "; PKind c] ;;
       ret type
     else ret TypeDesc.intDesc) (advanced s).
Proof.
  intros H. unfold builtInFunc. accept_misses H.
  unfold bind at 1. rewrite (accept_true_hit _ _ H). reflexivity.
Qed.

(** X9.  [ord(e)] emits no code of its own.  For an argument of an ordinal
    type the result is an Integer; for any other argument one error is
    reported and the result keeps the type of the argument. *)
Theorem ord_takes_an_ordinal :
  forall rec level s ty s',
    Token.kind (cur s) = Token.Ord ->
    builtInFunc rec level s = Ok ty s' ->
    exists aty s_a t,
      builtInArg rec level (advanced s) = Ok aty s_a /\
      deref aty s_a = Ok t s_a /\
      code s' = code s_a /\
      (TypeDesc.isOrdinal t = true -> ty = TypeDesc.intDesc /\ s' = s_a) /\
      (TypeDesc.isOrdinal t = false ->
       ty = aty /\
       s' = add_error [PStr "expected ordinal, got: ";
                       PKind (Token.kind (cur s_a))] s_a).
Proof.
  intros rec level s ty s' Hk E.
  rewrite (builtInFunc_ord _ _ _ Hk) in E.
  apply bind_Ok in E as (aty & s_a & Ha & E).
  apply bind_Ok in E as (t & s1 & Ht & E).
  destruct (deref_Ok _ _ _ _ Ht) as [-> _].
  exists aty, s_a, t. split; [exact Ha|]. split; [exact Ht|].
  destruct (TypeDesc.isOrdinal t); simpl in E; injection E as <- <-.
  - split; [reflexivity|]. split; [auto | discriminate].
  - split; [reflexivity|]. split; [discriminate | auto].
Qed.

(** [ord(1.5)] in the compiler's initial state: one error. *)
Lemma ord_takes_an_ordinal_witness :
  exists ty s' aty s_a t,
    builtInFunc (prods 3) 0
      Cases.ord_real = Ok ty s' /\
    deref aty s_a = Ok t s_a /\ code s' = code s_a.
Proof.
  destruct (builtInFunc (prods 3) 0
              Cases.ord_real)
    as [ty s'| |] eqn:E;
    [| vm_compute in E; discriminate E | vm_compute in E; discriminate E].
  destruct (ord_takes_an_ordinal (prods 3) 0 Cases.ord_real ty s' eq_refl E)
    as (aty & s_a & t & H1 & H2 & H3 & _).
  exists ty, s', aty, s_a, t. auto.
Defined.

(* ================================================================== *)
(** ** Names that are not declared *)

Lemma accept_false_hit k s :
  Token.kind (cur s) = k -> accept k false s = Ok true s.
Proof.
  intros H. unfold accept, bind, current. rewrite H.
  replace (Token.eqb k k) with true; [reflexivity|].
  symmetry. apply Token_eqb_eq. reflexivity.
Qed.

Lemma symtbl_advanced s : symtbl (advanced s) = symtbl s.
Proof. unfold advanced. destruct (input s); reflexivity. Qed.

Lemma lookup_undeclared id s :
  equal_range id (symtbl s) = [] ->
  lookup id s
  = Ok None (add_error [PStr "Undefined identifier"; PStr " '"; PStr id;
                        PStr "'"] s).
Proof. intros H. unfold lookup, bind, get. rewrite H. reflexivity. Qed.

(** X10.  A type name that the lookup does not find.  [type] reports
    that it expected a type, consumes the name and goes on with Integer.
    [simpleType], which the index types of an array go through, tests the
    result of the lookup for [end()] and then dereferences it in the
    diagnostic ([it->first]): the behaviour is undefined. *)
Theorem undeclared_type_names :
  forall rec fuel level prefix s s_l,
    Token.kind (cur s) = Token.Identifier ->
    lookup (Token.string_value (cur s)) (advanced s) = Ok None s_l ->
    type rec fuel level prefix s
    = Ok TypeDesc.intDesc
         (add_error [PStr "expected type, got "; PStr " '";
                     PStr (Token.string_value (cur s)); PStr "'"] s_l) /\
    simpleType fuel level s = Crash.
Proof.
  intros rec fuel level prefix s s_l Hk Hl.
  split.
  - unfold type. unfold bind at 1. rewrite (accept_false_hit _ _ Hk).
    unfold bind at 1. unfold ts_current.
    unfold bind at 1. rewrite next_advanced.
    unfold bind at 1. rewrite Hl.
    reflexivity.
  - unfold simpleType. unfold bind at 1. rewrite (accept_false_hit _ _ Hk).
    unfold bind at 1. unfold ts_current.
    unfold bind at 1. rewrite next_advanced.
    unfold bind at 1. rewrite Hl.
    reflexivity.
Qed.

(** [foo], which nothing declares, where a type is expected. *)
Lemma undeclared_type_names_witness :
  type (prods 3) 3 0 "" (Cases.at_tokens (Token.ident "foo") [])
  = Ok TypeDesc.intDesc
       (add_error [PStr "expected type, got "; PStr " '"; PStr "foo";
                   PStr "'"]
          (add_error [PStr "Undefined identifier"; PStr " '"; PStr "foo";
                      PStr "'"]
             (advanced (Cases.at_tokens (Token.ident "foo") [])))) /\
  simpleType 3 0 (Cases.at_tokens (Token.ident "foo") []) = Crash.
Proof.
  exact (undeclared_type_names (prods 3) 3 0 ""
           (Cases.at_tokens (Token.ident "foo") []) _
           eq_refl
           (lookup_undeclared "foo"
              (advanced (Cases.at_tokens (Token.ident "foo") []))
              eq_refl)).
Defined.

(** An array indexed by a type that is not declared, in a program. *)
Example undeclared_index_type :
  compile 6 Cases.array_of_foo [] = Crash.
Proof. vm_compute. reflexivity. Qed.

(* ================================================================== *)
(** ** The names of a block *)

Lemma purge_table_app level a b :
  purge_table level (a ++ b) = purge_table level a ++ purge_table level b.
Proof. rewrite !purge_table_filter. apply filter_app. Qed.

Lemma purge_table_all level new :
  (forall e, In e new -> SymValue.level (esym e) = level) ->
  purge_table level new = [].
Proof.
  induction new as [|e new IH]; intros H; simpl; [reflexivity|].
  rewrite (H e (or_introl eq_refl)), Z.eqb_refl.
  apply IH. intros x Hx. apply H. right. exact Hx.
Qed.

Lemma purge_table_none level tbl :
  (forall e, In e tbl -> SymValue.level (esym e) <> level) ->
  purge_table level tbl = tbl.
Proof.
  induction tbl as [|e tbl IH]; intros H; simpl; [reflexivity|].
  destruct (Z.eqb_spec (SymValue.level (esym e)) level) as [E|E].
  - exfalso. exact (H e (or_introl eq_refl) E).
  - f_equal. apply IH. intros x Hx. apply H. right. exact Hx.
Qed.

(** X11.  [purge(L)] undoes the declarations of a block of level [L]: a
    table that holds no element of level [L], extended by any number of
    elements of that level, is restored element for element.  Purging
    twice is purging once, and purges of two levels commute. *)
Theorem purge_restores_the_table :
  forall level tbl new,
    (forall e, In e new -> SymValue.level (esym e) = level) ->
    purge_table level (tbl ++ new) = purge_table level tbl /\
    ((forall e, In e tbl -> SymValue.level (esym e) <> level) ->
     purge_table level (tbl ++ new) = tbl) /\
    purge_table level (purge_table level tbl) = purge_table level tbl /\
    (forall level',
       purge_table level (purge_table level' tbl)
       = purge_table level' (purge_table level tbl)).
Proof.
  intros level tbl new Hnew.
  assert (H1 : purge_table level (tbl ++ new) = purge_table level tbl).
  { rewrite purge_table_app, (purge_table_all _ _ Hnew). apply app_nil_r. }
  split; [exact H1|]. split; [|split].
  - intros Htbl. rewrite H1. apply purge_table_none. exact Htbl.
  - apply purge_table_none. intros e. apply purge_table_level.
  - intros level'. clear H1. rewrite !purge_table_filter.
    induction tbl as [|e tbl IH]; simpl; [reflexivity|].
    destruct (negb (SymValue.level (esym e) =? level')) eqn:E1;
      destruct (negb (SymValue.level (esym e) =? level)) eqn:E2; simpl;
      rewrite ?E1, ?E2, IH; reflexivity.
Qed.

(** The built-in names, and two variables of level 1 behind them. *)
Lemma purge_restores_the_table_witness :
  purge_table 1
    (PComp_symtbl
     ++ [mkEntry 8 "y" (SymValue.makeVar 1 0 TypeDesc.intDesc);
         mkEntry 9 "x" (SymValue.makeVar 1 1 TypeDesc.realDesc)])
  = PComp_symtbl.
Proof.
  assert (Hnew : forall e,
            In e [mkEntry 8 "y" (SymValue.makeVar 1 0 TypeDesc.intDesc);
                  mkEntry 9 "x" (SymValue.makeVar 1 1 TypeDesc.realDesc)] ->
            SymValue.level (esym e) = 1).
  { intros e H. simpl in H.
    repeat (destruct H as [<-|H]; [reflexivity|]). destruct H. }
  apply (proj1 (proj2 (purge_restores_the_table 1 PComp_symtbl _ Hnew))).
  intros e H. simpl in H.
  repeat (destruct H as [<-|H]; [discriminate|]). destruct H.
Defined.

(* ================================================================== *)
(** ** The end of a block and of a program *)

Lemma expect_symtbl k g s b s' :
  expect k g s = Ok b s' -> symtbl s' = symtbl s.
Proof.
  unfold expect, accept, bind, current, error, modify.
  destruct (Token.eqb (Token.kind (cur s)) k).
  - destruct g.
    + rewrite next_advanced. intros H. injection H as _ <-.
      apply symtbl_advanced.
    + intros H. injection H as _ <-. reflexivity.
  - intros H. injection H as _ <-. reflexivity.
Qed.

Lemma patch_symtbl pc a s s' :
  patch pc a s = Ok tt s' -> symtbl s' = symtbl s.
Proof.
  unfold patch. destruct (patch_at pc a (code s)); [|discriminate].
  intros H. injection H as <-. reflexivity.
Qed.

Lemma compile_purges fuel source prog n s :
  compile fuel source prog = Ok n s ->
  (forall e, In e (symtbl s) -> SymValue.level (esym e) <> 0) /\
  (forall e, In e PComp_symtbl -> ~ In e (symtbl s)).
Proof.
  intros H. unfold compile, run in H.
  destruct (progDecl (prods fuel) fuel 0 _) as [[] s1| |] eqn:E;
    try discriminate.
  injection H as _ <-. unfold progDecl in E.
  apply bind_Ok in E as (t1 & s2 & H1 & E).
  apply bind_Ok in E as (b2 & s3 & H2 & E).
  apply bind_Ok in E as (val & s4 & H3 & E).
  apply bind_Ok in E as (b4 & s5 & H4 & E).
  apply bind_Ok in E as (call_pc & s6 & H5 & E).
  apply bind_Ok in E as (pc7 & s7 & H6 & E).
  apply bind_Ok in E as (addr & s8 & H7 & E).
  apply bind_Ok in E as ([] & s9 & H8 & E).
  apply bind_Ok in E as (b10 & s10 & H9 & E).
  injection E as <-.
  assert (Hl : forall e, In e (symtbl s10) -> SymValue.level (esym e) <> 0).
  { rewrite (expect_symtbl _ _ _ _ _ H9), (patch_symtbl _ _ _ _ H8).
    eapply blockDecl_purges. exact H7. }
  split; [exact Hl|].
  intros e He Hin. apply (Hl e Hin).
  simpl in He.
  repeat (destruct He as [<-|He]; [reflexivity|]). destruct He.
Qed.

(** X12.  When a block returns, the table holds no name of the level of
    the block.  The block of the program has level 0, the level of the
    names the constructor declares: when the compiler has run on an input
    (standard input, or a file that opened) and returns, the table holds
    no name of level 0, and none of the built-in names is among its
    elements.  When the file does not open, nothing is run: the compiler
    returns one error, the code it was given, and the table of the
    constructor with every built-in name. *)
Theorem a_block_purges_its_level :
  (forall rec fuel val level s addr s',
     blockDecl rec fuel val level s = Ok addr s' ->
     forall e, In e (symtbl s') -> SymValue.level (esym e) <> level) /\
  (forall fuel cin files inFile prog n s,
     compile_file fuel cin files inFile prog = Ok n s ->
     inFile = "-" \/ files inFile <> None ->
     (forall e, In e (symtbl s) -> SymValue.level (esym e) <> 0) /\
     (forall e, In e PComp_symtbl -> ~ In e (symtbl s))) /\
  (forall fuel cin files inFile prog,
     inFile <> "-" -> files inFile = None ->
     exists s,
       compile_file fuel cin files inFile prog = Ok 1%nat s /\
       symtbl s = PComp_symtbl /\ code s = prog /\
       diags s = [[PStr "error opening source file"; PStr " '"; PStr inFile;
                   PStr "'"]]).
Proof.
  split; [|split].
  - intros rec fuel val level s addr s' H. eapply blockDecl_purges. exact H.
  - intros fuel cin files inFile prog n s H Hopen.
    unfold compile_file in H.
    destruct (String.eqb "-" inFile) eqn:Ei.
    + eapply compile_purges. exact H.
    + destruct (files inFile) as [source|] eqn:Ef.
      * eapply compile_purges. exact H.
      * destruct Hopen as [-> | Hopen]; [discriminate Ei|].
        exfalso. apply Hopen. reflexivity.
  - intros fuel cin files inFile prog Hi Hf.
    unfold compile_file. rewrite Hf.
    destruct (String.eqb "-" inFile) eqn:Ei.
    + apply String.eqb_eq in Ei. exfalso. apply Hi. symmetry. exact Ei.
    + eexists. split; [reflexivity|]. repeat split.
Qed.

(** The empty program on standard input: the table is empty when the
    compiler returns.  A file that does not open: the built-in names
    stay. *)
Lemma a_block_purges_its_level_witness :
  (exists n s,
     compile_file 3 Samples.empty (fun _ => None) "-" [] = Ok n s /\
     symtbl s = []) /\
  (exists s,
     compile_file 3 [] (fun _ => None) "nofile.p" [] = Ok 1%nat s /\
     symtbl s = PComp_symtbl).
Proof.
  split.
  - destruct (compile_file 3 Samples.empty (fun _ => None) "-" [])
      as [n s| |] eqn:E;
      [| vm_compute in E; discriminate E | vm_compute in E; discriminate E].
    exists n, s. split; [reflexivity|].
    pose proof (proj1 (proj1 (proj2 a_block_purges_its_level)
                         3%nat Samples.empty (fun _ => None) "-" [] n s E
                         (or_introl eq_refl))) as H.
    vm_compute in E. injection E as _ <-. reflexivity.
  - destruct (proj2 (proj2 a_block_purges_its_level)
                3%nat [] (fun _ => None) "nofile.p" [])
      as (s & H1 & H2 & _).
    + discriminate.
    + reflexivity.
    + exists s. split; assumption.
Defined.

(* ================================================================== *)
(** ** Signs and literals *)

Lemma accept_Ok_miss k g s :
  Token.kind (cur s) <> k -> accept k g s = Ok false s.
Proof.
  intros H. apply accept_miss.
  destruct (Token.eqb (Token.kind (cur s)) k) eqn:E; [|reflexivity].
  apply Token_eqb_eq in E. contradiction.
Qed.

(** A sign in front of a term.  For [- t] the code of the term is
    followed by [NEG]; for [+ t] the sign is consumed and nothing is
    emitted for it; the type is that of the term in both cases. *)
Theorem unary_sign :
  forall rec fuel level s,
    (Token.kind (cur s) = Token.Subtract ->
     forall ty s',
       unary rec fuel level s = Ok ty s' ->
       exists s_t,
         term rec fuel level (advanced s) = Ok ty s_t /\
         s' = emitted (newInstr OpCode.NEG 0 (DInt 0)) s_t) /\
    (Token.kind (cur s) = Token.Add ->
     unary rec fuel level s = term rec fuel level (advanced s)) /\
    (Token.kind (cur s) <> Token.Add ->
     Token.kind (cur s) <> Token.Subtract ->
     unary rec fuel level s = term rec fuel level s).
Proof.
  intros rec fuel level s. split; [|split].
  - intros Hk ty s' E. unfold unary in E.
    unfold bind at 1 in E.
    rewrite accept_Ok_miss in E by (rewrite Hk; discriminate).
    unfold bind at 1 in E. rewrite (accept_true_hit _ _ Hk) in E.
    apply bind_Ok in E as (ty' & s_t & Ht & E).
    apply bind_Ok in E as (pc & s2 & He & E).
    unfold emit0 in He. apply emit_Ok in He as [_ ->].
    injection E as <- <-. exists s_t. auto.
  - intros Hk. unfold unary. unfold bind at 1.
    rewrite (accept_true_hit _ _ Hk). reflexivity.
  - intros Ha Hs. unfold unary. unfold bind at 1.
    rewrite (accept_Ok_miss _ _ _ Ha). unfold bind at 1.
    rewrite (accept_Ok_miss _ _ _ Hs). reflexivity.
Qed.

(** [- 3] in the compiler's initial state. *)
Lemma unary_sign_witness :
  exists ty s' s_t,
    unary (prods 2) 2 0 (Cases.at_tokens (Cases.K Token.Subtract) [Token.int 3])
    = Ok ty s' /\
    s' = emitted (newInstr OpCode.NEG 0 (DInt 0)) s_t.
Proof.
  destruct (unary (prods 2) 2 0
              (Cases.at_tokens (Cases.K Token.Subtract) [Token.int 3]))
    as [ty s'| |] eqn:E;
    [| vm_compute in E; discriminate E | vm_compute in E; discriminate E].
  destruct (proj1 (unary_sign (prods 2) 2 0
                     (Cases.at_tokens (Cases.K Token.Subtract) [Token.int 3]))
              eq_refl ty s' E) as (s_t & _ & H).
  exists ty, s', s_t. auto.
Defined.

Lemma pushChars_Ok str s :
  pushChars str s
  = Ok tt (set_code
             (code s ++ map (fun c => newInstr OpCode.PUSH 0 (Datum_of_char c))
                            (list_ascii_of_string str)) s).
Proof.
  revert s. induction str as [|c str IH]; intros s; simpl.
  - rewrite app_nil_r. destruct s; reflexivity.
  - unfold bind, emit. rewrite IH. simpl.
    rewrite <- app_assoc. reflexivity.
Qed.

(** X13.  A string literal as a factor.  A string of one character is a
    Character constant: one [PUSH].  Any other string, the empty one
    included, pushes its characters in order, first to last, and has a new
    array type: [size] elements of type Character, indexed from 0 to
    [size - 1] by Integer.  What is pushed for a character is its code as
    a signed byte: the code itself below 128, the code minus 256 from 128
    on. *)
Theorem string_literals :
  forall rec fuel level s,
    Token.kind (cur s) = Token.String ->
    (forall c,
       Token.string_value (cur s) = String c EmptyString ->
       factor rec fuel level s
       = Ok TypeDesc.charDesc
            (emitted (newInstr OpCode.PUSH 0 (Datum_of_char c)) (advanced s))) /\
    (String.length (Token.string_value (cur s)) <> 1%nat ->
     let str := Token.string_value (cur s) in
     factor rec fuel level s
     = Ok (Some (List.length (types s)))
          (set_types
             (types s
              ++ [TypeDesc.newArrayDesc
                    (u32 (Z.of_nat (String.length str)))
                    (mkSubRange 0 (s32 (Z.of_nat (String.length str) - 1)))
                    TypeDesc.intDesc TypeDesc.charDesc])
             (set_code
                (code s
                 ++ map (fun c => newInstr OpCode.PUSH 0 (Datum_of_char c))
                        (list_ascii_of_string str))
                (advanced s)))) /\
    (forall c,
       let n := Z.of_N (N_of_ascii c) in
       Datum_of_char c = DInt (if n <? 128 then n else n - 256)).
Proof.
  intros rec fuel level s Hk.
  assert (Hsigned : forall c,
             let n := Z.of_N (N_of_ascii c) in
             Datum_of_char c = DInt (if n <? 128 then n else n - 256)).
  { intros c n. unfold Datum_of_char, wrap8. fold n.
    assert (Hn : 0 <= n < 256).
    { subst n. pose proof (N_ascii_bounded c) as Hb. lia. }
    f_equal. destruct (n <? 128) eqn:E.
    - apply Z.ltb_lt in E. rewrite Z.mod_small by lia. lia.
    - apply Z.ltb_ge in E.
      replace (n + 128) with (n - 128 + 1 * 256) by lia.
      rewrite Z.mod_add by lia. rewrite Z.mod_small by lia. lia. }
  assert (E : factor rec fuel level s
              = match Token.string_value (cur s) with
                | String c EmptyString =>
                    (emit OpCode.PUSH 0 (Datum_of_char c) ;;
                     ret TypeDesc.charDesc) (advanced s)
                | str =>
                    (pushChars str ;;
                     newDesc (TypeDesc.newArrayDesc
                                (u32 (Z.of_nat (String.length str)))
                                (mkSubRange 0
                                   (s32 (Z.of_nat (String.length str) - 1)))
                                TypeDesc.intDesc TypeDesc.charDesc))
                      (advanced s)
                end).
  { unfold factor.
    do 5 (unfold bind at 1;
          rewrite accept_Ok_miss by (rewrite Hk; discriminate)).
    unfold bind at 1. rewrite (accept_false_hit _ _ Hk).
    unfold bind at 1. unfold ts_current.
    unfold bind at 1. rewrite next_advanced.
    destruct (Token.string_value (cur s)) as [|c [|c' r]]; reflexivity. }
  split; [|split; [|exact Hsigned]].
  - intros c Hc. rewrite E, Hc. reflexivity.
  - intros Hlen str. rewrite E. subst str.
    assert (Ha : code (advanced s) = code s /\ types (advanced s) = types s)
      by (unfold advanced; destruct (input s); split; reflexivity).
    destruct Ha as [Ha1 Ha2].
    destruct (Token.string_value (cur s)) as [|c [|c' r]] eqn:Es.
    + unfold bind. rewrite pushChars_Ok. unfold newDesc. simpl.
      rewrite Ha1, Ha2. reflexivity.
    + exfalso. apply Hlen. reflexivity.
    + unfold bind. rewrite pushChars_Ok. unfold newDesc.
      cbn [types code set_code]. rewrite Ha1, Ha2. reflexivity.
Qed.

(** The literal ['ab'] in the compiler's initial state. *)
Lemma string_literals_witness :
  factor (prods 1) 1 0 (Cases.at_tokens (Token.str "ab") [])
  = Ok (Some 5%nat)
       (set_types
          (types PComp_new
           ++ [TypeDesc.newArrayDesc 2 (mkSubRange 0 1)
                 TypeDesc.intDesc TypeDesc.charDesc])
          (set_code [newInstr OpCode.PUSH 0 (DInt 97);
                     newInstr OpCode.PUSH 0 (DInt 98)]
                    (advanced (Cases.at_tokens (Token.str "ab") [])))).
Proof.
  apply (proj1 (proj2 (string_literals (prods 1) 1 0
                         (Cases.at_tokens (Token.str "ab") []) eq_refl))).
  simpl. discriminate.
Defined.

(** The literal of the one byte 233: [PUSH -23]. *)
Example string_literal_byte_233 :
  factor (prods 1) 1 0
         (Cases.at_tokens
            (Token.str (String (ascii_of_nat 233) EmptyString)) [])
  = Ok TypeDesc.charDesc
       (emitted (newInstr OpCode.PUSH 0 (DInt (-23)))
          (advanced
             (Cases.at_tokens
                (Token.str (String (ascii_of_nat 233) EmptyString)) []))).
Proof. vm_compute. reflexivity. Qed.

(* ================================================================== *)
(** ** Constant expressions and sub-ranges *)

Lemma constExpr_int s :
  Token.kind (cur s) = Token.IntegerNum ->
  constExpr s
  = Ok (true, DInt (s32 (Token.integer_value (cur s)))) (advanced s).
Proof.
  intros H. unfold constExpr.
  unfold bind at 1. unfold bind at 1.
  rewrite accept_Ok_miss by (rewrite H; discriminate).
  unfold bind at 1. rewrite accept_Ok_miss by (rewrite H; discriminate).
  unfold ret at 1.
  unfold bind at 1. rewrite (accept_false_hit _ _ H).
  unfold bind at 1. unfold ts_current.
  unfold bind at 1. rewrite next_advanced. unfold ret.
  replace (1 * Token.integer_value (cur s)) with (Token.integer_value (cur s))
    by lia.
  reflexivity.
Qed.

Lemma constExpr_none s :
  ~ In (Token.kind (cur s))
       [Token.Add; Token.Subtract; Token.IntegerNum; Token.RealNum;
        Token.Identifier] ->
  constExpr s = Ok (false, DInt 0) s.
Proof.
  intros H. unfold constExpr.
  assert (Hk : forall k, In k [Token.Add; Token.Subtract; Token.IntegerNum;
                               Token.RealNum; Token.Identifier] ->
                         Token.kind (cur s) <> k)
    by (intros k Hin E; apply H; rewrite E; exact Hin).
  unfold bind at 1. unfold bind at 1.
  rewrite accept_Ok_miss by (apply Hk; simpl; auto).
  unfold bind at 1. rewrite accept_Ok_miss by (apply Hk; simpl; auto).
  unfold ret at 1.
  unfold bind at 1. rewrite accept_Ok_miss by (apply Hk; simpl; auto).
  unfold bind at 1. rewrite accept_Ok_miss by (apply Hk; simpl; auto).
  unfold bind at 1. rewrite accept_Ok_miss by (apply Hk; simpl; auto 6).
  reflexivity.
Qed.

(** X14.  A sub-range [a .. b] of two integer literals makes a new Integer
    descriptor.  Its range is [a .. b] when [a <= b]; when [a > b] one
    error is reported and the range is [b .. a], the bounds swapped.  The
    three tokens are consumed. *)
Theorem subrange_bounds_are_ordered :
  forall fuel level s t1 t2 rest,
    Token.kind (cur s) = Token.IntegerNum ->
    input s = t1 :: t2 :: rest ->
    Token.kind t1 = Token.Ellipsis ->
    Token.kind t2 = Token.IntegerNum ->
    let a := s32 (Token.integer_value (cur s)) in
    let b := s32 (Token.integer_value t2) in
    let s3 := advanced (advanced (advanced s)) in
    ordinalType fuel level s
    = Ok (Some (List.length (types s)))
         (set_types
            (types s ++ [TypeDesc.newIntDesc
                           (mkSubRange (Z.min a b) (Z.max a b))])
            (if b <? a
             then add_error [PStr "Minimum sub-range value ("; PDatum (DInt a);
                             PStr ")";
                             PStr " is greater than the maximum value (";
                             PDatum (DInt b); PStr ")"] s3
             else s3)).
Proof.
  intros fuel level s t1 t2 rest Hk Hin H1 H2 a b s3.
  assert (A1 : cur (advanced s) = t1 /\ input (advanced s) = t2 :: rest)
    by (unfold advanced; rewrite Hin; split; reflexivity).
  destruct A1 as [A1 A1'].
  assert (A2 : cur (advanced (advanced s)) = t2)
    by (unfold advanced at 1; rewrite A1'; reflexivity).
  assert (T3 : types s3 = types s).
  { unfold s3, advanced.
    repeat match goal with |- context [match ?x with _ => _ end] =>
             destruct x end; reflexivity. }
  unfold ordinalType.
  do 4 (unfold bind at 1;
        rewrite accept_Ok_miss by (rewrite Hk; discriminate)).
  unfold bind at 1. rewrite (constExpr_int _ Hk). cbn [fst snd].
  unfold bind at 1. unfold expect. unfold bind at 1.
  rewrite accept_true_hit by (rewrite A1; exact H1).
  unfold ret at 1.
  unfold bind at 1.
  rewrite constExpr_int by (rewrite A2; exact H2).
  cbn [fst snd]. rewrite A2. fold a b s3.
  unfold bind at 1. unfold current.
  unfold bind at 1. unfold ret at 1.
  unfold Datum_ltb, Datum_isInteger.
  destruct (Z.ltb_spec b a) as [Hlt|Hge].
  - unfold bind, error, modify, ret, Datum_integer, newDesc. simpl.
    rewrite T3. rewrite Z.min_r, Z.max_l by lia. reflexivity.
  - unfold bind, error, modify, ret, Datum_integer, newDesc. simpl.
    rewrite T3. rewrite Z.min_l, Z.max_r by lia. reflexivity.
Qed.

(** [5 .. 1] in the compiler's initial state: the range is [1 .. 5]. *)
Lemma subrange_bounds_are_ordered_witness :
  exists s',
    ordinalType 1 0 (Cases.at_tokens (Token.int 5)
                       [Cases.K Token.Ellipsis; Token.int 1]) = Ok (Some 5%nat) s' /\
    nth_error (types s') 5 = Some (TypeDesc.newIntDesc (mkSubRange 1 5)) /\
    nErrors s' = 1%nat.
Proof.
  eexists. split.
  - exact (subrange_bounds_are_ordered 1 0
             (Cases.at_tokens (Token.int 5)
                              [Cases.K Token.Ellipsis; Token.int 1])
             (Cases.K Token.Ellipsis) (Token.int 1) []
             eq_refl eq_refl eq_refl eq_refl).
  - split; reflexivity.
Defined.

(* ================================================================== *)
(** ** Enumerations *)

Lemma u32_succ v k : u32 (u32 (v + 1) + Z.of_nat k) = u32 (v + Z.of_nat (S k)).
Proof.
  unfold u32. rewrite Zplus_mod_idemp_l. f_equal. lia.
Qed.

Lemma ordinalType_enums_Ok : forall ids level type value enums s,
  exists s',
    ordinalType_enums level type ids value enums s
    = Ok (enums ++ map (fun id => (id, TypeDesc.intDesc)) ids) s' /\
    types s' = types s /\ code s' = code s /\ nErrors s' = nErrors s /\
    cur s' = cur s /\ input s' = input s /\
    List.length (symtbl s') = (List.length (symtbl s) + List.length ids)%nat /\
    firstn (List.length (symtbl s)) (symtbl s') = symtbl s /\
    forall k id,
      nth_error ids k = Some id ->
      nth_error (symtbl s') (List.length (symtbl s) + k)
      = Some (mkEntry (nextId s + k) id
                (SymValue.makeConst level
                   (DInt (match k with
                          | O => value
                          | _ => u32 (value + Z.of_nat k)
                          end)) type)).
Proof.
  induction ids as [|id ids IH]; intros level type value enums s.
  - exists s. simpl. rewrite app_nil_r.
    split; [reflexivity|]. do 5 (split; [reflexivity|]).
    split; [lia|]. split; [apply firstn_all|].
    intros k id H. destruct k; discriminate.
  - cbn [ordinalType_enums]. unfold bind at 1. unfold insert.
    destruct (IH level type (u32 (value + 1))
                (enums ++ [(id, TypeDesc.intDesc)])
                (set_symtbl (symtbl s ++ [mkEntry (nextId s) id
                               (SymValue.makeConst level (DInt value) type)])
                            (S (nextId s)) s))
      as (s' & E & Ht & Hc & Hn & Hcur & Hin & Hlen & Hfirst & Hnth).
    exists s'. rewrite E. simpl in *.
    rewrite length_app in *. simpl in *.
    repeat split; auto.
    + rewrite <- app_assoc. reflexivity.
    + rewrite Hlen. lia.
    + assert (Hf := f_equal (firstn (List.length (symtbl s))) Hfirst).
      rewrite firstn_firstn in Hf.
      replace (Nat.min (List.length (symtbl s)) (List.length (symtbl s) + 1))
        with (List.length (symtbl s)) in Hf by lia.
      rewrite Hf. rewrite firstn_app, firstn_all, Nat.sub_diag. simpl.
      apply app_nil_r.
    + intros k id' Hk. destruct k as [|k]; simpl in Hk.
      * injection Hk as <-. rewrite !Nat.add_0_r.
        rewrite <- (firstn_skipn (List.length (symtbl s) + 1) (symtbl s')).
        rewrite Hfirst. rewrite nth_error_app1
          by (rewrite length_app; simpl; lia).
        rewrite nth_error_app2 by lia. rewrite Nat.sub_diag. reflexivity.
      * specialize (Hnth k id' Hk).
        replace (List.length (symtbl s) + S k)%nat
          with (List.length (symtbl s) + 1 + k)%nat by lia.
        rewrite Hnth. do 3 f_equal; [lia|].
        f_equal. destruct k as [|k].
        -- unfold u32. f_equal.
        -- apply u32_succ.
Qed.

Lemma expect_frame k g s b s' :
  expect k g s = Ok b s' ->
  symtbl s' = symtbl s /\ nextId s' = nextId s /\ types s' = types s /\
  code s' = code s.
Proof.
  unfold expect, accept, bind, current, error, modify.
  destruct (Token.eqb (Token.kind (cur s)) k).
  - destruct g.
    + rewrite next_advanced. intros H. injection H as _ <-.
      unfold advanced. destruct (input s); auto.
    + intros H. injection H as _ <-. auto.
  - intros H. injection H as _ <-. auto.
Qed.

Lemma nth_error_update_nth {A} (f : A -> A) l : forall n x,
  nth_error l n = Some x -> nth_error (update_nth n f l) n = Some (f x).
Proof.
  induction l as [|y l IH]; intros n x H; destruct n; simpl in *;
    try discriminate.
  - injection H as <-. reflexivity.
  - apply IH. exact H.
Qed.

(** X15.  An enumeration [(id0, id1, ...)] makes a new descriptor of class
    Enumeration with the range [0 .. n-1] (and [0 .. 0] for no name), and
    declares each name as a constant of that type at the level of the
    declaration: the k-th name has the value k.  The names are appended to
    the table in their order. *)
Theorem enumeration_constants :
  forall fuel level s ty s',
    Token.kind (cur s) = Token.OpenParen ->
    ordinalType fuel level s = Ok ty s' ->
    exists ids s_i,
      identifierList fuel level "" (advanced s) = Ok ids s_i /\
      ty = Some (List.length (types s_i)) /\
      nth_error (types s') (List.length (types s_i))
      = Some (TypeDesc.set_fields
                (map (fun id => (id, TypeDesc.intDesc)) ids)
                (TypeDesc.newEnumDesc
                   (mkSubRange 0 (match ids with
                                  | [] => 0
                                  | _ => s32 (Z.of_nat (List.length ids) - 1)
                                  end)))) /\
      List.length (symtbl s')
      = (List.length (symtbl s_i) + List.length ids)%nat /\
      firstn (List.length (symtbl s_i)) (symtbl s') = symtbl s_i /\
      forall k id,
        nth_error ids k = Some id ->
        nth_error (symtbl s') (List.length (symtbl s_i) + k)
        = Some (mkEntry (nextId s_i + k) id
                  (SymValue.makeConst level (DInt (u32 (Z.of_nat k))) ty)).
Proof.
  intros fuel level s ty s' Hk E. unfold ordinalType in E.
  do 3 (unfold bind at 1 in E;
        rewrite accept_Ok_miss in E by (rewrite Hk; discriminate)).
  unfold bind at 1 in E. rewrite (accept_true_hit _ _ Hk) in E.
  apply bind_Ok in E as (ids & s_i & Hi & E).
  apply bind_Ok in E as (b & s_q & Hq & E).
  apply expect_frame in Hq as (Q1 & Q2 & Q3 & Q4).
  apply bind_Ok in E as (type & s_n & Hn & E).
  unfold newDesc in Hn. injection Hn as <- <-.
  apply bind_Ok in E as (enums & s_e & He & E).
  destruct (ordinalType_enums_Ok ids level (Some (List.length (types s_q))) 0 []
              (set_types (types s_q ++ [TypeDesc.newEnumDesc
                  (mkSubRange 0 match ids with
                                | [] => 0
                                | _ :: _ => s32 (Z.of_nat (List.length ids) - 1)
                                end)]) s_q))
    as (s_e' & E' & Ht & _ & _ & _ & _ & Hlen & Hfirst & Hnth).
  rewrite E' in He. injection He as <- <-.
  apply bind_Ok in E as ([] & s_u & Hu & E). injection E as <- <-.
  unfold updDesc in Hu.
  apply bind_Ok in Hu as (d & s_d & Hd & Hu).
  apply deref_Ok in Hd as [-> _].
  unfold modify in Hu. injection Hu as <-.
  exists ids, s_i. rewrite Q3 in *. simpl in *. rewrite Q1, Q2 in *.
  split; [exact Hi|]. split; [reflexivity|]. split; [|split; [|split]].
  - rewrite Ht. apply nth_error_update_nth.
    rewrite nth_error_app2 by lia. rewrite Nat.sub_diag. reflexivity.
  - exact Hlen.
  - exact Hfirst.
  - intros k id Hk'. rewrite (Hnth k id Hk').
    do 4 f_equal. destruct k; [reflexivity|]. f_equal.
Qed.

(* ================================================================== *)
(** ** The layout of variables, parameters and records *)

Lemma s32_add_l a b : s32 (s32 a + b) = s32 (a + b).
Proof.
  unfold s32. f_equal.
  replace ((a + 2 ^ 31) mod 2 ^ 32 - 2 ^ 31 + b + 2 ^ 31)
    with ((a + 2 ^ 31) mod 2 ^ 32 + b) by lia.
  rewrite Zplus_mod_idemp_l. f_equal. lia.
Qed.

Lemma u32_add_l a b : u32 (u32 a + b) = u32 (a + b).
Proof. unfold u32. apply Zplus_mod_idemp_l. Qed.

Lemma deref_sizeOf p s d s' :
  deref p s = Ok d s' -> TypeDesc.size d = sizeOf (types s) p.
Proof.
  intros H. apply deref_Ok in H as (_ & i & -> & E). simpl. rewrite E.
  reflexivity.
Qed.

(** The sum [sizeOfFields] computes, for a wrap-around [W] of the C++
    type of [sum]. *)
Lemma sizeOfFields_Ok (W : Z -> Z) :
  (forall a b, W (W a + b) = W (a + b)) ->
  forall fields sum s n s',
    sizeOfFields W fields sum s = Ok n s' ->
    s' = s /\
    n = match fields with
        | [] => sum
        | _ => W (sum + sizeOfAll (types s) fields)
        end.
Proof.
  intros HW. induction fields as [|[name ty] fields IH]; intros sum s n s' H.
  - injection H as <- <-. auto.
  - cbn [sizeOfFields] in H.
    apply bind_Ok in H as (d & s1 & Hd & H).
    pose proof (deref_sizeOf _ _ _ _ Hd) as Hs.
    apply deref_Ok in Hd as [-> _].
    destruct (IH _ _ _ _ H) as [-> ->]. split; [reflexivity|].
    rewrite Hs. cbn [sizeOfAll fold_right snd].
    destruct fields as [|f fields].
    + simpl. f_equal. lia.
    + rewrite HW. f_equal.
      change (fold_right (fun f sum => sizeOf (types s) (snd f) + sum) 0
                         (f :: fields))
        with (sizeOfAll (types s) (f :: fields)).
      lia.
Qed.

Lemma varDeclList_params_Ok : forall idents dx s n s',
  varDeclList_params idents dx s = Ok n s' ->
  s' = s /\
  n = match idents with
      | [] => dx
      | _ => s32 (dx - sizeOfAll (types s) idents)
      end.
Proof.
  induction idents as [|[name ty] idents IH]; intros dx s n s' H.
  - injection H as <- <-. auto.
  - cbn [varDeclList_params] in H.
    apply bind_Ok in H as (d & s1 & Hd & H).
    pose proof (deref_sizeOf _ _ _ _ Hd) as Hs.
    apply deref_Ok in Hd as [-> _].
    destruct (IH _ _ _ _ H) as [-> ->]. split; [reflexivity|].
    rewrite Hs. cbn [sizeOfAll fold_right snd].
    destruct idents as [|f idents].
    + simpl. f_equal. lia.
    + replace (s32 (dx - sizeOf (types s) ty)
               - sizeOfAll (types s) (f :: idents))
        with (s32 (dx - sizeOf (types s) ty)
              + - sizeOfAll (types s) (f :: idents)) by lia.
      rewrite s32_add_l. f_equal.
      change (fold_right (fun f sum => sizeOf (types s) (snd f) + sum) 0
                         (f :: idents))
        with (sizeOfAll (types s) (f :: idents)).
      lia.
Qed.

Lemma varDeclList_defined_frame : forall r level name s u s',
  varDeclList_defined level name r s = Ok u s' ->
  symtbl s' = symtbl s /\ nextId s' = nextId s /\ types s' = types s.
Proof.
  induction r as [|e r IH]; intros level name s u s' H.
  - injection H as _ <-. auto.
  - cbn [varDeclList_defined] in H.
    apply bind_Ok in H as ([] & s1 & H1 & H).
    destruct (IH _ _ _ _ _ H) as (A & B & C).
    destruct (SymValue.level (esym e) =? level);
      injection H1 as <-; auto.
Qed.

Lemma varDeclList_install_Ok : forall idents level dx s u s',
  varDeclList_install level idents dx s = Ok u s' ->
  types s' = types s /\
  List.length (symtbl s') = (List.length (symtbl s) + List.length idents)%nat /\
  firstn (List.length (symtbl s)) (symtbl s') = symtbl s /\
  forall k name ty,
    nth_error idents k = Some (name, ty) ->
    nth_error (symtbl s') (List.length (symtbl s) + k)
    = Some (mkEntry (nextId s + k) name
              (SymValue.makeVar level
                 (match k with
                  | O => dx
                  | _ => s32 (dx + sizeOfAll (types s) (firstn k idents))
                  end) ty)).
Proof.
  induction idents as [|[name ty] idents IH]; intros level dx s u s' H.
  - injection H as _ <-. split; [reflexivity|]. split; [simpl; lia|].
    split; [apply firstn_all|]. intros k n t Hk. destruct k; discriminate.
  - cbn [varDeclList_install] in H.
    apply bind_Ok in H as (s0 & s1 & H1 & H). injection H1 as <- <-.
    apply bind_Ok in H as ([] & s2 & H2 & H).
    apply varDeclList_defined_frame in H2 as (A & B & C).
    apply bind_Ok in H as (i & s3 & H3 & H).
    unfold insert in H3. injection H3 as <- <-.
    apply bind_Ok in H as (d & s4 & Hd & H).
    pose proof (deref_sizeOf _ _ _ _ Hd) as Hs.
    apply deref_Ok in Hd as [-> _].
    destruct (IH _ _ _ _ _ H) as (Ht & Hlen & Hfirst & Hnth).
    simpl in Ht, Hlen, Hfirst, Hnth, Hs.
    rewrite A, B in *. rewrite C in *. rewrite length_app in *. simpl in *.
    split; [exact Ht|]. split; [lia|]. split.
    + assert (Hf := f_equal (firstn (List.length (symtbl s))) Hfirst).
      rewrite firstn_firstn in Hf.
      replace (Nat.min (List.length (symtbl s)) (List.length (symtbl s) + 1))
        with (List.length (symtbl s)) in Hf by lia.
      rewrite Hf. rewrite firstn_app, firstn_all, Nat.sub_diag. simpl.
      apply app_nil_r.
    + intros k n t Hk. destruct k as [|k]; simpl in Hk.
      * injection Hk as <- <-. rewrite !Nat.add_0_r.
        rewrite <- (firstn_skipn (List.length (symtbl s) + 1) (symtbl s')).
        rewrite Hfirst. rewrite nth_error_app1
          by (rewrite length_app; simpl; lia).
        rewrite nth_error_app2 by lia. rewrite Nat.sub_diag. reflexivity.
      * specialize (Hnth k n t Hk).
        replace (List.length (symtbl s) + S k)%nat
          with (List.length (symtbl s) + 1 + k)%nat by lia.
        rewrite Hnth. do 3 f_equal; [lia|].
        f_equal. rewrite Hs. cbn [firstn sizeOfAll fold_right snd].
        destruct k as [|k].
        -- simpl. f_equal. lia.
        -- rewrite s32_add_l. f_equal.
           change (fold_right (fun f sum => sizeOf (types s) (snd f) + sum) 0
                     (firstn (S k) idents))
             with (sizeOfAll (types s) (firstn (S k) idents)).
           lia.
Qed.

(** X16.  The variables of a declaration list are appended to the table
    in the order they are declared, each at the level of the list, with
    its type, and with an offset that is the offset of the first plus the
    sizes of those before it (in [int] arithmetic).  The first local
    variable has the offset 0.  The first parameter has minus the size of
    all the parameters: the last one ends at -1. *)
Theorem variables_are_laid_out_in_order :
  forall rec fuel level params prefix idents0 s idents s',
    varDeclList rec fuel level params prefix idents0 s = Ok idents s' ->
    exists s_l,
      varDeclList_loop rec fuel fuel level prefix idents0 s = Ok idents s_l /\
      types s' = types s_l /\
      firstn (List.length (symtbl s_l)) (symtbl s') = symtbl s_l /\
      List.length (symtbl s')
      = (List.length (symtbl s_l) + List.length idents)%nat /\
      forall k name ty,
        nth_error idents k = Some (name, ty) ->
        nth_error (symtbl s') (List.length (symtbl s_l) + k)
        = Some (mkEntry (nextId s_l + k) name
                  (SymValue.makeVar level
                     (s32 ((if params
                            then - sizeOfAll (types s_l) idents else 0)
                           + sizeOfAll (types s_l) (firstn k idents)))
                     ty)).
Proof.
  intros rec fuel level params prefix idents0 s idents s' H.
  unfold varDeclList in H.
  apply bind_Ok in H as (idents' & s_l & Hl & H).
  apply bind_Ok in H as (dx & s1 & Hdx & H).
  apply bind_Ok in H as ([] & s2 & Hi & H).
  injection H as <- <-.
  assert (Hd : s1 = s_l /\
               dx = s32 (if params then - sizeOfAll (types s_l) idents'
                         else 0)).
  { destruct params.
    - apply varDeclList_params_Ok in Hdx as [-> ->]. split; [reflexivity|].
      destruct idents'; [reflexivity|]. f_equal.
    - injection Hdx as <- <-. auto. }
  destruct Hd as [-> ->].
  destruct (varDeclList_install_Ok _ _ _ _ _ _ Hi) as (Ht & Hlen & Hfirst & Hnth).
  exists s_l. split; [exact Hl|]. split; [exact Ht|].
  split; [exact Hfirst|]. split; [exact Hlen|].
  intros k name ty Hk. rewrite (Hnth k name ty Hk).
  do 3 f_equal. destruct k as [|k].
  - simpl. rewrite Z.add_0_r. destruct params; reflexivity.
  - apply s32_add_l.
Qed.

(** [a, b : integer; c : real] as the parameters of a subroutine of level
    1, in the compiler's initial state. *)
Lemma variables_are_laid_out_in_order_witness :
  exists idents s' s_l,
    varDeclList (prods 3) 3 1 true "" [] Cases.three_parameters = Ok idents s' /\
    nth_error (symtbl s') (List.length (symtbl s_l) + 2)
    = Some (mkEntry (nextId s_l + 2) "c"
              (SymValue.makeVar 1
                 (s32 (- sizeOfAll (types s_l) idents
                       + sizeOfAll (types s_l) (firstn 2 idents)))
                 TypeDesc.realDesc)).
Proof.
  destruct (varDeclList (prods 3) 3 1 true "" [] Cases.three_parameters)
    as [idents s'| |] eqn:E;
    [| vm_compute in E; discriminate E | vm_compute in E; discriminate E].
  destruct (variables_are_laid_out_in_order _ _ _ _ _ _ _ _ _ E)
    as (s_l & Hl & _ & _ & _ & Hnth).
  exists idents, s', s_l. split; [reflexivity|].
  apply Hnth.
  vm_compute in E. injection E as <- _. reflexivity.
Defined.

(** X17.  The number a block reserves for its variables.  Without a [var]
    part it is 0 and nothing is consumed; with one, it is the sum of the
    sizes of the types of the variables declared (in [int] arithmetic). *)
Theorem varDeclBlock_size :
  forall rec fuel level s dx s',
    varDeclBlock rec fuel level s = Ok dx s' ->
    (Token.kind (cur s) <> Token.VarDecl -> dx = 0 /\ s' = s) /\
    (Token.kind (cur s) = Token.VarDecl ->
     exists idents,
       varDeclList rec fuel level false "" [] (advanced s) = Ok idents s' /\
       dx = s32 (sizeOfAll (types s') idents)).
Proof.
  intros rec fuel level s dx s' H. unfold varDeclBlock in H.
  apply bind_Ok in H as (idents & s1 & H1 & H).
  apply (sizeOfFields_Ok s32 s32_add_l) in H as [-> ->].
  split.
  - intros Hk. unfold bind at 1 in H1.
    rewrite (accept_Ok_miss _ _ _ Hk) in H1. injection H1 as <- <-. auto.
  - intros Hk. unfold bind at 1 in H1.
    rewrite (accept_true_hit _ _ Hk) in H1.
    exists idents. split; [exact H1|].
    destruct idents; reflexivity.
Qed.

(** [var a, b : integer; c : real] in the compiler's initial state. *)
Lemma varDeclBlock_size_witness :
  exists dx s' idents,
    varDeclBlock (prods 3) 3 0 Cases.three_variables = Ok dx s' /\
    dx = s32 (sizeOfAll (types s') idents) /\ dx = 3.
Proof.
  destruct (varDeclBlock (prods 3) 3 0 Cases.three_variables)
    as [dx s'| |] eqn:E;
    [| vm_compute in E; discriminate E | vm_compute in E; discriminate E].
  destruct (proj2 (varDeclBlock_size _ _ _ _ _ _ E) eq_refl)
    as (idents & _ & Hdx).
  exists dx, s', idents. split; [reflexivity|]. split; [exact Hdx|].
  vm_compute in E. injection E as <- _. reflexivity.
Defined.

(** X18.  The size of a record is the sum of the sizes of the types of
    its fields (in [unsigned] arithmetic), and its descriptor holds the
    fields in the order of their declaration. *)
Theorem record_size :
  forall rec fuel level prefix s ty s',
    Token.kind (cur s) = Token.Record ->
    structuredType rec fuel level prefix s = Ok ty s' ->
    exists fields s_f,
      fieldList rec fuel level prefix [] (advanced s) = Ok fields s_f /\
      ty = Some (List.length (types s_f)) /\
      nth_error (types s') (List.length (types s_f))
      = Some (TypeDesc.newRcrdDesc (u32 (sizeOfAll (types s_f) fields))
                                   fields).
Proof.
  intros rec fuel level prefix s ty s' Hk H. unfold structuredType in H.
  unfold bind at 1 in H.
  rewrite accept_Ok_miss in H by (rewrite Hk; discriminate).
  unfold bind at 1 in H. rewrite (accept_true_hit _ _ Hk) in H.
  apply bind_Ok in H as (fields & s_f & Hf & H).
  apply bind_Ok in H as (sum & s1 & Hs & H).
  apply (sizeOfFields_Ok u32 u32_add_l) in Hs as [-> ->].
  apply bind_Ok in H as (tdesc & s2 & Hn & H).
  unfold newDesc in Hn. injection Hn as <- <-.
  apply bind_Ok in H as (b & s3 & He & H). injection H as <- <-.
  apply expect_frame in He as (_ & _ & Ht & _).
  exists fields, s_f. split; [exact Hf|]. split; [reflexivity|].
  rewrite Ht. simpl. rewrite nth_error_app2 by lia.
  rewrite Nat.sub_diag. simpl. do 2 f_equal.
  destruct fields; reflexivity.
Qed.

(** [record a, b : integer; c : real end] in the compiler's initial
    state. *)
Lemma record_size_witness :
  exists ty s' fields s_f,
    structuredType (prods 4) 4 0 "r" Cases.record_of_three = Ok ty s' /\
    nth_error (types s') (List.length (types s_f))
    = Some (TypeDesc.newRcrdDesc (u32 (sizeOfAll (types s_f) fields)) fields).
Proof.
  destruct (structuredType (prods 4) 4 0 "r" Cases.record_of_three)
    as [ty s'| |] eqn:E;
    [| vm_compute in E; discriminate E | vm_compute in E; discriminate E].
  destruct (record_size (prods 4) 4 0 "r" Cases.record_of_three ty s'
              eq_refl E) as (fields & s_f & _ & _ & H).
  exists ty, s', fields, s_f. split; [reflexivity | exact H].
Defined.

(* ================================================================== *)
(** ** The prelude of a program and the entry of its main block *)

Lemma symOf_Ok it s v s' : symOf it s = Ok v s' -> s' = s.
Proof.
  unfold symOf. intros H. apply bind_Ok in H as (e & s1 & H1 & H).
  apply entryOf_Ok in H1 as ->. injection H as _ <-. reflexivity.
Qed.

(** The runs a block is made of, each from the state the one before it
    leaves, and its code: the subroutines declared in it, the [ENTER] of a
    block with locals, the statements, and the return. *)
Lemma blockDecl_shape rec fuel val level s addr s' :
  (forall J level p, Inv J (r_type rec level p)) -> rec_prefix rec ->
  blockDecl rec fuel val level s = Ok addr s' ->
  exists s_a dx s_v s_d s_e s_b v decls body,
    (constDeclList fuel level ;; typeDeclList rec fuel level) s = Ok tt s_a /\
    varDeclBlock rec fuel level s_a = Ok dx s_v /\
    subDeclList rec fuel level s_v = Ok tt s_d /\
    updSym val (SymValue.set_value (DInt (Z.of_nat addr)))
      (if dx >? 0 then emitted (newInstr OpCode.ENTER 0 (DInt dx)) s_d
       else s_d)
    = Ok tt s_e /\
    blockDecl_body rec fuel level s_e = Ok tt s_b /\
    symOf (Some val) s_b = Ok v s_b /\
    purge level (emitted (blockDecl_return v) s_b) = Ok tt s' /\
    code s_d = code s ++ decls /\
    code s_b = code s_e ++ body /\
    addr = (List.length (code s) + List.length decls)%nat /\
    code s' = code s ++ decls
              ++ (if dx >? 0 then [newInstr OpCode.ENTER 0 (DInt dx)] else [])
              ++ body ++ [blockDecl_return v] /\
    (Token.kind (cur s_a) <> Token.VarDecl -> dx = 0 /\ s_v = s_a) /\
    (Token.kind (cur s_a) = Token.VarDecl ->
     exists idents,
       varDeclList rec fuel level false "" [] (advanced s_a) = Ok idents s_v /\
       dx = s32 (sizeOfAll (types s_v) idents)).
Proof.
  intros Ht Hrec H. unfold blockDecl in H.
  apply bind_Ok in H as ([] & s1 & H1 & H).
  apply bind_Ok in H as ([] & s2 & H2 & H).
  apply bind_Ok in H as (dx & s3 & H3 & H).
  apply bind_Ok in H as ([] & s4 & H4 & H).
  apply bind_Ok in H as (a & s5 & H5 & H).
  apply bind_Ok in H as ([] & s6 & H6 & H).
  apply bind_Ok in H as ([] & s7 & H7 & H).
  apply bind_Ok in H as (v & s8 & H8 & H).
  apply bind_Ok in H as (rpc & s9 & H9 & H).
  apply bind_Ok in H as ([] & s10 & H10 & H).
  injection H as <- <-.
  pose proof (symOf_Ok _ _ _ _ H8) as ->.
  assert (C1 : code s1 = code s)
    by (eapply samecode_run; [|exact H1]; intros; apply Inv_constDeclList).
  assert (C2 : code s2 = code s1)
    by (eapply samecode_run; [|exact H2]; intros; apply Inv_typeDeclList;
        exact Ht).
  assert (C3 : code s3 = code s2)
    by (eapply samecode_run; [|exact H3]; intros; apply Inv_varDeclBlock;
        exact Ht).
  destruct (prefix_run _ _ _ _ _
              (fun b c0 => prefix_subDeclList rec fuel Ht Hrec b c0 level) H4)
    as [decls C4].
  assert (C6 : code s6 = code s5)
    by (eapply samecode_run; [|exact H6]; intros; apply Inv_updSym).
  destruct (prefix_run _ _ _ _ _ (prefix_blockBody rec fuel level Ht Hrec) H7)
    as [body C7].
  assert (C10 : code s10 = code s9) by (injection H10 as <-; reflexivity).
  assert (E9 : s9 = emitted (blockDecl_return v) s7).
  { unfold blockDecl_return.
    destruct (SymValue.eqb SymValue.Function (SymValue.kind v));
      apply emit_Ok in H9 as [_ ->]; reflexivity. }
  subst s9.
  assert (C5 : a = List.length (code s4) /\
               s5 = (if dx >? 0
                     then emitted (newInstr OpCode.ENTER 0 (DInt dx)) s4
                     else s4)).
  { destruct (dx >? 0).
    - apply emit_Ok in H5 as [-> ->]. split; reflexivity.
    - apply code_size_Ok in H5 as [-> ->]. split; reflexivity. }
  destruct C5 as [-> ->].
  assert (C5 : code (if dx >? 0
                     then emitted (newInstr OpCode.ENTER 0 (DInt dx)) s4
                     else s4)
               = code s4
                 ++ (if dx >? 0 then [newInstr OpCode.ENTER 0 (DInt dx)]
                     else []))
    by (destruct (dx >? 0); [reflexivity | symmetry; apply app_nil_r]).
  assert (C4' : code s4 = code s ++ decls)
    by (rewrite C4, C3, C2, C1; reflexivity).
  exists s2, dx, s3, s4, s6, s7, v, decls, body.
  split; [unfold bind; rewrite H1; exact H2|].
  split; [exact H3|]. split; [exact H4|].
  split; [rewrite C4', length_app in H6 |- *; exact H6|].
  split; [exact H7|]. split; [exact H8|]. split; [exact H10|].
  split; [exact C4'|]. split; [exact C7|].
  split; [rewrite C4'; apply length_app|].
  split.
  { rewrite C10. simpl. rewrite C7, C6, C5, C4'.
    repeat rewrite <- app_assoc. reflexivity. }
  unfold varDeclBlock in H3.
  apply bind_Ok in H3 as (idents & s3' & H3 & H3').
  apply (sizeOfFields_Ok s32 s32_add_l) in H3' as [-> ->].
  split.
  - intros Hk. unfold bind at 1 in H3.
    rewrite (accept_Ok_miss _ _ _ Hk) in H3. injection H3 as <- <-. auto.
  - intros Hk. unfold bind at 1 in H3.
    rewrite (accept_true_hit _ _ Hk) in H3.
    exists idents. split; [exact H3|].
    destruct idents; reflexivity.
Qed.

Lemma progDecl_shape fuel s s' :
  code s = [] ->
  progDecl (prods fuel) fuel 0 s = Ok tt s' ->
  exists val s_h entry s_blk b,
    progDecl_heading (prods fuel) fuel 0 s = Ok val s_h /\
    code s_h = [] /\
    blockDecl (prods fuel) fuel val 0
      (emitted (newInstr OpCode.HALT 0 (DInt 0))
         (emitted (newInstr OpCode.CALL 0 (DInt 0)) s_h))
    = Ok entry s_blk /\
    expect Token.Period true
      (set_code (newInstr OpCode.CALL 0 (DInt (Z.of_nat entry))
                 :: tl (code s_blk)) s_blk)
    = Ok b s' /\
    code s' = newInstr OpCode.CALL 0 (DInt (Z.of_nat entry))
              :: tl (code s_blk).
Proof.
  intros Hs H. unfold progDecl in H.
  pose proof (prods_type_Inv fuel) as Ht.
  pose proof (prods_prefix fuel) as Hrec.
  apply bind_Ok in H as (t1 & s1 & H1 & H).
  apply bind_Ok in H as (b2 & s2 & H2 & H).
  apply bind_Ok in H as (val & s3 & H3 & H).
  apply bind_Ok in H as (b4 & s4 & H4 & H).
  apply bind_Ok in H as (call_pc & s5 & H5 & H).
  apply bind_Ok in H as (halt_pc & s6 & H6 & H).
  apply bind_Ok in H as (addr & s7 & H7 & H).
  apply bind_Ok in H as ([] & s8 & H8 & H).
  apply bind_Ok in H as (b9 & s9 & H9 & H).
  injection H as <-.
  assert (C1 : code s1 = code s)
    by (eapply samecode_run; [|exact H1]; intros; apply Inv_next).
  assert (C2 : code s2 = code s1)
    by (eapply samecode_run; [|exact H2]; intros; apply Inv_expect).
  assert (C3 : code s3 = code s2)
    by (eapply samecode_run; [|exact H3]; intros; apply Inv_subPrefixDecl;
        exact Ht).
  assert (C4 : code s4 = code s3)
    by (eapply samecode_run; [|exact H4]; intros; apply Inv_expect).
  assert (C9 : code s9 = code s8)
    by (eapply samecode_run; [|exact H9]; intros; apply Inv_expect).
  assert (E4 : code s4 = []) by (rewrite C4, C3, C2, C1; exact Hs).
  apply emit_Ok in H5 as [-> ->].
  unfold emit0 in H6. apply emit_Ok in H6 as [_ ->].
  destruct (prefix_run _ _ _ _ _
              (fun b c0 => prefix_blockDecl (prods fuel) fuel Ht Hrec b c0 val 0)
              H7) as [t C7].
  simpl in C7. rewrite E4 in C7. simpl in C7.
  assert (E8 : s8 = set_code (newInstr OpCode.CALL 0 (DInt (Z.of_nat addr))
                              :: tl (code s7)) s7).
  { unfold patch in H8. rewrite E4, C7 in H8. simpl in H8.
    injection H8 as <-. rewrite C7. reflexivity. }
  subst s8.
  exists val, s4, addr, s7, b9.
  split.
  { unfold progDecl_heading, bind. rewrite H1, H2, H3, H4. reflexivity. }
  split; [exact E4|]. split; [exact H7|]. split; [exact H9|].
  rewrite C9. reflexivity.
Qed.



(* ================================================================== *)
(** ** The fields of a record *)

Lemma varSelector_fields_Ok : forall flds selector type offset s r s',
  varSelector_fields selector flds type offset s = Ok r s' ->
  s' = s /\
  (forall before ty after,
     flds = before ++ (selector, ty) :: after ->
     (forall f, In f before -> fst f <> selector) ->
     r = (ty, match before with
              | [] => offset
              | _ => u32 (offset + sizeOfAll (types s) before)
              end)) /\
  ((forall f, In f flds -> fst f <> selector) ->
   r = (type, match flds with
              | [] => offset
              | _ => u32 (offset + sizeOfAll (types s) flds)
              end)).
Proof.
  induction flds as [|[name ty0] flds IH]; intros selector type offset s r s' H.
  - injection H as <- <-. split; [reflexivity|]. split; [|auto].
    intros before ty after E. destruct before; discriminate.
  - cbn [varSelector_fields] in H.
    destruct (String.eqb_spec name selector) as [->|Hne].
    + injection H as <- <-. split; [reflexivity|]. split.
      * intros before ty after E Hb. destruct before as [|b before].
        -- injection E as <- _. reflexivity.
        -- injection E as <- _. exfalso.
           exact (Hb _ (or_introl eq_refl) eq_refl).
      * intros Hall. exfalso. exact (Hall _ (or_introl eq_refl) eq_refl).
    + apply bind_Ok in H as (d & s1 & Hd & H).
      pose proof (deref_sizeOf _ _ _ _ Hd) as Hs.
      apply deref_Ok in Hd as [-> _].
      destruct (IH _ _ _ _ _ _ H) as (-> & H1 & H2).
      split; [reflexivity|]. rewrite Hs in *. split.
      * intros before ty after E Hb. destruct before as [|b before].
        -- injection E as E _. congruence.
        -- injection E as <- E.
           rewrite (H1 before ty after E
                      (fun f Hf => Hb f (or_intror Hf))).
           f_equal. cbn [sizeOfAll fold_right snd].
           destruct before as [|b' before].
           ++ simpl. f_equal. lia.
           ++ rewrite u32_add_l. f_equal.
              change (fold_right
                        (fun f sum => sizeOf (types s) (snd f) + sum) 0
                        (b' :: before))
                with (sizeOfAll (types s) (b' :: before)).
              lia.
      * intros Hall.
        rewrite (H2 (fun f Hf => Hall f (or_intror Hf))).
        f_equal. cbn [sizeOfAll fold_right snd].
        destruct flds as [|b' flds].
        -- simpl. f_equal. lia.
        -- rewrite u32_add_l. f_equal.
           change (fold_right
                     (fun f sum => sizeOf (types s) (snd f) + sum) 0
                     (b' :: flds))
             with (sizeOfAll (types s) (b' :: flds)).
           lia.
Qed.

(** X19.  The selector [.f] of a record.  For the first field of that name
    the type is the type of the field and the offset is the sum of the
    sizes of the fields in front of it (in [unsigned] arithmetic); the
    offset is added to the reference by [PUSH offset; ADD], and by nothing
    when it is 0.  A name that is no field of the record is not reported:
    the type stays the record's, and the offset is the size of all the
    fields. *)
Theorem record_selector :
  forall it type s t ty s',
    deref type s = Ok t s ->
    TypeDesc.tclass t = TypeDesc.Record ->
    Token.kind (cur s) = Token.Identifier ->
    varSelector it type s = Ok ty s' ->
    let selector := Token.string_value (cur s) in
    let result offset :=
      if offset >? 0
      then emitted (newInstr OpCode.ADD 0 (DInt 0))
             (emitted (newInstr OpCode.PUSH 0 (DInt offset)) (advanced s))
      else advanced s in
    (forall before fty after,
       TypeDesc.fields t = before ++ (selector, fty) :: after ->
       (forall f, In f before -> fst f <> selector) ->
       ty = fty /\
       s' = result (u32 (sizeOfAll (types s) before))) /\
    ((forall f, In f (TypeDesc.fields t) -> fst f <> selector) ->
     ty = type /\
     s' = result (u32 (sizeOfAll (types s) (TypeDesc.fields t))) /\
     nErrors s' = nErrors s).
Proof.
  intros it type s t ty s' Hd Hr Hk H selector result.
  unfold varSelector in H. rewrite (bind_eq _ _ _ _ _ Hd) in H.
  rewrite Hr in H. cbn [TypeDesc.eqb negb] in H.
  change (TypeDesc.eqb TypeDesc.Record TypeDesc.Record) with true in H.
  cbn [negb] in H.
  unfold bind at 1 in H. unfold ret at 1 in H.
  unfold bind at 1 in H. unfold ts_current in H.
  unfold bind at 1 in H. unfold expect in H. unfold bind at 1 in H.
  rewrite (accept_true_hit _ _ Hk) in H. unfold ret at 1 in H.
  apply bind_Ok in H as (r & s1 & Hf & H).
  destruct (varSelector_fields_Ok _ _ _ _ _ _ _ Hf) as (-> & H1 & H2).
  assert (Ta : types (advanced s) = types s)
    by (unfold advanced; destruct (input s); reflexivity).
  assert (Ea : nErrors (advanced s) = nErrors s)
    by (unfold advanced; destruct (input s); reflexivity).
  rewrite Ta in H1, H2.
  assert (R : ty = fst r /\ s' = result (snd r)).
  { unfold result. destruct (snd r >? 0).
    - apply bind_Ok in H as ([] & s2 & He & H). injection H as <- <-.
      apply bind_Ok in He as (pc & s3 & H3 & He). apply emit_Ok in H3 as [_ ->].
      apply bind_Ok in He as (pc' & s4 & H4 & He). unfold emit0 in H4.
      apply emit_Ok in H4 as [_ ->]. injection He as <-. auto.
    - apply bind_Ok in H as ([] & s2 & He & H). injection H as <- <-.
      injection He as <-. auto. }
  destruct R as [-> ->]. split.
  - intros before fty after E Hb.
    rewrite (H1 before fty after E Hb). cbn [fst snd].
    split; [reflexivity|]. f_equal. destruct before; reflexivity.
  - intros Hall. rewrite (H2 Hall). cbn [fst snd].
    split; [reflexivity|].
    assert (E0 : match TypeDesc.fields t with
                 | [] => 0
                 | _ :: _ => u32 (0 + sizeOfAll (types s) (TypeDesc.fields t))
                 end = u32 (sizeOfAll (types s) (TypeDesc.fields t)))
      by (destruct (TypeDesc.fields t); reflexivity).
    rewrite E0. split; [reflexivity|].
    unfold result.
    destruct (u32 (sizeOfAll (types s) (TypeDesc.fields t)) >? 0);
      simpl; exact Ea.
Qed.

(* ================================================================== *)
(** ** The closest declaration of a name *)

Lemma closest_spec : forall r c,
  SymValue.level (esym c) <= SymValue.level (esym (closest c r)) /\
  (forall x, In x r ->
             SymValue.level (esym x) <= SymValue.level (esym (closest c r))) /\
  ((closest c r = c /\
    forall x, In x r -> SymValue.level (esym x) <= SymValue.level (esym c)) \/
   (exists before after,
      r = before ++ closest c r :: after /\
      forall x, In x (c :: before) ->
                SymValue.level (esym x)
                < SymValue.level (esym (closest c r)))).
Proof.
  induction r as [|y r IH]; intros c.
  - simpl. split; [lia|]. split; [intros x []|]. left. split; [reflexivity|].
    intros x [].
  - cbn [closest].
    destruct (Z.gtb_spec (SymValue.level (esym y)) (SymValue.level (esym c)))
      as [Hgt|Hle].
    + destruct (IH y) as (H1 & H2 & H3). split; [lia|]. split.
      * intros x [<-|Hx]; [exact H1 | apply H2; exact Hx].
      * right. destruct H3 as [[E Hall]|(before & after & E & Hlt)].
        -- exists [], r. rewrite E. split; [reflexivity|].
           intros x [<-|[]]. lia.
        -- exists (y :: before), after. split.
           ++ simpl. f_equal. exact E.
           ++ intros x [<-|Hx]; [|apply Hlt; exact Hx].
              pose proof (Hlt y (or_introl eq_refl)). lia.
    + destruct (IH c) as (H1 & H2 & H3). split; [exact H1|]. split.
      * intros x [<-|Hx]; [lia | apply H2; exact Hx].
      * destruct H3 as [[E Hall]|(before & after & E & Hlt)].
        -- left. split; [exact E|]. intros x [<-|Hx]; [lia | auto].
        -- right. exists (y :: before), after. split.
           ++ simpl. f_equal. exact E.
           ++ intros x [<-|[<-|Hx]].
              ** apply Hlt. left. reflexivity.
              ** pose proof (Hlt c (or_introl eq_refl)). lia.
              ** apply Hlt. right. exact Hx.
Qed.

(** X20.  The search for the closest declaration among the elements of one
    name returns the element of the highest level, and the first of them
    in the order of the table when several have that level.  It finds
    nothing only when the name has no element. *)
Theorem closest_is_the_innermost :
  forall r,
    (closest_in r = None <-> r = []) /\
    forall e,
      closest_in r = Some e ->
      (forall x, In x r -> SymValue.level (esym x) <= SymValue.level (esym e)) /\
      exists before after,
        r = before ++ e :: after /\
        forall x, In x before ->
                  SymValue.level (esym x) < SymValue.level (esym e).
Proof.
  intros r. split.
  - destruct r; simpl; split; intros H; try reflexivity; discriminate.
  - intros e H. destruct r as [|c r]; [discriminate|].
    simpl in H. injection H as H.
    assert (Hc : closest (if SymValue.level (esym c) >? SymValue.level (esym c)
                          then c else c) r = closest c r)
      by (destruct (SymValue.level (esym c) >? SymValue.level (esym c));
          reflexivity).
    rewrite Hc in H. subst e.
    destruct (closest_spec r c) as (H1 & H2 & H3). split.
    + intros x [<-|Hx]; [exact H1 | apply H2; exact Hx].
    + destruct H3 as [[E Hall]|(before & after & E & Hlt)].
      * exists [], r. rewrite E. split; [reflexivity|]. intros x [].
      * exists (c :: before), after. split.
        -- simpl. f_equal. exact E.
        -- exact Hlt.
Qed.

(** Two declarations of [x], of the levels 0 and 1. *)
Lemma closest_is_the_innermost_witness :
  closest_in (equal_range "x" Samples.two_levels)
  = Some (mkEntry 3 "x" (SymValue.makeVar 1 1 TypeDesc.realDesc)) /\
  (forall x, In x (equal_range "x" Samples.two_levels) ->
             SymValue.level (esym x) <= 1).
Proof.
  split; [reflexivity|].
  exact (proj1 (proj2 (closest_is_the_innermost
                         (equal_range "x" Samples.two_levels))
                  (mkEntry 3 "x" (SymValue.makeVar 1 1 TypeDesc.realDesc))
                  eq_refl)).
Defined.

(* ================================================================== *)
(** ** A call with a parenthesis *)

(** X21.  A call whose parameters stand in a parenthesis.  The number of
    expressions between the parentheses is compared with the number of
    formal parameters of the subroutine; when they differ, one error is
    reported with both numbers.  An identifier that is neither a procedure
    nor a function is a second error.  The [CALL] is emitted in every
    case, with the difference of the levels and the entry of the table. *)
Theorem call_with_parenthesis :
  forall rec fuel level it s s',
    Token.kind (cur s) = Token.OpenParen ->
    callStatement rec fuel level it s = Ok tt s' ->
    exists nParams s_p b s_q e,
      (ifM accept Token.CloseParen false then ret O
       else callStatement_actuals rec fuel level it O) (advanced s)
      = Ok nParams s_p /\
      expect Token.CloseParen true s_p = Ok b s_q /\
      entryOf it s_q = Ok e s_q /\
      let v := esym e in
      let s_n :=
        if (nParams =? List.length (SymValue.params v))%nat then s_q
        else add_error [PStr "passing "; PNum (Z.of_nat nParams);
                        PStr " parameters, where ";
                        PNum (Z.of_nat (List.length (SymValue.params v)));
                        PStr " expected"] s_q in
      let s_k :=
        match SymValue.kind v with
        | SymValue.Procedure | SymValue.Function => s_n
        | _ => add_error [PStr "Identifier is not a function or procedure";
                          PStr " '"; PStr (ename e); PStr "'"] s_n
        end in
      s' = emitted (newInstr OpCode.CALL (level - SymValue.level v)
                             (SymValue.value v)) s_k.
Proof.
  intros rec fuel level it s s' Hk H. unfold callStatement in H.
  apply bind_Ok in H as ([] & s1 & H1 & H).
  unfold bind at 1 in H1. rewrite (accept_true_hit _ _ Hk) in H1.
  apply bind_Ok in H1 as (nParams & s_p & Hp & H1).
  apply bind_Ok in H1 as (b & s_q & Hq & H1).
  apply bind_Ok in H1 as (v & s2 & Hv & H1).
  unfold symOf in Hv. apply bind_Ok in Hv as (e & s3 & He & Hv).
  injection Hv as <- <-.
  assert (E3 : s3 = s_q).
  { unfold entryOf in He. destruct it as [i|]; [|discriminate].
    destruct (find_entry i (symtbl s_q)); [|discriminate].
    injection He as _ <-. reflexivity. }
  subst s3.
  exists nParams, s_p, b, s_q, e.
  split; [exact Hp|]. split; [exact Hq|]. split; [exact He|].
  cbv zeta.
  assert (N : s1 = if (nParams =? List.length (SymValue.params (esym e)))%nat
                   then s_q
                   else add_error
                          [PStr "passing "; PNum (Z.of_nat nParams);
                           PStr " parameters, where ";
                           PNum (Z.of_nat
                                   (List.length (SymValue.params (esym e))));
                           PStr " expected"] s_q).
  { destruct (nParams =? List.length (SymValue.params (esym e)))%nat;
      simpl in H1; injection H1 as <-; reflexivity. }
  apply bind_Ok in H as (e' & s4 & He' & H).
  assert (E4 : e' = e /\ s4 = s1).
  { unfold entryOf in He, He'. destruct it as [i|]; [|discriminate].
    assert (St : symtbl s1 = symtbl s_q)
      by (rewrite N; destruct (nParams =? _)%nat; reflexivity).
    rewrite St in He'.
    destruct (find_entry i (symtbl s_q)); [|discriminate].
    injection He as <-. injection He' as <- <-. auto. }
  destruct E4 as [-> ->].
  apply bind_Ok in H as ([] & s5 & H5 & H).
  apply bind_Ok in H as (pc & s6 & H6 & H).
  apply emit_Ok in H6 as [_ ->]. injection H as <-.
  f_equal. rewrite <- N.
  destruct (SymValue.kind (esym e)); simpl in H5; injection H5 as <-;
    reflexivity.
Qed.

(** [q()] where [q] has one parameter: the count is reported. *)
Lemma call_with_parenthesis_witness :
  exists s' nParams s_q e,
    callStatement (prods 3) 3 0 (Some 8%nat) Cases.call_q = Ok tt s' /\
    entryOf (Some 8%nat) s_q = Ok e s_q /\
    s' = emitted (newInstr OpCode.CALL (0 - SymValue.level (esym e))
                           (SymValue.value (esym e)))
           (match SymValue.kind (esym e) with
            | SymValue.Procedure | SymValue.Function =>
                if (nParams =? List.length (SymValue.params (esym e)))%nat
                then s_q
                else add_error
                       [PStr "passing "; PNum (Z.of_nat nParams);
                        PStr " parameters, where ";
                        PNum (Z.of_nat
                                (List.length (SymValue.params (esym e))));
                        PStr " expected"] s_q
            | _ =>
                add_error [PStr "Identifier is not a function or procedure";
                           PStr " '"; PStr (ename e); PStr "'"]
                  (if (nParams =? List.length (SymValue.params (esym e)))%nat
                   then s_q
                   else add_error
                          [PStr "passing "; PNum (Z.of_nat nParams);
                           PStr " parameters, where ";
                           PNum (Z.of_nat
                                   (List.length (SymValue.params (esym e))));
                           PStr " expected"] s_q)
            end).
Proof.
  destruct (callStatement (prods 3) 3 0 (Some 8%nat) Cases.call_q)
    as [[] s'| |] eqn:E;
    [| vm_compute in E; discriminate E | vm_compute in E; discriminate E].
  destruct (call_with_parenthesis (prods 3) 3 0 (Some 8%nat) Cases.call_q s'
              eq_refl E)
    as (nParams & s_p & b & s_q & e & _ & _ & He & H).
  exists s', nParams, s_q, e. split; [reflexivity|]. split; [exact He|].
  exact H.
Defined.

Example call_q_is_reported :
  match callStatement (prods 3) 3 0 (Some 8%nat) Cases.call_q with
  | Ok _ s' =>
      diags s' = [[PStr "passing "; PNum 0; PStr " parameters, where ";
                   PNum 1; PStr " expected"]]
  | _ => False
  end.
Proof. vm_compute. reflexivity. Qed.

(* ================================================================== *)
(** ** The index of an array *)

(** X22.  The code behind the index expression of [a[i]].  The index is
    checked against the bounds of the array by [LLIMIT] and [ULIMIT]
    before anything is computed from it; it is scaled by the size of the
    elements unless that is 1, the lower bound is subtracted unless that
    is 0, and the result is added to the reference.  An index whose class
    is not that of the array's index type is reported, and is then not
    scaled.  The type is that of the elements. *)
Theorem array_index_is_checked :
  forall index atype type s a ai ix t,
    deref atype s = Ok a s ->
    deref (TypeDesc.itype a) s = Ok ai s ->
    deref index s = Ok ix s ->
    deref type s = Ok t s ->
    let lo := minimum (TypeDesc.range a) in
    let hi := maximum (TypeDesc.range a) in
    let same := TypeDesc.eqb (TypeDesc.tclass ai) (TypeDesc.tclass ix) in
    varArray_indexes [index] 1 atype type s
    = Ok type
         (set_code
            (code s
             ++ [newInstr OpCode.LLIMIT 0 (DInt lo);
                 newInstr OpCode.ULIMIT 0 (DInt hi)]
             ++ (if same && negb (TypeDesc.size t =? 1)
                 then [newInstr OpCode.PUSH 0 (DInt (TypeDesc.size t));
                       newInstr OpCode.MUL 0 (DInt 0)]
                 else [])
             ++ (if negb (lo =? 0)
                 then [newInstr OpCode.PUSH 0 (DInt lo);
                       newInstr OpCode.SUB 0 (DInt 0)]
                 else [])
             ++ [newInstr OpCode.ADD 0 (DInt 0)])
            (if same then s
             else add_error [PStr "incompatable array index type, expected ";
                             PTClass (TypeDesc.tclass ai); PStr " got ";
                             PTClass (TypeDesc.tclass ix)] s)).
Proof.
  intros index atype type s a ai ix t Ha Hai Hix Ht lo hi same.
  apply deref_Ok in Ha as (_ & i1 & -> & E1).
  apply deref_Ok in Hai as (_ & i2 & E2' & E2).
  apply deref_Ok in Hix as (_ & i3 & -> & E3).
  apply deref_Ok in Ht as (_ & i4 & -> & E4).
  cbn [varArray_indexes]. unfold bind, emit0, emit, deref, error, modify, ret.
  rewrite E1. cbn [types set_code]. rewrite E2'. rewrite E2.
  cbn [types set_code]. rewrite E3. fold lo hi. fold same.
  destruct same; cbn [negb andb].
  - cbn [types set_code]. rewrite E4.
    destruct (TypeDesc.size t =? 1); cbn [negb];
      destruct (lo =? 0); cbn [negb]; simpl;
      repeat rewrite <- app_assoc; reflexivity.
  - destruct (lo =? 0); cbn [negb]; simpl;
      repeat rewrite <- app_assoc; reflexivity.
Qed.

(** [a[i]] for [a : array [1..5] of integer] and an Integer [i]. *)
Lemma array_index_is_checked_witness :
  varArray_indexes [TypeDesc.intDesc] 1 (Some 5%nat) TypeDesc.intDesc
                   Cases.with_array
  = Ok TypeDesc.intDesc
       (set_code [newInstr OpCode.LLIMIT 0 (DInt 1);
                  newInstr OpCode.ULIMIT 0 (DInt 5);
                  newInstr OpCode.PUSH 0 (DInt 1);
                  newInstr OpCode.SUB 0 (DInt 0);
                  newInstr OpCode.ADD 0 (DInt 0)] Cases.with_array).
Proof.
  exact (array_index_is_checked TypeDesc.intDesc (Some 5%nat) TypeDesc.intDesc
           Cases.with_array
           (TypeDesc.newArrayDesc 5 (mkSubRange 1 5)
              TypeDesc.intDesc TypeDesc.intDesc)
           (TypeDesc.newIntDesc TypeDesc.maxRange)
           (TypeDesc.newIntDesc TypeDesc.maxRange)
           (TypeDesc.newIntDesc TypeDesc.maxRange)
           eq_refl eq_refl eq_refl eq_refl).
Defined.

(** [while 1 do writeln]. *)
Lemma while_jumps_witness :
  exists s',
    whileStatement (prods 4) 4 0 Cases.while_writeln = Ok tt s' /\
    code s' = [ newInstr OpCode.PUSH 0 (DInt 1);
                newInstr OpCode.JNEQ 0 (DInt 5);
                newInstr OpCode.PUSH 0 (DInt 0);
                newInstr OpCode.WRITELN 0 (DInt 0);
                newInstr OpCode.JUMP 0 (DInt 0) ].
Proof.
  destruct (whileStatement (prods 4) 4 0 Cases.while_writeln)
    as [[] s'| |] eqn:E;
    [| vm_compute in E; discriminate E | vm_compute in E; discriminate E].
  destruct (while_jumps 4 0 Cases.while_writeln s' E)
    as (ty & s_c & b & s_d & s_b & cond & body
        & H1 & H2 & H3 & C1 & C2 & Hs).
  vm_compute in H1. injection H1 as Hty Hsc. subst ty s_c.
  vm_compute in H2. injection H2 as Hb Hsd. subst b s_d.
  vm_compute in H3. injection H3 as Hsb. subst s_b.
  vm_compute in C1. subst cond.
  vm_compute in C2. injection C2 as Hbody. subst body.
  exists s'. split; [reflexivity|]. rewrite Hs. vm_compute. reflexivity.
Defined.

(** [repeat writeln until 1]. *)
Lemma repeat_jumps_witness :
  exists s',
    repeateStatement (prods 4) 4 0 Cases.repeat_writeln = Ok tt s' /\
    code s' = [ newInstr OpCode.PUSH 0 (DInt 0);
                newInstr OpCode.WRITELN 0 (DInt 0);
                newInstr OpCode.PUSH 0 (DInt 1);
                newInstr OpCode.JNEQ 0 (DInt 0) ].
Proof.
  destruct (repeateStatement (prods 4) 4 0 Cases.repeat_writeln)
    as [[] s'| |] eqn:E;
    [| vm_compute in E; discriminate E | vm_compute in E; discriminate E].
  destruct (repeat_jumps 4 0 Cases.repeat_writeln s' E)
    as (s_b & b & s_u & ty & s_c & body & cond
        & H1 & H2 & H3 & C1 & C2 & Hs & _).
  vm_compute in H1. injection H1 as Hsb. subst s_b.
  vm_compute in H2. injection H2 as Hb Hsu. subst b s_u.
  vm_compute in H3. injection H3 as Hty Hsc. subst ty s_c.
  exists s'. split; [reflexivity|]. rewrite Hs. vm_compute. reflexivity.
Defined.

(** [if 1 then write else writeln]. *)
Lemma if_jumps_witness :
  exists s',
    ifStatement (prods 4) 4 0 Cases.if_write_else_writeln = Ok tt s' /\
    code s' = [ newInstr OpCode.PUSH 0 (DInt 1);
                newInstr OpCode.JNEQ 0 (DInt 5);
                newInstr OpCode.PUSH 0 (DInt 0);
                newInstr OpCode.WRITE 0 (DInt 0);
                newInstr OpCode.JUMP 0 (DInt 7);
                newInstr OpCode.PUSH 0 (DInt 0);
                newInstr OpCode.WRITELN 0 (DInt 0) ].
Proof.
  destruct (ifStatement (prods 4) 4 0 Cases.if_write_else_writeln)
    as [[] s'| |] eqn:E;
    [| vm_compute in E; discriminate E | vm_compute in E; discriminate E].
  destruct (if_jumps 4 0 Cases.if_write_else_writeln s' E)
    as (ty & s_c & b & s_t & s_1 & cond & thenpart
        & H1 & H2 & H3 & C1 & C2 & Hs).
  vm_compute in H1. injection H1 as Hty Hsc. subst ty s_c.
  vm_compute in H2. injection H2 as Hb Hst. subst b s_t.
  vm_compute in H3. injection H3 as Hs1. subst s_1.
  vm_compute in C1. subst cond.
  vm_compute in C2. injection C2 as Hthen. subst thenpart.
  exists s'. split; [reflexivity|].
  destruct Hs as [[Hk _] | (_ & s_2 & elsepart & H4 & C4 & Hs)].
  - exfalso. apply Hk. reflexivity.
  - vm_compute in H4. injection H4 as Hs2. subst s_2.
    vm_compute in C4. injection C4 as Helse. subst elsepart.
    rewrite Hs. vm_compute. reflexivity.
Defined.

(** The code of the statements with empty parts. *)
Example jumps_code :
  (match whileStatement (prods 4) 4 0 Cases.while_do with
   | Ok _ s' => code s' | _ => [] end)
  = [ newInstr OpCode.PUSH 0 (DInt 1); newInstr OpCode.JNEQ 0 (DInt 3);
      newInstr OpCode.JUMP 0 (DInt 0) ] /\
  (match ifStatement (prods 4) 4 0 Cases.if_then_else with
   | Ok _ s' => code s' | _ => [] end)
  = [ newInstr OpCode.PUSH 0 (DInt 1); newInstr OpCode.JNEQ 0 (DInt 3);
      newInstr OpCode.JUMP 0 (DInt 3) ] /\
  (match ifStatement (prods 4) 4 0 Cases.if_then with
   | Ok _ s' => code s' | _ => [] end)
  = [ newInstr OpCode.PUSH 0 (DInt 1); newInstr OpCode.JNEQ 0 (DInt 2) ] /\
  (match repeateStatement (prods 4) 4 0 Cases.repeat_until with
   | Ok _ s' => code s' | _ => [] end)
  = [ newInstr OpCode.PUSH 0 (DInt 1); newInstr OpCode.JNEQ 0 (DInt 0) ].
Proof. vm_compute. repeat split; reflexivity. Qed.

(** [(red, green)] in the compiler's initial state. *)
Lemma enumeration_constants_witness :
  exists ty s' ids s_i,
    ordinalType 3 0 Cases.two_enums = Ok ty s' /\
    identifierList 3 0 "" (advanced Cases.two_enums) = Ok ids s_i /\
    nth_error (symtbl s') (List.length (symtbl s_i) + 1)
    = Some (mkEntry (nextId s_i + 1) "green"
              (SymValue.makeConst 0 (DInt (u32 1)) ty)).
Proof.
  destruct (ordinalType 3 0 Cases.two_enums) as [ty s'| |] eqn:E;
    [| vm_compute in E; discriminate E | vm_compute in E; discriminate E].
  destruct (enumeration_constants 3 0 Cases.two_enums ty s' eq_refl E)
    as (ids & s_i & Hi & _ & _ & _ & _ & Hnth).
  exists ty, s', ids, s_i. split; [reflexivity|]. split; [exact Hi|].
  apply (Hnth 1%nat "green").
  vm_compute in Hi. injection Hi as <- _. reflexivity.
Defined.

(** The second field of a record of an Integer and a Real. *)
Lemma record_selector_witness :
  exists ty s',
    varSelector (Some 0%nat) (Some 5%nat) Cases.at_selector = Ok ty s' /\
    ty = TypeDesc.realDesc /\
    s' = emitted (newInstr OpCode.ADD 0 (DInt 0))
           (emitted (newInstr OpCode.PUSH 0 (DInt 1))
                    (advanced Cases.at_selector)).
Proof.
  destruct (varSelector (Some 0%nat) (Some 5%nat) Cases.at_selector)
    as [ty s'| |] eqn:E;
    [| vm_compute in E; discriminate E | vm_compute in E; discriminate E].
  exists ty, s'. split; [reflexivity|].
  refine (proj1 (record_selector (Some 0%nat) (Some 5%nat) Cases.at_selector
                   (TypeDesc.newRcrdDesc 2 [("a", TypeDesc.intDesc);
                                            ("b", TypeDesc.realDesc)])
                   ty s' eq_refl eq_refl eq_refl E)
                [("a", TypeDesc.intDesc)] TypeDesc.realDesc [] eq_refl _).
  intros f [<-|[]]. discriminate.
Defined.

(* ================================================================== *)
(** ** The command line of p *)

Lemma options_keep cs : forall o o' b,
  Cmd.options cs o = (b, o') ->
  Cmd.inputFile o' = Cmd.inputFile o /\
  (Cmd.verbose o = true -> Cmd.verbose o' = true) /\
  (b = true -> In Cmd.Help (Cmd.out o') -> In Cmd.Help (Cmd.out o)).
Proof.
  induction cs as [|c cs IH]; intros o o' b H; simpl in H.
  - injection H as <- <-. auto.
  - destruct (Ascii.eqb c "?").
    { injection H as <- <-. repeat split; auto. discriminate. }
    destruct (Ascii.eqb c "v").
    { destruct (IH _ _ _ H) as (H1 & H2 & H3). repeat split; auto. }
    destruct (Ascii.eqb c "V").
    { destruct (IH _ _ _ H) as (H1 & H2 & H3). repeat split; auto.
      intros Hb Hin. specialize (H3 Hb Hin). simpl in H3.
      apply in_app_or in H3 as [H3|[H3|[]]]; [exact H3 | discriminate]. }
    injection H as <- <-. repeat split; auto. discriminate.
Qed.

Lemma last_cons_default (l : list string) x d :
  last (x :: l) d = last l x.
Proof.
  revert x d. induction l as [|y l IH]; intros x d; [reflexivity|].
  change (last (x :: y :: l) d) with (last (y :: l) d).
  rewrite (IH y d), (IH y x). reflexivity.
Qed.

(** X23.  When [parseCommandline] returns true, the input file is the last
    argument that names one (["-"], or an argument that does not start
    with ['-']), what it was before when no argument names one, and ["-"]
    when that is the empty string: it is never empty.  No argument was
    [-help], no help was written, and the verbose flag was only ever
    set. *)
Theorem parseCommandline_result :
  forall args o o',
    Cmd.parseCommandline args o = (true, o') ->
    Cmd.inputFile o'
    = (let f := last (filter Cmd.names_input args) (Cmd.inputFile o) in
       if String.eqb f "" then "-" else f) /\
    Cmd.inputFile o' <> "" /\
    ~ In "-help" args /\
    (In Cmd.Help (Cmd.out o') -> In Cmd.Help (Cmd.out o)) /\
    (Cmd.verbose o = true -> Cmd.verbose o' = true).
Proof.
  induction args as [|arg rest IH]; intros o o' H.
  - simpl in H. injection H as <-. simpl.
    destruct (String.eqb_spec (Cmd.inputFile o) "") as [E|E]; simpl;
      repeat split; auto; discriminate.
  - cbn [Cmd.parseCommandline] in H.
    destruct (String.eqb_spec arg "") as [->|Hne].
    { destruct (IH _ _ H) as (H1 & H2 & H3 & H4 & H5).
      repeat split; auto. intros [E|E]; [discriminate | auto]. }
    destruct (String.eqb_spec "-" arg) as [<-|Hd].
    { destruct (IH _ _ H) as (H1 & H2 & H3 & H4 & H5).
      split; [|repeat split; auto].
      - rewrite H1. cbn [filter Cmd.names_input].
        rewrite last_cons_default. reflexivity.
      - intros [E|E]; [discriminate | auto]. }
    destruct (String.eqb_spec "-help" arg) as [<-|Hh]; [discriminate|].
    destruct (String.eqb_spec "-verbose" arg) as [<-|Hv].
    { destruct (IH _ _ H) as (H1 & H2 & H3 & H4 & H5).
      repeat split; auto. intros [E|E]; [discriminate | auto]. }
    destruct (String.eqb_spec "-version" arg) as [<-|Hvs].
    { destruct (IH _ _ H) as (H1 & H2 & H3 & H4 & H5).
      repeat split; auto.
      - intros [E|E]; [discriminate | auto].
      - intros Hin. specialize (H4 Hin). simpl in H4.
        apply in_app_or in H4 as [H4|[H4|[]]]; [exact H4 | discriminate]. }
    assert (Hnh : ~ In "-help" rest -> ~ In "-help" (arg :: rest))
      by (intros Hr [E|E]; [congruence | auto]).
    destruct arg as [|c cs]; [congruence|].
    destruct (Ascii.eqb_spec c "-") as [->|Hc].
    + destruct (Cmd.options cs o) as [[] o1] eqn:Eo; [|discriminate].
      destruct (options_keep _ _ _ _ Eo) as (K1 & K2 & K3).
      destruct (IH _ _ H) as (H1 & H2 & H3 & H4 & H5).
      split; [|repeat split; auto].
      rewrite H1, K1. cbn [filter Cmd.names_input].
      destruct cs; [congruence | reflexivity].
    + assert (E : Cmd.parseCommandline rest
                    (Cmd.set_inputFile (String c cs) o) = (true, o')).
      { destruct c as [[] [] [] [] [] [] [] []]; try exact H.
        exfalso. apply Hc. reflexivity. }
      destruct (IH _ _ E) as (H1 & H2 & H3 & H4 & H5).
      split; [|repeat split; auto].
      rewrite H1.
      assert (Hn : Cmd.names_input (String c cs) = true).
      { destruct c as [[] [] [] [] [] [] [] []]; try reflexivity.
        exfalso. apply Hc. reflexivity. }
      cbn [filter]. rewrite Hn. rewrite last_cons_default. reflexivity.
Qed.

(** [p -v prog.p -V other.p]: verbose, and the last name. *)
Lemma parseCommandline_result_witness :
  Cmd.inputFile
    (snd (Cmd.parseCommandline ["-v"; "prog.p"; "-V"; "other.p"] Cmd.initial))
  = "other.p".
Proof.
  exact (proj1 (parseCommandline_result
                  ["-v"; "prog.p"; "-V"; "other.p"] Cmd.initial _ eq_refl)).
Defined.

(** X24.  The driver.  The machine runs only when the command line parsed
    and the compiler counted no error; the program then returns 0.  A
    command line that does not parse is one error, whatever the input
    holds: nothing is compiled. *)
Theorem p_runs_only_without_errors :
  forall fuel steps read args,
    (forall n r,
       p_main fuel steps read args = Some (n, Some r) ->
       n = O /\
       exists o s,
         Cmd.parseCommandline args Cmd.initial = (true, o) /\
         compile fuel (read (Cmd.inputFile o)) [] = Ok O s /\
         r = fst (PInterp.run steps (PInterp.load (code s) 1024))) /\
    (fst (Cmd.parseCommandline args Cmd.initial) = false ->
     p_main fuel steps read args = Some (1%nat, None)) /\
    (forall o n s,
       Cmd.parseCommandline args Cmd.initial = (true, o) ->
       compile fuel (read (Cmd.inputFile o)) [] = Ok (S n) s ->
       p_main fuel steps read args = Some (S n, None)).
Proof.
  intros fuel steps read args. unfold p_main, main. split; [|split].
  - intros n r H.
    destruct (Cmd.parseCommandline args Cmd.initial) as [[] o] eqn:Ep;
      [|discriminate].
    destruct (compile fuel (read (Cmd.inputFile o)) []) as [k s| |] eqn:Ec;
      try discriminate.
    destruct k as [|k]; simpl in H; [|discriminate].
    injection H as <- <-. split; [reflexivity|].
    exists o, s. auto.
  - intros H.
    destruct (Cmd.parseCommandline args Cmd.initial) as [[] o];
      [discriminate | reflexivity].
  - intros o n s Hp Hc. rewrite Hp, Hc. reflexivity.
Qed.

(** [p -x]: an unknown option. *)
Lemma p_runs_only_without_errors_witness :
  p_main 0 0 (fun _ => []) ["-x"] = Some (1%nat, None).
Proof.
  exact (proj1 (proj2 (p_runs_only_without_errors 0 0 (fun _ => []) ["-x"]))
           eq_refl).
Defined.

(* ================================================================== *)
(** * The PL/0 compiler *)

(** ** What a production of PL/0 keeps of the code before it *)

Lemma PL0_bind_Ok {A B} (m : PL0.M A) (k : A -> PL0.M B) s b s' :
  PL0.bind m k s = PL0.Ok b s' <->
  exists a s1, m s = PL0.Ok a s1 /\ k a s1 = PL0.Ok b s'.
Proof.
  unfold PL0.bind. destruct (m s) as [a s1| |]; split; intros H.
  - exists a, s1. auto.
  - destruct H as (a' & s1' & E & H). injection E as <- <-. exact H.
  - discriminate.
  - destruct H as (? & ? & E & _). discriminate.
  - discriminate.
  - destruct H as (? & ? & E & _). discriminate.
Qed.

Lemma PL0_Inv_pure J A (a : A) : PL0.Inv J (PL0.pure a).
Proof. intros s H. exact H. Qed.

Lemma PL0_Inv_bind J A B (m : PL0.M A) (k : A -> PL0.M B) :
  PL0.Inv J m -> (forall a, PL0.Inv J (k a)) -> PL0.Inv J (PL0.bind m k).
Proof.
  intros Hm Hk s H. unfold PL0.bind. specialize (Hm s H).
  destruct (m s) as [a s1| |]; auto. apply (Hk a s1 Hm).
Qed.

Lemma PL0_Inv_crash J A : PL0.Inv J (@PL0.crash A).
Proof. intros s H. exact I. Qed.

Lemma PL0_Inv_outOfFuel J A : PL0.Inv J (@PL0.outOfFuel A).
Proof. intros s H. exact I. Qed.

Lemma PL0_Inv_get J : PL0.Inv J PL0.get.
Proof. intros s H. exact H. Qed.

Lemma PL0_Inv_current J : PL0.Inv J PL0.current.
Proof. intros s H. exact H. Qed.

Lemma PL0_Inv_ts_current J : PL0.Inv J PL0.ts_current.
Proof. intros s H. exact H. Qed.

Lemma PL0_Inv_code_size J : PL0.Inv J PL0.code_size.
Proof. intros s H. exact H. Qed.

Lemma PL0_Inv_next J : PL0.Inv J PL0.next.
Proof. intros s H. unfold PL0.next. destruct (PL0.input s); exact H. Qed.

Lemma PL0_Inv_error J m : PL0.Inv J (PL0.error m).
Proof. intros s H. exact H. Qed.

Lemma PL0_Inv_insert J name v : PL0.Inv J (PL0.insert name v).
Proof. intros s H. exact H. Qed.

Lemma PL0_Inv_purge J l : PL0.Inv J (PL0.purge l).
Proof. intros s H. exact H. Qed.

Lemma PL0_Inv_set_value J i a : PL0.Inv J (PL0.set_value i a).
Proof.
  intros s H. unfold PL0.set_value.
  destruct (existsb _ (PL0.symtbl s)); [exact H | exact I].
Qed.

Create HintDb pl0 discriminated.
#[export] Hint Resolve PL0_Inv_pure PL0_Inv_crash PL0_Inv_outOfFuel
  PL0_Inv_get PL0_Inv_current PL0_Inv_ts_current PL0_Inv_code_size
  PL0_Inv_next PL0_Inv_error PL0_Inv_insert PL0_Inv_purge PL0_Inv_set_value
  : pl0.

Ltac pl0_step :=
  cbv beta match zeta;
  lazymatch goal with
  | |- PL0.Inv _ (PL0.pure _) => apply PL0_Inv_pure
  | |- PL0.Inv _ (PL0.bind (if ?c then _ else _) _) => destruct c
  | |- PL0.Inv _ (PL0.bind (match ?x with _ => _ end) _) => destruct x
  | |- PL0.Inv _ (PL0.bind _ _) => apply PL0_Inv_bind; [ | intros ? ]
  | |- PL0.Inv _ (if ?c then _ else _) => destruct c
  | |- PL0.Inv _ (match ?x with _ => _ end) => destruct x
  | |- PL0.Inv _ _ => solve [auto with pl0]
  end.

Ltac pl0_auto := repeat pl0_step.

Lemma PL0_Inv_error2 J s t : PL0.Inv J (PL0.error2 s t).
Proof. unfold PL0.error2. pl0_auto. Qed.

Lemma PL0_Inv_accept J k g : PL0.Inv J (PL0.accept k g).
Proof. unfold PL0.accept. pl0_auto. Qed.
#[export] Hint Resolve PL0_Inv_error2 PL0_Inv_accept : pl0.

Lemma PL0_Inv_expect J k g : PL0.Inv J (PL0.expect k g).
Proof. unfold PL0.expect. pl0_auto. Qed.

Lemma PL0_Inv_accept_relational J : PL0.Inv J PL0.accept_relational.
Proof. unfold PL0.accept_relational. pl0_auto. Qed.
#[export] Hint Resolve PL0_Inv_expect PL0_Inv_accept_relational : pl0.

Lemma PL0_Inv_procDecl_defined J l name :
  forall r, PL0.Inv J (PL0.procDecl_defined l name r).
Proof. induction r; intros; cbn [PL0.procDecl_defined]; pl0_auto. Qed.

Lemma PL0_Inv_constDecl J l : PL0.Inv J (PL0.constDecl l).
Proof. unfold PL0.constDecl. pl0_auto. Qed.

Lemma PL0_Inv_varDecl J dx l : PL0.Inv J (PL0.varDecl dx l).
Proof. unfold PL0.varDecl. pl0_auto. Qed.
#[export] Hint Resolve PL0_Inv_procDecl_defined PL0_Inv_constDecl
  PL0_Inv_varDecl : pl0.

Lemma PL0_Inv_constDecls J : forall n l, PL0.Inv J (PL0.constDecls n l).
Proof. induction n; intros; cbn [PL0.constDecls]; pl0_auto. Qed.

Lemma PL0_Inv_varDecls J : forall n dx l, PL0.Inv J (PL0.varDecls n dx l).
Proof. induction n; intros; cbn [PL0.varDecls]; pl0_auto. Qed.
#[export] Hint Resolve PL0_Inv_constDecls PL0_Inv_varDecls : pl0.

Lemma PL0_prefix_app b c0 c t : PL0.prefix b c0 c -> PL0.prefix b c0 (c ++ t).
Proof.
  intros [Hb Hc]. split.
  - rewrite length_app. lia.
  - rewrite firstn_app. replace (b - List.length c)%nat with O by lia.
    rewrite firstn_O, app_nil_r. exact Hc.
Qed.

Lemma PL0_patch_at_length pc a c c' :
  PL0.patch_at pc a c = Some c' -> List.length c' = List.length c.
Proof.
  revert pc c'. induction c as [|i c IH]; intros pc c' H.
  - destruct pc; discriminate.
  - destruct pc as [|n]; simpl in H.
    + injection H as <-. reflexivity.
    + destruct (PL0.patch_at n a c) as [r|] eqn:E; [|discriminate].
      injection H as <-. simpl. f_equal. eapply IH. exact E.
Qed.

Lemma PL0_patch_at_firstn pc a c c' b :
  PL0.patch_at pc a c = Some c' -> (b <= pc)%nat -> firstn b c' = firstn b c.
Proof.
  revert pc c' b. induction c as [|i c IH]; intros pc c' b H Hb.
  - destruct pc; discriminate.
  - destruct pc as [|n]; simpl in H.
    + replace b with O by lia. reflexivity.
    + destruct (PL0.patch_at n a c) as [r|] eqn:E; [|discriminate].
      injection H as <-. destruct b as [|b]; [reflexivity|].
      simpl. f_equal. eapply IH; [exact E | lia].
Qed.

Lemma PL0_patch_at_app a v i b :
  PL0.patch_at (List.length a) v (a ++ i :: b)
  = Some (a ++ PL0.set_addr v i :: b).
Proof.
  induction a as [|x a IH]; simpl; [reflexivity|]. rewrite IH. reflexivity.
Qed.

Lemma PL0_prefix_emit b c0 o l a : PL0.Inv (PL0.prefix b c0) (PL0.emit o l a).
Proof. intros s H. simpl. apply PL0_prefix_app. exact H. Qed.

Lemma PL0_prefix_bind_emit b c0 o l a B (k : nat -> PL0.M B) :
  (forall pc, (b <= pc)%nat -> PL0.Inv (PL0.prefix b c0) (k pc)) ->
  PL0.Inv (PL0.prefix b c0) (PL0.bind (PL0.emit o l a) k).
Proof.
  intros Hk s H. unfold PL0.bind, PL0.emit.
  apply (Hk (List.length (PL0.code s))).
  - destruct H as [Hb _]. exact Hb.
  - simpl. apply PL0_prefix_app. exact H.
Qed.

Lemma PL0_prefix_bind_code_size b c0 B (k : nat -> PL0.M B) :
  (forall pc, (b <= pc)%nat -> PL0.Inv (PL0.prefix b c0) (k pc)) ->
  PL0.Inv (PL0.prefix b c0) (PL0.bind PL0.code_size k).
Proof.
  intros Hk s H. unfold PL0.bind, PL0.code_size.
  apply (Hk (List.length (PL0.code s))).
  - destruct H as [Hb _]. exact Hb.
  - exact H.
Qed.

Lemma PL0_prefix_patch b c0 pc v :
  (b <= pc)%nat -> PL0.Inv (PL0.prefix b c0) (PL0.patch pc v).
Proof.
  intros Hb s [H1 H2]. unfold PL0.patch.
  destruct (PL0.patch_at pc v (PL0.code s)) as [c|] eqn:E; [|exact I].
  simpl. split.
  - rewrite (PL0_patch_at_length _ _ _ _ E). exact H1.
  - rewrite (PL0_patch_at_firstn _ _ _ _ _ E Hb). exact H2.
Qed.
#[export] Hint Resolve PL0_prefix_emit PL0_prefix_patch : pl0.

Ltac pl0_pre_step :=
  cbv beta match zeta;
  lazymatch goal with
  | |- PL0.Inv _ (PL0.bind (PL0.emit _ _ _) _) =>
      apply PL0_prefix_bind_emit; intros ? ?
  | |- PL0.Inv _ (PL0.bind PL0.code_size _) =>
      apply PL0_prefix_bind_code_size; intros ? ?
  | |- _ => pl0_step
  end.

Ltac pl0_pre_auto := repeat pl0_pre_step.

(** Every production of PL/0 appends to the code, and patches only what
    it appended. *)
Section PL0KeepsPrefix.

Variable rec : PL0.Rec.
Variable fuel : nat.
Hypothesis rec_ok : PL0.rec_prefix rec.
Variable b : nat.
Variable c0 : list PL0.Instr.

Lemma PL0_rec_expression_prefix l :
  PL0.Inv (PL0.prefix b c0) (PL0.r_expression rec l).
Proof. apply rec_ok. Qed.

Lemma PL0_rec_statement_prefix l :
  PL0.Inv (PL0.prefix b c0) (PL0.r_statement rec l).
Proof. apply rec_ok. Qed.

Lemma PL0_rec_block_prefix it l :
  PL0.Inv (PL0.prefix b c0) (PL0.r_block rec it l).
Proof. apply rec_ok. Qed.

#[local] Hint Resolve PL0_rec_expression_prefix PL0_rec_statement_prefix
  PL0_rec_block_prefix : pl0.

Lemma PL0_prefix_identifier l : PL0.Inv (PL0.prefix b c0) (PL0.identifier l).
Proof. unfold PL0.identifier. pl0_pre_auto. Qed.
#[local] Hint Resolve PL0_prefix_identifier : pl0.

Lemma PL0_prefix_factor l : PL0.Inv (PL0.prefix b c0) (PL0.factor rec l).
Proof. unfold PL0.factor. pl0_pre_auto. Qed.
#[local] Hint Resolve PL0_prefix_factor : pl0.

Lemma PL0_prefix_terminal_loop :
  forall n l, PL0.Inv (PL0.prefix b c0) (PL0.terminal_loop rec n l).
Proof. induction n; intros; cbn [PL0.terminal_loop]; pl0_pre_auto. Qed.
#[local] Hint Resolve PL0_prefix_terminal_loop : pl0.

Lemma PL0_prefix_terminal l :
  PL0.Inv (PL0.prefix b c0) (PL0.terminal rec fuel l).
Proof. unfold PL0.terminal. pl0_pre_auto. Qed.
#[local] Hint Resolve PL0_prefix_terminal : pl0.

Lemma PL0_prefix_expression_loop :
  forall n l, PL0.Inv (PL0.prefix b c0) (PL0.expression_loop rec fuel n l).
Proof. induction n; intros; cbn [PL0.expression_loop]; pl0_pre_auto. Qed.
#[local] Hint Resolve PL0_prefix_expression_loop : pl0.

Lemma PL0_prefix_expression l :
  PL0.Inv (PL0.prefix b c0) (PL0.expression rec fuel l).
Proof. unfold PL0.expression. pl0_pre_auto. Qed.
#[local] Hint Resolve PL0_prefix_expression : pl0.

Lemma PL0_prefix_condition l :
  PL0.Inv (PL0.prefix b c0) (PL0.condition rec fuel l).
Proof. unfold PL0.condition. pl0_pre_auto. Qed.
#[local] Hint Resolve PL0_prefix_condition : pl0.

Lemma PL0_prefix_assignStmt l :
  PL0.Inv (PL0.prefix b c0) (PL0.assignStmt rec fuel l).
Proof. unfold PL0.assignStmt. pl0_pre_auto. Qed.

Lemma PL0_prefix_callStmt l : PL0.Inv (PL0.prefix b c0) (PL0.callStmt l).
Proof. unfold PL0.callStmt. pl0_pre_auto. Qed.

Lemma PL0_prefix_whileStmt l :
  PL0.Inv (PL0.prefix b c0) (PL0.whileStmt rec fuel l).
Proof. unfold PL0.whileStmt. pl0_pre_auto. Qed.

Lemma PL0_prefix_ifStmt l :
  PL0.Inv (PL0.prefix b c0) (PL0.ifStmt rec fuel l).
Proof. unfold PL0.ifStmt. pl0_pre_auto. Qed.

Lemma PL0_prefix_repeatStmt l :
  PL0.Inv (PL0.prefix b c0) (PL0.repeatStmt rec fuel l).
Proof. unfold PL0.repeatStmt. pl0_pre_auto. Qed.

Lemma PL0_prefix_statements :
  forall n l, PL0.Inv (PL0.prefix b c0) (PL0.statements rec n l).
Proof. induction n; intros; cbn [PL0.statements]; pl0_pre_auto. Qed.
#[local] Hint Resolve PL0_prefix_assignStmt PL0_prefix_callStmt
  PL0_prefix_whileStmt PL0_prefix_ifStmt PL0_prefix_repeatStmt
  PL0_prefix_statements : pl0.

Lemma PL0_prefix_statement l :
  PL0.Inv (PL0.prefix b c0) (PL0.statement rec fuel l).
Proof. unfold PL0.statement. pl0_pre_auto. Qed.
#[local] Hint Resolve PL0_prefix_statement : pl0.

Lemma PL0_prefix_procDecl l :
  PL0.Inv (PL0.prefix b c0) (PL0.procDecl rec l).
Proof. unfold PL0.procDecl. pl0_pre_auto. Qed.
#[local] Hint Resolve PL0_prefix_procDecl : pl0.

Lemma PL0_prefix_procDecls :
  forall n l, PL0.Inv (PL0.prefix b c0) (PL0.procDecls rec n l).
Proof. induction n; intros; cbn [PL0.procDecls]; pl0_pre_auto. Qed.
#[local] Hint Resolve PL0_prefix_procDecls : pl0.

Lemma PL0_prefix_block it l :
  PL0.Inv (PL0.prefix b c0) (PL0.block rec fuel it l).
Proof. unfold PL0.block. pl0_pre_auto. Qed.

End PL0KeepsPrefix.

Lemma PL0_prods_prefix fuel : PL0.rec_prefix (PL0.prods fuel).
Proof.
  induction fuel as [|f IH]; intros b c0; simpl.
  - repeat split; intros; apply PL0_Inv_outOfFuel.
  - repeat split; intros.
    + apply PL0_prefix_expression; assumption.
    + apply PL0_prefix_statement; assumption.
    + apply PL0_prefix_block; assumption.
Qed.

Lemma PL0_prefix_run A (m : PL0.M A) s a s' :
  (forall b c0, PL0.Inv (PL0.prefix b c0) m) -> m s = PL0.Ok a s' ->
  exists t, PL0.code s' = PL0.code s ++ t.
Proof.
  intros H E.
  specialize (H (List.length (PL0.code s)) (PL0.code s) s).
  rewrite E in H. destruct H as [Hlen Hfirst].
  - split; [lia | apply firstn_all].
  - exists (skipn (List.length (PL0.code s)) (PL0.code s')).
    rewrite <- Hfirst at 1. symmetry. apply firstn_skipn.
Qed.

Lemma PL0_samecode_run A (m : PL0.M A) s a s' :
  (forall J, PL0.Inv J m) -> m s = PL0.Ok a s' -> PL0.code s' = PL0.code s.
Proof.
  intros H E. specialize (H (eq (PL0.code s)) s eq_refl).
  rewrite E in H. symmetry. exact H.
Qed.


(** ** Declarations of PL/0 *)

Lemma PL0_accept_Ok k g s b s' :
  PL0.accept k g s = PL0.Ok b s' ->
  (b = true <-> PL0.Token.kind (PL0.cur s) = k) /\
  s' = (if b && g then PL0.advanced s else s).
Proof.
  unfold PL0.accept, PL0.bind, PL0.current.
  destruct (PL0.Token.eqb (PL0.Token.kind (PL0.cur s)) k) eqn:E.
  - assert (Hk : PL0.Token.kind (PL0.cur s) = k)
      by (apply PL0.Token.internal_Kind_dec_bl; exact E).
    destruct g.
    + unfold PL0.next, PL0.advanced, PL0.pure.
      destruct (PL0.input s); intros H; injection H as <- <-;
        (split; [split; auto | reflexivity]).
    + intros H. injection H as <- <-. split; [split; auto | reflexivity].
  - intros H. injection H as <- <-. split; [|reflexivity]. split.
    + discriminate.
    + intros Hk. apply PL0.Token.internal_Kind_dec_lb in Hk.
      unfold PL0.Token.eqb in E. congruence.
Qed.

Lemma PL0_accept_hit k s :
  PL0.Token.kind (PL0.cur s) = k ->
  PL0.accept k true s = PL0.Ok true (PL0.advanced s).
Proof.
  intros H. unfold PL0.accept, PL0.bind, PL0.current. rewrite H.
  replace (PL0.Token.eqb k k) with true
    by (symmetry; apply PL0.Token.internal_Kind_dec_lb; reflexivity).
  unfold PL0.next, PL0.advanced, PL0.pure. destruct (PL0.input s); reflexivity.
Qed.

Lemma PL0_accept_false_hit k s :
  PL0.Token.kind (PL0.cur s) = k -> PL0.accept k false s = PL0.Ok true s.
Proof.
  intros H. unfold PL0.accept, PL0.bind, PL0.current. rewrite H.
  replace (PL0.Token.eqb k k) with true
    by (symmetry; apply PL0.Token.internal_Kind_dec_lb; reflexivity).
  reflexivity.
Qed.

Lemma PL0_accept_miss k g s :
  PL0.Token.kind (PL0.cur s) <> k -> PL0.accept k g s = PL0.Ok false s.
Proof.
  intros H. unfold PL0.accept, PL0.bind, PL0.current.
  destruct (PL0.Token.eqb (PL0.Token.kind (PL0.cur s)) k) eqn:E;
    [|reflexivity].
  apply PL0.Token.internal_Kind_dec_bl in E. contradiction.
Qed.

Lemma PL0_expect_hit k s :
  PL0.Token.kind (PL0.cur s) = k ->
  PL0.expect k true s = PL0.Ok true (PL0.advanced s).
Proof.
  intros H. unfold PL0.expect. unfold PL0.bind at 1.
  rewrite (PL0_accept_hit _ _ H). reflexivity.
Qed.

Lemma PL0_expect_miss k g s :
  PL0.Token.kind (PL0.cur s) <> k ->
  PL0.expect k g s
  = PL0.Ok false
      (PL0.reported [PL0.Text "expected"; PL0.Text " '"; PL0.KindOf k;
                     PL0.Text "' got '";
                     PL0.KindOf (PL0.Token.kind (PL0.cur s)); PL0.Text "'"] s).
Proof.
  intros H. unfold PL0.expect. unfold PL0.bind at 1.
  rewrite (PL0_accept_miss _ _ _ H). reflexivity.
Qed.

Lemma PL0_expect_frame k g s b s' :
  PL0.expect k g s = PL0.Ok b s' ->
  PL0.symtbl s' = PL0.symtbl s /\ PL0.nextId s' = PL0.nextId s /\
  PL0.code s' = PL0.code s.
Proof.
  unfold PL0.expect. intros H.
  apply PL0_bind_Ok in H as (x & s1 & H1 & H).
  apply PL0_accept_Ok in H1 as [_ ->].
  assert (Ha : PL0.symtbl (PL0.advanced s) = PL0.symtbl s /\
               PL0.nextId (PL0.advanced s) = PL0.nextId s /\
               PL0.code (PL0.advanced s) = PL0.code s)
    by (unfold PL0.advanced; destruct (PL0.input s); auto).
  destruct x; simpl in H.
  - injection H as _ <-. destruct g; simpl; auto.
  - injection H as _ <-. simpl. auto.
Qed.

Lemma PL0_accept_frame k g s b s' :
  PL0.accept k g s = PL0.Ok b s' ->
  PL0.symtbl s' = PL0.symtbl s /\ PL0.nextId s' = PL0.nextId s /\
  PL0.code s' = PL0.code s.
Proof.
  intros H. apply PL0_accept_Ok in H as [_ ->].
  destruct (b && g); [|auto].
  unfold PL0.advanced; destruct (PL0.input s); auto.
Qed.

Lemma PL0_varDecl_Ok dx l s dx' s' :
  PL0.varDecl dx l s = PL0.Ok dx' s' ->
  (dx' = dx /\ PL0.symtbl s' = PL0.symtbl s /\ PL0.nextId s' = PL0.nextId s) \/
  (dx' = dx + 1 /\
   PL0.defined_at l (PL0.Token.string_value (PL0.cur s)) (PL0.symtbl s)
   = false /\
   PL0.symtbl s'
   = PL0.symtbl s
     ++ [PL0.mkEntry (PL0.nextId s) (PL0.Token.string_value (PL0.cur s))
           (PL0.SymValue.mk PL0.SymValue.identifier l dx)] /\
   PL0.nextId s' = S (PL0.nextId s)).
Proof.
  unfold PL0.varDecl. intros H.
  apply PL0_bind_Ok in H as (t & s0 & H0 & H). injection H0 as <- <-.
  apply PL0_bind_Ok in H as (b & s1 & H1 & H).
  apply PL0_expect_frame in H1 as (E1 & E2 & _).
  destruct b.
  - apply PL0_bind_Ok in H as (s2 & s3 & H2 & H). injection H2 as <- <-.
    rewrite E1 in H.
    destruct (PL0.defined_at l _ (PL0.symtbl s)) eqn:Ed.
    + apply PL0_bind_Ok in H as ([] & s4 & H4 & H).
      injection H as <- <-. injection H4 as <-. left. simpl. auto.
    + apply PL0_bind_Ok in H as (i & s4 & H4 & H).
      injection H as <- <-. unfold PL0.insert in H4. injection H4 as _ <-.
      right. simpl. rewrite E1, E2. auto.
  - injection H as <- <-. left. auto.
Qed.

Lemma PL0_varDecls_Ok :
  forall n dx l s dx' s',
    PL0.varDecls n dx l s = PL0.Ok dx' s' ->
    exists new,
      PL0.symtbl s' = PL0.symtbl s ++ new /\
      dx' = dx + Z.of_nat (List.length new) /\
      PL0.code s' = PL0.code s /\
      forall k e,
        nth_error new k = Some e ->
        PL0.esym e = PL0.SymValue.mk PL0.SymValue.identifier l
                                     (dx + Z.of_nat k) /\
        PL0.eid e = (PL0.nextId s + k)%nat.
Proof.
  induction n as [|n IH]; intros dx l s dx' s' H; [discriminate|].
  cbn [PL0.varDecls] in H.
  apply PL0_bind_Ok in H as (dx1 & s1 & H1 & H).
  assert (C1 : PL0.code s1 = PL0.code s)
    by (eapply PL0_samecode_run; [|exact H1]; intros; apply PL0_Inv_varDecl).
  apply PL0_bind_Ok in H as (b & s2 & H2 & H).
  apply PL0_accept_frame in H2 as (A1 & A2 & A3).
  assert (R : exists new,
            PL0.symtbl s' = PL0.symtbl s2 ++ new /\
            dx' = dx1 + Z.of_nat (List.length new) /\
            PL0.code s' = PL0.code s2 /\
            forall k e, nth_error new k = Some e ->
              PL0.esym e = PL0.SymValue.mk PL0.SymValue.identifier l
                                           (dx1 + Z.of_nat k) /\
              PL0.eid e = (PL0.nextId s2 + k)%nat).
  { destruct b.
    - apply IH. exact H.
    - injection H as <- <-. exists []. rewrite app_nil_r. simpl.
      repeat split; try lia. destruct k; discriminate.
      destruct k; discriminate. }
  destruct R as (new & R1 & R2 & R3 & R4).
  rewrite A1, A2 in *. rewrite A3, C1 in R3.
  apply PL0_varDecl_Ok in H1 as [(-> & E1 & E2)|(-> & _ & E1 & E2)].
  - exists new. rewrite E1, E2 in *. auto.
  - exists (PL0.mkEntry (PL0.nextId s)
              (PL0.Token.string_value (PL0.cur s))
              (PL0.SymValue.mk PL0.SymValue.identifier l dx) :: new).
    rewrite E1, E2 in *. split; [|split; [|split]].
    + rewrite R1, <- app_assoc. reflexivity.
    + rewrite R2. simpl List.length. lia.
    + exact R3.
    + intros k e Hk. destruct k as [|k]; simpl in Hk.
      * injection Hk as <-. simpl. split; [f_equal; lia | lia].
      * destruct (R4 k e Hk) as [R5 R6]. rewrite R5, R6.
        split; [f_equal; lia | lia].
Qed.

Lemma PL0_advanced_at_input s :
  PL0.advanced s = PL0.at_input (PL0.input s) s.
Proof. unfold PL0.advanced, PL0.at_input. destruct (PL0.input s); reflexivity. Qed.

(** A name that is new to the level takes the slot [dx]; one that the
    level already declares is reported and takes none. *)
Lemma PL0_varDecl_new dx l s :
  PL0.Token.kind (PL0.cur s) = PL0.Token.identifier ->
  PL0.defined_at l (PL0.Token.string_value (PL0.cur s)) (PL0.symtbl s)
  = false ->
  PL0.varDecl dx l s
  = PL0.Ok (dx + 1)
      (PL0.set_symtbl
         (PL0.symtbl s
          ++ [PL0.mkEntry (PL0.nextId s) (PL0.Token.string_value (PL0.cur s))
                (PL0.SymValue.mk PL0.SymValue.identifier l dx)])
         (S (PL0.nextId s)) (PL0.advanced s)).
Proof.
  intros Hk Hd. unfold PL0.varDecl. unfold PL0.bind at 1.
  unfold PL0.ts_current. unfold PL0.bind at 1. rewrite (PL0_expect_hit _ _ Hk).
  unfold PL0.bind at 1. unfold PL0.get.
  replace (PL0.symtbl (PL0.advanced s)) with (PL0.symtbl s)
    by (unfold PL0.advanced; destruct (PL0.input s); reflexivity).
  rewrite Hd. unfold PL0.bind, PL0.insert, PL0.pure.
  replace (PL0.symtbl (PL0.advanced s)) with (PL0.symtbl s)
    by (unfold PL0.advanced; destruct (PL0.input s); reflexivity).
  replace (PL0.nextId (PL0.advanced s)) with (PL0.nextId s)
    by (unfold PL0.advanced; destruct (PL0.input s); reflexivity).
  reflexivity.
Qed.

Lemma PL0_varDecl_defined dx l s :
  PL0.Token.kind (PL0.cur s) = PL0.Token.identifier ->
  PL0.defined_at l (PL0.Token.string_value (PL0.cur s)) (PL0.symtbl s)
  = true ->
  PL0.varDecl dx l s
  = PL0.Ok dx
      (PL0.reported
         [PL0.Text "identifer has previously been defined"; PL0.Text " '";
          PL0.Text (PL0.Token.string_value (PL0.cur s)); PL0.Text "'"]
         (PL0.advanced s)).
Proof.
  intros Hk Hd. unfold PL0.varDecl. unfold PL0.bind at 1.
  unfold PL0.ts_current. unfold PL0.bind at 1. rewrite (PL0_expect_hit _ _ Hk).
  unfold PL0.bind at 1. unfold PL0.get.
  replace (PL0.symtbl (PL0.advanced s)) with (PL0.symtbl s)
    by (unfold PL0.advanced; destruct (PL0.input s); reflexivity).
  rewrite Hd. reflexivity.
Qed.

Lemma PL0_defined_at_other l x y tbl id v :
  x <> y ->
  PL0.defined_at l x (tbl ++ [PL0.mkEntry id y v]) = PL0.defined_at l x tbl.
Proof.
  intros Hxy. unfold PL0.defined_at, PL0.equal_range.
  rewrite filter_app. simpl.
  replace (String.eqb y x) with false
    by (symmetry; apply String.eqb_neq; congruence).
  rewrite app_nil_r. reflexivity.
Qed.

(** The list [x1, ..., xk] of names that are distinct and new to the
    level: one variable each, in order. *)
Lemma PL0_varDecls_names l :
  forall names rest n dx s,
    names <> [] -> NoDup names ->
    (forall x, In x names -> PL0.defined_at l x (PL0.symtbl s) = false) ->
    PL0.cur s :: PL0.input s = PL0.name_list names ++ rest ->
    PL0.Token.kind (hd (PL0.Token.K PL0.Token.eos) rest) <> PL0.Token.comma ->
    (List.length names <= n)%nat ->
    PL0.varDecls n dx l s
    = PL0.Ok (dx + Z.of_nat (List.length names))
        (PL0.set_symtbl
           (PL0.symtbl s ++ PL0.var_entries (PL0.nextId s) l dx names)
           (PL0.nextId s + List.length names)
           (PL0.at_input rest s)).
Proof.
  induction names as [|x names IH]; intros rest n dx s Hne Hnd Hnew Htok Hrest Hn;
    [contradiction|].
  destruct n as [|n]; [simpl in Hn; lia|].
  assert (Hcur : PL0.cur s = PL0.Token.ident x)
    by (simpl in Htok; injection Htok as -> _; reflexivity).
  assert (Hk : PL0.Token.kind (PL0.cur s) = PL0.Token.identifier)
    by (rewrite Hcur; reflexivity).
  assert (Hname : PL0.Token.string_value (PL0.cur s) = x)
    by (rewrite Hcur; reflexivity).
  cbn [PL0.varDecls]. unfold PL0.bind at 1.
  rewrite (PL0_varDecl_new dx l s Hk)
    by (rewrite Hname; apply Hnew; left; reflexivity).
  rewrite Hname, PL0_advanced_at_input.
  destruct names as [|y names].
  - (* the last name *)
    assert (Hin : PL0.input s = rest)
      by (simpl in Htok; injection Htok as _ ->; reflexivity).
    rewrite Hin. unfold PL0.bind at 1.
    rewrite PL0_accept_miss by exact Hrest.
    unfold PL0.pure. simpl. f_equal.
    unfold PL0.set_symtbl, PL0.at_input. simpl. f_equal. lia.
  - (* a comma and more names *)
    assert (Hin : PL0.input s
                  = PL0.Token.K PL0.Token.comma
                    :: PL0.name_list (y :: names) ++ rest)
      by (simpl in Htok; injection Htok as _ ->; reflexivity).
    rewrite Hin. unfold PL0.bind at 1.
    rewrite PL0_accept_hit by reflexivity.
    rewrite PL0_advanced_at_input.
    replace (PL0.input
               (PL0.set_symtbl
                  (PL0.symtbl s
                   ++ [PL0.mkEntry (PL0.nextId s) x
                         (PL0.SymValue.mk PL0.SymValue.identifier l dx)])
                  (S (PL0.nextId s))
                  (PL0.at_input
                     (PL0.Token.K PL0.Token.comma
                      :: PL0.name_list (y :: names) ++ rest) s)))
      with (PL0.name_list (y :: names) ++ rest) by reflexivity.
    rewrite (IH rest n (dx + 1) _).
    + f_equal; [simpl List.length; lia|].
      unfold PL0.set_symtbl, PL0.at_input. simpl.
      f_equal; [rewrite <- app_assoc; reflexivity | lia].
    + discriminate.
    + inversion Hnd; assumption.
    + intros z Hz. unfold PL0.at_input, PL0.set_symtbl. simpl PL0.symtbl.
      rewrite PL0_defined_at_other.
      * apply Hnew. right. exact Hz.
      * inversion Hnd as [|? ? Hnotin _]. intros ->. contradiction.
    + assert (E : exists t ts, PL0.name_list (y :: names) ++ rest = t :: ts)
        by (simpl; eauto).
      destruct E as (t & ts & E).
      unfold PL0.at_input, PL0.set_symtbl. cbn [PL0.cur PL0.input].
      rewrite E. reflexivity.
    + exact Hrest.
    + simpl in Hn |- *. lia.
Qed.

(** X25.  The variables of a PL/0 block.  Each name that is declared takes
    the next slot of the frame: the declarations add to the table, in
    order, one variable of the level of the block for each slot from [dx]
    on, and return the first slot that is free.  For a list of names that
    are distinct and new to the level these are the names of the list, one
    variable each, and the list is consumed.  A name that already has a
    declaration of the level is rejected: it is reported and takes no
    slot. *)
Theorem PL0_variables_take_slots :
  forall n dx l s,
    (forall dx' s',
       PL0.varDecls n dx l s = PL0.Ok dx' s' ->
       exists new,
         PL0.symtbl s' = PL0.symtbl s ++ new /\
         dx' = dx + Z.of_nat (List.length new) /\
         PL0.code s' = PL0.code s /\
         forall k e,
           nth_error new k = Some e ->
           PL0.esym e = PL0.SymValue.mk PL0.SymValue.identifier l
                                        (dx + Z.of_nat k) /\
           PL0.eid e = (PL0.nextId s + k)%nat) /\
    (forall names rest,
       names <> [] -> NoDup names ->
       (forall x, In x names -> PL0.defined_at l x (PL0.symtbl s) = false) ->
       PL0.cur s :: PL0.input s = PL0.name_list names ++ rest ->
       PL0.Token.kind (hd (PL0.Token.K PL0.Token.eos) rest)
       <> PL0.Token.comma ->
       (List.length names <= n)%nat ->
       PL0.varDecls n dx l s
       = PL0.Ok (dx + Z.of_nat (List.length names))
           (PL0.set_symtbl
              (PL0.symtbl s ++ PL0.var_entries (PL0.nextId s) l dx names)
              (PL0.nextId s + List.length names)
              (PL0.at_input rest s))) /\
    (PL0.Token.kind (PL0.cur s) = PL0.Token.identifier ->
     PL0.defined_at l (PL0.Token.string_value (PL0.cur s)) (PL0.symtbl s)
     = true ->
     PL0.varDecl dx l s
     = PL0.Ok dx
         (PL0.reported
            [PL0.Text "identifer has previously been defined"; PL0.Text " '";
             PL0.Text (PL0.Token.string_value (PL0.cur s)); PL0.Text "'"]
            (PL0.advanced s))).
Proof.
  intros n dx l s. split; [|split].
  - intros dx' s'. apply PL0_varDecls_Ok.
  - intros names rest. apply PL0_varDecls_names.
  - apply PL0_varDecl_defined.
Qed.


(** ** The code of a PL/0 block *)

Lemma PL0_emit_Ok o l a s pc s' :
  PL0.emit o l a s = PL0.Ok pc s' ->
  pc = List.length (PL0.code s) /\ s' = PL0.emitted (PL0.newInstr o l a) s.
Proof.
  unfold PL0.emit. intros E. injection E as <- <-. split; reflexivity.
Qed.

Lemma PL0_code_size_Ok s pc s' :
  PL0.code_size s = PL0.Ok pc s' -> pc = List.length (PL0.code s) /\ s' = s.
Proof.
  unfold PL0.code_size. intros E. injection E as <- <-. split; reflexivity.
Qed.

Lemma PL0_patch_state pc v s s' a i b :
  PL0.patch pc v s = PL0.Ok tt s' ->
  PL0.code s = a ++ i :: b -> pc = List.length a ->
  PL0.code s' = a ++ PL0.set_addr v i :: b.
Proof.
  intros H Hc ->. unfold PL0.patch in H. rewrite Hc, PL0_patch_at_app in H.
  injection H as <-. reflexivity.
Qed.

(** The runs a block is made of, each from the state the one before it
    leaves, and its code. *)
Lemma PL0_block_shape rec fuel it l s s' :
  PL0.rec_prefix rec ->
  PL0.block rec fuel it l s = PL0.Ok tt s' ->
  exists s_c dx s_v s_p s_a s_e s_b procs body,
    PL0.block_consts fuel l (PL0.emitted (PL0.newInstr PL0.OpCode.jump 0 0) s)
    = PL0.Ok tt s_c /\
    PL0.block_vars fuel l s_c = PL0.Ok dx s_v /\
    PL0.procDecls rec fuel l s_v = PL0.Ok tt s_p /\
    PL0.code s_p = PL0.code s ++ PL0.newInstr PL0.OpCode.jump 0 0 :: procs /\
    let a := (List.length (PL0.code s) + 1 + List.length procs)%nat in
    PL0.set_value it (Z.of_nat a)
      (PL0.emitted (PL0.newInstr PL0.OpCode.enter 0 dx) s_p)
    = PL0.Ok tt s_a /\
    PL0.patch (List.length (PL0.code s)) (Z.of_nat a) s_a = PL0.Ok tt s_e /\
    PL0.statement rec fuel l s_e = PL0.Ok tt s_b /\
    PL0.code s_b = PL0.code s_e ++ body /\
    PL0.purge l (PL0.emitted (PL0.newInstr PL0.OpCode.ret 0 0) s_b)
    = PL0.Ok tt s' /\
    PL0.code s'
    = PL0.code s
      ++ [PL0.newInstr PL0.OpCode.jump 0 (Z.of_nat a)]
      ++ procs
      ++ [PL0.newInstr PL0.OpCode.enter 0 dx]
      ++ body
      ++ [PL0.newInstr PL0.OpCode.ret 0 0] /\
    3 <= dx /\
    (PL0.Token.kind (PL0.cur s_c) <> PL0.Token.varDecl ->
     dx = 3 /\ s_v = s_c) /\
    (PL0.Token.kind (PL0.cur s_c) = PL0.Token.varDecl ->
     exists s_1 b,
       PL0.varDecls fuel 3 l (PL0.advanced s_c) = PL0.Ok dx s_1 /\
       PL0.expect PL0.Token.scomma true s_1 = PL0.Ok b s_v) /\
    forall e, In e (PL0.symtbl s') -> PL0.SymValue.level (PL0.esym e) <> l.
Proof.
  intros Hrec H. unfold PL0.block in H.
  apply PL0_bind_Ok in H as (jmp_pc & s1 & H1 & H).
  apply PL0_emit_Ok in H1 as [-> ->].
  apply PL0_bind_Ok in H as ([] & s2 & H2 & H).
  assert (C2 : PL0.code s2
               = PL0.code (PL0.emitted (PL0.newInstr PL0.OpCode.jump 0 0) s)).
  { eapply PL0_samecode_run; [|exact H2]. intros J.
    pose proof (PL0_Inv_constDecls J fuel l). pl0_auto. }
  apply PL0_bind_Ok in H as (dx & s3 & H3 & H).
  assert (D3 : 3 <= dx /\ PL0.code s3 = PL0.code s2 /\
               (PL0.Token.kind (PL0.cur s2) <> PL0.Token.varDecl ->
                dx = 3 /\ s3 = s2) /\
               (PL0.Token.kind (PL0.cur s2) = PL0.Token.varDecl ->
                exists s_1 b,
                  PL0.varDecls fuel 3 l (PL0.advanced s2) = PL0.Ok dx s_1 /\
                  PL0.expect PL0.Token.scomma true s_1 = PL0.Ok b s3)).
  { pose proof H3 as H3'.
    apply PL0_bind_Ok in H3 as (b & s3a & Ha & H3).
    pose proof (PL0_accept_frame _ _ _ _ _ Ha) as (_ & _ & Ca).
    apply PL0_accept_Ok in Ha as [Hb Ea]. subst s3a.
    destruct b.
    - simpl in H3.
      apply PL0_bind_Ok in H3 as (dx1 & s3b & Hv & H3).
      apply PL0_bind_Ok in H3 as (b3 & s3c & Hc & H3). injection H3 as <- <-.
      pose proof (PL0_expect_frame _ _ _ _ _ Hc) as (_ & _ & Cc).
      destruct (PL0_varDecls_Ok _ _ _ _ _ _ Hv) as (new & _ & Edx & Cb & _).
      simpl in Ca.
      split; [lia|]. split; [congruence|]. split.
      + intros Hk. exfalso. apply Hk. apply Hb. reflexivity.
      + intros _. exists s3b, b3. split; assumption.
    - injection H3 as <- <-. split; [lia|]. split; [exact Ca|]. split.
      + intros _. split; reflexivity.
      + intros Hk. apply Hb in Hk. discriminate. }
  destruct D3 as (Hdx & C3 & Hno & Hvar).
  apply PL0_bind_Ok in H as ([] & s4 & H4 & H).
  destruct (PL0_prefix_run _ _ _ _ _
              (fun b c0 => PL0_prefix_procDecls rec Hrec b c0 fuel l) H4)
    as [procs C4].
  assert (C4' : PL0.code s4
                = PL0.code s ++ PL0.newInstr PL0.OpCode.jump 0 0 :: procs).
  { rewrite C4, C3, C2. simpl. rewrite <- app_assoc. reflexivity. }
  apply PL0_bind_Ok in H as (a & s5 & H5 & H).
  apply PL0_emit_Ok in H5 as [-> ->].
  assert (Ea : List.length (PL0.code s4)
               = (List.length (PL0.code s) + 1 + List.length procs)%nat).
  { rewrite C4', length_app. simpl. lia. }
  rewrite Ea in H.
  apply PL0_bind_Ok in H as ([] & s6 & H6 & H).
  assert (C6 : PL0.code s6
               = PL0.code (PL0.emitted (PL0.newInstr PL0.OpCode.enter 0 dx) s4))
    by (eapply PL0_samecode_run; [|exact H6]; intros;
        apply PL0_Inv_set_value).
  apply PL0_bind_Ok in H as ([] & s7 & H7 & H).
  apply PL0_bind_Ok in H as ([] & s8 & H8 & H).
  destruct (PL0_prefix_run _ _ _ _ _
              (fun b c0 => PL0_prefix_statement rec fuel Hrec b c0 l) H8)
    as [body C8].
  apply PL0_bind_Ok in H as (pc9 & s9 & H9 & H).
  apply PL0_emit_Ok in H9 as [_ ->].
  exists s2, dx, s3, s4, s6, s7, s8, procs, body.
  split; [exact H2|]. split; [exact H3|]. split; [exact H4|].
  split; [exact C4'|]. intros a.
  split; [exact H6|]. split; [exact H7|]. split; [exact H8|].
  split; [exact C8|]. split; [exact H|].
  split.
  { assert (C7 : PL0.code s7
                 = PL0.code s
                   ++ PL0.set_addr (Z.of_nat a)
                        (PL0.newInstr PL0.OpCode.jump 0 0)
                   :: procs ++ [PL0.newInstr PL0.OpCode.enter 0 dx]).
    { apply (PL0_patch_state _ _ _ _ _ _ _ H7); [|reflexivity].
      rewrite C6. simpl. rewrite C4'. rewrite <- app_assoc. reflexivity. }
    unfold PL0.purge in H. injection H as <-. simpl.
    rewrite C8, C7. repeat (rewrite <- app_assoc; simpl). reflexivity. }
  split; [exact Hdx|]. split; [exact Hno|]. split; [exact Hvar|].
  unfold PL0.purge in H. injection H as <-.
  intros e He. simpl in He. apply filter_In in He as [_ He].
  apply negb_true_iff in He. apply Z.eqb_neq. exact He.
Qed.

(** X26.  The code of a PL/0 block: a [jump], the blocks of the procedures
    declared in it, an [enter dx], the code of its statement, and a [ret].
    The [jump] goes over the procedures to the [enter].  [dx] is at least
    3, the size of the frame's head: 3 without a [var] part, and what the
    list of the variables returns from 3 on with one.  Each part is the
    code of a run from the state the part before it leaves: the constants,
    the variables, the procedures, and, with the [jump] patched and the
    address of the [enter] stored in the block's element of the table, the
    statement.  When the block returns, the table holds no name of the
    level of the block. *)
Theorem PL0_block_code :
  forall fuel it l s s',
    PL0.block (PL0.prods fuel) fuel it l s = PL0.Ok tt s' ->
    exists s_c dx s_v s_p s_a s_e s_b procs body,
      PL0.block_consts fuel l
        (PL0.emitted (PL0.newInstr PL0.OpCode.jump 0 0) s)
      = PL0.Ok tt s_c /\
      PL0.block_vars fuel l s_c = PL0.Ok dx s_v /\
      PL0.procDecls (PL0.prods fuel) fuel l s_v = PL0.Ok tt s_p /\
      PL0.code s_p
      = PL0.code s ++ PL0.newInstr PL0.OpCode.jump 0 0 :: procs /\
      let a := (List.length (PL0.code s) + 1 + List.length procs)%nat in
      PL0.set_value it (Z.of_nat a)
        (PL0.emitted (PL0.newInstr PL0.OpCode.enter 0 dx) s_p)
      = PL0.Ok tt s_a /\
      PL0.patch (List.length (PL0.code s)) (Z.of_nat a) s_a = PL0.Ok tt s_e /\
      PL0.statement (PL0.prods fuel) fuel l s_e = PL0.Ok tt s_b /\
      PL0.code s_b = PL0.code s_e ++ body /\
      PL0.purge l (PL0.emitted (PL0.newInstr PL0.OpCode.ret 0 0) s_b)
      = PL0.Ok tt s' /\
      PL0.code s'
      = PL0.code s
        ++ [PL0.newInstr PL0.OpCode.jump 0 (Z.of_nat a)]
        ++ procs
        ++ [PL0.newInstr PL0.OpCode.enter 0 dx]
        ++ body
        ++ [PL0.newInstr PL0.OpCode.ret 0 0] /\
      3 <= dx /\
      (PL0.Token.kind (PL0.cur s_c) <> PL0.Token.varDecl ->
       dx = 3 /\ s_v = s_c) /\
      (PL0.Token.kind (PL0.cur s_c) = PL0.Token.varDecl ->
       exists s_1 b,
         PL0.varDecls fuel 3 l (PL0.advanced s_c) = PL0.Ok dx s_1 /\
         PL0.expect PL0.Token.scomma true s_1 = PL0.Ok b s_v) /\
      forall e, In e (PL0.symtbl s') -> PL0.SymValue.level (PL0.esym e) <> l.
Proof.
  intros fuel it l s s'. apply PL0_block_shape. apply PL0_prods_prefix.
Qed.

Lemma PL0_run_shape fuel source s' :
  PL0.run fuel (PL0.bound source) = PL0.Ok tt s' ->
  exists s_blk b,
    PL0.block (PL0.prods fuel) fuel 0 0 (PL0.advanced (PL0.bound source))
    = PL0.Ok tt s_blk /\
    PL0.expect PL0.Token.period true s_blk = PL0.Ok b s'.
Proof.
  intros E. unfold PL0.run in E.
  apply PL0_bind_Ok in E as (t & s2 & H1 & E).
  assert (E2 : s2 = PL0.advanced (PL0.bound source)).
  { unfold PL0.next in H1. unfold PL0.advanced.
    destruct (PL0.input (PL0.bound source)); injection H1 as _ <-;
      reflexivity. }
  subst s2.
  apply PL0_bind_Ok in E as (s3 & s4 & H2 & E). injection H2 as <- <-.
  replace (PL0.symtbl (PL0.advanced (PL0.bound source)))
    with (PL0.symtbl PL0.new) in E
    by (unfold PL0.advanced; destruct (PL0.input (PL0.bound source));
        reflexivity).
  simpl in E.
  apply PL0_bind_Ok in E as ([] & s5 & H5 & E).
  apply PL0_bind_Ok in E as (b & s6 & H6 & E). injection E as <-.
  exists s5, b. split; assumption.
Qed.



(** ** Names without a declaration, and conditions *)

Lemma PL0_symtbl_advanced s : PL0.symtbl (PL0.advanced s) = PL0.symtbl s.
Proof. unfold PL0.advanced. destruct (PL0.input s); reflexivity. Qed.

Lemma PL0_upper_bound_none name tbl :
  (forall e, In e tbl -> String.ltb name (PL0.ename e) = false) ->
  PL0.upper_bound name tbl = None.
Proof.
  unfold PL0.upper_bound. induction tbl as [|e tbl IH]; intros H.
  - reflexivity.
  - simpl. rewrite (H e (or_introl eq_refl)).
    apply IH. intros e' He'. apply H. right. exact He'.
Qed.

(** X28.  A name of PL/0 that has no declaration.  As a factor it is
    reported, and the search for its closest declaration then starts at
    the end of an empty range: where no name of the table is greater, that
    is [end()], and reading it is undefined behaviour.  Behind [call] it
    is reported and nothing is emitted.  On the left of an assignment it is
    reported, the expression is still compiled, and no [pop] follows
    it. *)
Theorem PL0_undeclared_names :
  forall rec fuel l s,
    PL0.Token.kind (PL0.cur s) = PL0.Token.identifier ->
    PL0.equal_range (PL0.Token.string_value (PL0.cur s)) (PL0.symtbl s) = [] ->
    let name := PL0.Token.string_value (PL0.cur s) in
    ((forall e, In e (PL0.symtbl s) -> String.ltb name (PL0.ename e) = false) ->
     PL0.factor rec l s = PL0.Crash) /\
    PL0.callStmt l s
    = PL0.Ok tt (PL0.reported [PL0.Text "undefiend identifier";
                               PL0.Text " '"; PL0.Text name; PL0.Text "'"]
                              (PL0.advanced s)) /\
    forall s',
      PL0.assignStmt rec fuel l s = PL0.Ok tt s' ->
      exists b s1,
        PL0.expect PL0.Token.assign true
          (PL0.reported [PL0.Text "undefined variable"; PL0.Text " '";
                         PL0.Text name; PL0.Text "'"] (PL0.advanced s))
        = PL0.Ok b s1 /\
        PL0.expression rec fuel l s1 = PL0.Ok tt s'.
Proof.
  intros rec fuel l s Hk Hu name.
  assert (Hu' : PL0.equal_range name (PL0.symtbl (PL0.advanced s)) = [])
    by (rewrite PL0_symtbl_advanced; exact Hu).
  split; [|split].
  - intros Hgt.
    assert (Hn : PL0.upper_bound name (PL0.symtbl (PL0.advanced s)) = None)
      by (rewrite PL0_symtbl_advanced; apply PL0_upper_bound_none; exact Hgt).
    unfold PL0.factor. unfold PL0.bind at 1.
    rewrite (PL0_accept_false_hit _ _ Hk).
    unfold PL0.identifier. unfold PL0.bind at 1. unfold PL0.ts_current.
    unfold PL0.bind at 1. rewrite (PL0_expect_hit _ _ Hk).
    unfold PL0.bind at 1. unfold PL0.get. fold name. cbv zeta.
    rewrite Hu', Hn. reflexivity.
  - unfold PL0.callStmt. unfold PL0.bind at 1. unfold PL0.ts_current.
    unfold PL0.bind at 1. rewrite (PL0_expect_hit _ _ Hk).
    unfold PL0.bind at 1. unfold PL0.get. fold name. rewrite Hu'.
    reflexivity.
  - intros s' H. unfold PL0.assignStmt in H.
    unfold PL0.bind at 1 in H. unfold PL0.ts_current in H.
    unfold PL0.bind at 1 in H. unfold PL0.next in H.
    assert (En : match PL0.input s with
                 | [] => PL0.Ok (PL0.Token.K PL0.Token.eos) (PL0.advanced s)
                 | t :: _ => PL0.Ok t (PL0.advanced s)
                 end
                 = match PL0.input s with
                   | [] =>
                       PL0.Ok (PL0.Token.K PL0.Token.eos)
                         (PL0.mkComp (PL0.Token.K PL0.Token.eos) []
                            (PL0.code s) (PL0.symtbl s) (PL0.nextId s)
                            (PL0.nErrors s) (PL0.diags s))
                   | t :: rest =>
                       PL0.Ok t
                         (PL0.mkComp t rest (PL0.code s) (PL0.symtbl s)
                            (PL0.nextId s) (PL0.nErrors s) (PL0.diags s))
                   end)
      by (unfold PL0.advanced; destruct (PL0.input s); reflexivity).
    rewrite <- En in H. clear En.
    assert (H' : PL0.bind PL0.get
                   (fun s0 =>
                      let range := PL0.equal_range name (PL0.symtbl s0) in
                      PL0.bind
                        match range with
                        | [] => PL0.error2 "undefined variable" name
                        | _ :: _ => PL0.pure tt
                        end
                        (fun _ =>
                           PL0.bind (PL0.expect PL0.Token.assign true)
                             (fun _ =>
                                PL0.bind (PL0.expression rec fuel l)
                                  (fun _ =>
                                     match range with
                                     | [] => PL0.pure tt
                                     | e :: r =>
                                         let c := PL0.closest e (e :: r) in
                                         match PL0.SymValue.kind (PL0.esym c)
                                         with
                                         | PL0.SymValue.identifier =>
                                             PL0.bind
                                               (PL0.emit PL0.OpCode.pop
                                                  (l - PL0.SymValue.level
                                                         (PL0.esym c))
                                                  (PL0.SymValue.value
                                                     (PL0.esym c)))
                                               (fun _ => PL0.pure tt)
                                         | _ =>
                                             PL0.error2
                                               "identifier is not mutable"
                                               name
                                         end
                                     end))))
                   (PL0.advanced s) = PL0.Ok tt s')
      by (destruct (PL0.input s); exact H).
    clear H. unfold PL0.bind at 1 in H'. unfold PL0.get in H'.
    cbv zeta in H'. rewrite Hu' in H'.
    apply PL0_bind_Ok in H' as ([] & s0 & H0 & H').
    unfold PL0.error2, PL0.error in H0. injection H0 as <-.
    apply PL0_bind_Ok in H' as (b & s1 & H1 & H').
    apply PL0_bind_Ok in H' as ([] & s2 & H2 & H').
    injection H' as <-.
    exists b, s1. split; [exact H1 | exact H2].
Qed.

Lemma PL0_accept_relational s :
  PL0.accept_relational s
  = match PL0.relational (PL0.Token.kind (PL0.cur s)) with
    | Some _ => PL0.Ok true (PL0.advanced s)
    | None => PL0.Ok false s
    end.
Proof.
  unfold PL0.accept_relational.
  destruct (PL0.Token.kind (PL0.cur s)) eqn:Ek; cbn [PL0.relational];
    repeat (first [ rewrite PL0_accept_hit by (rewrite Ek; reflexivity)
                  | rewrite PL0_accept_miss by (rewrite Ek; discriminate)
                  | progress unfold PL0.bind at 1 ];
            cbv beta iota);
    reflexivity.
Qed.

(** X29.  A condition of PL/0 that does not begin with [odd].  The first
    expression is compiled; when a relational operator follows, the
    second expression is compiled and the opcode of the operator is
    emitted behind it.  When none follows, the condition is the
    expression alone: nothing is reported and nothing more is emitted. *)
Theorem PL0_condition_code :
  forall rec fuel l s s',
    PL0.Token.kind (PL0.cur s) <> PL0.Token.odd ->
    PL0.condition rec fuel l s = PL0.Ok tt s' ->
    exists s1,
      PL0.expression rec fuel l s = PL0.Ok tt s1 /\
      match PL0.relational (PL0.Token.kind (PL0.cur s1)) with
      | Some c =>
          exists s2,
            PL0.expression rec fuel l (PL0.advanced s1) = PL0.Ok tt s2 /\
            s' = PL0.emitted (PL0.newInstr c 0 0) s2
      | None => s' = s1
      end.
Proof.
  intros rec fuel l s s' Hk H. unfold PL0.condition in H.
  unfold PL0.bind at 1 in H. rewrite (PL0_accept_miss _ _ _ Hk) in H.
  apply PL0_bind_Ok in H as ([] & s1 & H1 & H).
  exists s1. split; [exact H1|].
  unfold PL0.bind at 1 in H. unfold PL0.current in H.
  unfold PL0.bind at 1 in H. rewrite PL0_accept_relational in H.
  destruct (PL0.relational (PL0.Token.kind (PL0.cur s1))) as [c|].
  - apply PL0_bind_Ok in H as ([] & s2 & H2 & H).
    apply PL0_bind_Ok in H as (pc & s3 & H3 & H).
    apply PL0_emit_Ok in H3 as [_ ->]. injection H as <-.
    exists s2. split; [exact H2 | reflexivity].
  - injection H as <-. reflexivity.
Qed.


(** ** Examples of PL/0 *)

(** [x, y] behind [var], from the slot 3 on. *)
Lemma PL0_variables_take_slots_witness :
  PL0.varDecls 3 3 0
    (PL0.at_tokens (PL0.Token.ident "x")
       [PL0.Token.K PL0.Token.comma; PL0.Token.ident "y";
        PL0.Token.K PL0.Token.scomma])
  = PL0.Ok 5
      (PL0.set_symtbl
         (PL0.symtbl PL0.new
          ++ [PL0.mkEntry 1 "x"
                (PL0.SymValue.mk PL0.SymValue.identifier 0 3);
              PL0.mkEntry 2 "y"
                (PL0.SymValue.mk PL0.SymValue.identifier 0 4)])
         3
         (PL0.at_tokens (PL0.Token.K PL0.Token.scomma) [])).
Proof.
  apply (proj1 (proj2 (PL0_variables_take_slots 3 3 0
                         (PL0.at_tokens (PL0.Token.ident "x")
                            [PL0.Token.K PL0.Token.comma; PL0.Token.ident "y";
                             PL0.Token.K PL0.Token.scomma])))
               ["x"; "y"] [PL0.Token.K PL0.Token.scomma]).
  - discriminate.
  - repeat constructor; simpl; intuition discriminate.
  - intros x [<- | [<- | []]]; reflexivity.
  - reflexivity.
  - discriminate.
  - simpl. lia.
Defined.

(** The block of [var x; procedure p; begin x := 1 end; begin call p
    end.] *)
Lemma PL0_block_code_witness :
  exists s',
    PL0.block (PL0.prods 5) 5 0 0
      (PL0.at_tokens (PL0.Token.K PL0.Token.varDecl) (tl PL0.one_procedure))
    = PL0.Ok tt s' /\
    PL0.code s'
    = [ PL0.newInstr PL0.OpCode.jump 0 6;
        PL0.newInstr PL0.OpCode.jump 0 2;
        PL0.newInstr PL0.OpCode.enter 0 3;
        PL0.newInstr PL0.OpCode.pushConst 0 1;
        PL0.newInstr PL0.OpCode.pop 1 3;
        PL0.newInstr PL0.OpCode.ret 0 0;
        PL0.newInstr PL0.OpCode.enter 0 4;
        PL0.newInstr PL0.OpCode.call 0 2;
        PL0.newInstr PL0.OpCode.ret 0 0 ].
Proof.
  destruct (PL0.block (PL0.prods 5) 5 0 0
              (PL0.at_tokens (PL0.Token.K PL0.Token.varDecl)
                             (tl PL0.one_procedure)))
    as [[] s'| |] eqn:E;
    [| vm_compute in E; discriminate E | vm_compute in E; discriminate E].
  destruct (PL0_block_code _ _ _ _ _ E)
    as (s_c & dx & s_v & s_p & s_a & s_e & s_b & procs & body
        & Hc & Hv & Hp & Cp & Hrest).
  cbv zeta in Hrest.
  destruct Hrest as (Ha & He & Hb & Cb & _ & Hcode & _).
  vm_compute in Hc. injection Hc as Hsc. subst s_c.
  vm_compute in Hv. injection Hv as Hdx Hsv. subst dx s_v.
  vm_compute in Hp. injection Hp as Hsp. subst s_p.
  vm_compute in Cp. injection Cp as Hprocs. subst procs.
  vm_compute in Ha. injection Ha as Hsa. subst s_a.
  vm_compute in He. injection He as Hse. subst s_e.
  vm_compute in Hb. injection Hb as Hsb. subst s_b.
  vm_compute in Cb. injection Cb as Hbody. subst body.
  exists s'. split; [reflexivity|]. rewrite Hcode. reflexivity.
Defined.


Example PL0_two_variables_code :
  match PL0.compile 4 PL0.two_variables (fun _ => None) "-" with
  | PL0.Ok n s =>
      n = O /\
      PL0.code s
      = [ PL0.newInstr PL0.OpCode.jump 0 1;
          PL0.newInstr PL0.OpCode.enter 0 5;
          PL0.newInstr PL0.OpCode.pushConst 0 1;
          PL0.newInstr PL0.OpCode.pop 0 3;
          PL0.newInstr PL0.OpCode.ret 0 0 ]
  | _ => False
  end.
Proof. vm_compute. split; reflexivity. Qed.

(** The factor [z], which nothing declares: no name of the table, [main],
    is greater. *)
Lemma PL0_undeclared_names_witness :
  PL0.factor (PL0.prods 1) 0 (PL0.at_tokens (PL0.Token.ident "z") [])
  = PL0.Crash.
Proof.
  apply (proj1 (PL0_undeclared_names (PL0.prods 1) 1 0
                  (PL0.at_tokens (PL0.Token.ident "z") [])
                  eq_refl eq_refl)).
  intros e [<- | []]. reflexivity.
Defined.

(** The factor [a], which nothing declares either, is compiled as the
    next name of the table, the procedure [main]. *)
Example PL0_undeclared_factor_a :
  PL0.factor (PL0.prods 1) 0 (PL0.at_tokens (PL0.Token.ident "a") [])
  = PL0.Ok tt
      (PL0.emitted (PL0.newInstr PL0.OpCode.pushVar 0 0)
         (PL0.reported [PL0.Text "Undefined identifier"; PL0.Text " '";
                        PL0.Text "a"; PL0.Text "'"]
            (PL0.advanced (PL0.at_tokens (PL0.Token.ident "a") [])))).
Proof. vm_compute. reflexivity. Qed.

(** [1 < 2] and the condition [1] by itself. *)
Lemma PL0_condition_code_witness :
  exists s' s1 s2,
    PL0.condition (PL0.prods 2) 2 0
      (PL0.at_tokens (PL0.Token.num 1)
         [PL0.Token.K PL0.Token.lt; PL0.Token.num 2]) = PL0.Ok tt s' /\
    PL0.expression (PL0.prods 2) 2 0 (PL0.advanced s1) = PL0.Ok tt s2 /\
    s' = PL0.emitted (PL0.newInstr PL0.OpCode.lt 0 0) s2.
Proof.
  destruct (PL0.condition (PL0.prods 2) 2 0
              (PL0.at_tokens (PL0.Token.num 1)
                 [PL0.Token.K PL0.Token.lt; PL0.Token.num 2]))
    as [[] s'| |] eqn:E;
    [| vm_compute in E; discriminate E | vm_compute in E; discriminate E].
  destruct (PL0_condition_code (PL0.prods 2) 2 0
              (PL0.at_tokens (PL0.Token.num 1)
                 [PL0.Token.K PL0.Token.lt; PL0.Token.num 2])
              s' ltac:(discriminate) E) as (s1 & H1 & H).
  assert (Ek : PL0.Token.kind (PL0.cur s1) = PL0.Token.lt)
    by (vm_compute in H1; injection H1 as <-; reflexivity).
  rewrite Ek in H. destruct H as (s2 & H2 & H3).
  exists s', s1, s2. auto.
Defined.

Example PL0_condition_without_operator :
  PL0.condition (PL0.prods 2) 2 0 (PL0.at_tokens (PL0.Token.num 1) [])
  = PL0.Ok tt (PL0.emitted (PL0.newInstr PL0.OpCode.pushConst 0 1)
                 (PL0.advanced (PL0.at_tokens (PL0.Token.num 1) []))).
Proof. vm_compute. reflexivity. Qed.
